(** * Python to JavaScript translator: lexer, parser, semantic analyzer,
      code generator and pipeline driver

    A shallow embedding of [lexer.py], [parser.py], [ast_nodes.py],
    [semantic_analyzer.py], [code_generator.py] and [compiler.py], and the
    properties of the pipeline proved on it.

    Conventions of the embedding.
    - A Python [str] is a [string]; one [ascii] stands for one code point
      in the range U+0000..U+00FF, and the character tests ([str.isdigit],
      [str.isalpha], [str.isalnum], [str.isupper]) are the ones Python
      applies to those code points.
    - Instance fields become record fields, methods become functions
      that take the record and return the updated one.
    - [while] loops whose every iteration consumes input run under a bound
      given by the remaining input; the main loop of [Lexer.tokenize] and
      the recursive-descent parser take an explicit [fuel], and a run that
      exhausts every amount of fuel is a run that does not return.
    - Integers are unbounded, and [int()] converts at most 4300 digits,
      the interpreter's default limit.
    - The interpreter's recursion limit is not modelled: a text nested
      deeply enough makes the parser, the analyzer or the generator raise
      [RecursionError], which [compile] reports as a compilation error.
    - The progress messages that [compile] prints are not modelled. *)

From Stdlib Require Import String Ascii List ZArith Lia Bool DecimalString.
From stdpp Require Import gmap strings list.
Import ListNotations.

Local Open Scope string_scope.
Local Open Scope list_scope.

(** ** Characters and strings *)

Definition nl : ascii := "010"%char.
Definition tab : ascii := "009"%char.
Definition backslash : ascii := "\"%char.
Definition dquote : ascii := "034"%char.
Definition squote : ascii := "'"%char.

Definition code (c : ascii) : nat := nat_of_ascii c.

Definition between (lo hi : nat) (c : ascii) : bool :=
  (lo <=? code c)%nat && (code c <=? hi)%nat.

Definition is_code (n : nat) (c : ascii) : bool := (code c =? n)%nat.

(** [c in ' \t'] for a one-character string [c]. *)
Definition in_space_tab (c : ascii) : bool :=
  Ascii.eqb c " " || Ascii.eqb c tab.

(** [str.isdigit]: the decimal digits and the superscripts U+00B2, U+00B3
    and U+00B9. *)
Definition isdigit (c : ascii) : bool :=
  between 48 57 c || is_code 178 c || is_code 179 c || is_code 185 c.

(** [str.isdecimal]: the digits [0] to [9], the only characters of
    U+0000..U+00FF that [int()] and [float()] accept as digits. *)
Definition isdecimal (c : ascii) : bool := between 48 57 c.

(** [str.isalpha]: the letters of U+0000..U+00FF. *)
Definition isalpha (c : ascii) : bool :=
  between 65 90 c || between 97 122 c
  || is_code 170 c || is_code 181 c || is_code 186 c
  || between 192 214 c || between 216 246 c || between 248 255 c.

(** [str.isalnum]: letters, digits and the numeric characters
    U+00BC..U+00BE. *)
Definition isalnum (c : ascii) : bool :=
  isalpha c || isdigit c || between 188 190 c.

(** [str.isupper] on a one-character string. *)
Definition isupper (c : ascii) : bool :=
  between 65 90 c || between 192 214 c || between 216 222 c.

Definition str1 (c : ascii) : string := String c EmptyString.

(** [sep.join(parts)]. *)
Fixpoint join (sep : string) (parts : list string) : string :=
  match parts with
  | [] => ""
  | [p] => p
  | p :: rest => p +:+ sep +:+ join sep rest
  end.

(** [s * n]. *)
Fixpoint str_repeat (s : string) (n : nat) : string :=
  match n with
  | O => ""
  | S n' => s +:+ str_repeat s n'
  end.

(** [c in s]. *)
Fixpoint str_contains (c : ascii) (s : string) : bool :=
  match s with
  | EmptyString => false
  | String d rest => Ascii.eqb c d || str_contains c rest
  end.

Fixpoint str_count (c : ascii) (s : string) : nat :=
  match s with
  | EmptyString => 0
  | String d rest => (if Ascii.eqb c d then 1 else 0) + str_count c rest
  end.

Fixpoint str_forall (p : ascii -> bool) (s : string) : bool :=
  match s with
  | EmptyString => true
  | String d rest => p d && str_forall p rest
  end.

(** [str(n)] for an integer. *)
Definition str_of_Z (n : Z) : string := NilZero.string_of_int (Z.to_int n).

Definition str_of_nat (n : nat) : string := str_of_Z (Z.of_nat n).

(** A [while] loop that runs at most [fuel] iterations. *)
Fixpoint while {A : Type} (fuel : nat) (cond : A -> bool) (body : A -> A)
    (a : A) : A :=
  match fuel with
  | O => a
  | S fuel' => if cond a then while fuel' cond body (body a) else a
  end.

(** ** lexer.py *)

Inductive TokenType :=
| NUMBER | STRING | IDENTIFIER
| DEF | IF | ELSE | ELIF | FOR | WHILE | RETURN | CLASS | IMPORT | FROM | AS
| TRUE | FALSE | NONE | AND | OR | NOT | IN | IS
| PLUS | MINUS | MULTIPLY | DIVIDE | MODULO | POWER | ASSIGN
| PLUS_ASSIGN | MINUS_ASSIGN | EQ | NE | LT | LE | GT | GE
| LPAREN | RPAREN | LBRACKET | RBRACKET | LBRACE | RBRACE
| COMMA | COLON | DOT
| NEWLINE | INDENT | DEDENT | EOF.

Global Instance TokenType_eq_dec : EqDecision TokenType.
Proof. solve_decision. Defined.

Definition TokenType_eqb (a b : TokenType) : bool := bool_decide (a = b).

(** The member name, as it appears in [str(TokenType.X)]. *)
Definition TokenType_name (t : TokenType) : string :=
  match t with
  | NUMBER => "NUMBER" | STRING => "STRING" | IDENTIFIER => "IDENTIFIER"
  | DEF => "DEF" | IF => "IF" | ELSE => "ELSE" | ELIF => "ELIF"
  | FOR => "FOR" | WHILE => "WHILE" | RETURN => "RETURN" | CLASS => "CLASS"
  | IMPORT => "IMPORT" | FROM => "FROM" | AS => "AS" | TRUE => "TRUE"
  | FALSE => "FALSE" | NONE => "NONE" | AND => "AND" | OR => "OR"
  | NOT => "NOT" | IN => "IN" | IS => "IS"
  | PLUS => "PLUS" | MINUS => "MINUS" | MULTIPLY => "MULTIPLY"
  | DIVIDE => "DIVIDE" | MODULO => "MODULO" | POWER => "POWER"
  | ASSIGN => "ASSIGN" | PLUS_ASSIGN => "PLUS_ASSIGN"
  | MINUS_ASSIGN => "MINUS_ASSIGN" | EQ => "EQ" | NE => "NE" | LT => "LT"
  | LE => "LE" | GT => "GT" | GE => "GE"
  | LPAREN => "LPAREN" | RPAREN => "RPAREN" | LBRACKET => "LBRACKET"
  | RBRACKET => "RBRACKET" | LBRACE => "LBRACE" | RBRACE => "RBRACE"
  | COMMA => "COMMA" | COLON => "COLON" | DOT => "DOT"
  | NEWLINE => "NEWLINE" | INDENT => "INDENT" | DEDENT => "DEDENT"
  | EOF => "EOF"
  end.

(** [str(t)] and [f"{t}"] for a member of the enumeration. *)
Definition TokenType_str (t : TokenType) : string :=
  "TokenType." +:+ TokenType_name t.

Record Token := mkToken {
  type : TokenType;
  value : string;
  line : nat;
  column : nat
}.

(** [value in self.keywords], and then [TokenType(value)]. *)
Definition keyword (v : string) : option TokenType :=
  if String.eqb v "def" then Some DEF
  else if String.eqb v "if" then Some IF
  else if String.eqb v "else" then Some ELSE
  else if String.eqb v "elif" then Some ELIF
  else if String.eqb v "for" then Some FOR
  else if String.eqb v "while" then Some WHILE
  else if String.eqb v "return" then Some RETURN
  else if String.eqb v "class" then Some CLASS
  else if String.eqb v "import" then Some IMPORT
  else if String.eqb v "from" then Some FROM
  else if String.eqb v "as" then Some AS
  else if String.eqb v "True" then Some TRUE
  else if String.eqb v "False" then Some FALSE
  else if String.eqb v "None" then Some NONE
  else if String.eqb v "and" then Some AND
  else if String.eqb v "or" then Some OR
  else if String.eqb v "not" then Some NOT
  else if String.eqb v "in" then Some IN
  else if String.eqb v "is" then Some IS
  else None.

Module Lexer.

(** The lexer instance. [text] is the unread part [self.text[self.pos:]];
    [indent_stack] is kept top first, so that [self.indent_stack[-1]] is
    its head. *)
Record t := mk {
  text : string;
  line : nat;
  column : nat;
  indent_stack : list nat
}.

Definition init (source : string) : t :=
  {| text := source; line := 1; column := 1; indent_stack := [0] |}.

Definition current_char (s : t) : option ascii := String.get 0 (text s).

Definition peek_char (s : t) (offset : nat) : option ascii :=
  String.get offset (text s).

Definition advance (s : t) : t :=
  match text s with
  | String c rest =>
      if Ascii.eqb c nl
      then {| text := rest; line := S (line s); column := 1;
              indent_stack := indent_stack s |}
      else {| text := rest; line := line s; column := S (column s);
              indent_stack := indent_stack s |}
  | EmptyString =>
      {| text := EmptyString; line := line s; column := S (column s);
         indent_stack := indent_stack s |}
  end.

(** [current_char()] is set and satisfies [p]. *)
Definition current_is (p : ascii -> bool) (s : t) : bool :=
  match current_char s with
  | Some c => p c
  | None => false
  end.

(** The number of characters left, the bound of the inner loops. *)
Definition remaining (s : t) : nat := String.length (text s).

(** [self.text[start_pos:self.pos]], for the lexer [s0] at [start_pos] and
    [s1] at [self.pos]. *)
Definition slice (s0 s1 : t) : string :=
  String.substring 0 (remaining s0 - remaining s1) (text s0).

Definition skip_whitespace (s : t) : t :=
  while (remaining s) (current_is in_space_tab) advance s.

Definition read_number (s : t) : t * Token :=
  let start_col := column s in
  let s1 :=
    while (remaining s)
      (current_is (fun c => isdigit c || Ascii.eqb c "."))
      advance s in
  (s1, mkToken NUMBER (slice s s1) (line s1) start_col).

Definition read_string_body (quote_char : ascii) (sv : t * string)
    : t * string :=
  let '(s, value) := sv in
  match current_char s with
  | Some c =>
      if Ascii.eqb c backslash then
        let s1 := advance s in
        match current_char s1 with
        | Some d => (advance s1, value +:+ str1 d)
        | None => (s1, value)
        end
      else (advance s, value +:+ str1 c)
  | None => sv
  end.

Definition read_string (s : t) : t * Token :=
  match current_char s with
  | Some quote_char =>
      let start_col := column s in
      let s1 := advance s in
      let '(s2, value) :=
        while (remaining s1)
          (fun sv => current_is (fun c => negb (Ascii.eqb c quote_char))
                       (fst sv))
          (read_string_body quote_char) (s1, "") in
      let s3 :=
        if current_is (Ascii.eqb quote_char) s2 then advance s2 else s2 in
      (s3, mkToken STRING value (line s3) start_col)
  | None => (s, mkToken STRING "" (line s) (column s))
  end.

Definition read_identifier (s : t) : t * Token :=
  let start_col := column s in
  let s1 :=
    while (remaining s)
      (current_is (fun c => isalnum c || Ascii.eqb c "_"))
      advance s in
  let value := slice s s1 in
  let token_type :=
    match keyword value with
    | Some k => k
    | None => IDENTIFIER
    end in
  (s1, mkToken token_type value (line s1) start_col).

Definition pop (s : t) : t :=
  {| text := text s; line := line s; column := column s;
     indent_stack := tl (indent_stack s) |}.

Definition push (w : nat) (s : t) : t :=
  {| text := text s; line := line s; column := column s;
     indent_stack := w :: indent_stack s |}.

Definition dedent_token (s : t) : Token :=
  mkToken DEDENT "" (line s) (column s).

(** [while len(self.indent_stack) > 1: pop, append a DEDENT]. *)
Definition dedent_all (s : t) (tokens : list Token) : t * list Token :=
  while (List.length (indent_stack s))
    (fun st => (1 <? List.length (indent_stack (fst st)))%nat)
    (fun st => (pop (fst st), snd st ++ [dedent_token (fst st)]))
    (s, tokens).

Definition handle_indentation (s : t) : t * list Token :=
  let '(s1, indent_level) :=
    while (remaining s)
      (fun si => current_is in_space_tab (fst si))
      (fun si =>
         (advance (fst si),
          if current_is (Ascii.eqb " ") (fst si)
          then snd si + 1 else snd si + 4))
      (s, 0) in
  match current_char s1 with
  | None => (s1, [])
  | Some c =>
      if Ascii.eqb c nl || Ascii.eqb c "#" then (s1, [])
      else
        let current_indent := hd 0 (indent_stack s1) in
        if (current_indent <? indent_level)%nat then
          (push indent_level s1, [mkToken INDENT "" (line s1) (column s1)])
        else if (indent_level <? current_indent)%nat then
          while (List.length (indent_stack s1))
            (fun st =>
               match indent_stack (fst st) with
               | top :: _ => (indent_level <? top)%nat
               | [] => false
               end)
            (fun st => (pop (fst st), snd st ++ [dedent_token (fst st)]))
            (s1, [])
        else (s1, [])
  end.

(** A two-character operator when the next character is [second], the
    one-character operator otherwise. *)
Definition operator (s : t) (tokens : list Token) (char second : ascii)
    (two : TokenType) (two_value : string) (one : TokenType)
    : t * list Token :=
  match peek_char s 1 with
  | Some c =>
      if Ascii.eqb c second then
        (advance (advance s),
         tokens ++ [mkToken two two_value (line s) (column s)])
      else
        (advance s, tokens ++ [mkToken one (str1 char) (line s) (column s)])
  | None =>
      (advance s, tokens ++ [mkToken one (str1 char) (line s) (column s)])
  end.

Definition token_map (char : ascii) : option TokenType :=
  if Ascii.eqb char "/" then Some DIVIDE
  else if Ascii.eqb char "%" then Some MODULO
  else if Ascii.eqb char "(" then Some LPAREN
  else if Ascii.eqb char ")" then Some RPAREN
  else if Ascii.eqb char "[" then Some LBRACKET
  else if Ascii.eqb char "]" then Some RBRACKET
  else if Ascii.eqb char "{" then Some LBRACE
  else if Ascii.eqb char "}" then Some RBRACE
  else if Ascii.eqb char "," then Some COMMA
  else if Ascii.eqb char ":" then Some COLON
  else if Ascii.eqb char "." then Some DOT
  else None.

(** The [if]/[elif] chain of [tokenize] that recognises one token at
    [char], the current character. *)
Definition scan (s : t) (tokens : list Token) (char : ascii)
    : t * list Token :=
  if in_space_tab char then (skip_whitespace s, tokens)
  else if Ascii.eqb char "#" then
    (while (remaining s) (current_is (fun c => negb (Ascii.eqb c nl)))
       advance s, tokens)
  else if isdigit char then
    let '(s1, tok) := read_number s in (s1, tokens ++ [tok])
  else if Ascii.eqb char dquote || Ascii.eqb char squote then
    let '(s1, tok) := read_string s in (s1, tokens ++ [tok])
  else if isalpha char || Ascii.eqb char "_" then
    let '(s1, tok) := read_identifier s in (s1, tokens ++ [tok])
  else if Ascii.eqb char "+" then
    operator s tokens char "=" PLUS_ASSIGN "+=" PLUS
  else if Ascii.eqb char "-" then
    operator s tokens char "=" MINUS_ASSIGN "-=" MINUS
  else if Ascii.eqb char "*" then
    operator s tokens char "*" POWER "**" MULTIPLY
  else if Ascii.eqb char "=" then
    operator s tokens char "=" EQ "==" ASSIGN
  else if Ascii.eqb char "!" then
    match peek_char s 1 with
    | Some c =>
        if Ascii.eqb c "=" then
          (advance (advance s),
           tokens ++ [mkToken NE "!=" (line s) (column s)])
        else (s, tokens)
    | None => (s, tokens)
    end
  else if Ascii.eqb char "<" then
    operator s tokens char "=" LE "<=" LT
  else if Ascii.eqb char ">" then
    operator s tokens char "=" GE ">=" GT
  else
    match token_map char with
    | Some ty =>
        (advance s, tokens ++ [mkToken ty (str1 char) (line s) (column s)])
    | None => (advance s, tokens)
    end.

Definition newline_token (s : t) (char : ascii) : Token :=
  mkToken NEWLINE (str1 char) (line s) (column s).

(** One iteration of the main loop of [tokenize], entered with
    [self.pos < len(self.text)] and [char = self.current_char()]. *)
Definition tokenize_body (s : t) (at_line_start : bool)
    (tokens : list Token) (char : ascii) : t * bool * list Token :=
  if at_line_start then
    if in_space_tab char then
      let '(s1, indent_tokens) := handle_indentation s in
      (s1, false, tokens ++ indent_tokens)
    else if Ascii.eqb char nl then
      let '(s1, tokens1) := dedent_all s tokens in
      (advance s1, true, tokens1 ++ [newline_token s1 char])
    else
      let '(s1, tokens1) := dedent_all s tokens in
      if Ascii.eqb char nl then
        (advance s1, true, tokens1 ++ [newline_token s1 char])
      else
        let '(s2, tokens2) := scan s1 tokens1 char in
        (s2, false, tokens2)
  else
    if Ascii.eqb char nl then
      (advance s, true, tokens ++ [newline_token s char])
    else
      let '(s2, tokens2) := scan s tokens char in
      (s2, false, tokens2).

(** The main loop: [None] when [fuel] iterations do not reach the end of
    the text. *)
Fixpoint tokenize_loop (fuel : nat) (s : t) (at_line_start : bool)
    (tokens : list Token) : option (t * list Token) :=
  match fuel with
  | O => None
  | S fuel' =>
      match current_char s with
      | None => Some (s, tokens)
      | Some char =>
          let '(s1, at_line_start1, tokens1) :=
            tokenize_body s at_line_start tokens char in
          tokenize_loop fuel' s1 at_line_start1 tokens1
      end
  end.

Definition tokenize (fuel : nat) (source : string) : option (list Token) :=
  match tokenize_loop fuel (init source) true [] with
  | None => None
  | Some (s, tokens) =>
      let '(s1, tokens1) := dedent_all s tokens in
      Some (tokens1 ++ [mkToken EOF "" (line s1) (column s1)])
  end.

End Lexer.

(** ** ast_nodes.py *)

(** The values a [Literal] node holds. A float keeps the lexeme it was
    converted from: [PyFloat v] stands for [float(v)]. *)
Inductive PyValue :=
| PyInt (n : Z)
| PyFloat (lexeme : string)
| PyStr (s : string)
| PyBool (b : bool)
| PyNone.

#[local] Set Warnings "-register-all".

Inductive Expression :=
| BinaryOp (left : Expression) (operator : string) (right : Expression)
| UnaryOp (operator : string) (operand : Expression)
| FunctionCall (name : string) (args : list Expression)
| MethodCall (object : Expression) (method : string)
    (args : list Expression)
| Identifier (name : string)
| Literal (value : PyValue) (type : string)
| ListLiteral (elements : list Expression)
| DictLiteral (pairs : list (Expression * Expression))
| AttributeAccess (object : Expression) (attribute : string)
| IndexAccess (object : Expression) (index : Expression).

Inductive Statement :=
| FunctionDef (name : string) (params : list string) (body : list Statement)
| ClassDef (name : string) (body : list Statement)
| IfStatement (condition : Expression) (then_body : list Statement)
    (else_body : option (list Statement))
| ForStatement (target : string) (iterable : Expression)
    (body : list Statement)
| WhileStatement (condition : Expression) (body : list Statement)
| ReturnStatement (value : option Expression)
| AssignStatement (target : string) (value : Expression)
| ExpressionStatement (expression : Expression).

Record Program := mkProgram { statements : list Statement }.

(** Induction on expressions that reaches the expressions held in the
    lists of a node. *)
Section ExpressionInduction.

Variable P : Expression -> Prop.

Hypothesis HBinaryOp : forall lhs operator rhs,
  P lhs -> P rhs -> P (BinaryOp lhs operator rhs).
Hypothesis HUnaryOp : forall operator operand,
  P operand -> P (UnaryOp operator operand).
Hypothesis HFunctionCall : forall name args,
  Forall P args -> P (FunctionCall name args).
Hypothesis HMethodCall : forall object method args,
  P object -> Forall P args -> P (MethodCall object method args).
Hypothesis HIdentifier : forall name, P (Identifier name).
Hypothesis HLiteral : forall value type, P (Literal value type).
Hypothesis HListLiteral : forall elements,
  Forall P elements -> P (ListLiteral elements).
Hypothesis HDictLiteral : forall pairs,
  Forall (fun kv => P (fst kv) /\ P (snd kv)) pairs -> P (DictLiteral pairs).
Hypothesis HAttributeAccess : forall object attribute,
  P object -> P (AttributeAccess object attribute).
Hypothesis HIndexAccess : forall object index,
  P object -> P index -> P (IndexAccess object index).

Fixpoint Expression_nested_ind (e : Expression) : P e :=
  let all :=
    fix all (l : list Expression) : Forall P l :=
      match l with
      | [] => @List.Forall_nil _ P
      | x :: rest =>
          @List.Forall_cons _ P x rest (Expression_nested_ind x) (all rest)
      end in
  match e with
  | BinaryOp lhs operator rhs =>
      HBinaryOp lhs operator rhs
        (Expression_nested_ind lhs) (Expression_nested_ind rhs)
  | UnaryOp operator operand =>
      HUnaryOp operator operand (Expression_nested_ind operand)
  | FunctionCall name args => HFunctionCall name args (all args)
  | MethodCall object method args =>
      HMethodCall object method args (Expression_nested_ind object) (all args)
  | Identifier name => HIdentifier name
  | Literal value type => HLiteral value type
  | ListLiteral elements => HListLiteral elements (all elements)
  | DictLiteral pairs =>
      HDictLiteral pairs
        ((fix all_pairs (l : list (Expression * Expression))
            : Forall (fun kv => P (fst kv) /\ P (snd kv)) l :=
            match l with
            | [] => @List.Forall_nil _ _
            | kv :: rest =>
                @List.Forall_cons _ _ kv rest
                  (conj (Expression_nested_ind (fst kv))
                        (Expression_nested_ind (snd kv)))
                  (all_pairs rest)
            end) pairs)
  | AttributeAccess object attribute =>
      HAttributeAccess object attribute (Expression_nested_ind object)
  | IndexAccess object index =>
      HIndexAccess object index
        (Expression_nested_ind object) (Expression_nested_ind index)
  end.

End ExpressionInduction.

(** ** parser.py *)

Fixpoint digits_value (acc : Z) (v : string) : Z :=
  match v with
  | EmptyString => acc
  | String c rest => digits_value (10 * acc + Z.of_nat (code c - 48)) rest
  end.

(** [sys.get_int_max_str_digits()]: the most digits that [int()]
    converts. *)
Definition int_max_str_digits : Z := 4300.

(** The digits [0] to [9] at the head of a lexeme. *)
Fixpoint decimal_run (v : string) : nat :=
  match v with
  | String c rest => if isdecimal c then S (decimal_run rest) else O
  | EmptyString => O
  end.

(** [int(value)] and [float(value)] on the lexeme of a NUMBER token, a
    string of characters that satisfy [isdigit] or are ['.']. [None] is a
    [ValueError]. *)
Definition int_of_lexeme (v : string) : option Z :=
  if str_forall isdecimal v && negb (String.eqb v "")
     && (Z.of_nat (String.length v) <=? int_max_str_digits)%Z
  then Some (digits_value 0 v)
  else None.

Definition float_of_lexeme (v : string) : option PyValue :=
  if str_forall (fun c => isdecimal c || Ascii.eqb c ".") v
     && (str_count "." v <=? 1)%nat
     && negb (str_forall (Ascii.eqb ".") v)
  then Some (PyFloat v)
  else None.

(** [repr(v)] for a string without quotes, backslashes or control
    characters. *)
Definition repr (v : string) : string := "'" +:+ v +:+ "'".

(** The message of the [ValueError] of [int(v)]. The limit on the digits
    is checked on the digits at the head of the lexeme, before the rest
    of it is read; the other message holds the first 200 characters of
    [repr(v)]. *)
Definition int_error (v : string) : string :=
  if (int_max_str_digits <? Z.of_nat (decimal_run v))%Z then
    "Exceeds the limit (4300 digits) for integer string conversion: "
    +:+ "value has " +:+ str_of_nat (decimal_run v)
    +:+ " digits; use sys.set_int_max_str_digits() to increase the limit"
  else
    "invalid literal for int() with base 10: "
    +:+ String.substring 0 200 (repr v).

Module Parser.

Record t := mk {
  tokens : list Token;
  pos : nat
}.

(** The exceptions the parser lets escape. *)
Inductive exn :=
| ParseError (msg : string)
| ValueError (msg : string).

Inductive outcome (A : Type) :=
| Ret (a : A) (p : t)
| Raise (e : exn)
| OutOfFuel.
Arguments Ret {A} a p.
Arguments Raise {A} e.
Arguments OutOfFuel {A}.

(** A method of the parser: it reads and moves the cursor, and returns,
    raises, or runs out of fuel. *)
Definition M (A : Type) : Type := t -> outcome A.

Definition ret {A : Type} (a : A) : M A := fun p => Ret a p.

Definition bind {A B : Type} (m : M A) (k : A -> M B) : M B :=
  fun p =>
    match m p with
    | Ret a p' => k a p'
    | Raise e => Raise e
    | OutOfFuel => OutOfFuel
    end.

Definition raise {A : Type} (e : exn) : M A := fun _ => Raise e.

Definition out_of_fuel {A : Type} : M A := fun _ => OutOfFuel.

Notation "x <- m ;; k" := (bind m (fun x => k))
  (at level 100, m at next level, right associativity).
Notation "m ;;; k" := (bind m (fun _ => k))
  (at level 100, right associativity).

(** [self.tokens[-1]]; the token list [Lexer.tokenize] returns is never
    empty, on an empty list Python raises [IndexError]. *)
Definition last_token (p : t) : Token :=
  List.last (tokens p) (mkToken EOF "" 0 0).

Definition current_token (p : t) : Token :=
  nth (pos p) (tokens p) (last_token p).

Definition peek_token (p : t) (offset : nat) : Token :=
  nth (pos p + offset) (tokens p) (last_token p).

Definition advance : M unit :=
  fun p =>
    if (pos p <? List.length (tokens p) - 1)%nat
    then Ret tt {| tokens := tokens p; pos := pos p + 1 |}
    else Ret tt p.

Definition current : M Token := fun p => Ret (current_token p) p.

Definition peek (offset : nat) : M Token :=
  fun p => Ret (peek_token p offset) p.

Definition match_ (token_type : TokenType) : M bool :=
  fun p => Ret (TokenType_eqb (type (current_token p)) token_type) p.

Definition consume (token_type : TokenType) : M Token :=
  b <- match_ token_type ;;
  if b then
    token <- current ;;
    advance ;;;
    ret token
  else
    token <- current ;;
    raise (ParseError ("Expected " +:+ TokenType_str token_type
                       +:+ ", got " +:+ TokenType_str (type token))).

(** [if self.match(token_type): self.advance()]. *)
Definition advance_if (token_type : TokenType) : M unit :=
  b <- match_ token_type ;;
  if b then advance else ret tt.

(** [if self.match(t1) or self.match(t2) ...: yes else: no]. *)
Definition if_match {A : Type} (token_types : list TokenType)
    (yes no : M A) : M A :=
  fun p =>
    if existsb (TokenType_eqb (type (current_token p))) token_types
    then yes p else no p.

Fixpoint skip_newlines (fuel : nat) : M unit :=
  match fuel with
  | O => out_of_fuel
  | S fuel' =>
      b <- match_ NEWLINE ;;
      if b then advance ;;; skip_newlines fuel' else ret tt
  end.

(** *** Expressions. [parse_expression] is the parser one level of
    nesting down. *)
Section Expressions.

Variable parse_expression : M Expression.

(** The loop of an argument list and of a list literal:
    [while not self.match(close): items.append(self.parse_expression());
    if self.match(COMMA): self.advance()]. *)
Fixpoint parse_items (fuel : nat) (close : TokenType)
    (items : list Expression) : M (list Expression) :=
  match fuel with
  | O => out_of_fuel
  | S fuel' =>
      b <- match_ close ;;
      if b then ret items
      else
        item <- parse_expression ;;
        advance_if COMMA ;;;
        parse_items fuel' close (items ++ [item])
  end.

Definition parse_list_literal (fuel : nat) : M Expression :=
  consume LBRACKET ;;;
  elements <- parse_items fuel RBRACKET [] ;;
  consume RBRACKET ;;;
  ret (ListLiteral elements).

Fixpoint parse_pairs (fuel : nat) (pairs : list (Expression * Expression))
    : M (list (Expression * Expression)) :=
  match fuel with
  | O => out_of_fuel
  | S fuel' =>
      b <- match_ RBRACE ;;
      if b then ret pairs
      else
        key <- parse_expression ;;
        consume COLON ;;;
        val <- parse_expression ;;
        advance_if COMMA ;;;
        parse_pairs fuel' (pairs ++ [(key, val)])
  end.

Definition parse_dict_literal (fuel : nat) : M Expression :=
  consume LBRACE ;;;
  pairs <- parse_pairs fuel [] ;;
  consume RBRACE ;;;
  ret (DictLiteral pairs).

(** [Literal(float(value) if '.' in value else int(value), 'number')]. *)
Definition number_literal (v : string) : M Expression :=
  if str_contains "." v then
    match float_of_lexeme v with
    | Some x => ret (Literal x "number")
    | None =>
        raise (ValueError ("could not convert string to float: "
                           +:+ repr v))
    end
  else
    match int_of_lexeme v with
    | Some n => ret (Literal (PyInt n) "number")
    | None => raise (ValueError (int_error v))
    end.

Definition parse_primary_expression (fuel : nat) : M Expression :=
  token <- current ;;
  if_match [NUMBER] (advance ;;; number_literal (value token)) (
  if_match [STRING]
    (advance ;;; ret (Literal (PyStr (value token)) "string")) (
  if_match [TRUE] (advance ;;; ret (Literal (PyBool true) "boolean")) (
  if_match [FALSE] (advance ;;; ret (Literal (PyBool false) "boolean")) (
  if_match [NONE] (advance ;;; ret (Literal PyNone "none")) (
  if_match [IDENTIFIER] (advance ;;; ret (Identifier (value token))) (
  if_match [LBRACKET] (parse_list_literal fuel) (
  if_match [LBRACE] (parse_dict_literal fuel) (
  if_match [LPAREN]
    (advance ;;;
     expr <- parse_expression ;;
     consume RPAREN ;;;
     ret expr)
    (raise (ParseError ("Unexpected token: "
                        +:+ TokenType_str (type token)))))))))))).

(** The [while True] loop of [parse_postfix_expression]. *)
Fixpoint parse_postfix_loop (fuel : nat) (expr : Expression)
    : M Expression :=
  match fuel with
  | O => out_of_fuel
  | S fuel' =>
      if_match [LPAREN]
        (advance ;;;
         args <- parse_items fuel' RPAREN [] ;;
         consume RPAREN ;;;
         match expr with
         | Identifier name =>
             parse_postfix_loop fuel' (FunctionCall name args)
         | AttributeAccess object attribute =>
             parse_postfix_loop fuel' (MethodCall object attribute args)
         | _ => raise (ParseError "Invalid function call")
         end) (
      if_match [DOT]
        (advance ;;;
         attr <- consume IDENTIFIER ;;
         parse_postfix_loop fuel' (AttributeAccess expr (value attr))) (
      if_match [LBRACKET]
        (advance ;;;
         index <- parse_expression ;;
         consume RBRACKET ;;;
         parse_postfix_loop fuel' (IndexAccess expr index))
        (ret expr)))
  end.

Definition parse_postfix_expression (fuel : nat) : M Expression :=
  expr <- parse_primary_expression fuel ;;
  parse_postfix_loop fuel expr.

Fixpoint parse_unary_expression (fuel : nat) : M Expression :=
  match fuel with
  | O => out_of_fuel
  | S fuel' =>
      if_match [NOT; MINUS]
        (token <- current ;;
         advance ;;;
         operand <- parse_unary_expression fuel' ;;
         ret (UnaryOp (value token) operand))
        (parse_postfix_expression fuel')
  end.

Fixpoint parse_power_expression (fuel : nat) : M Expression :=
  match fuel with
  | O => out_of_fuel
  | S fuel' =>
      left <- parse_unary_expression fuel' ;;
      if_match [POWER]
        (token <- current ;;
         advance ;;;
         right <- parse_power_expression fuel' ;;
         ret (BinaryOp left (value token) right))
        (ret left)
  end.

(** The loop shared by the left-associative levels:
    [while self.match(o1) or ...: op = self.current_token().value;
    self.advance(); right = operand(); left = BinaryOp(left, op, right)]. *)
Fixpoint binary_loop (fuel : nat) (ops : list TokenType)
    (operand : M Expression) (left : Expression) : M Expression :=
  match fuel with
  | O => out_of_fuel
  | S fuel' =>
      if_match ops
        (token <- current ;;
         advance ;;;
         right <- operand ;;
         binary_loop fuel' ops operand (BinaryOp left (value token) right))
        (ret left)
  end.

Definition parse_multiplicative_expression (fuel : nat) : M Expression :=
  left <- parse_power_expression fuel ;;
  binary_loop fuel [MULTIPLY; DIVIDE; MODULO]
    (parse_power_expression fuel) left.

Definition parse_additive_expression (fuel : nat) : M Expression :=
  left <- parse_multiplicative_expression fuel ;;
  binary_loop fuel [PLUS; MINUS] (parse_multiplicative_expression fuel) left.

Definition parse_comparison_expression (fuel : nat) : M Expression :=
  left <- parse_additive_expression fuel ;;
  binary_loop fuel [LT; LE; GT; GE] (parse_additive_expression fuel) left.

Definition parse_equality_expression (fuel : nat) : M Expression :=
  left <- parse_comparison_expression fuel ;;
  binary_loop fuel [EQ; NE] (parse_comparison_expression fuel) left.

Definition parse_and_expression (fuel : nat) : M Expression :=
  left <- parse_equality_expression fuel ;;
  binary_loop fuel [AND] (parse_equality_expression fuel) left.

Definition parse_or_expression (fuel : nat) : M Expression :=
  left <- parse_and_expression fuel ;;
  binary_loop fuel [OR] (parse_and_expression fuel) left.

End Expressions.

Fixpoint parse_expression (fuel : nat) : M Expression :=
  match fuel with
  | O => out_of_fuel
  | S fuel' => parse_or_expression (parse_expression fuel') fuel'
  end.

(** *** Statements. [parse_statement] is the parser one level of nesting
    down. *)
Section Statements.

Variable parse_statement : M (option Statement).

(** [if stmt: statements.append(stmt)]. *)
Definition append_stmt (statements : list Statement)
    (stmt : option Statement) : list Statement :=
  match stmt with
  | Some st => statements ++ [st]
  | None => statements
  end.

(** The loop of [parse_block]:
    [while not self.match(DEDENT) and not self.match(EOF)]. *)
Fixpoint parse_block_loop (fuel : nat) (statements : list Statement)
    : M (list Statement) :=
  match fuel with
  | O => out_of_fuel
  | S fuel' =>
      if_match [DEDENT; EOF] (ret statements) (
      if_match [NEWLINE] (advance ;;; parse_block_loop fuel' statements)
        (stmt <- parse_statement ;;
         parse_block_loop fuel' (append_stmt statements stmt)))
  end.

Definition parse_block (fuel : nat) : M (list Statement) :=
  skip_newlines fuel ;;;
  b <- match_ INDENT ;;
  if negb b then
    stmt <- parse_statement ;;
    ret (append_stmt [] stmt)
  else
    consume INDENT ;;;
    statements <- parse_block_loop fuel [] ;;
    advance_if DEDENT ;;;
    ret statements.

(** [while not self.match(RPAREN): params.append(...)]. *)
Fixpoint parse_params (fuel : nat) (params : list string)
    : M (list string) :=
  match fuel with
  | O => out_of_fuel
  | S fuel' =>
      b <- match_ RPAREN ;;
      if b then ret params
      else
        param <- consume IDENTIFIER ;;
        advance_if COMMA ;;;
        parse_params fuel' (params ++ [value param])
  end.

Definition parse_function_def (fuel : nat) : M Statement :=
  consume DEF ;;;
  name <- consume IDENTIFIER ;;
  consume LPAREN ;;;
  params <- parse_params fuel [] ;;
  consume RPAREN ;;;
  consume COLON ;;;
  body <- parse_block fuel ;;
  ret (FunctionDef (value name) params body).

(** The loop over the class body: only [def] is parsed, every other
    token is skipped. *)
Fixpoint parse_class_body (fuel : nat) (body : list Statement)
    : M (list Statement) :=
  match fuel with
  | O => out_of_fuel
  | S fuel' =>
      if_match [DEDENT; EOF] (ret body) (
      if_match [NEWLINE] (advance ;;; parse_class_body fuel' body) (
      if_match [DEF]
        (method <- parse_function_def fuel' ;;
         parse_class_body fuel' (body ++ [method]))
        (advance ;;; parse_class_body fuel' body)))
  end.

Definition parse_class_def (fuel : nat) : M Statement :=
  consume CLASS ;;;
  name <- consume IDENTIFIER ;;
  consume COLON ;;;
  skip_newlines fuel ;;;
  b <- match_ INDENT ;;
  if negb b then ret (ClassDef (value name) [])
  else
    consume INDENT ;;;
    body <- parse_class_body fuel [] ;;
    advance_if DEDENT ;;;
    ret (ClassDef (value name) body).

Fixpoint parse_elif_chain (fuel : nat) : M Statement :=
  match fuel with
  | O => out_of_fuel
  | S fuel' =>
      consume ELIF ;;;
      condition <- parse_expression fuel' ;;
      consume COLON ;;;
      then_body <- parse_block fuel' ;;
      if_match [ELIF]
        (elif_stmt <- parse_elif_chain fuel' ;;
         ret (IfStatement condition then_body (Some [elif_stmt]))) (
      if_match [ELSE]
        (advance ;;;
         consume COLON ;;;
         else_body <- parse_block fuel' ;;
         ret (IfStatement condition then_body (Some else_body)))
        (ret (IfStatement condition then_body None)))
  end.

Definition parse_if_statement (fuel : nat) : M Statement :=
  consume IF ;;;
  condition <- parse_expression fuel ;;
  consume COLON ;;;
  then_body <- parse_block fuel ;;
  if_match [ELIF]
    (elif_stmt <- parse_elif_chain fuel ;;
     ret (IfStatement condition then_body (Some [elif_stmt]))) (
  if_match [ELSE]
    (advance ;;;
     consume COLON ;;;
     else_body <- parse_block fuel ;;
     ret (IfStatement condition then_body (Some else_body)))
    (ret (IfStatement condition then_body None))).

Definition parse_for_statement (fuel : nat) : M Statement :=
  consume FOR ;;;
  target <- consume IDENTIFIER ;;
  consume IN ;;;
  iterable <- parse_expression fuel ;;
  consume COLON ;;;
  body <- parse_block fuel ;;
  ret (ForStatement (value target) iterable body).

Definition parse_while_statement (fuel : nat) : M Statement :=
  consume WHILE ;;;
  condition <- parse_expression fuel ;;
  consume COLON ;;;
  body <- parse_block fuel ;;
  ret (WhileStatement condition body).

Definition parse_return_statement (fuel : nat) : M Statement :=
  consume RETURN ;;;
  if_match [NEWLINE; EOF] (ret (ReturnStatement None))
    (val <- parse_expression fuel ;;
     ret (ReturnStatement (Some val))).

Definition parse_assignment (fuel : nat) : M Statement :=
  target <- consume IDENTIFIER ;;
  consume ASSIGN ;;;
  val <- parse_expression fuel ;;
  ret (AssignStatement (value target) val).

(** The body of [parse_statement]. An AST node is always true in a
    condition, so [if expr:] always takes the branch. *)
Definition parse_statement_body (fuel : nat) : M (option Statement) :=
  skip_newlines fuel ;;;
  if_match [DEF] (stmt <- parse_function_def fuel ;; ret (Some stmt)) (
  if_match [CLASS] (stmt <- parse_class_def fuel ;; ret (Some stmt)) (
  if_match [IF] (stmt <- parse_if_statement fuel ;; ret (Some stmt)) (
  if_match [FOR] (stmt <- parse_for_statement fuel ;; ret (Some stmt)) (
  if_match [WHILE] (stmt <- parse_while_statement fuel ;; ret (Some stmt)) (
  if_match [RETURN] (stmt <- parse_return_statement fuel ;; ret (Some stmt)) (
  token <- current ;;
  next <- peek 1 ;;
  if TokenType_eqb (type token) IDENTIFIER
     && TokenType_eqb (type next) ASSIGN
  then stmt <- parse_assignment fuel ;; ret (Some stmt)
  else
    expr <- parse_expression fuel ;;
    ret (Some (ExpressionStatement expr)))))))).

End Statements.

Fixpoint parse_statement (fuel : nat) : M (option Statement) :=
  match fuel with
  | O => out_of_fuel
  | S fuel' => parse_statement_body (parse_statement fuel') fuel'
  end.

(** The loop of [parse]: [while not self.match(EOF)]. *)
Fixpoint parse_loop (fuel : nat) (statements : list Statement)
    : M (list Statement) :=
  match fuel with
  | O => out_of_fuel
  | S fuel' =>
      if_match [EOF] (ret statements) (
      if_match [NEWLINE] (advance ;;; parse_loop fuel' statements)
        (stmt <- parse_statement fuel' ;;
         parse_loop fuel' (append_stmt statements stmt)))
  end.

Definition parse_program (fuel : nat) : M Program :=
  skip_newlines fuel ;;;
  statements <- parse_loop fuel [] ;;
  ret (mkProgram statements).

(** What a call of the parser gives its caller. *)
Inductive result (A : Type) :=
| Returns (a : A)
| Raises (e : exn)
| NoResult.
Arguments Returns {A} a.
Arguments Raises {A} e.
Arguments NoResult {A}.

Definition run {A : Type} (m : M A) (p : t) : result A :=
  match m p with
  | Ret a _ => Returns a
  | Raise e => Raises e
  | OutOfFuel => NoResult
  end.

(** [Parser(tokens).parse()]. *)
Definition parse (fuel : nat) (toks : list Token) : result Program :=
  run (parse_program fuel) {| tokens := toks; pos := 0 |}.

End Parser.

(** ** semantic_analyzer.py *)

Module SemanticAnalyzer.

Record Symbol := mkSymbol {
  name : string;
  type : string;
  scope : string
}.

(** [scopes] is the Python list, the global scope first; the methods
    keep [len(self.scopes) == self.current_scope + 1], so that
    [self.scopes[self.current_scope]] is always in range. *)
Record SymbolTable := mkSymbolTable {
  scopes : list (gmap string Symbol);
  current_scope : nat
}.

Definition SymbolTable_init : SymbolTable :=
  {| scopes := [∅]; current_scope := 0 |}.

Definition enter_scope (st : SymbolTable) : SymbolTable :=
  {| scopes := scopes st ++ [∅]; current_scope := current_scope st + 1 |}.

Definition exit_scope (st : SymbolTable) : SymbolTable :=
  if (0 <? current_scope st)%nat then
    {| scopes := removelast (scopes st);
       current_scope := current_scope st - 1 |}
  else st.

Definition declare (name symbol_type : string) (st : SymbolTable)
    : SymbolTable :=
  let scope_name := "scope_" +:+ str_of_nat (current_scope st) in
  let symbol := mkSymbol name symbol_type scope_name in
  {| scopes := alter (insert name symbol) (current_scope st) (scopes st);
     current_scope := current_scope st |}.

(** [scopes[i].get(name)]. *)
Definition scope_get (scopes : list (gmap string Symbol)) (i : nat)
    (name : string) : option Symbol :=
  match scopes !! i with
  | Some m => m !! name
  | None => None
  end.

(** [for i in range(i, -1, -1): if name in scopes[i]: return ...]. *)
Fixpoint lookup_from (i : nat) (name : string)
    (scopes : list (gmap string Symbol)) : option Symbol :=
  match scope_get scopes i name with
  | Some symbol => Some symbol
  | None =>
      match i with
      | O => None
      | S j => lookup_from j name scopes
      end
  end.

Definition lookup (name : string) (st : SymbolTable) : option Symbol :=
  lookup_from (current_scope st) name (scopes st).

Definition is_declared_in_current_scope (name : string) (st : SymbolTable)
    : bool :=
  match scope_get (scopes st) (current_scope st) name with
  | Some _ => true
  | None => false
  end.

Record t := mk {
  symbol_table : SymbolTable;
  errors : list string;
  current_function : option string
}.

Definition builtin_functions : list string :=
  ["print"; "len"; "range"; "str"; "int"; "float"; "bool"; "list"; "dict"].

Definition init : t :=
  {| symbol_table := SymbolTable_init; errors := [];
     current_function := None |}.

Definition error (message : string) (a : t) : t :=
  {| symbol_table := symbol_table a; errors := errors a ++ [message];
     current_function := current_function a |}.

(** Apply a method of the symbol table. *)
Definition on_table (f : SymbolTable -> SymbolTable) (a : t) : t :=
  {| symbol_table := f (symbol_table a); errors := errors a;
     current_function := current_function a |}.

Definition set_current_function (f : option string) (a : t) : t :=
  {| symbol_table := symbol_table a; errors := errors a;
     current_function := f |}.

(** [symbol.type not in ['function', 'class']]. *)
Definition not_callable (symbol : Symbol) : bool :=
  negb (String.eqb (type symbol) "function"
        || String.eqb (type symbol) "class").

(** The test at the head of [visit_function_call]. *)
Definition check_callee (name : string) (a : t) : t :=
  match lookup name (symbol_table a) with
  | None => error ("Undefined function '" +:+ name +:+ "'") a
  | Some symbol =>
      if not_callable symbol
      then error ("'" +:+ name +:+ "' is not a function or class") a
      else a
  end.

Fixpoint visit_expression (node : Expression) (a : t) : t :=
  match node with
  | BinaryOp lhs _ rhs => visit_expression rhs (visit_expression lhs a)
  | UnaryOp _ operand => visit_expression operand a
  | FunctionCall name args =>
      fold_left (fun a' arg => visit_expression arg a') args
        (check_callee name a)
  | MethodCall object _ args =>
      fold_left (fun a' arg => visit_expression arg a') args
        (visit_expression object a)
  | Identifier name =>
      match lookup name (symbol_table a) with
      | None => error ("Undefined variable '" +:+ name +:+ "'") a
      | Some _ => a
      end
  | Literal _ _ => a
  | ListLiteral elements =>
      fold_left (fun a' element => visit_expression element a') elements a
  | DictLiteral pairs =>
      fold_left
        (fun a' kv => visit_expression (snd kv) (visit_expression (fst kv) a'))
        pairs a
  | AttributeAccess object _ => visit_expression object a
  | IndexAccess object index =>
      visit_expression index (visit_expression object a)
  end.

(** The parameter loop of [visit_function_def]. *)
Definition declare_param (a : t) (param : string) : t :=
  let a1 :=
    if is_declared_in_current_scope param (symbol_table a)
    then error ("Parameter '" +:+ param +:+ "' already declared") a
    else a in
  on_table (declare param "variable") a1.

Fixpoint visit_statement (node : Statement) (a : t) : t :=
  match node with
  | FunctionDef name params body =>
      let a1 :=
        if is_declared_in_current_scope name (symbol_table a)
        then error ("Function '" +:+ name
                    +:+ "' already declared in current scope") a
        else a in
      let a2 := on_table (declare name "function") a1 in
      let a3 := on_table enter_scope a2 in
      let old_function := current_function a3 in
      let a4 := set_current_function (Some name) a3 in
      let a5 := fold_left declare_param params a4 in
      let a6 := fold_left (fun a' stmt => visit_statement stmt a') body a5 in
      on_table exit_scope (set_current_function old_function a6)
  | ClassDef name body =>
      let a1 :=
        if is_declared_in_current_scope name (symbol_table a)
        then error ("Class '" +:+ name
                    +:+ "' already declared in current scope") a
        else a in
      let a2 := on_table (declare name "class") a1 in
      let a3 := on_table enter_scope a2 in
      let a4 := fold_left (fun a' stmt => visit_statement stmt a') body a3 in
      on_table exit_scope a4
  | IfStatement condition then_body else_body =>
      let a1 := visit_expression condition a in
      let a2 :=
        fold_left (fun a' stmt => visit_statement stmt a') then_body a1 in
      match else_body with
      | Some (stmt :: rest) =>
          fold_left (fun a' stmt => visit_statement stmt a') rest
            (visit_statement stmt a2)
      | _ => a2
      end
  | ForStatement target iterable body =>
      let a1 := visit_expression iterable a in
      let a2 := on_table enter_scope a1 in
      let a3 := on_table (declare target "variable") a2 in
      let a4 := fold_left (fun a' stmt => visit_statement stmt a') body a3 in
      on_table exit_scope a4
  | WhileStatement condition body =>
      let a1 := visit_expression condition a in
      fold_left (fun a' stmt => visit_statement stmt a') body a1
  | ReturnStatement value =>
      let a1 :=
        match current_function a with
        | None => error "Return statement outside function" a
        | Some _ => a
        end in
      match value with
      | Some expr => visit_expression expr a1
      | None => a1
      end
  | AssignStatement target value =>
      let a1 := visit_expression value a in
      match lookup target (symbol_table a1) with
      | None => on_table (declare target "variable") a1
      | Some _ => a1
      end
  | ExpressionStatement expression => visit_expression expression a
  end.

Definition visit_program (node : Program) (a : t) : t :=
  fold_left (fun a' stmt => visit_statement stmt a') (statements node) a.

(** The loop [for func in self.builtin_functions]. It declares distinct
    names, so the order in which the set is walked does not matter. *)
Definition declare_builtins (a : t) : t :=
  fold_left (fun a' func => on_table (declare func "function") a')
    builtin_functions a.

(** [self.errors = []]. *)
Definition reset_errors (a : t) : t :=
  {| symbol_table := symbol_table a; errors := [];
     current_function := current_function a |}.

(** [analyze]: the new analyzer and the list it returns. *)
Definition analyze (ast : Program) (a : t) : t * list string :=
  let a1 := visit_program ast (declare_builtins (reset_errors a)) in
  (a1, errors a1).

End SemanticAnalyzer.

(** ** code_generator.py *)

Module CodeGenerator.

Section Floats.

(** Floating-point values are not modelled. [float_str v] stands for
    [str(float(v))] and [float_truth v] for [bool(float(v))]. *)
Variable float_str : string -> string.
Variable float_truth : string -> bool.

Record t := mk {
  indent_level : Z;
  output : list string
}.

Definition init : t := {| indent_level := 0; output := [] |}.

Definition indent (g : t) : string :=
  str_repeat "  " (Z.to_nat (indent_level g)).

Definition emit (code : string) (g : t) : t :=
  {| indent_level := indent_level g;
     output := output g ++ [indent g +:+ code] |}.

(** [self.indent_level += d]. *)
Definition shift (d : Z) (g : t) : t :=
  {| indent_level := indent_level g + d; output := output g |}.

(** [str(value)]. *)
Definition str_of_value (v : PyValue) : string :=
  match v with
  | PyInt n => str_of_Z n
  | PyFloat lexeme => float_str lexeme
  | PyStr s => s
  | PyBool true => "True"
  | PyBool false => "False"
  | PyNone => "None"
  end.

(** The truth value of [value] in a condition. *)
Definition truth (v : PyValue) : bool :=
  match v with
  | PyInt n => negb (Z.eqb n 0)
  | PyFloat lexeme => float_truth lexeme
  | PyStr s => negb (String.eqb s "")
  | PyBool b => b
  | PyNone => false
  end.

Definition visit_literal (value : PyValue) (type : string) : string :=
  if String.eqb type "string" then
    str1 dquote +:+ str_of_value value +:+ str1 dquote
  else if String.eqb type "number" then str_of_value value
  else if String.eqb type "boolean" then
    if truth value then "true" else "false"
  else if String.eqb type "none" then "null"
  else str_of_value value.

(** [operator_map.get(operator, operator)] of [visit_binary_op]. *)
Definition binary_operator_map (operator : string) : string :=
  if String.eqb operator "and" then "&&"
  else if String.eqb operator "or" then "||"
  else if String.eqb operator "**" then "**"
  else if String.eqb operator "//" then "Math.floor"
  else operator.

(** [operator_map.get(operator, operator)] of [visit_unary_op]. *)
Definition unary_operator_map (operator : string) : string :=
  if String.eqb operator "not" then "!"
  else if String.eqb operator "-" then "-"
  else if String.eqb operator "+" then "+"
  else operator.

Definition generate_range_function (args : list string) : string :=
  match args with
  | [a0] => "Array.from({length: " +:+ a0 +:+ "}, (_, i) => i)"
  | [a0; a1] =>
      "Array.from({length: " +:+ a1 +:+ " - " +:+ a0
      +:+ "}, (_, i) => i + " +:+ a0 +:+ ")"
  | [start; stop; step] =>
      "Array.from({length: Math.ceil((" +:+ stop +:+ " - " +:+ start
      +:+ ") / " +:+ step +:+ ")}, (_, i) => " +:+ start +:+ " + i * "
      +:+ step +:+ ")"
  | _ => "[]"
  end.

(** [node.name[0].isupper()]; the names the parser builds are lexemes of
    IDENTIFIER tokens and are not empty, on an empty name Python raises
    [IndexError]. *)
Definition first_isupper (name : string) : bool :=
  match name with
  | String c _ => isupper c
  | EmptyString => false
  end.

(** [visit_function_call] once the arguments are rendered. *)
Definition function_call (name : string) (args : list string) : string :=
  let args_str := join ", " args in
  if String.eqb name "print" then "console.log(" +:+ args_str +:+ ")"
  else if String.eqb name "len" then
    match args with
    | a0 :: _ => a0 +:+ ".length"
    | [] => "0"
    end
  else if String.eqb name "str" then "String(" +:+ args_str +:+ ")"
  else if String.eqb name "int" then "parseInt(" +:+ args_str +:+ ")"
  else if String.eqb name "float" then "parseFloat(" +:+ args_str +:+ ")"
  else if String.eqb name "bool" then "Boolean(" +:+ args_str +:+ ")"
  else if String.eqb name "list" then
    match args with
    | _ :: _ => "[" +:+ join ", " args +:+ "]"
    | [] => "[]"
    end
  else if String.eqb name "dict" then
    match args with
    | [] => "{}"
    | a0 :: _ => "{" +:+ a0 +:+ "}"
    end
  else if String.eqb name "range" then generate_range_function args
  else if first_isupper name then "new " +:+ name +:+ "(" +:+ args_str +:+ ")"
  else name +:+ "(" +:+ args_str +:+ ")".

Fixpoint visit_expression (node : Expression) : string :=
  match node with
  | BinaryOp lhs operator rhs =>
      let l := visit_expression lhs in
      let r := visit_expression rhs in
      let op := binary_operator_map operator in
      if String.eqb operator "//"
      then "Math.floor(" +:+ l +:+ " / " +:+ r +:+ ")"
      else "(" +:+ l +:+ " " +:+ op +:+ " " +:+ r +:+ ")"
  | UnaryOp operator operand =>
      unary_operator_map operator +:+ visit_expression operand
  | FunctionCall name args => function_call name (map visit_expression args)
  | MethodCall object method args =>
      visit_expression object +:+ "." +:+ method +:+ "("
      +:+ join ", " (map visit_expression args) +:+ ")"
  | Identifier name => name
  | Literal value type => visit_literal value type
  | ListLiteral elements =>
      "[" +:+ join ", " (map visit_expression elements) +:+ "]"
  | DictLiteral pairs =>
      "{" +:+ join ", "
                (map (fun kv => visit_expression (fst kv) +:+ ": "
                                +:+ visit_expression (snd kv)) pairs)
      +:+ "}"
  | AttributeAccess object attribute =>
      visit_expression object +:+ "." +:+ attribute
  | IndexAccess object index =>
      visit_expression object +:+ "[" +:+ visit_expression index +:+ "]"
  end.

(** A header line, the body one level deeper, and the closing brace. *)
Definition block (header : string) (body : t -> t) (g : t) : t :=
  emit "}" (shift (-1) (body (shift 1 (emit header g)))).

Fixpoint visit_statement (node : Statement) (g : t) : t :=
  match node with
  | FunctionDef name params body =>
      block ("function " +:+ name +:+ "(" +:+ join ", " params +:+ ") {")
        (fun g' => fold_left (fun g'' stmt => visit_statement stmt g'') body g')
        g
  | ClassDef name body =>
      block ("class " +:+ name +:+ " {")
        (fun g' =>
           fold_left
             (fun g'' stmt =>
                match stmt with
                | FunctionDef mname mparams mbody =>
                    block (mname +:+ "(" +:+ join ", " mparams +:+ ") {")
                      (fun h =>
                         fold_left (fun h' method_stmt =>
                                      visit_statement method_stmt h')
                           mbody h)
                      g''
                | _ => visit_statement stmt g''
                end)
             body g')
        g
  | IfStatement condition then_body else_body =>
      let g1 :=
        emit ("if (" +:+ visit_expression condition +:+ ") {") g in
      let g2 :=
        shift (-1)
          (fold_left (fun g' stmt => visit_statement stmt g') then_body
             (shift 1 g1)) in
      let g3 :=
        match else_body with
        | Some (stmt :: rest) =>
            shift (-1)
              (fold_left (fun g' stmt' => visit_statement stmt' g') rest
                 (visit_statement stmt (shift 1 (emit "} else {" g2))))
        | _ => g2
        end in
      emit "}" g3
  | ForStatement target iterable body =>
      block ("for (const " +:+ target +:+ " of "
             +:+ visit_expression iterable +:+ ") {")
        (fun g' => fold_left (fun g'' stmt => visit_statement stmt g'') body g')
        g
  | WhileStatement condition body =>
      block ("while (" +:+ visit_expression condition +:+ ") {")
        (fun g' => fold_left (fun g'' stmt => visit_statement stmt g'') body g')
        g
  | ReturnStatement value =>
      match value with
      | Some expr => emit ("return " +:+ visit_expression expr +:+ ";") g
      | None => emit "return;" g
      end
  | AssignStatement target value =>
      emit ("let " +:+ target +:+ " = " +:+ visit_expression value +:+ ";") g
  | ExpressionStatement expression =>
      emit (visit_expression expression +:+ ";") g
  end.

Definition visit_program (node : Program) (g : t) : t :=
  fold_left
    (fun g' stmt =>
       let g1 := visit_statement stmt g' in
       match stmt with
       | FunctionDef _ _ _ => emit "" g1
       | _ => g1
       end)
    (statements node) g.

(** [generate]: the new generator and the text it returns. *)
Definition generate (ast : Program) (g : t) : t * string :=
  let g1 := {| indent_level := indent_level g; output := [] |} in
  let g2 := visit_program ast g1 in
  (g2, join (str1 nl) (output g2)).

End Floats.

End CodeGenerator.

(** ** compiler.py *)

Module Compiler.

Section Floats.

Variable float_str : string -> string.
Variable float_truth : string -> bool.

(** The compiler instance. The fields [lexer] and [parser] are assigned
    a new object in every call of [compile] before they are read, and are
    left out. *)
Record t := mk {
  semantic_analyzer : SemanticAnalyzer.t;
  code_generator : CodeGenerator.t
}.

Definition init : t :=
  {| semantic_analyzer := SemanticAnalyzer.init;
     code_generator := CodeGenerator.init |}.

(** The exceptions raised inside the [try] block of [compile], each with
    its [str()]. *)
Inductive exception :=
| ParseError (msg : string)
| ValueError (msg : string)
| RaisedCompilerError (msg : string).

(** What [compile] gives its caller: the text, a [CompilerError], or
    nothing when the call does not return. *)
Inductive result :=
| Return (javascript_code : string)
| CompilerError (msg : string)
| NoReturn.

Definition o_acute : string := str1 "243"%char.
Definition a_acute : string := str1 "225"%char.

Definition semantic_errors_header : string :=
  "Errores sem" +:+ a_acute +:+ "nticos encontrados:" +:+ str1 nl.
Definition syntax_error_prefix : string := "Error de sintaxis: ".
Definition compile_error_prefix : string :=
  "Error de compilaci" +:+ o_acute +:+ "n: ".

(** The body of the [try] statement. The exceptions are the ones that
    the four phases raise themselves; an exception of the interpreter
    (the [RecursionError] of a deeply nested text) also reaches [except
    Exception], and leaves the analyzer and the generator where it
    struck. *)
Definition compile_try (fuel : nat) (c : t) (python_code : string)
    : t * option (exception + string) :=
  match Lexer.tokenize fuel python_code with
  | None => (c, None)
  | Some tokens =>
      match Parser.parse fuel tokens with
      | Parser.NoResult => (c, None)
      | Parser.Raises (Parser.ParseError msg) =>
          (c, Some (inl (ParseError msg)))
      | Parser.Raises (Parser.ValueError msg) =>
          (c, Some (inl (ValueError msg)))
      | Parser.Returns ast =>
          let '(analyzer, errors) :=
            SemanticAnalyzer.analyze ast (semantic_analyzer c) in
          let c1 := {| semantic_analyzer := analyzer;
                       code_generator := code_generator c |} in
          match errors with
          | _ :: _ =>
              let error_msg :=
                semantic_errors_header +:+ join (str1 nl) errors in
              (c1, Some (inl (RaisedCompilerError error_msg)))
          | [] =>
              let '(generator, javascript_code) :=
                CodeGenerator.generate float_str float_truth ast
                  (code_generator c1) in
              ({| semantic_analyzer := analyzer;
                  code_generator := generator |},
               Some (inr javascript_code))
          end
      end
  end.

(** [compile]: the [try] body under its two handlers,
    [except ParseError] and then [except Exception], which also catches
    the [CompilerError] raised inside the body. *)
Definition compile (fuel : nat) (c : t) (python_code : string)
    : t * result :=
  match compile_try fuel c python_code with
  | (c', None) => (c', NoReturn)
  | (c', Some (inr javascript_code)) => (c', Return javascript_code)
  | (c', Some (inl (ParseError msg))) =>
      (c', CompilerError (syntax_error_prefix +:+ msg))
  | (c', Some (inl (ValueError msg))) =>
      (c', CompilerError (compile_error_prefix +:+ msg))
  | (c', Some (inl (RaisedCompilerError msg))) =>
      (c', CompilerError (compile_error_prefix +:+ msg))
  end.

End Floats.

End Compiler.

(** ** The sources of the scenarios *)

(** The lines of a text, each closed by a newline. *)
Definition lines (l : list string) : string :=
  fold_right (fun s acc => s +:+ str1 nl +:+ acc) "" l.

Definition src_elif : string :=
  lines ["def s(n):";
         "    if n>0:";
         "        return 1";
         "    elif n<0:";
         "        return -1";
         "    else:";
         "        return 0"].

Definition src_range : string :=
  lines ["for i in range(0, 10, 2):";
         "    print(i)"].

Definition src_floor : string := lines ["x = 7 // 2"].

Definition src_unknown : string := lines ["print(unknown)"].

Definition src_def : string :=
  lines ["def f():";
         "    return 1"].

Definition src_class_aug : string :=
  lines ["class A:";
         "    x += 1"].


Definition num (n : Z) : Expression := Literal (PyInt n) "number".

(** [Parser(Lexer(source).tokenize()).parse()]. *)
Definition parse_source (fuel : nat) (source : string)
    : option (Parser.result Program) :=
  option_map (Parser.parse fuel) (Lexer.tokenize fuel source).

(** A token of a given kind and lexeme, wherever it stands. *)
Definition tok (ty : TokenType) (v : string) (pos : nat * nat) : Token :=
  mkToken ty v (fst pos) (snd pos).

(** A program made of one expression statement. *)
Definition expression_program (e : Expression) : Program :=
  mkProgram [ExpressionStatement e].

(** Stand-ins for [str(float(v))] and [bool(float(v))] in runs that
    meet no float. *)
Definition lexeme_str (v : string) : string := v.
Definition lexeme_truth (v : string) : bool := true.

(** The tokens of the scenarios. *)
Definition elif_tokens : list Token :=
  Eval vm_compute in default [] (Lexer.tokenize 100 src_elif).


Definition two_dots_tokens : list Token :=
  Eval vm_compute in default [] (Lexer.tokenize 100 "1.2.3").

(** The parser at the token [i] of a list. *)
Definition parser_at (toks : list Token) (i : nat) : Parser.t :=
  {| Parser.tokens := toks; Parser.pos := i |}.

(** The head shared by [parse_if_statement] and [parse_elif_chain]: the
    keyword, the condition, the colon and the block. *)
Definition if_head (parse_statement : Parser.M (option Statement))
    (keyword : TokenType) (fuel : nat)
    : Parser.M (Expression * list Statement) :=
  Parser.bind (Parser.consume keyword) (fun _ =>
  Parser.bind (Parser.parse_expression fuel) (fun condition =>
  Parser.bind (Parser.consume COLON) (fun _ =>
  Parser.bind (Parser.parse_block parse_statement fuel) (fun then_body =>
  Parser.ret (condition, then_body))))).

(** ** Token streams and parser runs *)

(** The augmented-assignment operators. *)
Definition aug (ty : TokenType) : bool :=
  TokenType_eqb ty PLUS_ASSIGN || TokenType_eqb ty MINUS_ASSIGN.

(** No [class] keyword stands before the first augmented-assignment
    operator of the tokens, or anywhere when they hold no such operator:
    the loop over a class body, which skips the tokens that do not open
    a method, is the one place where the parser moves past a token
    without looking at its kind. *)
Fixpoint no_class_before_aug (toks : list Token) : bool :=
  match toks with
  | [] => true
  | t :: rest =>
      negb (TokenType_eqb (type t) CLASS)
      && (aug (type t) || no_class_before_aug rest)
  end.

(** The operators of a left-associative level are neither augmented
    assignments nor the EOF. *)
Definition level_operators (ops : list TokenType) : bool :=
  forallb (fun o => negb (aug o) && negb (TokenType_eqb o EOF)) ops.

(** The number of tokens of a kind. *)
Definition count_type (ty : TokenType) (toks : list Token) : nat :=
  List.length (filter (fun t => type t = ty) toks).

(** A stream that ends in its only EOF token. *)
Definition ends_in_eof (toks : list Token) : Prop :=
  exists body eof,
    toks = body ++ [eof] /\ type eof = EOF
    /\ Forall (fun t => type t <> EOF) body.

(** The parser stands inside a stream that ends in its only EOF, and
    no [class] keyword stands between the cursor and the next
    augmented-assignment operator. *)
Definition well_formed (p : Parser.t) : Prop :=
  ends_in_eof (Parser.tokens p)
  /\ no_class_before_aug (drop (Parser.pos p) (Parser.tokens p)) = true
  /\ (Parser.pos p < List.length (Parser.tokens p))%nat.

(** [p'] is [p] moved forward over tokens none of which is an
    augmented-assignment operator. *)
Definition continues (p p' : Parser.t) : Prop :=
  Parser.tokens p' = Parser.tokens p
  /\ (Parser.pos p <= Parser.pos p')%nat
  /\ forall i t,
       (Parser.pos p <= i < Parser.pos p')%nat ->
       Parser.tokens p !! i = Some t -> aug (type t) = false.

(** What a run that started at [p] may end in: a return further in the
    stream ([strict]: strictly further), an exception, or fuel exhaustion
    only when [short] holds. *)
Definition meets {A : Type} (short : Prop) (strict : bool) (p : Parser.t)
    (r : Parser.outcome A) : Prop :=
  match r with
  | Parser.Ret _ p' =>
      continues p p' /\ well_formed p'
      /\ (strict = true -> (Parser.pos p < Parser.pos p')%nat)
  | Parser.Raise _ => True
  | Parser.OutOfFuel => short
  end.

(** The lexer between two iterations of its main loop: no EOF token so
    far, the stack of widths ends in the base width 0, and every width
    above the base has its INDENT not yet closed by a DEDENT. *)
Definition lexer_invariant (s : Lexer.t) (tokens : list Token) : Prop :=
  Forall (fun t => type t <> EOF) tokens
  /\ (exists above, Lexer.indent_stack s = above ++ [0%nat])
  /\ (count_type INDENT tokens + 1
      = count_type DEDENT tokens + List.length (Lexer.indent_stack s))%nat.

(** * Definitions for the further properties *)

(** Induction on statements that reaches the statements held in the
    bodies of a node. *)
Section StatementInduction.

Variable P : Statement -> Prop.

Hypothesis HFunctionDef : forall name params body,
  Forall P body -> P (FunctionDef name params body).
Hypothesis HClassDef : forall name body,
  Forall P body -> P (ClassDef name body).
Hypothesis HIfStatement : forall condition then_body else_body,
  Forall P then_body ->
  match else_body with Some l => Forall P l | None => True end ->
  P (IfStatement condition then_body else_body).
Hypothesis HForStatement : forall target iterable body,
  Forall P body -> P (ForStatement target iterable body).
Hypothesis HWhileStatement : forall condition body,
  Forall P body -> P (WhileStatement condition body).
Hypothesis HReturnStatement : forall value, P (ReturnStatement value).
Hypothesis HAssignStatement : forall target value,
  P (AssignStatement target value).
Hypothesis HExpressionStatement : forall expression,
  P (ExpressionStatement expression).

Fixpoint Statement_nested_ind (s : Statement) : P s :=
  let all :=
    fix all (l : list Statement) : Forall P l :=
      match l with
      | [] => @List.Forall_nil _ P
      | x :: rest =>
          @List.Forall_cons _ P x rest (Statement_nested_ind x) (all rest)
      end in
  match s with
  | FunctionDef name params body => HFunctionDef name params body (all body)
  | ClassDef name body => HClassDef name body (all body)
  | IfStatement condition then_body else_body =>
      HIfStatement condition then_body else_body (all then_body)
        match else_body
              return match else_body with
                     | Some l => Forall P l
                     | None => True
                     end
        with
        | Some l => all l
        | None => I
        end
  | ForStatement target iterable body =>
      HForStatement target iterable body (all body)
  | WhileStatement condition body => HWhileStatement condition body (all body)
  | ReturnStatement value => HReturnStatement value
  | AssignStatement target value => HAssignStatement target value
  | ExpressionStatement expression => HExpressionStatement expression
  end.

End StatementInduction.

(** ** The symbol table across a visit *)

(** [self.scopes[self.current_scope]] is the last scope of the list. *)
Definition table_ok (st : SemanticAnalyzer.SymbolTable) : Prop :=
  List.length (SemanticAnalyzer.scopes st)
  = S (SemanticAnalyzer.current_scope st).

(** What a visit may change: the current scope may gain names and the
    list of diagnostics may grow; the depth, the scopes below the current
    one and the current function are as before. *)
Definition frame (a a' : SemanticAnalyzer.t) : Prop :=
  SemanticAnalyzer.current_scope (SemanticAnalyzer.symbol_table a')
  = SemanticAnalyzer.current_scope (SemanticAnalyzer.symbol_table a)
  /\ take (SemanticAnalyzer.current_scope (SemanticAnalyzer.symbol_table a))
       (SemanticAnalyzer.scopes (SemanticAnalyzer.symbol_table a'))
     = take (SemanticAnalyzer.current_scope (SemanticAnalyzer.symbol_table a))
         (SemanticAnalyzer.scopes (SemanticAnalyzer.symbol_table a))
  /\ SemanticAnalyzer.current_function a'
     = SemanticAnalyzer.current_function a
  /\ exists new,
       SemanticAnalyzer.errors a' = SemanticAnalyzer.errors a ++ new.

Definition return_message : string := "Return statement outside function".

Definition parameter_message (param : string) : string :=
  "Parameter '" +:+ param +:+ "' already declared".

(** The parameters that repeat one of [seen] or an earlier parameter. *)
Fixpoint repeated (seen params : list string) : list string :=
  match params with
  | [] => []
  | p :: rest =>
      (if bool_decide (p ∈ seen) then [p] else [])
      ++ repeated (p :: seen) rest
  end.

(** The diagnostics of [visit_expression]. *)
Definition expression_message (m : string) : Prop :=
  exists name,
    m = "Undefined function '" +:+ name +:+ "'"
    \/ m = "'" +:+ name +:+ "' is not a function or class"
    \/ m = "Undefined variable '" +:+ name +:+ "'".

(** [a'] has the diagnostics of [a] and then some more, all in [Q]. *)
Definition adds (Q : string -> Prop) (a a' : SemanticAnalyzer.t) : Prop :=
  exists new,
    SemanticAnalyzer.errors a' = SemanticAnalyzer.errors a ++ new
    /\ Forall Q new.

(** A [return] that no function definition encloses. *)
Fixpoint stray_return (s : Statement) : bool :=
  match s with
  | FunctionDef _ _ _ => false
  | ClassDef _ body => existsb stray_return body
  | IfStatement _ then_body else_body =>
      existsb stray_return then_body
      || match else_body with
         | Some l => existsb stray_return l
         | None => false
         end
  | ForStatement _ _ body => existsb stray_return body
  | WhileStatement _ body => existsb stray_return body
  | ReturnStatement _ => true
  | AssignStatement _ _ => false
  | ExpressionStatement _ => false
  end.

(** What one statement keeps, for the induction. *)
Definition keeps (s : Statement) : Prop :=
  forall a,
    table_ok (SemanticAnalyzer.symbol_table a) ->
    table_ok (SemanticAnalyzer.symbol_table
                (SemanticAnalyzer.visit_statement s a))
    /\ frame a (SemanticAnalyzer.visit_statement s a).

(** The diagnostics added, when none of them can be the one for a stray
    [return]. *)
Definition quiet (a a' : SemanticAnalyzer.t) : Prop :=
  adds (fun m => m <> return_message) a a'.

(** The diagnostics added hold the one for a stray [return] exactly
    when [b] holds. *)
Definition flags (b : Prop) (a a' : SemanticAnalyzer.t) : Prop :=
  exists new,
    SemanticAnalyzer.errors a' = SemanticAnalyzer.errors a ++ new
    /\ (In return_message new <-> b).

Definition flags_stray (s : Statement) : Prop :=
  forall a,
    table_ok (SemanticAnalyzer.symbol_table a) ->
    flags (SemanticAnalyzer.current_function a = None
           /\ stray_return s = true)
      a (SemanticAnalyzer.visit_statement s a).

(** The global scope has [name], with a symbol in [Q]. *)
Definition root_has (Q : SemanticAnalyzer.Symbol -> Prop) (name : string)
    (st : SemanticAnalyzer.SymbolTable) : Prop :=
  exists symbol,
    SemanticAnalyzer.scope_get (SemanticAnalyzer.scopes st) 0 name
    = Some symbol
    /\ Q symbol.

(** [symbol.type in ['function', 'class']]. *)
Definition callable (symbol : SemanticAnalyzer.Symbol) : Prop :=
  SemanticAnalyzer.not_callable symbol = false.

(** A statement visited at the global scope keeps what the global scope
    has of [name]. *)
Definition keeps_root (Q : SemanticAnalyzer.Symbol -> Prop) (name : string)
    (s : Statement) : Prop :=
  forall a,
    table_ok (SemanticAnalyzer.symbol_table a) ->
    SemanticAnalyzer.current_scope (SemanticAnalyzer.symbol_table a) = 0%nat ->
    root_has Q name (SemanticAnalyzer.symbol_table a) ->
    root_has Q name
      (SemanticAnalyzer.symbol_table (SemanticAnalyzer.visit_statement s a)).

(** The diagnostic of a function defined twice in a scope. *)
Definition function_message (name : string) : string :=
  "Function '" +:+ name +:+ "' already declared in current scope".

(** ** The lines of a statement *)

Section GeneratedLines.

Variable float_str : string -> string.
Variable float_truth : string -> bool.

(** The lines that [visit_statement] writes for [s] at a given indent
    level, on a generator with no output yet. *)
Definition lines_at (level : Z) (s : Statement) : list string :=
  CodeGenerator.output
    (CodeGenerator.visit_statement float_str float_truth s
       (CodeGenerator.mk level [])).

End GeneratedLines.

(** [f] keeps the indent level and appends the lines [B level], which
    depend on the level only. *)
Definition appends (B : Z -> list string)
    (f : CodeGenerator.t -> CodeGenerator.t) : Prop :=
  forall g,
    CodeGenerator.indent_level (f g) = CodeGenerator.indent_level g
    /\ CodeGenerator.output (f g)
       = CodeGenerator.output g ++ B (CodeGenerator.indent_level g).

(** One level deeper, the same lines two spaces further to the right. *)
Definition uniform (B : Z -> list string) : Prop :=
  forall level,
    (0 <= level)%Z ->
    B (level + 1)%Z = List.map (String.append "  ") (B level).

Definition renders (B : Z -> list string)
    (f : CodeGenerator.t -> CodeGenerator.t) : Prop :=
  appends B f /\ uniform B.

Section RenderedStatements.

Variable float_str : string -> string.
Variable float_truth : string -> bool.

(** What the induction carries: the statement appends lines that are
    uniform in the level, at least one; for a function definition, so do
    the statements of its body, which the generator visits directly when
    the definition is a method of a class. *)
Definition renders_statement (s : Statement) : Prop :=
  exists B,
    renders B (CodeGenerator.visit_statement float_str float_truth s)
    /\ forall level, B level <> [].

Definition renders_deep (s : Statement) : Prop :=
  renders_statement s
  /\ match s with
     | FunctionDef _ _ body => Forall renders_statement body
     | _ => True
     end.

End RenderedStatements.

(** ** Brackets in the generated text *)

Definition is_bracket (c : ascii) : bool :=
  Ascii.eqb c "(" || Ascii.eqb c ")" || Ascii.eqb c "[" || Ascii.eqb c "]"
  || Ascii.eqb c "{" || Ascii.eqb c "}".

(** No bracket in [v]. *)
Definition no_bracket (v : string) : bool :=
  str_forall (fun c => negb (is_bracket c)) v.

(** The pairs of an opening and a closing bracket. *)
Definition brackets : list (ascii * ascii) :=
  [("("%char, ")"%char); ("["%char, "]"%char); ("{"%char, "}"%char)].

(** The opening brackets [o] of [v] less its closing brackets [c]. *)
Definition excess (o c : ascii) (v : string) : Z :=
  Z.of_nat (str_count o v) - Z.of_nat (str_count c v).

Definition excess_lines (o c : ascii) (lines : list string) : Z :=
  fold_right (fun l acc => excess o c l + acc)%Z 0%Z lines.

(** As many opening as closing brackets of each kind. *)
Definition balanced (v : string) : Prop :=
  forall o c, In (o, c) brackets -> str_count o v = str_count c v.

Section PlainAtoms.

Variable float_str : string -> string.

(** The names, the operators and the texts of the literals of an
    expression hold no bracket. *)
Fixpoint expression_plain (e : Expression) : bool :=
  match e with
  | BinaryOp lhs operator rhs =>
      expression_plain lhs && no_bracket operator && expression_plain rhs
  | UnaryOp operator operand =>
      no_bracket operator && expression_plain operand
  | FunctionCall name args => no_bracket name && forallb expression_plain args
  | MethodCall object method args =>
      expression_plain object && no_bracket method
      && forallb expression_plain args
  | Identifier name => no_bracket name
  | Literal value _ => no_bracket (CodeGenerator.str_of_value float_str value)
  | ListLiteral elements => forallb expression_plain elements
  | DictLiteral pairs =>
      forallb (fun kv => expression_plain (fst kv)
                         && expression_plain (snd kv)) pairs
  | AttributeAccess object attribute =>
      expression_plain object && no_bracket attribute
  | IndexAccess object index =>
      expression_plain object && expression_plain index
  end.

Definition option_plain (value : option Expression) : bool :=
  match value with
  | Some e => expression_plain e
  | None => true
  end.

(** The same for a statement, with the names it declares. *)
Fixpoint statement_plain (s : Statement) : bool :=
  match s with
  | FunctionDef name params body =>
      no_bracket name && forallb no_bracket params
      && forallb statement_plain body
  | ClassDef name body => no_bracket name && forallb statement_plain body
  | IfStatement condition then_body else_body =>
      expression_plain condition && forallb statement_plain then_body
      && match else_body with
         | Some l => forallb statement_plain l
         | None => true
         end
  | ForStatement target iterable body =>
      no_bracket target && expression_plain iterable
      && forallb statement_plain body
  | WhileStatement condition body =>
      expression_plain condition && forallb statement_plain body
  | ReturnStatement value => option_plain value
  | AssignStatement target value =>
      no_bracket target && expression_plain value
  | ExpressionStatement expression => expression_plain expression
  end.

End PlainAtoms.

Section BracketsKept.

Variable float_str : string -> string.
Variable float_truth : string -> bool.

(** A statement with plain atoms adds as many opening as closing
    brackets to the output; for a function definition, so do the
    statements of its body. *)
Definition keeps_brackets (o c : ascii) (s : Statement) : Prop :=
  statement_plain float_str s = true ->
  forall g,
    excess_lines o c
      (CodeGenerator.output
         (CodeGenerator.visit_statement float_str float_truth s g))
    = excess_lines o c (CodeGenerator.output g).

Definition keeps_brackets_deep (o c : ascii) (s : Statement) : Prop :=
  keeps_brackets o c s
  /\ match s with
     | FunctionDef _ _ body => Forall (keeps_brackets o c) body
     | _ => True
     end.

End BracketsKept.

(** ** The lexer moving through the text *)

(** [s1] has read on from [s]: it has no more text left, and no ['!']
    ahead if [s] had none. *)
Definition reads (s s1 : Lexer.t) : Prop :=
  (Lexer.remaining s1 <= Lexer.remaining s)%nat
  /\ (str_contains "!" (Lexer.text s) = false ->
      str_contains "!" (Lexer.text s1) = false).

(** The tokens that are not DEDENT tokens. *)
Definition count_other (toks : list Token) : nat :=
  List.length (filter (fun t => type t <> DEDENT) toks).

(** No DEDENT comes before its INDENT: in every prefix of the stream the
    DEDENT tokens are at most as many as the INDENT tokens. *)
Definition nested (toks : list Token) : Prop :=
  forall n,
    (count_type DEDENT (take n toks) <= count_type INDENT (take n toks))%nat.

(** ** The tokens of the stream *)

(** The value of a member of the enumeration [TokenType]. *)
Definition TokenType_value (ty : TokenType) : string :=
  match ty with
  | NUMBER => "NUMBER" | STRING => "STRING" | IDENTIFIER => "IDENTIFIER"
  | DEF => "def" | IF => "if" | ELSE => "else" | ELIF => "elif"
  | FOR => "for" | WHILE => "while" | RETURN => "return" | CLASS => "class"
  | IMPORT => "import" | FROM => "from" | AS => "as" | TRUE => "True"
  | FALSE => "False" | NONE => "None" | AND => "and" | OR => "or"
  | NOT => "not" | IN => "in" | IS => "is"
  | PLUS => "+" | MINUS => "-" | MULTIPLY => "*" | DIVIDE => "/"
  | MODULO => "%" | POWER => "**" | ASSIGN => "=" | PLUS_ASSIGN => "+="
  | MINUS_ASSIGN => "-=" | EQ => "==" | NE => "!=" | LT => "<"
  | LE => "<=" | GT => ">" | GE => ">="
  | LPAREN => "(" | RPAREN => ")" | LBRACKET => "[" | RBRACKET => "]"
  | LBRACE => "{" | RBRACE => "}" | COMMA => "," | COLON => ":" | DOT => "."
  | NEWLINE => "NEWLINE" | INDENT => "INDENT" | DEDENT => "DEDENT"
  | EOF => "EOF"
  end.

(** A first character in [first] and then characters in [then_on]. *)
Definition starts_then (first then_on : ascii -> bool) (v : string) : bool :=
  match v with
  | String c rest => first c && str_forall then_on rest
  | EmptyString => false
  end.

(** The lexeme [v] is one that a token of type [ty] can hold: a number
    begins with a digit and goes on with digits and dots, a name begins
    with a letter or an underscore, goes on with letters, digits and
    underscores and is no keyword, a layout token holds the line break or
    nothing, and a keyword, an operator or a delimiter holds the value of
    its type. *)
Definition lexeme_fits (ty : TokenType) (v : string) : bool :=
  match ty with
  | NUMBER =>
      starts_then isdigit (fun c => isdigit c || Ascii.eqb c ".") v
  | IDENTIFIER =>
      starts_then (fun c => isalpha c || Ascii.eqb c "_")
        (fun c => isalnum c || Ascii.eqb c "_") v
      && match keyword v with
         | Some _ => false
         | None => true
         end
  | STRING => true
  | NEWLINE => String.eqb v (str1 nl)
  | INDENT | DEDENT | EOF => String.eqb v ""
  | _ => String.eqb v (TokenType_value ty)
  end.

Definition lexeme_ok (t : Token) : bool := lexeme_fits (type t) (value t).

(** The lexer [s'] is at or after [s] in the same text: the line breaks
    passed and the ones still to come add up to the same number. *)
Definition later (s s' : Lexer.t) : Prop :=
  (Lexer.line s + str_count nl (Lexer.text s)
   = Lexer.line s' + str_count nl (Lexer.text s'))%nat
  /\ (Lexer.line s <= Lexer.line s')%nat
  /\ ((1 <= Lexer.column s)%nat -> (1 <= Lexer.column s')%nat).

(** The lines of the tokens never go down along the list. *)
Definition lines_ascend (tokens : list Token) : Prop :=
  forall i j t u,
    (i <= j)%nat -> tokens !! i = Some t -> tokens !! j = Some u ->
    (line t <= line u)%nat.

(** A token read between [s0] and [s]. *)
Definition placed (s0 s : Lexer.t) (t : Token) : Prop :=
  lexeme_ok t = true
  /\ (Lexer.line s0 <= line t <= Lexer.line s)%nat
  /\ (1 <= column t)%nat.

(** What the main loop keeps, for the lexer [s0] it started from. *)
Definition stream_ok (s0 s : Lexer.t) (tokens : list Token) : Prop :=
  later s0 s
  /\ (1 <= Lexer.column s)%nat
  /\ Forall (placed s0 s) tokens
  /\ lines_ascend tokens.

(** ** The cursor of the parser *)

(** The parser stands inside a stream that ends in its only EOF. *)
Definition inside (p : Parser.t) : Prop :=
  ends_in_eof (Parser.tokens p)
  /\ (Parser.pos p < List.length (Parser.tokens p))%nat.

(** [p'] is [p] moved forward in the same stream. *)
Definition moves (p p' : Parser.t) : Prop :=
  Parser.tokens p' = Parser.tokens p
  /\ (Parser.pos p <= Parser.pos p')%nat.

(** What a run that started at [p] may end in, on any stream: a return
    further in the stream ([strict]: strictly further), an exception, or
    fuel exhaustion only when [short] holds. *)
Definition settles {A : Type} (short : Prop) (strict : bool) (p : Parser.t)
    (r : Parser.outcome A) : Prop :=
  match r with
  | Parser.Ret _ p' =>
      moves p p' /\ inside p'
      /\ (strict = true -> (Parser.pos p < Parser.pos p')%nat)
  | Parser.Raise _ => True
  | Parser.OutOfFuel => short
  end.

(** ** The compiler instance between two calls *)

(** The analyzer is at the global scope, in no function, with one scope
    in its table, and the generator is at indent level 0. *)
Definition instance_ok (c : Compiler.t) : Prop :=
  table_ok (SemanticAnalyzer.symbol_table (Compiler.semantic_analyzer c))
  /\ SemanticAnalyzer.current_scope
       (SemanticAnalyzer.symbol_table (Compiler.semantic_analyzer c)) = 0%nat
  /\ SemanticAnalyzer.current_function (Compiler.semantic_analyzer c) = None
  /\ CodeGenerator.indent_level (Compiler.code_generator c) = 0%Z.

(** * Properties *)

Section Pipeline.

Variable float_str : string -> string.
Variable float_truth : string -> bool.

Local Abbreviation compile := (Compiler.compile float_str float_truth).
Local Abbreviation gen_expr :=
  (CodeGenerator.visit_expression float_str float_truth).

(** ** The lexer *)

(** At a ['!'] that no ['='] follows, one iteration of the main loop
    leaves the lexer, the flag and the tokens as they are. *)
Lemma tokenize_body_bang (s : Lexer.t) (tokens : list Token) :
  Lexer.current_char s = Some "!"%char ->
  Lexer.peek_char s 1 <> Some "="%char ->
  Lexer.tokenize_body s false tokens "!" = (s, false, tokens).
Proof.
  intros _ Hpeek. unfold Lexer.tokenize_body, Lexer.scan. simpl.
  destruct (Lexer.peek_char s 1) as [c|] eqn:E; [|reflexivity].
  destruct (Ascii.eqb_spec c "=") as [->|]; [congruence|reflexivity].
Qed.

Lemma tokenize_loop_bang (fuel : nat) (s : Lexer.t) (tokens : list Token) :
  Lexer.current_char s = Some "!"%char ->
  Lexer.peek_char s 1 <> Some "="%char ->
  Lexer.tokenize_loop fuel s false tokens = None.
Proof.
  intros Hc Hp. induction fuel as [|fuel IH]; [reflexivity|].
  cbn [Lexer.tokenize_loop]. rewrite Hc, (tokenize_body_bang s tokens Hc Hp).
  exact IH.
Qed.

(** C3. [Lexer.tokenize] does not return on the source text ["!"]: no
    amount of fuel lets the main loop reach the end of the text, so the
    claim that it terminates on every source text does not hold. The
    branch for ['!'] has no [else] that advances. *)
Theorem tokenize_bang_never_returns :
  forall fuel, Lexer.tokenize fuel "!" = None.
Proof.
  intros [|fuel]; [reflexivity|].
  unfold Lexer.tokenize. simpl.
  rewrite tokenize_loop_bang; [reflexivity|reflexivity|discriminate].
Qed.

(** ** The driver on the scenarios *)

(** C4. Compiling [x = 7 // 2] does not produce
    [let x = Math.floor(7 / 2);]: the lexer has no token for [//] and
    emits two DIVIDE tokens, the parser raises on the second one, and
    [compile] fails with a syntax error. The generator does lower a [//]
    node to [Math.floor(LEFT / RIGHT)], but no source text reaches it. *)
Theorem compile_floor_division_fails :
  forall k,
    option_map (map type) (Lexer.tokenize (100 + k) src_floor)
    = Some [IDENTIFIER; ASSIGN; NUMBER; DIVIDE; DIVIDE; NUMBER; NEWLINE; EOF]
    /\ snd (compile (100 + k) Compiler.init src_floor)
       = Compiler.CompilerError
           "Error de sintaxis: Unexpected token: TokenType.DIVIDE"
    /\ (forall lhs rhs,
          gen_expr (BinaryOp lhs "//" rhs)
          = "Math.floor(" +:+ gen_expr lhs +:+ " / " +:+ gen_expr rhs +:+ ")").
Proof.
  intros k. split; [|split].
  - vm_compute. reflexivity.
  - vm_compute. reflexivity.
  - intros lhs rhs. reflexivity.
Qed.

(** C2. On [print(unknown)] the analyzer returns one diagnostic, and the
    [CompilerError] that [compile] raises for it inside the [try] block
    is caught by [except Exception] and wrapped again: the message starts
    with the generic prefix, not with "Errores semánticos". *)
Theorem compile_semantic_error_rewrapped :
  forall k,
    let msg :=
      Compiler.compile_error_prefix +:+ Compiler.semantic_errors_header
      +:+ "Undefined variable 'unknown'" in
    snd (compile (100 + k) Compiler.init src_unknown)
    = Compiler.CompilerError msg
    /\ String.prefix Compiler.semantic_errors_header msg = false
    /\ String.prefix ("Errores sem" +:+ Compiler.a_acute +:+ "nticos") msg
       = false.
Proof.
  intros k. split; [|split]; vm_compute; reflexivity.
Qed.

(** C1. Two runs of [compile] on the same instance and the same text
    can differ: the symbol table of the analyzer is not cleared between
    runs, so the second run finds the function of the first run already
    declared and fails. *)
Theorem compile_twice_same_instance_differs :
  forall k,
    let first := compile (100 + k) Compiler.init src_def in
    let second := compile (100 + k) (fst first) src_def in
    snd first
    = Compiler.Return (lines ["function f() {"; "  return 1;"; "}"])
    /\ snd second
       = Compiler.CompilerError
           (Compiler.compile_error_prefix +:+ Compiler.semantic_errors_header
            +:+ "Function 'f' already declared in current scope").
Proof.
  intros k. split; vm_compute; reflexivity.
Qed.

(** ** The parser *)

(** C5. Operator precedence and associativity: [a + b * c] parses as
    [a + (b * c)], [a ** b ** c] as [a ** (b ** c)] and [not a or b] as
    [(not a) or b]; first for the three source texts, then for every
    choice of the three names and of the positions of the tokens. *)
Theorem parse_precedence :
  (forall k,
     parse_source (100 + k) "a + b * c"
     = Some (Parser.Returns (expression_program
         (BinaryOp (Identifier "a") "+"
            (BinaryOp (Identifier "b") "*" (Identifier "c")))))
     /\ parse_source (100 + k) "a ** b ** c"
        = Some (Parser.Returns (expression_program
            (BinaryOp (Identifier "a") "**"
               (BinaryOp (Identifier "b") "**" (Identifier "c")))))
     /\ parse_source (100 + k) "not a or b"
        = Some (Parser.Returns (expression_program
            (BinaryOp (UnaryOp "not" (Identifier "a")) "or"
               (Identifier "b")))))
  /\ (forall k a b c p1 p2 p3 p4 p5 p6,
        Parser.parse (100 + k)
          [tok IDENTIFIER a p1; tok PLUS "+" p2; tok IDENTIFIER b p3;
           tok MULTIPLY "*" p4; tok IDENTIFIER c p5; tok EOF "" p6]
        = Parser.Returns (expression_program
            (BinaryOp (Identifier a) "+"
               (BinaryOp (Identifier b) "*" (Identifier c))))
        /\ Parser.parse (100 + k)
             [tok IDENTIFIER a p1; tok POWER "**" p2; tok IDENTIFIER b p3;
              tok POWER "**" p4; tok IDENTIFIER c p5; tok EOF "" p6]
           = Parser.Returns (expression_program
               (BinaryOp (Identifier a) "**"
                  (BinaryOp (Identifier b) "**" (Identifier c))))
        /\ Parser.parse (100 + k)
             [tok NOT "not" p1; tok IDENTIFIER a p2; tok OR "or" p3;
              tok IDENTIFIER b p4; tok EOF "" p5]
           = Parser.Returns (expression_program
               (BinaryOp (UnaryOp "not" (Identifier a)) "or"
                  (Identifier b)))).
Proof.
  split.
  - intros k. repeat split; vm_compute; reflexivity.
  - intros. repeat split; vm_compute; reflexivity.
Qed.

(** A NUMBER lexeme with two dots or more is not a float. *)
Lemma float_of_lexeme_two_dots (v : string) :
  (2 <= str_count "." v)%nat -> float_of_lexeme v = None.
Proof.
  intros H. unfold float_of_lexeme.
  destruct (str_count "." v <=? 1)%nat eqn:E.
  - apply Nat.leb_le in E. lia.
  - rewrite andb_false_r. reflexivity.
Qed.

Lemma str_contains_count (c : ascii) (v : string) :
  (1 <= str_count c v)%nat -> str_contains c v = true.
Proof.
  induction v as [|d v IH]; simpl; [lia|].
  destruct (Ascii.eqb c d); [reflexivity|]. simpl. exact IH.
Qed.

(** C10. At a NUMBER token whose lexeme has more than one ['.'],
    [parse_primary_expression] raises the [ValueError] of [float()], not
    a [ParseError]; a [ValueError] of the parser reaches [except
    Exception], so [compile] fails with the generic prefix, which is not
    the prefix of a syntax error; and so it is for the text [1.2.3]. *)
Theorem number_with_two_dots_value_error :
  forall parse_expression fuel p,
    type (Parser.current_token p) = NUMBER ->
    (2 <= str_count "." (value (Parser.current_token p)))%nat ->
    Parser.parse_primary_expression parse_expression fuel p
    = Parser.Raise
        (Parser.ValueError
           ("could not convert string to float: "
            +:+ repr (value (Parser.current_token p))))
    /\ (forall fuel' c source tokens msg,
          Lexer.tokenize fuel' source = Some tokens ->
          Parser.parse fuel' tokens = Parser.Raises (Parser.ValueError msg) ->
          compile fuel' c source
          = (c, Compiler.CompilerError (Compiler.compile_error_prefix +:+ msg))
          /\ String.prefix Compiler.syntax_error_prefix
               (Compiler.compile_error_prefix +:+ msg) = false)
    /\ (forall k,
          snd (compile (100 + k) Compiler.init "1.2.3")
          = Compiler.CompilerError
              (Compiler.compile_error_prefix
               +:+ "could not convert string to float: '1.2.3'")).
Proof.
  intros pe fuel p Hty Hdots. split; [|split].
  - unfold Parser.parse_primary_expression, Parser.bind, Parser.current,
      Parser.if_match.
    rewrite Hty. cbn [existsb]. unfold Parser.advance.
    assert (Hnum : forall q,
      Parser.number_literal (value (Parser.current_token p)) q
      = Parser.Raise (Parser.ValueError
          ("could not convert string to float: "
           +:+ repr (value (Parser.current_token p))))).
    { intros q. unfold Parser.number_literal.
      rewrite str_contains_count by lia.
      rewrite float_of_lexeme_two_dots by exact Hdots. reflexivity. }
    destruct (_ <? _)%nat; apply Hnum.
  - intros fuel' c source tokens msg Hlex Hparse. split.
    + unfold Compiler.compile, Compiler.compile_try.
      rewrite Hlex, Hparse. reflexivity.
    + reflexivity.
  - intros k. vm_compute. reflexivity.
Qed.


(** ** The generator *)

(** C6. The calls of the built-in table are lowered to the tabulated
    forms, with the rendered arguments placed in them as they are and no
    parentheses added; [range(0, 10, 2)] and [print(i)] give the texts of
    the scenario, and so does the whole [for] loop through [compile]. *)
Theorem builtin_calls_lowered :
  (forall a b x s,
     let va := gen_expr a in
     let vb := gen_expr b in
     let vx := gen_expr x in
     let vs := gen_expr s in
     gen_expr (FunctionCall "print" [a; b])
     = "console.log(" +:+ (va +:+ ", " +:+ vb) +:+ ")"
     /\ gen_expr (FunctionCall "len" [x]) = vx +:+ ".length"
     /\ gen_expr (FunctionCall "str" [x]) = "String(" +:+ vx +:+ ")"
     /\ gen_expr (FunctionCall "int" [x]) = "parseInt(" +:+ vx +:+ ")"
     /\ gen_expr (FunctionCall "float" [x]) = "parseFloat(" +:+ vx +:+ ")"
     /\ gen_expr (FunctionCall "bool" [x]) = "Boolean(" +:+ vx +:+ ")"
     /\ gen_expr (FunctionCall "list" []) = "[]"
     /\ gen_expr (FunctionCall "list" [a; b])
        = "[" +:+ (va +:+ ", " +:+ vb) +:+ "]"
     /\ gen_expr (FunctionCall "dict" []) = "{}"
     /\ gen_expr (FunctionCall "dict" [x]) = "{" +:+ vx +:+ "}"
     /\ gen_expr (FunctionCall "range" [x])
        = "Array.from({length: " +:+ vx +:+ "}, (_, i) => i)"
     /\ gen_expr (FunctionCall "range" [a; b])
        = "Array.from({length: " +:+ vb +:+ " - " +:+ va
          +:+ "}, (_, i) => i + " +:+ va +:+ ")"
     /\ gen_expr (FunctionCall "range" [a; b; s])
        = "Array.from({length: Math.ceil((" +:+ vb +:+ " - " +:+ va
          +:+ ") / " +:+ vs +:+ ")}, (_, i) => " +:+ va +:+ " + i * "
          +:+ vs +:+ ")")
  /\ (forall args,
        gen_expr (FunctionCall "print" args)
        = "console.log(" +:+ join ", " (map gen_expr args) +:+ ")")
  /\ gen_expr (FunctionCall "range" [num 0; num 10; num 2])
     = "Array.from({length: Math.ceil((10 - 0) / 2)}, (_, i) => 0 + i * 2)"
  /\ gen_expr (FunctionCall "print" [Identifier "i"]) = "console.log(i)"
  /\ (forall k,
        snd (compile (100 + k) Compiler.init src_range)
        = Compiler.Return
            (join (str1 nl)
               ["for (const i of Array.from({length: Math.ceil((10 - 0) / 2)}, (_, i) => 0 + i * 2)) {";
                "  console.log(i);";
                "}"])).
Proof.
  split; [|split; [|split; [|split]]].
  - intros. repeat split; reflexivity.
  - intros. reflexivity.
  - vm_compute. reflexivity.
  - reflexivity.
  - intros k. vm_compute. reflexivity.
Qed.

(** ** The semantic analyzer *)

(** Visiting an expression leaves the symbol table and the current
    function as they are and only appends diagnostics. *)
Lemma visit_expression_appends (e : Expression) :
  forall a,
    SemanticAnalyzer.symbol_table (SemanticAnalyzer.visit_expression e a)
    = SemanticAnalyzer.symbol_table a
    /\ SemanticAnalyzer.current_function
         (SemanticAnalyzer.visit_expression e a)
       = SemanticAnalyzer.current_function a
    /\ exists new,
         SemanticAnalyzer.errors (SemanticAnalyzer.visit_expression e a)
         = SemanticAnalyzer.errors a ++ new.
Proof.
  assert (Hfold : forall l : list Expression,
    Forall (fun e => forall a,
      SemanticAnalyzer.symbol_table (SemanticAnalyzer.visit_expression e a)
      = SemanticAnalyzer.symbol_table a
      /\ SemanticAnalyzer.current_function
           (SemanticAnalyzer.visit_expression e a)
         = SemanticAnalyzer.current_function a
      /\ exists new,
           SemanticAnalyzer.errors (SemanticAnalyzer.visit_expression e a)
           = SemanticAnalyzer.errors a ++ new) l ->
    forall a,
      let a' := fold_left
                  (fun a' arg => SemanticAnalyzer.visit_expression arg a')
                  l a in
      SemanticAnalyzer.symbol_table a' = SemanticAnalyzer.symbol_table a
      /\ SemanticAnalyzer.current_function a'
         = SemanticAnalyzer.current_function a
      /\ exists new,
           SemanticAnalyzer.errors a' = SemanticAnalyzer.errors a ++ new).
  { induction 1 as [|x l Hx _ IH]; intros a; simpl.
    - repeat split; try reflexivity. exists []. rewrite app_nil_r. reflexivity.
    - destruct (Hx a) as (Ht & Hf & new1 & He).
      destruct (IH (SemanticAnalyzer.visit_expression x a))
        as (Ht' & Hf' & new2 & He').
      repeat split; [congruence|congruence|].
      exists (new1 ++ new2). rewrite He', He, app_assoc. reflexivity. }
  assert (Hcheck : forall name a,
    SemanticAnalyzer.symbol_table (SemanticAnalyzer.check_callee name a)
    = SemanticAnalyzer.symbol_table a
    /\ SemanticAnalyzer.current_function
         (SemanticAnalyzer.check_callee name a)
       = SemanticAnalyzer.current_function a
    /\ exists new,
         SemanticAnalyzer.errors (SemanticAnalyzer.check_callee name a)
         = SemanticAnalyzer.errors a ++ new).
  { intros name a. unfold SemanticAnalyzer.check_callee.
    destruct (SemanticAnalyzer.lookup _ _) as [sym|];
      [destruct (SemanticAnalyzer.not_callable sym)|]; simpl;
      repeat split; eauto.
    exists []. rewrite app_nil_r. reflexivity. }
  induction e as
    [lhs op rhs IHl IHr | op operand IH | name args IH
    | object method args IHo IH | name | v ty | elements IH | pairs IH
    | object attribute IH | object index IHo IHi]
    using Expression_nested_ind; intros a; simpl.
  - destruct (IHl a) as (Ht & Hf & new1 & He).
    destruct (IHr (SemanticAnalyzer.visit_expression lhs a))
      as (Ht' & Hf' & new2 & He').
    repeat split; [congruence|congruence|].
    exists (new1 ++ new2). rewrite He', He, app_assoc. reflexivity.
  - apply IH.
  - destruct (Hcheck name a) as (Ht & Hf & new1 & He).
    destruct (Hfold args IH (SemanticAnalyzer.check_callee name a))
      as (Ht' & Hf' & new2 & He').
    repeat split; [congruence|congruence|].
    exists (new1 ++ new2). rewrite He', He, app_assoc. reflexivity.
  - destruct (IHo a) as (Ht & Hf & new1 & He).
    destruct (Hfold args IH (SemanticAnalyzer.visit_expression object a))
      as (Ht' & Hf' & new2 & He').
    repeat split; [congruence|congruence|].
    exists (new1 ++ new2). rewrite He', He, app_assoc. reflexivity.
  - destruct (SemanticAnalyzer.lookup _ _); simpl; repeat split; eauto.
    exists []. rewrite app_nil_r. reflexivity.
  - repeat split. exists []. rewrite app_nil_r. reflexivity.
  - apply (Hfold elements IH a).
  - revert a. induction IH as [|kv l [Hk Hv] _ IHl]; intros a; simpl.
    + repeat split. exists []. rewrite app_nil_r. reflexivity.
    + destruct (Hk a) as (Ht & Hf & new1 & He).
      destruct (Hv (SemanticAnalyzer.visit_expression (fst kv) a))
        as (Ht' & Hf' & new2 & He').
      destruct (IHl (SemanticAnalyzer.visit_expression (snd kv)
                       (SemanticAnalyzer.visit_expression (fst kv) a)))
        as (Ht'' & Hf'' & new3 & He'').
      repeat split; [congruence|congruence|].
      exists (new1 ++ new2 ++ new3).
      rewrite He'', He', He, !app_assoc. reflexivity.
  - apply IH.
  - destruct (IHo a) as (Ht & Hf & new1 & He).
    destruct (IHi (SemanticAnalyzer.visit_expression object a))
      as (Ht' & Hf' & new2 & He').
    repeat split; [congruence|congruence|].
    exists (new1 ++ new2). rewrite He', He, app_assoc. reflexivity.
Qed.

Lemma lookup_from_hit (i : nat) (name : string)
    (scopes : list (gmap string SemanticAnalyzer.Symbol))
    (symbol : SemanticAnalyzer.Symbol) :
  SemanticAnalyzer.scope_get scopes i name = Some symbol ->
  SemanticAnalyzer.lookup_from i name scopes = Some symbol.
Proof. intros H. destruct i; simpl; rewrite H; reflexivity. Qed.

(** After the loop over the built-in names each of them is a function
    of the current scope. *)
Lemma declare_builtins_lookup (a : SemanticAnalyzer.t) (b : string) :
  In b SemanticAnalyzer.builtin_functions ->
  (SemanticAnalyzer.current_scope (SemanticAnalyzer.symbol_table a)
   < List.length
       (SemanticAnalyzer.scopes (SemanticAnalyzer.symbol_table a)))%nat ->
  SemanticAnalyzer.lookup b
    (SemanticAnalyzer.symbol_table (SemanticAnalyzer.declare_builtins a))
  = Some (SemanticAnalyzer.mkSymbol b "function"
            ("scope_" +:+ str_of_nat
               (SemanticAnalyzer.current_scope
                  (SemanticAnalyzer.symbol_table a)))).
Proof.
  intros Hin Hlt.
  destruct (lookup_lt_is_Some_2 _ _ Hlt) as [m Hm].
  unfold SemanticAnalyzer.lookup. apply lookup_from_hit.
  unfold SemanticAnalyzer.declare_builtins, SemanticAnalyzer.builtin_functions.
  cbn [fold_left SemanticAnalyzer.on_table SemanticAnalyzer.declare
       SemanticAnalyzer.symbol_table SemanticAnalyzer.scopes
       SemanticAnalyzer.current_scope].
  unfold SemanticAnalyzer.scope_get.
  rewrite !list_lookup_alter_eq, Hm. cbn [fmap option_fmap option_map].
  cbn [In] in Hin.
  repeat (destruct Hin as [<-|Hin];
    [repeat (rewrite lookup_insert_ne by discriminate);
     rewrite lookup_insert_eq; reflexivity|]).
  contradiction.
Qed.

(** C8. The callee test of a call: the call behaves as the call without
    arguments followed by the analysis of every argument in order; the
    call without arguments leaves the symbol table as it is and appends
    ["Undefined function '<name>'"] when no symbol is visible,
    ["'<name>' is not a function or class"] when the visible symbol is
    neither a function nor a class, and nothing otherwise. [analyze]
    declares the built-in names as functions of the current scope, the
    global one, before the walk, and a call of one of them then adds no
    diagnostic of its own. *)
Theorem function_call_diagnostics :
  forall a name args b,
    In b SemanticAnalyzer.builtin_functions ->
    (SemanticAnalyzer.current_scope (SemanticAnalyzer.symbol_table a)
     < List.length
         (SemanticAnalyzer.scopes (SemanticAnalyzer.symbol_table a)))%nat ->
    let visit := SemanticAnalyzer.visit_expression in
    let visit_all :=
      fold_left (fun a' arg => SemanticAnalyzer.visit_expression arg a') in
    let a0 :=
      SemanticAnalyzer.declare_builtins (SemanticAnalyzer.reset_errors a) in
    visit (FunctionCall name args) a
    = visit_all args (visit (FunctionCall name []) a)
    /\ SemanticAnalyzer.symbol_table (visit (FunctionCall name []) a)
       = SemanticAnalyzer.symbol_table a
    /\ SemanticAnalyzer.errors (visit (FunctionCall name []) a)
       = SemanticAnalyzer.errors a ++
         match SemanticAnalyzer.lookup name (SemanticAnalyzer.symbol_table a)
         with
         | None => ["Undefined function '" +:+ name +:+ "'"]
         | Some symbol =>
             if String.eqb (SemanticAnalyzer.type symbol) "function"
                || String.eqb (SemanticAnalyzer.type symbol) "class"
             then []
             else ["'" +:+ name +:+ "' is not a function or class"]
         end
    /\ (forall ast,
          SemanticAnalyzer.analyze ast a
          = (SemanticAnalyzer.visit_program ast a0,
             SemanticAnalyzer.errors (SemanticAnalyzer.visit_program ast a0)))
    /\ SemanticAnalyzer.lookup b (SemanticAnalyzer.symbol_table a0)
       = Some (SemanticAnalyzer.mkSymbol b "function"
                 ("scope_" +:+ str_of_nat
                    (SemanticAnalyzer.current_scope
                       (SemanticAnalyzer.symbol_table a))))
    /\ SemanticAnalyzer.lookup b
         (SemanticAnalyzer.symbol_table
            (SemanticAnalyzer.declare_builtins
               (SemanticAnalyzer.reset_errors SemanticAnalyzer.init)))
       = Some (SemanticAnalyzer.mkSymbol b "function" "scope_0")
    /\ SemanticAnalyzer.errors a0 = []
    /\ visit (FunctionCall b []) a0 = a0
    /\ visit (FunctionCall b args) a0 = visit_all args a0.
Proof.
  intros a name args b Hin Hlt visit visit_all a0.
  assert (Hb : SemanticAnalyzer.lookup b (SemanticAnalyzer.symbol_table a0)
               = Some (SemanticAnalyzer.mkSymbol b "function"
                         ("scope_" +:+ str_of_nat
                            (SemanticAnalyzer.current_scope
                               (SemanticAnalyzer.symbol_table a))))).
  { apply (declare_builtins_lookup (SemanticAnalyzer.reset_errors a) b Hin).
    exact Hlt. }
  assert (Hcall : visit (FunctionCall b []) a0 = a0).
  { unfold visit. cbn [SemanticAnalyzer.visit_expression fold_left].
    unfold SemanticAnalyzer.check_callee. rewrite Hb. reflexivity. }
  split; [reflexivity|]. split.
  { unfold visit. cbn [SemanticAnalyzer.visit_expression fold_left].
    unfold SemanticAnalyzer.check_callee.
    destruct (SemanticAnalyzer.lookup name (SemanticAnalyzer.symbol_table a)) as [sym|];
      [destruct (SemanticAnalyzer.not_callable sym)|]; reflexivity. }
  split.
  { unfold visit. cbn [SemanticAnalyzer.visit_expression fold_left].
    unfold SemanticAnalyzer.check_callee, SemanticAnalyzer.not_callable.
    destruct (SemanticAnalyzer.lookup name (SemanticAnalyzer.symbol_table a)) as [sym|]; [|reflexivity].
    destruct (_ || _); cbn [negb]; [|reflexivity].
    rewrite app_nil_r. reflexivity. }
  split; [reflexivity|]. split; [exact Hb|]. split.
  { apply (declare_builtins_lookup
             (SemanticAnalyzer.reset_errors SemanticAnalyzer.init) b Hin).
    (cbn; lia). }
  split; [reflexivity|]. split; [exact Hcall|].
  change (visit (FunctionCall b args) a0)
    with (visit_all args (visit (FunctionCall b []) a0)).
  rewrite Hcall. reflexivity.
Qed.


(** ** elif chains *)

(** Whatever [parse_elif_chain] returns is an [IfStatement]. *)
Lemma parse_elif_chain_returns_if ps fuel p stmt p' :
  Parser.parse_elif_chain ps fuel p = Parser.Ret stmt p' ->
  exists c t e, stmt = IfStatement c t e.
Proof.
  destruct fuel as [|fuel]; [discriminate|].
  cbn [Parser.parse_elif_chain]. unfold Parser.bind, Parser.if_match.
  destruct (Parser.consume ELIF p) as [? p1| |]; [|discriminate..].
  destruct (Parser.parse_expression fuel p1) as [c p2| |]; [|discriminate..].
  destruct (Parser.consume COLON p2) as [? p3| |]; [|discriminate..].
  destruct (Parser.parse_block ps fuel p3) as [t p4| |]; [|discriminate..].
  destruct (existsb _ [ELIF]).
  { destruct (Parser.parse_elif_chain ps fuel p4) as [s p5| |];
      [|discriminate..].
    unfold Parser.ret; intros [= <- <-]; eauto. }
  destruct (existsb _ [ELSE]).
  { destruct (Parser.advance p4) as [? p5| |]; [|discriminate..].
    destruct (Parser.consume COLON p5) as [? p6| |]; [|discriminate..].
    destruct (Parser.parse_block ps fuel p6) as [e p7| |];
      [|discriminate..].
    unfold Parser.ret; intros [= <- <-]; eauto. }
  unfold Parser.ret; intros [= <- <-]; eauto.
Qed.

(** C7. When an [elif] follows the block of an [if] or of an [elif],
    the node built has for [else_body] the list whose only element is the
    [IfStatement] that [parse_elif_chain] returns for the rest of the
    chain; the generator renders an [else_body] made of one [IfStatement]
    as the line ["} else {"], the nested statement one level deeper, and
    the closing brace; and the source of the scenario gives the nested
    tree and the nested text. *)
Theorem elif_is_nested_if :
  forall ps fuel p c t p2,
    if_head ps IF fuel p = Parser.Ret (c, t) p2 ->
    type (Parser.current_token p2) = ELIF ->
    match Parser.parse_if_statement ps fuel p with
    | Parser.Ret stmt p3 =>
        exists c' t' e',
          stmt = IfStatement c t (Some [IfStatement c' t' e'])
          /\ Parser.parse_elif_chain ps fuel p2
             = Parser.Ret (IfStatement c' t' e') p3
    | Parser.Raise e => Parser.parse_elif_chain ps fuel p2 = Parser.Raise e
    | Parser.OutOfFuel =>
        Parser.parse_elif_chain ps fuel p2 = Parser.OutOfFuel
    end
    /\ (forall q c1 t1 q2,
          if_head ps ELIF fuel q = Parser.Ret (c1, t1) q2 ->
          type (Parser.current_token q2) = ELIF ->
          match Parser.parse_elif_chain ps (S fuel) q with
          | Parser.Ret stmt q3 =>
              exists c' t' e',
                stmt = IfStatement c1 t1 (Some [IfStatement c' t' e'])
                /\ Parser.parse_elif_chain ps fuel q2
                   = Parser.Ret (IfStatement c' t' e') q3
          | Parser.Raise e =>
              Parser.parse_elif_chain ps fuel q2 = Parser.Raise e
          | Parser.OutOfFuel =>
              Parser.parse_elif_chain ps fuel q2 = Parser.OutOfFuel
          end)
    /\ (forall c0 t0 c' t' e' g,
          let visit := CodeGenerator.visit_statement float_str float_truth in
          let after_then :=
            CodeGenerator.shift (-1)
              (fold_left (fun g' stmt => visit stmt g') t0
                 (CodeGenerator.shift 1
                    (CodeGenerator.emit
                       ("if (" +:+ gen_expr c0 +:+ ") {") g))) in
          visit (IfStatement c0 t0 (Some [IfStatement c' t' e'])) g
          = CodeGenerator.emit "}"
              (CodeGenerator.shift (-1)
                 (visit (IfStatement c' t' e')
                    (CodeGenerator.shift 1
                       (CodeGenerator.emit "} else {" after_then)))))
    /\ (forall k,
          parse_source (100 + k) src_elif
          = Some (Parser.Returns (mkProgram
              [FunctionDef "s" ["n"]
                 [IfStatement (BinaryOp (Identifier "n") ">" (num 0))
                    [ReturnStatement (Some (num 1))]
                    (Some
                       [IfStatement (BinaryOp (Identifier "n") "<" (num 0))
                          [ReturnStatement (Some (UnaryOp "-" (num 1)))]
                          (Some [ReturnStatement (Some (num 0))])])]]))
          /\ snd (compile (100 + k) Compiler.init src_elif)
             = Compiler.Return
                 (lines ["function s(n) {";
                         "  if ((n > 0)) {";
                         "    return 1;";
                         "  } else {";
                         "    if ((n < 0)) {";
                         "      return -1;";
                         "    } else {";
                         "      return 0;";
                         "    }";
                         "  }";
                         "}"])).
Proof.
  intros ps fuel p c t p2 Hhead Helif.
  assert (Hstep : forall kw body q c1 t1 q2,
    if_head ps kw fuel q = Parser.Ret (c1, t1) q2 ->
    type (Parser.current_token q2) = ELIF ->
    body =
      Parser.bind (Parser.consume kw) (fun _ =>
      Parser.bind (Parser.parse_expression fuel) (fun condition =>
      Parser.bind (Parser.consume COLON) (fun _ =>
      Parser.bind (Parser.parse_block ps fuel) (fun then_body =>
        Parser.if_match [ELIF]
          (Parser.bind (Parser.parse_elif_chain ps fuel) (fun elif_stmt =>
             Parser.ret
               (IfStatement condition then_body (Some [elif_stmt]))))
          (Parser.if_match [ELSE]
             (Parser.bind Parser.advance (fun _ =>
              Parser.bind (Parser.consume COLON) (fun _ =>
              Parser.bind (Parser.parse_block ps fuel) (fun else_body =>
                Parser.ret
                  (IfStatement condition then_body (Some else_body))))))
             (Parser.ret (IfStatement condition then_body None))))))) ->
    match body q with
    | Parser.Ret stmt q3 =>
        exists c' t' e',
          stmt = IfStatement c1 t1 (Some [IfStatement c' t' e'])
          /\ Parser.parse_elif_chain ps fuel q2
             = Parser.Ret (IfStatement c' t' e') q3
    | Parser.Raise e => Parser.parse_elif_chain ps fuel q2 = Parser.Raise e
    | Parser.OutOfFuel =>
        Parser.parse_elif_chain ps fuel q2 = Parser.OutOfFuel
    end).
  { intros kw body q c1 t1 q2 Hh He ->.
    unfold if_head, Parser.bind in Hh. unfold Parser.bind.
    destruct (Parser.consume kw q) as [? qa| |]; [|discriminate..].
    destruct (Parser.parse_expression fuel qa) as [c0 qb| |];
      [|discriminate..].
    destruct (Parser.consume COLON qb) as [? qc| |]; [|discriminate..].
    destruct (Parser.parse_block ps fuel qc) as [t0 qd| |];
      [|discriminate..].
    unfold Parser.ret in Hh. injection Hh as -> -> ->.
    unfold Parser.if_match. rewrite He. cbn [existsb].
    change (TokenType_eqb ELIF ELIF) with true. cbn [orb].
    destruct (Parser.parse_elif_chain ps fuel q2) as [s q3| |] eqn:E;
      [|reflexivity..].
    destruct (parse_elif_chain_returns_if _ _ _ _ _ E) as (c' & t' & e' & ->).
    unfold Parser.ret. eauto. }
  split; [|split; [|split]].
  - apply (Hstep IF _ p c t p2 Hhead Helif). reflexivity.
  - intros q c1 t1 q2 Hh He.
    apply (Hstep ELIF _ q c1 t1 q2 Hh He). reflexivity.
  - intros. reflexivity.
  - intros k. split; vm_compute; reflexivity.
Qed.

(** ** The token stream of a run of the lexer that returns *)

Lemma while_invariant {A : Type} (P : A -> Prop) (fuel : nat)
    (cond : A -> bool) (body : A -> A) (a : A) :
  (forall x, P x -> cond x = true -> P (body x)) ->
  P a -> P (while fuel cond body a).
Proof.
  intros Hbody. revert a. induction fuel as [|fuel IH]; intros a Ha; simpl.
  - exact Ha.
  - destruct (cond a) eqn:E; [|exact Ha]. apply IH, Hbody; assumption.
Qed.

Lemma count_type_app (ty : TokenType) (l1 l2 : list Token) :
  count_type ty (l1 ++ l2) = (count_type ty l1 + count_type ty l2)%nat.
Proof. unfold count_type. rewrite filter_app, length_app. reflexivity. Qed.

Lemma count_type_other (ty : TokenType) (t : Token) :
  type t <> ty -> count_type ty [t] = 0%nat.
Proof.
  intros H. unfold count_type. rewrite filter_cons_False by exact H.
  reflexivity.
Qed.

Lemma count_type_same (ty : TokenType) (t : Token) :
  type t = ty -> count_type ty [t] = 1%nat.
Proof.
  intros H. unfold count_type. rewrite filter_cons_True by exact H.
  reflexivity.
Qed.

Lemma advance_stack (s : Lexer.t) :
  Lexer.indent_stack (Lexer.advance s) = Lexer.indent_stack s.
Proof.
  unfold Lexer.advance. destruct (Lexer.text s) as [|c rest]; [reflexivity|].
  destruct (Ascii.eqb c nl); reflexivity.
Qed.

Lemma while_advance_stack (fuel : nat) (cond : Lexer.t -> bool)
    (s : Lexer.t) :
  Lexer.indent_stack (while fuel cond Lexer.advance s)
  = Lexer.indent_stack s.
Proof.
  apply (while_invariant
           (fun x => Lexer.indent_stack x = Lexer.indent_stack s));
    [|reflexivity].
  intros x Hx _. rewrite advance_stack. exact Hx.
Qed.

(** A token that is neither layout nor EOF keeps the invariant when the
    stack is left alone. *)
Lemma invariant_append (s s' : Lexer.t) (tokens : list Token) (t : Token) :
  lexer_invariant s tokens ->
  Lexer.indent_stack s' = Lexer.indent_stack s ->
  type t <> EOF -> type t <> INDENT -> type t <> DEDENT ->
  lexer_invariant s' (tokens ++ [t]).
Proof.
  intros (Hall & Hbase & Hcount) Hstack Heof Hin Hde.
  unfold lexer_invariant. rewrite Hstack, !count_type_app.
  rewrite (count_type_other INDENT t Hin), (count_type_other DEDENT t Hde).
  split; [|split; [exact Hbase|lia]].
  apply Forall_app. split; [exact Hall|]. constructor; [exact Heof|constructor].
Qed.

Lemma invariant_same (s s' : Lexer.t) (tokens : list Token) :
  lexer_invariant s tokens ->
  Lexer.indent_stack s' = Lexer.indent_stack s ->
  lexer_invariant s' tokens.
Proof.
  intros H Hstack. unfold lexer_invariant. rewrite Hstack. exact H.
Qed.

(** Popping a width above the base and emitting its DEDENT keeps the
    invariant. *)
Lemma invariant_pop (s : Lexer.t) (tokens : list Token) (top : nat)
    (rest : list nat) :
  lexer_invariant s tokens ->
  Lexer.indent_stack s = top :: rest -> rest <> [] ->
  lexer_invariant (Lexer.pop s) (tokens ++ [Lexer.dedent_token s]).
Proof.
  intros (Hall & (above & Hbase) & Hcount) Hstack Hrest.
  unfold lexer_invariant, Lexer.pop. cbn [Lexer.indent_stack].
  rewrite !count_type_app.
  rewrite (count_type_other INDENT) by (cbn; discriminate).
  rewrite (count_type_same DEDENT) by reflexivity.
  rewrite Hstack in *. cbn [tl List.length] in *.
  split; [|split].
  - apply Forall_app. split; [exact Hall|].
    constructor; [cbn; discriminate|constructor].
  - destruct above as [|a above]; cbn in Hbase.
    + injection Hbase as _ Hr. congruence.
    + injection Hbase as _ ->. exists above. reflexivity.
  - lia.
Qed.

Lemma dedent_all_invariant (s : Lexer.t) (tokens : list Token) :
  lexer_invariant s tokens ->
  lexer_invariant (fst (Lexer.dedent_all s tokens))
    (snd (Lexer.dedent_all s tokens)).
Proof.
  intros H. unfold Lexer.dedent_all.
  apply (while_invariant (fun st => lexer_invariant (fst st) (snd st)));
    [|exact H].
  intros [x acc] Hx Hcond. cbn [fst snd] in *.
  apply Nat.ltb_lt in Hcond.
  destruct (Lexer.indent_stack x) as [|top rest] eqn:E; [cbn in Hcond; lia|].
  apply (invariant_pop x acc top rest Hx E).
  intros ->. cbn in Hcond. lia.
Qed.

Lemma handle_indentation_invariant (s : Lexer.t) (tokens : list Token) :
  lexer_invariant s tokens ->
  lexer_invariant (fst (Lexer.handle_indentation s))
    (tokens ++ snd (Lexer.handle_indentation s)).
Proof.
  intros H. unfold Lexer.handle_indentation.
  set (measured :=
         while (Lexer.remaining s)
           (fun si => Lexer.current_is in_space_tab (fst si))
           (fun si =>
              (Lexer.advance (fst si),
               if Lexer.current_is (Ascii.eqb " ") (fst si)
               then (snd si + 1)%nat else (snd si + 4)%nat))
           (s, 0%nat)).
  assert (Hstack : Lexer.indent_stack (fst measured) = Lexer.indent_stack s).
  { apply (while_invariant
             (fun si => Lexer.indent_stack (fst si) = Lexer.indent_stack s));
      [|reflexivity].
    intros [x n] Hx _. cbn [fst]. rewrite advance_stack. exact Hx. }
  destruct measured as [s1 indent_level]. cbn [fst] in Hstack.
  assert (H1 : lexer_invariant s1 tokens)
    by (apply (invariant_same s); assumption).
  destruct (Lexer.current_char s1) as [c|];
    [|cbn [fst snd]; rewrite app_nil_r; exact H1].
  destruct (_ || _); [cbn [fst snd]; rewrite app_nil_r; exact H1|].
  destruct (_ <? _)%nat.
  - cbn [fst snd]. destruct H1 as (Hall & (above & Hbase) & Hcount).
    unfold lexer_invariant, Lexer.push. cbn [Lexer.indent_stack].
    rewrite !count_type_app.
    rewrite (count_type_same INDENT) by reflexivity.
    rewrite (count_type_other DEDENT) by (cbn; discriminate).
    split; [|split].
    + apply Forall_app. split; [exact Hall|].
      constructor; [cbn; discriminate|constructor].
    + exists (indent_level :: above). rewrite Hbase. reflexivity.
    + cbn [List.length]. lia.
  - destruct (_ <? _)%nat;
      [|cbn [fst snd]; rewrite app_nil_r; exact H1].
    apply (while_invariant
             (fun st => lexer_invariant (fst st) (tokens ++ snd st)));
      [|cbn [fst snd]; rewrite app_nil_r; exact H1].
    intros [x acc] Hx Hcond. cbn [fst snd] in *.
    destruct (Lexer.indent_stack x) as [|top rest] eqn:E; [discriminate|].
    apply Nat.ltb_lt in Hcond. rewrite app_assoc.
    apply (invariant_pop x (tokens ++ acc) top rest Hx E).
    intros ->. destruct Hx as (_ & (above & Hbase) & _).
    rewrite E in Hbase. destruct above as [|a above]; cbn in Hbase.
    + injection Hbase as ->. lia.
    + injection Hbase as _ Hnil. destruct above; discriminate.
Qed.

Lemma keyword_not_layout (v : string) (k : TokenType) :
  keyword v = Some k -> k <> EOF /\ k <> INDENT /\ k <> DEDENT.
Proof.
  unfold keyword.
  repeat match goal with
         | |- context [if ?b then _ else _] => destruct b
         end;
    intros [= <-]; repeat split; discriminate.
Qed.

(** What [scan] does to the stack and to the tokens: the stack is left
    alone, and at most one token, neither layout nor EOF, is appended. *)
Lemma scan_appends (s : Lexer.t) (tokens : list Token) (char : ascii) :
  Lexer.indent_stack (fst (Lexer.scan s tokens char)) = Lexer.indent_stack s
  /\ (snd (Lexer.scan s tokens char) = tokens
      \/ exists t,
           snd (Lexer.scan s tokens char) = tokens ++ [t]
           /\ type t <> EOF /\ type t <> INDENT /\ type t <> DEDENT).
Proof.
  assert (Hop : forall second two two_value one,
    two <> EOF -> two <> INDENT -> two <> DEDENT ->
    one <> EOF -> one <> INDENT -> one <> DEDENT ->
    Lexer.indent_stack
      (fst (Lexer.operator s tokens char second two two_value one))
    = Lexer.indent_stack s
    /\ (snd (Lexer.operator s tokens char second two two_value one) = tokens
        \/ exists t,
             snd (Lexer.operator s tokens char second two two_value one)
             = tokens ++ [t]
             /\ type t <> EOF /\ type t <> INDENT /\ type t <> DEDENT)).
  { intros second two two_value one ? ? ? ? ? ?. unfold Lexer.operator.
    destruct (Lexer.peek_char s 1) as [c|]; [destruct (Ascii.eqb c second)|];
      cbn [fst snd]; rewrite ?advance_stack;
      (split; [reflexivity|right; eexists; split; [reflexivity|]]);
      cbn [type]; auto. }
  unfold Lexer.scan.
  destruct (in_space_tab char).
  { cbn [fst snd]. split; [apply while_advance_stack|left; reflexivity]. }
  destruct (Ascii.eqb char "#").
  { cbn [fst snd]. split; [apply while_advance_stack|left; reflexivity]. }
  destruct (isdigit char).
  { unfold Lexer.read_number. cbn [fst snd].
    split; [apply while_advance_stack|].
    right. eexists. split; [reflexivity|]. cbn [type].
    repeat split; discriminate. }
  destruct (_ || _).
  { unfold Lexer.read_string.
    destruct (Lexer.current_char s) as [quote_char|];
      [|cbn [fst snd]; split; [reflexivity|];
        right; eexists; split; [reflexivity|];
        cbn [type]; repeat split; discriminate].
    set (body :=
           while (Lexer.remaining (Lexer.advance s))
             (fun sv =>
                Lexer.current_is
                  (fun c => negb (Ascii.eqb c quote_char)) (fst sv))
             (Lexer.read_string_body quote_char) (Lexer.advance s, "")).
    assert (Hstack : Lexer.indent_stack (fst body) = Lexer.indent_stack s).
    { apply (while_invariant
               (fun sv => Lexer.indent_stack (fst sv) = Lexer.indent_stack s));
        [|cbn [fst]; apply advance_stack].
      intros [x v] Hx _. cbn [fst] in *. unfold Lexer.read_string_body.
      destruct (Lexer.current_char x) as [c|]; [|exact Hx].
      destruct (Ascii.eqb c backslash).
      - destruct (Lexer.current_char (Lexer.advance x));
          cbn [fst]; rewrite ?advance_stack; exact Hx.
      - cbn [fst]. rewrite advance_stack. exact Hx. }
    destruct body as [s2 v]. cbn [fst snd] in *.
    split.
    - destruct (Lexer.current_is _ s2); rewrite ?advance_stack; exact Hstack.
    - right. eexists. split; [reflexivity|]. cbn [type].
      repeat split; discriminate. }
  destruct (_ || _).
  { unfold Lexer.read_identifier. cbn [fst snd].
    split; [apply while_advance_stack|].
    right. eexists. split; [reflexivity|]. cbn [type].
    destruct (keyword _) as [k|] eqn:E;
      [apply (keyword_not_layout _ _ E)|repeat split; discriminate]. }
  destruct (Ascii.eqb char "+"); [apply Hop; discriminate|].
  destruct (Ascii.eqb char "-"); [apply Hop; discriminate|].
  destruct (Ascii.eqb char "*"); [apply Hop; discriminate|].
  destruct (Ascii.eqb char "="); [apply Hop; discriminate|].
  destruct (Ascii.eqb char "!").
  { destruct (Lexer.peek_char s 1) as [c|]; [destruct (Ascii.eqb c "=")|];
      cbn [fst snd]; rewrite ?advance_stack;
      (split; [reflexivity|]); try (left; reflexivity).
    right. eexists. split; [reflexivity|]. cbn [type].
    repeat split; discriminate. }
  destruct (Ascii.eqb char "<"); [apply Hop; discriminate|].
  destruct (Ascii.eqb char ">"); [apply Hop; discriminate|].
  destruct (Lexer.token_map char) as [ty|] eqn:E; cbn [fst snd];
    rewrite advance_stack; (split; [reflexivity|]); [|left; reflexivity].
  right. eexists. split; [reflexivity|]. cbn [type].
  revert E. unfold Lexer.token_map.
  repeat match goal with
         | |- context [if ?b then _ else _] => destruct b
         end;
    intros [= <-]; repeat split; discriminate.
Qed.

Lemma scan_invariant (s : Lexer.t) (tokens : list Token) (char : ascii) :
  lexer_invariant s tokens ->
  lexer_invariant (fst (Lexer.scan s tokens char))
    (snd (Lexer.scan s tokens char)).
Proof.
  intros H. destruct (scan_appends s tokens char) as (Hstack & Htok).
  destruct Htok as [->|(t & -> & ? & ? & ?)].
  - apply (invariant_same s); assumption.
  - apply (invariant_append s); assumption.
Qed.

Lemma tokenize_body_invariant (s : Lexer.t) (at_line_start : bool)
    (tokens : list Token) (char : ascii) :
  lexer_invariant s tokens ->
  let r := Lexer.tokenize_body s at_line_start tokens char in
  lexer_invariant (fst (fst r)) (snd r).
Proof.
  intros H. unfold Lexer.tokenize_body.
  assert (Hnl : forall x acc,
    lexer_invariant x acc ->
    lexer_invariant (Lexer.advance x) (acc ++ [Lexer.newline_token x char])).
  { intros x acc Hx. apply (invariant_append x); try exact Hx;
      [apply advance_stack|cbn; discriminate..]. }
  destruct at_line_start.
  - destruct (in_space_tab char).
    + pose proof (handle_indentation_invariant s tokens H) as Hi.
      destruct (Lexer.handle_indentation s) as [s1 toks]. exact Hi.
    + pose proof (dedent_all_invariant s tokens H) as Hd.
      destruct (Lexer.dedent_all s tokens) as [s1 tokens1].
      cbn [fst snd] in Hd.
      destruct (Ascii.eqb char nl); [cbn [fst snd]; apply Hnl, Hd|].
      pose proof (scan_invariant s1 tokens1 char Hd) as Hs.
      destruct (Lexer.scan s1 tokens1 char) as [s2 tokens2]. exact Hs.
  - destruct (Ascii.eqb char nl); [cbn [fst snd]; apply Hnl, H|].
    pose proof (scan_invariant s tokens char H) as Hs.
    destruct (Lexer.scan s tokens char) as [s2 tokens2]. exact Hs.
Qed.

Lemma tokenize_loop_invariant (fuel : nat) :
  forall s at_line_start tokens s' tokens',
    lexer_invariant s tokens ->
    Lexer.tokenize_loop fuel s at_line_start tokens = Some (s', tokens') ->
    lexer_invariant s' tokens'.
Proof.
  induction fuel as [|fuel IH]; intros s b tokens s' tokens' H; simpl;
    [discriminate|].
  destruct (Lexer.current_char s) as [char|]; [|intros [= <- <-]; exact H].
  pose proof (tokenize_body_invariant s b tokens char H) as Hb.
  destruct (Lexer.tokenize_body s b tokens char) as [[s1 b1] tokens1].
  apply IH. exact Hb.
Qed.



(** When [tokenize] returns, its last token is the only EOF token and
    the INDENT and DEDENT tokens are as many. *)
Lemma tokenize_returns_balanced (fuel : nat) (source : string)
    (tokens : list Token) :
  Lexer.tokenize fuel source = Some tokens ->
  ends_in_eof tokens
  /\ count_type INDENT tokens = count_type DEDENT tokens.
Proof.
  unfold Lexer.tokenize.
  destruct (Lexer.tokenize_loop fuel _ _ _) as [[s toks]|] eqn:E;
    [|discriminate].
  assert (Hinit : lexer_invariant (Lexer.init source) []).
  { unfold lexer_invariant. cbn. split; [constructor|].
    split; [exists []; reflexivity|reflexivity]. }
  pose proof (tokenize_loop_invariant _ _ _ _ _ _ Hinit E) as H.
  pose proof (dedent_all_invariant s toks H) as Hd.
  assert (Hlen : List.length
                   (Lexer.indent_stack (fst (Lexer.dedent_all s toks))) = 1%nat).
  { unfold Lexer.dedent_all.
    assert (Hgen : forall n st,
      (List.length (Lexer.indent_stack (fst st)) <= S n)%nat ->
      (1 <= List.length (Lexer.indent_stack (fst st)))%nat ->
      (exists above, Lexer.indent_stack (fst st) = above ++ [0%nat]) ->
      List.length
        (Lexer.indent_stack
           (fst (while n
                   (fun st => (1 <? List.length
                                      (Lexer.indent_stack (fst st)))%nat)
                   (fun st => (Lexer.pop (fst st),
                               snd st ++ [Lexer.dedent_token (fst st)]))
                   st))) = 1%nat).
    { clear. induction n as [|n IH]; intros [x acc] Hle Hge Hb;
        cbn [fst snd while] in *; [lia|].
      destruct (1 <? _)%nat eqn:Ec.
      - apply Nat.ltb_lt in Ec. apply IH; cbn [fst Lexer.pop Lexer.indent_stack].
        + destruct (Lexer.indent_stack x); cbn in *; lia.
        + destruct (Lexer.indent_stack x) as [|? [|? ?]]; cbn in *; lia.
        + destruct Hb as [above Hb]. rewrite Hb.
          destruct above as [|a above]; [rewrite Hb in Ec; cbn in Ec; lia|].
          exists above. reflexivity.
      - apply Nat.ltb_ge in Ec. cbn [fst]. lia. }
    destruct H as (_ & Hbase & _).
    destruct (Lexer.indent_stack s) as [|top rest] eqn:Es.
    - destruct Hbase as [[|? ?] Hb]; discriminate.
    - cbn [List.length].
      apply Hgen; cbn [fst]; rewrite ?Es;
        [cbn; lia|cbn; lia|exact Hbase]. }
  destruct (Lexer.dedent_all s toks) as [s1 tokens1]. cbn [fst snd] in *.
  intros [= <-]. destruct Hd as (Hall & _ & Hcount). split.
  - exists tokens1, (mkToken EOF "" (Lexer.line s1) (Lexer.column s1)).
    repeat split. exact Hall.
  - rewrite !count_type_app.
    rewrite (count_type_other INDENT), (count_type_other DEDENT)
      by (cbn; discriminate).
    lia.
Qed.

(** ** The bounded loops of the lexer stop on their condition *)

(** A loop whose body decreases a measure stops within that many
    iterations, with its condition false. *)
Lemma while_exits {A : Type} (measure : A -> nat) (fuel : nat)
    (cond : A -> bool) (body : A -> A) :
  (forall x, cond x = true -> (measure (body x) < measure x)%nat) ->
  forall a, (measure a <= fuel)%nat -> cond (while fuel cond body a) = false.
Proof.
  intros Hdec. induction fuel as [|fuel IH]; intros a Ha; simpl.
  - destruct (cond a) eqn:E; [|reflexivity].
    specialize (Hdec a E). lia.
  - destruct (cond a) eqn:E; [|exact E].
    apply IH. specialize (Hdec a E). lia.
Qed.

Lemma advance_remaining (p : ascii -> bool) (s : Lexer.t) :
  Lexer.current_is p s = true ->
  S (Lexer.remaining (Lexer.advance s)) = Lexer.remaining s.
Proof.
  unfold Lexer.current_is, Lexer.current_char, Lexer.remaining, Lexer.advance.
  destruct (Lexer.text s) as [|c rest]; [discriminate|]. intros _.
  destruct (Ascii.eqb c nl); reflexivity.
Qed.

(** The loops [while self.current_char() and ...: self.advance()] of
    [skip_whitespace], [read_number], [read_identifier] and of the
    comment branch. *)
Lemma while_advance_exits (p : ascii -> bool) (s : Lexer.t) :
  Lexer.current_is p
    (while (Lexer.remaining s) (Lexer.current_is p) Lexer.advance s)
  = false.
Proof.
  apply (while_exits Lexer.remaining); [|lia].
  intros x Hx. pose proof (advance_remaining p x Hx). lia.
Qed.

(** The loop of [read_string]. *)
Lemma read_string_loop_exits (quote_char : ascii) (s : Lexer.t) :
  Lexer.current_is (fun c => negb (Ascii.eqb c quote_char))
    (fst (while (Lexer.remaining s)
            (fun sv =>
               Lexer.current_is
                 (fun c => negb (Ascii.eqb c quote_char)) (fst sv))
            (Lexer.read_string_body quote_char) (s, "")))
  = false.
Proof.
  apply (while_exits (fun sv => Lexer.remaining (fst sv))
           (Lexer.remaining s)
           (fun sv =>
              Lexer.current_is
                (fun c => negb (Ascii.eqb c quote_char)) (fst sv)));
    [|cbn [fst]; lia].
  intros [x v] Hx. cbn [fst] in *.
  pose proof (advance_remaining _ x Hx) as H1.
  unfold Lexer.read_string_body.
  destruct (Lexer.current_char x) as [c|] eqn:Ec;
    [|unfold Lexer.current_is in Hx; rewrite Ec in Hx; discriminate].
  destruct (Ascii.eqb c backslash); [|cbn [fst]; lia].
  destruct (Lexer.current_char (Lexer.advance x)) as [d|] eqn:Ed;
    cbn [fst]; [|lia].
  assert (H2 : Lexer.current_is (fun _ => true) (Lexer.advance x) = true)
    by (unfold Lexer.current_is; rewrite Ed; reflexivity).
  pose proof (advance_remaining _ _ H2). lia.
Qed.

(** The loop of [handle_indentation] that measures the leading
    whitespace. *)
Lemma indentation_loop_exits (s : Lexer.t) :
  Lexer.current_is in_space_tab
    (fst (while (Lexer.remaining s)
            (fun si => Lexer.current_is in_space_tab (fst si))
            (fun si =>
               (Lexer.advance (fst si),
                if Lexer.current_is (Ascii.eqb " ") (fst si)
                then (snd si + 1)%nat else (snd si + 4)%nat))
            (s, 0%nat)))
  = false.
Proof.
  apply (while_exits (fun si => Lexer.remaining (fst si))
           (Lexer.remaining s)
           (fun si => Lexer.current_is in_space_tab (fst si)));
    [|cbn [fst]; lia].
  intros [x n] Hx. cbn [fst] in *.
  pose proof (advance_remaining _ x Hx). lia.
Qed.

(** The loops that pop the stack of widths. *)
Lemma dedent_all_exits (s : Lexer.t) (tokens : list Token) :
  (List.length (Lexer.indent_stack (fst (Lexer.dedent_all s tokens))) <= 1)%nat.
Proof.
  unfold Lexer.dedent_all.
  pose proof (while_exits
                (fun st : Lexer.t * list Token =>
                   List.length (Lexer.indent_stack (fst st)))
                (List.length (Lexer.indent_stack s))
                (fun st => (1 <? List.length (Lexer.indent_stack (fst st)))%nat)
                (fun st => (Lexer.pop (fst st),
                            snd st ++ [Lexer.dedent_token (fst st)]))) as H.
  apply Nat.ltb_ge. apply H; [|cbn [fst]; lia].
  intros [x acc] Hx. cbn [fst Lexer.pop Lexer.indent_stack] in *.
  apply Nat.ltb_lt in Hx.
  destruct (Lexer.indent_stack x); cbn in *; lia.
Qed.

Lemma dedent_to_exits (indent_level : nat) (s : Lexer.t) :
  match
    Lexer.indent_stack
      (fst (while (List.length (Lexer.indent_stack s))
              (fun st : Lexer.t * list Token =>
                 match Lexer.indent_stack (fst st) with
                 | top :: _ => (indent_level <? top)%nat
                 | [] => false
                 end)
              (fun st => (Lexer.pop (fst st),
                          snd st ++ [Lexer.dedent_token (fst st)]))
              (s, [])))
  with
  | top :: _ => (top <= indent_level)%nat
  | [] => True
  end.
Proof.
  pose proof (while_exits
                (fun st : Lexer.t * list Token =>
                   List.length (Lexer.indent_stack (fst st)))
                (List.length (Lexer.indent_stack s))
                (fun st : Lexer.t * list Token =>
                   match Lexer.indent_stack (fst st) with
                   | top :: _ => (indent_level <? top)%nat
                   | [] => false
                   end)
                (fun st => (Lexer.pop (fst st),
                            snd st ++ [Lexer.dedent_token (fst st)]))) as H.
  set (r := while _ _ _ _) in *.
  assert (Hr : match Lexer.indent_stack (fst r) with
               | top :: _ => (indent_level <? top)%nat
               | [] => false
               end = false).
  { apply H; [|cbn [fst]; lia].
    intros [x acc] Hx. cbn [fst Lexer.pop Lexer.indent_stack] in *.
    destruct (Lexer.indent_stack x); [discriminate|]. cbn. lia. }
  destruct (Lexer.indent_stack (fst r)); [exact I|].
  apply Nat.ltb_ge in Hr. exact Hr.
Qed.

(** ** Runs of the parser on a well-formed stream *)

Lemma bind_current {B : Type} (k : Token -> Parser.M B) (p : Parser.t) :
  Parser.bind Parser.current k p = k (Parser.current_token p) p.
Proof. reflexivity. Qed.

Lemma bind_peek {B : Type} (n : nat) (k : Token -> Parser.M B)
    (p : Parser.t) :
  Parser.bind (Parser.peek n) k p = k (Parser.peek_token p n) p.
Proof. reflexivity. Qed.

Lemma bind_match {B : Type} (ty : TokenType) (k : bool -> Parser.M B)
    (p : Parser.t) :
  Parser.bind (Parser.match_ ty) k p
  = k (TokenType_eqb (type (Parser.current_token p)) ty) p.
Proof. reflexivity. Qed.

Lemma TokenType_eqb_eq (a b : TokenType) :
  TokenType_eqb a b = true <-> a = b.
Proof. unfold TokenType_eqb. apply bool_decide_eq_true. Qed.

Lemma continues_refl (p : Parser.t) : continues p p.
Proof. repeat split; [lia|]. intros i t Hi. lia. Qed.

Lemma continues_trans (p1 p2 p3 : Parser.t) :
  continues p1 p2 -> continues p2 p3 -> continues p1 p3.
Proof.
  intros (Ht1 & Hp1 & Hc1) (Ht2 & Hp2 & Hc2).
  split; [congruence|]. split; [lia|].
  intros i t Hi Hl. destruct (Nat.lt_ge_cases i (Parser.pos p2)).
  - apply (Hc1 i t); [lia|exact Hl].
  - apply (Hc2 i t); [lia|]. rewrite Ht1. exact Hl.
Qed.

Lemma well_formed_current (p : Parser.t) :
  well_formed p ->
  Parser.tokens p !! Parser.pos p = Some (Parser.current_token p).
Proof.
  intros (_ & _ & Hlt).
  destruct (lookup_lt_is_Some_2 _ _ Hlt) as [t Ht].
  unfold Parser.current_token.
  rewrite (nth_lookup_Some _ _ (Parser.last_token p) _ Ht). exact Ht.
Qed.

Lemma well_formed_eof (p : Parser.t) :
  well_formed p ->
  type (Parser.current_token p) = EOF
  <-> S (Parser.pos p) = List.length (Parser.tokens p).
Proof.
  intros Hwf. pose proof (well_formed_current p Hwf) as Hcur.
  destruct Hwf as ((body & eof & Htoks & Heof & Hbody) & _ & Hlt).
  rewrite Htoks in *. rewrite length_app in *. cbn [List.length] in *.
  destruct (Nat.lt_ge_cases (Parser.pos p) (List.length body)) as [Hin|Hout].
  - rewrite lookup_app_l in Hcur by exact Hin.
    rewrite Forall_forall in Hbody.
    split; [|lia]. intros Hty. exfalso.
    apply (Hbody (Parser.current_token p)); [|exact Hty].
    eapply list_elem_of_lookup_2. exact Hcur.
  - assert (Hpos : Parser.pos p = List.length body) by lia.
    rewrite Hpos, list_lookup_middle in Hcur by reflexivity.
    injection Hcur as <-. split; [lia|intros _; exact Heof].
Qed.

(** The tokens from the cursor on start with the current token. *)
Lemma well_formed_drop (p : Parser.t) :
  well_formed p ->
  drop (Parser.pos p) (Parser.tokens p)
  = Parser.current_token p :: drop (S (Parser.pos p)) (Parser.tokens p).
Proof.
  intros Hwf. apply drop_S, well_formed_current, Hwf.
Qed.

Lemma well_formed_not_class (p : Parser.t) :
  well_formed p -> type (Parser.current_token p) <> CLASS.
Proof.
  intros Hwf Hty. pose proof (well_formed_drop p Hwf) as Hdrop.
  destruct Hwf as (_ & Hclass & _). rewrite Hdrop in Hclass.
  cbn [no_class_before_aug] in Hclass. rewrite Hty in Hclass.
  discriminate Hclass.
Qed.

(** [advance] at a token that is not an augmented assignment: the
    cursor moves when the token is not the EOF. *)
Lemma advance_meets (short : Prop) (ty : TokenType) (p : Parser.t) :
  well_formed p -> type (Parser.current_token p) = ty ->
  aug ty = false -> ty <> EOF ->
  meets short true p (Parser.advance p).
Proof.
  intros Hwf Hty Haug Hne. pose proof (well_formed_current p Hwf) as Hcur.
  pose proof (well_formed_eof p Hwf) as Heof.
  pose proof (well_formed_drop p Hwf) as Hdrop.
  destruct Hwf as (Hend & Hclass & Hlt). unfold Parser.advance.
  destruct (_ <? _)%nat eqn:E.
  - apply Nat.ltb_lt in E. cbn [meets Parser.pos Parser.tokens].
    split; [|split].
    + split; [reflexivity|]. cbn [Parser.pos Parser.tokens].
      split; [lia|]. intros i t Hi Hl.
      assert (i = Parser.pos p) as -> by lia.
      rewrite Hcur in Hl. injection Hl as <-. rewrite Hty. exact Haug.
    + repeat split; cbn [Parser.pos Parser.tokens]; [exact Hend| |lia].
      rewrite Hdrop in Hclass. cbn [no_class_before_aug] in Hclass.
      rewrite Hty, Haug in Hclass.
      apply andb_true_iff in Hclass as [_ Hclass].
      rewrite Nat.add_1_r. exact Hclass.
    + intros _. lia.
  - apply Nat.ltb_ge in E. exfalso. apply Hne. rewrite <- Hty.
    apply Heof. lia.
Qed.

(** [advance] at the EOF stays where it is. *)
Lemma advance_meets_any (short : Prop) (ty : TokenType) (p : Parser.t) :
  well_formed p -> type (Parser.current_token p) = ty ->
  aug ty = false ->
  meets short false p (Parser.advance p).
Proof.
  intros Hwf Hty Haug.
  destruct (decide (ty = EOF)) as [->|Hne].
  - unfold Parser.advance. apply (well_formed_eof p Hwf) in Hty.
    destruct (_ <? _)%nat eqn:E; [apply Nat.ltb_lt in E; lia|].
    cbn [meets]. split; [apply continues_refl|].
    split; [exact Hwf|done].
  - pose proof (advance_meets short ty p Hwf Hty Haug Hne) as H.
    destruct (Parser.advance p); cbn [meets] in *; [|exact H..].
    destruct H as (? & ? & _). split; [assumption|split; [assumption|done]].
Qed.

(** One step of a run: the outcome of [m], then the rest. *)
Lemma meets_bind {A B : Type} (m : Parser.M A) (k : A -> Parser.M B)
    (p0 pc : Parser.t) (short shortm : Prop) (s sm : bool) :
  continues p0 pc ->
  meets shortm sm pc (m pc) ->
  (shortm -> short) ->
  (forall a p',
     continues p0 p' -> well_formed p' ->
     (Parser.pos pc <= Parser.pos p')%nat ->
     (sm = true -> (Parser.pos pc < Parser.pos p')%nat) ->
     meets short s p0 (k a p')) ->
  meets short s p0 (Parser.bind m k pc).
Proof.
  intros Hc Hm Hshort Hk. unfold Parser.bind.
  destruct (m pc) as [a p'|e|]; cbn [meets] in *.
  - destruct Hm as (Hc' & Hwf' & Hs).
    apply Hk; [eapply continues_trans; eassumption|exact Hwf'| |exact Hs].
    destruct Hc' as (_ & Hle & _). exact Hle.
  - exact Hm.
  - apply Hshort, Hm.
Qed.

(** The last call of a run. *)
Lemma meets_tail {A : Type} (r : Parser.outcome A) (p0 pc : Parser.t)
    (short shortm : Prop) (s sm : bool) :
  continues p0 pc ->
  meets shortm sm pc r ->
  (shortm -> short) ->
  (s = true -> sm = true \/ (Parser.pos p0 < Parser.pos pc)%nat) ->
  meets short s p0 r.
Proof.
  intros Hc Hm Hshort Hstrict.
  destruct r as [a p'|e|]; cbn [meets] in *.
  - destruct Hm as (Hc' & Hwf' & Hs).
    split; [eapply continues_trans; eassumption|]. split; [exact Hwf'|].
    intros Hst. destruct Hc' as (_ & Hle & _).
    destruct Hc as (_ & Hle0 & _).
    destruct (Hstrict Hst) as [Hsm|Hlt]; [specialize (Hs Hsm)|]; lia.
  - exact Hm.
  - apply Hshort, Hm.
Qed.

Lemma meets_ret {A : Type} (a : A) (p0 pc : Parser.t) (short : Prop)
    (s : bool) :
  continues p0 pc -> well_formed pc ->
  (s = true -> (Parser.pos p0 < Parser.pos pc)%nat) ->
  meets short s p0 (Parser.ret a pc).
Proof. intros. cbn [meets Parser.ret]. auto. Qed.

Lemma meets_raise {A : Type} (e : Parser.exn) (p0 pc : Parser.t)
    (short : Prop) (s : bool) :
  meets (A := A) short s p0 (Parser.raise e pc).
Proof. exact I. Qed.

(** The facts of arithmetic that the hypotheses on the states hold. *)
Ltac state_facts :=
  repeat match goal with
         | H : continues ?a ?b |- _ =>
             lazymatch goal with
             | _ : List.length (Parser.tokens b) = List.length (Parser.tokens a)
               |- _ => fail
             | _ =>
                 assert (List.length (Parser.tokens b)
                         = List.length (Parser.tokens a))
                   by (f_equal; exact (proj1 H));
                 pose proof (proj1 (proj2 H))
             end
         | H : well_formed ?a |- _ =>
             lazymatch goal with
             | _ : (Parser.pos a < List.length (Parser.tokens a))%nat |- _ =>
                 fail
             | _ => pose proof (proj2 (proj2 H))
             end
         | H : true = true -> _ |- _ => specialize (H eq_refl)
         | H : false = true -> _ |- _ => clear H
         end.

Ltac fuel_lia := intros; state_facts; lia.

Lemma consume_meets (short : Prop) (ty : TokenType) :
  aug ty = false -> ty <> EOF ->
  forall p, well_formed p -> meets short true p (Parser.consume ty p).
Proof.
  intros Haug Hne p Hwf. unfold Parser.consume.
  rewrite bind_match. cbv beta.
  destruct (TokenType_eqb _ ty) eqn:E.
  - apply TokenType_eqb_eq in E. rewrite bind_current. cbv beta.
    eapply (meets_bind _ _ p p); [apply continues_refl| | |].
    + apply (advance_meets short ty p Hwf E Haug Hne).
    + trivial.
    + intros a p' Hc Hwf' Hle Hlt. apply meets_ret; auto.
  - rewrite bind_current. cbv beta. apply meets_raise.
Qed.

Lemma advance_if_meets (short : Prop) (ty : TokenType) :
  aug ty = false ->
  forall p, well_formed p -> meets short false p (Parser.advance_if ty p).
Proof.
  intros Haug p Hwf. unfold Parser.advance_if.
  rewrite bind_match. cbv beta.
  destruct (TokenType_eqb _ ty) eqn:E.
  - apply TokenType_eqb_eq in E.
    apply (advance_meets_any short ty p Hwf E Haug).
  - apply meets_ret; [apply continues_refl|exact Hwf|done].
Qed.

Lemma skip_newlines_meets (g : nat) :
  forall p, well_formed p ->
    meets (g + Parser.pos p < List.length (Parser.tokens p) + 1)%nat false p
      (Parser.skip_newlines g p).
Proof.
  induction g as [|g IH]; intros p Hwf; cbn [Parser.skip_newlines].
  - cbn [meets Parser.out_of_fuel]. fuel_lia.
  - rewrite bind_match. cbv beta.
    destruct (TokenType_eqb _ NEWLINE) eqn:E.
    + apply TokenType_eqb_eq in E.
      eapply (meets_bind _ _ p p); [apply continues_refl| | |].
      * apply (advance_meets False NEWLINE p Hwf E); [reflexivity|discriminate].
      * intros [].
      * intros a p' Hc Hwf' Hle Hlt.
        eapply meets_tail; [exact Hc|apply IH; exact Hwf'| |done].
        fuel_lia.
    + apply meets_ret; [apply continues_refl|exact Hwf|done].
Qed.

(** A NUMBER lexeme converts, or raises the [ValueError] of [float()]
    or [int()]. *)
Lemma number_literal_meets (short : Prop) (v : string) (p0 pc : Parser.t) :
  continues p0 pc -> well_formed pc ->
  (Parser.pos p0 < Parser.pos pc)%nat ->
  meets short true p0 (Parser.number_literal v pc).
Proof.
  intros Hc Hwf Hlt. unfold Parser.number_literal.
  destruct (str_contains "." v).
  - destruct (float_of_lexeme v); [apply meets_ret; auto|apply meets_raise].
  - destruct (int_of_lexeme v); [apply meets_ret; auto|apply meets_raise].
Qed.

(** The steps of a run: reduce reads of the cursor, split on the kind of
    the current token, and use what is known of the call at the head. *)
Ltac find_meets :=
  first
    [ match goal with
      | H : _ |- _ => eapply H; assumption
      end
    | eapply (consume_meets False); [reflexivity|discriminate|assumption]
    | eapply (advance_if_meets False); [reflexivity|assumption]
    | eapply skip_newlines_meets; assumption
    | match goal with
      | E : type (Parser.current_token ?pc) = ?ty
        |- meets _ _ ?pc (Parser.advance ?pc) =>
          eapply (advance_meets False ty pc);
          [assumption|exact E|reflexivity|discriminate]
      end ].

Ltac run_leaf :=
  first
    [ apply meets_raise
    | apply meets_ret; [assumption|assumption|fuel_lia]
    | match goal with
      | |- meets _ _ _ (Parser.out_of_fuel _) =>
          cbn [meets Parser.out_of_fuel]; fuel_lia
      end ].

Ltac run_step :=
  match goal with
  | |- meets _ _ _ (Parser.bind Parser.current _ _) =>
      rewrite bind_current; cbv beta
  | |- meets _ _ _ (Parser.bind (Parser.peek _) _ _) =>
      rewrite bind_peek; cbv beta
  | |- meets _ _ _ (Parser.bind (Parser.match_ _) _ _) =>
      rewrite bind_match; cbv beta
  | |- meets _ _ ?p0 (Parser.bind ?m _ ?pc) =>
      eapply (meets_bind m _ p0 pc);
      [eassumption|find_meets|fuel_lia|
       let a := fresh "a" in let p' := fresh "p" in
       intros a p' ? ? ? ?; cbv beta]
  end.

Ltac run_tail :=
  match goal with
  | |- meets _ _ ?p0 (_ ?pc) =>
      eapply (meets_tail _ p0 pc);
      [eassumption|find_meets|fuel_lia|
       first [ done
             | intros _; first [left; reflexivity|right; fuel_lia] ]]
  end.

Ltac kinds_of H :=
  lazymatch type of H with
  | In _ [] => destruct H
  | In _ (_ :: _) =>
      let E := fresh "E" in
      destruct H as [E|H]; [symmetry in E|kinds_of H]
  end.

Ltac run_split :=
  lazymatch goal with
  | |- meets _ _ _ (Parser.if_match _ _ _ ?pc) =>
      let E := fresh "E" in
      let o := fresh "o" in
      let Hin := fresh "Hin" in
      let Ho := fresh "Ho" in
      unfold Parser.if_match at 1;
      destruct (existsb (TokenType_eqb (type (Parser.current_token pc))) _)
        eqn:E;
      [apply existsb_exists in E; destruct E as (o & Hin & Ho);
       apply TokenType_eqb_eq in Ho; rewrite <- Ho in Hin; clear o Ho;
       kinds_of Hin
      |clear E]
  | |- meets _ _ _ (if ?b then _ else _) =>
      let E := fresh "E" in destruct b eqn:E
  | |- meets _ _ _ (match ?e with _ => _ end _) =>
      destruct e
  end.

Ltac run_number :=
  match goal with
  | |- meets _ _ _
         (Parser.number_literal (value (Parser.current_token ?pc)) _) =>
      apply number_literal_meets; [assumption|assumption|fuel_lia]
  end.

Ltac run_class :=
  match goal with
  | E : type (Parser.current_token ?pc) = CLASS |- _ =>
      exfalso; apply (well_formed_not_class pc); assumption
  end.

Ltac run :=
  repeat first [run_class | run_leaf | run_number | run_step | run_split];
  try run_tail.


(** *** Expressions *)

Section ExpressionRuns.

Variable pe : Parser.M Expression.
Variable fe : nat.

Hypothesis Hpe : forall p, well_formed p ->
  meets (fe + Parser.pos p < List.length (Parser.tokens p) + 4)%nat true p
    (pe p).













End ExpressionRuns.


(** *** Statements *)

Section StatementRuns.

Variable ps : Parser.M (option Statement).
Variable fs : nat.

Hypothesis Hps : forall p, well_formed p ->
  meets (fs + Parser.pos p < List.length (Parser.tokens p) + 5)%nat true p
    (ps p).












End StatementRuns.





(** ** Augmented assignment *)




End Pipeline.

(** ** The theorems at concrete inputs *)

(** The NUMBER token of the text [1.2.3] raises the [ValueError]. *)
Lemma number_with_two_dots_value_error_witness :
  type (Parser.current_token (parser_at two_dots_tokens 0)) = NUMBER
  /\ (2 <= str_count "."
             (value (Parser.current_token (parser_at two_dots_tokens 0))))%nat
  /\ Parser.parse_primary_expression (Parser.parse_expression 5) 5
       (parser_at two_dots_tokens 0)
     = Parser.Raise
         (Parser.ValueError "could not convert string to float: '1.2.3'").
Proof.
  assert (Hty : type (Parser.current_token (parser_at two_dots_tokens 0))
                = NUMBER) by reflexivity.
  assert (Hdots :
    (2 <= str_count "."
            (value (Parser.current_token (parser_at two_dots_tokens 0))))%nat)
    by (vm_compute; lia).
  split; [exact Hty|]. split; [exact Hdots|].
  exact (proj1 (number_with_two_dots_value_error lexeme_str lexeme_truth
                  (Parser.parse_expression 5) 5
                  (parser_at two_dots_tokens 0) Hty Hdots)).
Defined.

(** A call of [print] and a call of an unknown name on a new
    analyzer. *)
Lemma function_call_diagnostics_witness :
  In "print" SemanticAnalyzer.builtin_functions
  /\ (SemanticAnalyzer.current_scope
        (SemanticAnalyzer.symbol_table SemanticAnalyzer.init)
      < List.length
          (SemanticAnalyzer.scopes
             (SemanticAnalyzer.symbol_table SemanticAnalyzer.init)))%nat
  /\ SemanticAnalyzer.errors
       (SemanticAnalyzer.visit_expression (FunctionCall "foo" [])
          SemanticAnalyzer.init)
     = ["Undefined function 'foo'"]
  /\ SemanticAnalyzer.visit_expression (FunctionCall "print" [])
       (SemanticAnalyzer.declare_builtins
          (SemanticAnalyzer.reset_errors SemanticAnalyzer.init))
     = SemanticAnalyzer.declare_builtins
         (SemanticAnalyzer.reset_errors SemanticAnalyzer.init).
Proof.
  assert (Hin : In "print" SemanticAnalyzer.builtin_functions)
    by (simpl; tauto).
  assert (Hlt : (SemanticAnalyzer.current_scope
                   (SemanticAnalyzer.symbol_table SemanticAnalyzer.init)
                 < List.length
                     (SemanticAnalyzer.scopes
                        (SemanticAnalyzer.symbol_table
                           SemanticAnalyzer.init)))%nat)
    by (simpl; lia).
  split; [exact Hin|]. split; [exact Hlt|].
  destruct (function_call_diagnostics SemanticAnalyzer.init "foo" [] "print"
              Hin Hlt)
    as (_ & _ & Herr & _ & _ & _ & _ & Hcall & _).
  split; [exact Herr|exact Hcall].
Defined.

(** The [if] of the scenario: the token 8 is the IF, the token 19 the
    ELIF after the block. *)
Lemma elif_is_nested_if_witness :
  if_head (Parser.parse_statement 50) IF 50 (parser_at elif_tokens 8)
  = Parser.Ret
      (BinaryOp (Identifier "n") ">" (num 0),
       [ReturnStatement (Some (num 1))])
      (parser_at elif_tokens 19)
  /\ type (Parser.current_token (parser_at elif_tokens 19)) = ELIF
  /\ match Parser.parse_if_statement (Parser.parse_statement 50) 50
             (parser_at elif_tokens 8) with
     | Parser.Ret stmt p3 =>
         exists c' t' e',
           stmt = IfStatement (BinaryOp (Identifier "n") ">" (num 0))
                    [ReturnStatement (Some (num 1))]
                    (Some [IfStatement c' t' e'])
           /\ Parser.parse_elif_chain (Parser.parse_statement 50) 50
                (parser_at elif_tokens 19)
              = Parser.Ret (IfStatement c' t' e') p3
     | Parser.Raise e =>
         Parser.parse_elif_chain (Parser.parse_statement 50) 50
           (parser_at elif_tokens 19) = Parser.Raise e
     | Parser.OutOfFuel =>
         Parser.parse_elif_chain (Parser.parse_statement 50) 50
           (parser_at elif_tokens 19) = Parser.OutOfFuel
     end.
Proof.
  assert (Hhead :
    if_head (Parser.parse_statement 50) IF 50 (parser_at elif_tokens 8)
    = Parser.Ret
        (BinaryOp (Identifier "n") ">" (num 0),
         [ReturnStatement (Some (num 1))])
        (parser_at elif_tokens 19)).
  { (vm_compute; reflexivity). }
  assert (Helif : type (Parser.current_token (parser_at elif_tokens 19))
                  = ELIF).
  { reflexivity. }
  split; [exact Hhead|]. split; [exact Helif|].
  pose proof (elif_is_nested_if lexeme_str lexeme_truth
                  (Parser.parse_statement 50) 50
                  (parser_at elif_tokens 8)
                  (BinaryOp (Identifier "n") ">" (num 0))
                  [ReturnStatement (Some (num 1))]
                  (parser_at elif_tokens 19) Hhead Helif) as H.
  destruct H as [H _].
  exact H.
Defined.



(** * Further properties *)

(** ** The symbol table *)

Lemma lookup_from_other (i : nat) (name : string)
    (scopes scopes' : list (gmap string SemanticAnalyzer.Symbol)) :
  (forall j, (j <= i)%nat ->
     SemanticAnalyzer.scope_get scopes' j name
     = SemanticAnalyzer.scope_get scopes j name) ->
  SemanticAnalyzer.lookup_from i name scopes'
  = SemanticAnalyzer.lookup_from i name scopes.
Proof.
  induction i as [|i IH]; intros H; cbn [SemanticAnalyzer.lookup_from];
    rewrite (H _ (Nat.le_refl _)); [reflexivity|].
  rewrite IH; [reflexivity|]. intros j Hj. apply H. lia.
Qed.

(** [declare] writes the symbol in the current scope and nothing else. *)
Lemma scope_get_declare_same (name symbol_type : string)
    (st : SemanticAnalyzer.SymbolTable) :
  (SemanticAnalyzer.current_scope st
   < List.length (SemanticAnalyzer.scopes st))%nat ->
  SemanticAnalyzer.scope_get
    (SemanticAnalyzer.scopes (SemanticAnalyzer.declare name symbol_type st))
    (SemanticAnalyzer.current_scope st) name
  = Some (SemanticAnalyzer.mkSymbol name symbol_type
            ("scope_" +:+ str_of_nat (SemanticAnalyzer.current_scope st))).
Proof.
  intros Hlt. destruct (lookup_lt_is_Some_2 _ _ Hlt) as [m Hm].
  unfold SemanticAnalyzer.scope_get, SemanticAnalyzer.declare.
  cbn [SemanticAnalyzer.scopes].
  rewrite list_lookup_alter_eq, Hm. cbn. apply lookup_insert_eq.
Qed.

Lemma scope_get_declare_other (name symbol_type other : string) (j : nat)
    (st : SemanticAnalyzer.SymbolTable) :
  other <> name ->
  SemanticAnalyzer.scope_get
    (SemanticAnalyzer.scopes (SemanticAnalyzer.declare name symbol_type st))
    j other
  = SemanticAnalyzer.scope_get (SemanticAnalyzer.scopes st) j other.
Proof.
  intros Hne.
  unfold SemanticAnalyzer.scope_get, SemanticAnalyzer.declare.
  cbn [SemanticAnalyzer.scopes].
  destruct (decide (SemanticAnalyzer.current_scope st = j)) as [<-|Hj].
  - rewrite list_lookup_alter_eq.
    destruct (SemanticAnalyzer.scopes st
                !! SemanticAnalyzer.current_scope st) as [m|];
      [|reflexivity].
    cbn. apply lookup_insert_ne. congruence.
  - rewrite list_lookup_alter_ne by exact Hj. reflexivity.
Qed.

Lemma lookup_after_declare (name symbol_type : string)
    (st : SemanticAnalyzer.SymbolTable) :
  (SemanticAnalyzer.current_scope st
   < List.length (SemanticAnalyzer.scopes st))%nat ->
  SemanticAnalyzer.lookup name (SemanticAnalyzer.declare name symbol_type st)
  = Some (SemanticAnalyzer.mkSymbol name symbol_type
            ("scope_" +:+ str_of_nat (SemanticAnalyzer.current_scope st))).
Proof.
  intros Hlt. unfold SemanticAnalyzer.lookup. apply lookup_from_hit.
  apply (scope_get_declare_same name symbol_type st Hlt).
Qed.

Lemma declared_after_declare (name symbol_type : string)
    (st : SemanticAnalyzer.SymbolTable) :
  (SemanticAnalyzer.current_scope st
   < List.length (SemanticAnalyzer.scopes st))%nat ->
  SemanticAnalyzer.is_declared_in_current_scope name
    (SemanticAnalyzer.declare name symbol_type st) = true.
Proof.
  intros Hlt. unfold SemanticAnalyzer.is_declared_in_current_scope.
  change (SemanticAnalyzer.current_scope
            (SemanticAnalyzer.declare name symbol_type st))
    with (SemanticAnalyzer.current_scope st).
  rewrite (scope_get_declare_same name symbol_type st Hlt). reflexivity.
Qed.

Lemma declared_other (name symbol_type other : string)
    (st : SemanticAnalyzer.SymbolTable) :
  other <> name ->
  SemanticAnalyzer.is_declared_in_current_scope other
    (SemanticAnalyzer.declare name symbol_type st)
  = SemanticAnalyzer.is_declared_in_current_scope other st.
Proof.
  intros Hne. unfold SemanticAnalyzer.is_declared_in_current_scope.
  change (SemanticAnalyzer.current_scope
            (SemanticAnalyzer.declare name symbol_type st))
    with (SemanticAnalyzer.current_scope st).
  rewrite (scope_get_declare_other name symbol_type other _ st Hne).
  reflexivity.
Qed.

Lemma lookup_other (name symbol_type other : string)
    (st : SemanticAnalyzer.SymbolTable) :
  other <> name ->
  SemanticAnalyzer.lookup other (SemanticAnalyzer.declare name symbol_type st)
  = SemanticAnalyzer.lookup other st.
Proof.
  intros Hne. unfold SemanticAnalyzer.lookup.
  change (SemanticAnalyzer.current_scope
            (SemanticAnalyzer.declare name symbol_type st))
    with (SemanticAnalyzer.current_scope st).
  apply lookup_from_other. intros j _.
  apply (scope_get_declare_other name symbol_type other j st Hne).
Qed.

Lemma removelast_snoc {A : Type} (l : list A) (x : A) :
  removelast (l ++ [x]) = l.
Proof. apply removelast_last. Qed.

(** ** What a visit leaves behind *)

Section Visits.

Local Abbreviation table := SemanticAnalyzer.symbol_table.
Local Abbreviation depth a :=
  (SemanticAnalyzer.current_scope (SemanticAnalyzer.symbol_table a)).
Local Abbreviation visit_all :=
  (fold_left (fun a' stmt => SemanticAnalyzer.visit_statement stmt a')).

Lemma frame_refl (a : SemanticAnalyzer.t) : frame a a.
Proof.
  repeat split. exists []. symmetry. apply app_nil_r.
Qed.

Lemma frame_trans (a b c : SemanticAnalyzer.t) :
  frame a b -> frame b c -> frame a c.
Proof.
  intros (H1 & H2 & H3 & new1 & H4) (K1 & K2 & K3 & new2 & K4).
  rewrite H1 in K2.
  split; [congruence|]. split; [congruence|]. split; [congruence|].
  exists (new1 ++ new2). rewrite K4, H4. symmetry. apply app_assoc.
Qed.

Lemma frame_error (message : string) (a : SemanticAnalyzer.t) :
  frame a (SemanticAnalyzer.error message a).
Proof. repeat split. exists [message]. reflexivity. Qed.

Lemma table_ok_declare (name symbol_type : string)
    (st : SemanticAnalyzer.SymbolTable) :
  table_ok st -> table_ok (SemanticAnalyzer.declare name symbol_type st).
Proof.
  unfold table_ok, SemanticAnalyzer.declare.
  cbn [SemanticAnalyzer.scopes SemanticAnalyzer.current_scope].
  rewrite length_alter. trivial.
Qed.

Lemma table_ok_enter (st : SemanticAnalyzer.SymbolTable) :
  table_ok st -> table_ok (SemanticAnalyzer.enter_scope st).
Proof.
  unfold table_ok, SemanticAnalyzer.enter_scope.
  cbn [SemanticAnalyzer.scopes SemanticAnalyzer.current_scope].
  rewrite length_app. cbn. lia.
Qed.

Lemma frame_declare (name symbol_type : string) (a : SemanticAnalyzer.t) :
  frame a
    (SemanticAnalyzer.on_table (SemanticAnalyzer.declare name symbol_type) a).
Proof.
  split; [reflexivity|]. split; [|split; [reflexivity|]].
  - cbn. apply take_alter_ge. lia.
  - exists []. symmetry. apply app_nil_r.
Qed.

Lemma frame_visit_expression (e : Expression) (a : SemanticAnalyzer.t) :
  frame a (SemanticAnalyzer.visit_expression e a).
Proof.
  destruct (visit_expression_appends e a) as (H1 & H2 & H3).
  unfold frame. rewrite H1. repeat split; assumption.
Qed.

(** Leaving a scope: what was entered with [enter_scope] and kept by
    the visits in between is dropped, and the table is the one from
    before. *)
Lemma exit_after_frame (st st' : SemanticAnalyzer.SymbolTable) :
  table_ok st -> table_ok st' ->
  SemanticAnalyzer.current_scope st'
  = SemanticAnalyzer.current_scope (SemanticAnalyzer.enter_scope st) ->
  take (SemanticAnalyzer.current_scope (SemanticAnalyzer.enter_scope st))
    (SemanticAnalyzer.scopes st')
  = take (SemanticAnalyzer.current_scope (SemanticAnalyzer.enter_scope st))
      (SemanticAnalyzer.scopes (SemanticAnalyzer.enter_scope st)) ->
  SemanticAnalyzer.exit_scope st' = st.
Proof.
  destruct st as [scopes cs], st' as [scopes' cs'].
  unfold table_ok, SemanticAnalyzer.exit_scope, SemanticAnalyzer.enter_scope.
  cbn [SemanticAnalyzer.scopes SemanticAnalyzer.current_scope].
  intros Hok Hok' -> Htake.
  replace (0 <? cs + 1)%nat with true by (symmetry; apply Nat.ltb_lt; lia).
  f_equal; [|lia].
  rewrite removelast_firstn_len.
  replace (Init.Nat.pred (List.length scopes')) with (cs + 1)%nat by lia.
  change (firstn (cs + 1) scopes') with (take (cs + 1) scopes').
  rewrite Htake. apply take_app_length'. lia.
Qed.

Lemma visit_all_keeps (body : list Statement) :
  Forall keeps body ->
  forall a,
    table_ok (table a) ->
    table_ok (table (visit_all body a)) /\ frame a (visit_all body a).
Proof.
  induction 1 as [|s rest Hs _ IH]; intros a Hok; cbn [fold_left].
  - split; [exact Hok|apply frame_refl].
  - destruct (Hs a Hok) as [Hok1 Hf1].
    destruct (IH _ Hok1) as [Hok2 Hf2].
    split; [exact Hok2|]. eapply frame_trans; eassumption.
Qed.

Lemma declare_param_keeps (params : list string) :
  forall a,
    table_ok (table a) ->
    table_ok (table (fold_left SemanticAnalyzer.declare_param params a))
    /\ frame a (fold_left SemanticAnalyzer.declare_param params a).
Proof.
  induction params as [|p rest IH]; intros a Hok; cbn [fold_left].
  - split; [exact Hok|apply frame_refl].
  - assert (H1 : table_ok (table (SemanticAnalyzer.declare_param a p))
                 /\ frame a (SemanticAnalyzer.declare_param a p)).
    { unfold SemanticAnalyzer.declare_param.
      destruct (SemanticAnalyzer.is_declared_in_current_scope p (table a)).
      - split; [apply table_ok_declare; exact Hok|].
        eapply frame_trans; [apply frame_error|apply frame_declare].
      - split; [apply table_ok_declare; exact Hok|apply frame_declare]. }
    destruct H1 as [Hok1 Hf1]. destruct (IH _ Hok1) as [Hok2 Hf2].
    split; [exact Hok2|]. eapply frame_trans; eassumption.
Qed.

(** A function definition leaves the table it found with one more name:
    its own. *)
Lemma function_def_table (name : string) (params : list string)
    (body : list Statement) (a : SemanticAnalyzer.t) :
  Forall keeps body ->
  table_ok (table a) ->
  table (SemanticAnalyzer.visit_statement (FunctionDef name params body) a)
  = SemanticAnalyzer.declare name "function" (table a).
Proof.
  intros Hbody Hok. cbn [SemanticAnalyzer.visit_statement].
  set (a1 := if SemanticAnalyzer.is_declared_in_current_scope name (table a)
             then _ else a).
  assert (Ht1 : table a1 = table a) by (subst a1; destruct
    (SemanticAnalyzer.is_declared_in_current_scope name (table a));
    reflexivity).
  set (a4 := SemanticAnalyzer.set_current_function (Some name) _).
  assert (Hok4 : table_ok (table a4)).
  { subst a4. cbn. apply table_ok_enter, table_ok_declare.
    rewrite Ht1. exact Hok. }
  destruct (declare_param_keeps params a4 Hok4) as [Hok5 Hf5].
  destruct (visit_all_keeps body Hbody _ Hok5) as [Hok6 Hf6].
  pose proof (frame_trans _ _ _ Hf5 Hf6) as (K1 & K2 & _).
  cbn [SemanticAnalyzer.on_table SemanticAnalyzer.set_current_function
       SemanticAnalyzer.symbol_table].
  rewrite <- Ht1.
  apply exit_after_frame; [| exact Hok6 | exact K1 | exact K2].
  apply table_ok_declare. rewrite Ht1. exact Hok.
Qed.

Lemma class_def_table (name : string) (body : list Statement)
    (a : SemanticAnalyzer.t) :
  Forall keeps body ->
  table_ok (table a) ->
  table (SemanticAnalyzer.visit_statement (ClassDef name body) a)
  = SemanticAnalyzer.declare name "class" (table a).
Proof.
  intros Hbody Hok. cbn [SemanticAnalyzer.visit_statement].
  set (a1 := if SemanticAnalyzer.is_declared_in_current_scope name (table a)
             then _ else a).
  assert (Ht1 : table a1 = table a) by (subst a1; destruct
    (SemanticAnalyzer.is_declared_in_current_scope name (table a));
    reflexivity).
  set (a3 := SemanticAnalyzer.on_table SemanticAnalyzer.enter_scope _).
  assert (Hok3 : table_ok (table a3)).
  { subst a3. cbn. apply table_ok_enter, table_ok_declare.
    rewrite Ht1. exact Hok. }
  destruct (visit_all_keeps body Hbody _ Hok3) as (Hok4 & K1 & K2 & _).
  cbn [SemanticAnalyzer.on_table SemanticAnalyzer.symbol_table].
  rewrite <- Ht1.
  apply exit_after_frame; [| exact Hok4 | exact K1 | exact K2].
  apply table_ok_declare. rewrite Ht1. exact Hok.
Qed.

Lemma for_statement_table (target : string) (iterable : Expression)
    (body : list Statement) (a : SemanticAnalyzer.t) :
  Forall keeps body ->
  table_ok (table a) ->
  table (SemanticAnalyzer.visit_statement
           (ForStatement target iterable body) a)
  = table a.
Proof.
  intros Hbody Hok. cbn [SemanticAnalyzer.visit_statement].
  destruct (visit_expression_appends iterable a) as (Ht1 & _).
  set (a1 := SemanticAnalyzer.visit_expression iterable a) in *.
  set (a3 := SemanticAnalyzer.on_table (SemanticAnalyzer.declare _ _) _).
  assert (Hok3 : table_ok (table a3)).
  { subst a3. cbn. apply table_ok_declare, table_ok_enter.
    rewrite Ht1. exact Hok. }
  destruct (visit_all_keeps body Hbody _ Hok3) as (Hok4 & K1 & K2 & _).
  cbn [SemanticAnalyzer.on_table SemanticAnalyzer.symbol_table].
  rewrite <- Ht1.
  apply exit_after_frame; [| exact Hok4 | exact K1 |].
  - rewrite Ht1. exact Hok.
  - etransitivity; [exact K2|]. subst a3. cbn. apply take_alter_ge. lia.
Qed.

Lemma frame_of_table (a a' : SemanticAnalyzer.t)
    (st : SemanticAnalyzer.SymbolTable) :
  table a' = st ->
  frame a (SemanticAnalyzer.on_table (fun _ => st) a) ->
  SemanticAnalyzer.current_function a' = SemanticAnalyzer.current_function a ->
  (exists new, SemanticAnalyzer.errors a' = SemanticAnalyzer.errors a ++ new) ->
  frame a a'.
Proof.
  intros <- (H1 & H2 & _) H3 H4. repeat split; assumption.
Qed.

Lemma visit_statement_keeps (s : Statement) : keeps s.
Proof.
  induction s
    as [name params body H | name body H
       | condition then_body else_body H H0 | target iterable body H
       | condition body H | value | target value | expression]
    using Statement_nested_ind; intros a Hok.
  - (* FunctionDef *)
    pose proof (function_def_table name params body a H Hok) as Ht.
    split; [rewrite Ht; apply table_ok_declare; exact Hok|].
    apply (frame_of_table _ _ _ Ht); [apply frame_declare| |].
    + cbn [SemanticAnalyzer.visit_statement SemanticAnalyzer.on_table
           SemanticAnalyzer.set_current_function
           SemanticAnalyzer.current_function].
      destruct (SemanticAnalyzer.is_declared_in_current_scope name (table a));
        reflexivity.
    + cbn [SemanticAnalyzer.visit_statement].
      set (a1 := if SemanticAnalyzer.is_declared_in_current_scope name
                      (table a) then _ else a).
      assert (H1 : table a1 = table a
                   /\ exists new, SemanticAnalyzer.errors a1
                                  = SemanticAnalyzer.errors a ++ new).
      { subst a1. destruct (SemanticAnalyzer.is_declared_in_current_scope
                              name (table a)).
        - split; [reflexivity|]. eexists. reflexivity.
        - split; [reflexivity|]. exists []. symmetry. apply app_nil_r. }
      destruct H1 as [Ht1 [new1 He1]].
      set (a4 := SemanticAnalyzer.set_current_function (Some name) _).
      assert (Hok4 : table_ok (table a4)).
      { subst a4. cbn. apply table_ok_enter, table_ok_declare.
        rewrite Ht1. exact Hok. }
      destruct (declare_param_keeps params a4 Hok4) as [Hok5 Hf5].
      destruct (visit_all_keeps body H _ Hok5) as [Hok6 Hf6].
      pose proof (frame_trans _ _ _ Hf5 Hf6) as (_ & _ & _ & new & He).
      exists (new1 ++ new). cbn. rewrite He. subst a4. cbn.
      rewrite He1. symmetry. apply app_assoc.
  - (* ClassDef *)
    pose proof (class_def_table name body a H Hok) as Ht.
    split; [rewrite Ht; apply table_ok_declare; exact Hok|].
    cbn [SemanticAnalyzer.visit_statement] in *.
    set (a1 := if SemanticAnalyzer.is_declared_in_current_scope name
                    (table a) then _ else a) in *.
    assert (H1 : table a1 = table a /\ frame a a1).
    { subst a1. destruct (SemanticAnalyzer.is_declared_in_current_scope
                            name (table a)).
      - split; [reflexivity|apply frame_error].
      - split; [reflexivity|apply frame_refl]. }
    destruct H1 as [Ht1 (_ & _ & Hc1 & new1 & He1)].
    set (a3 := SemanticAnalyzer.on_table SemanticAnalyzer.enter_scope _) in *.
    assert (Hok3 : table_ok (table a3)).
    { subst a3. cbn. apply table_ok_enter, table_ok_declare.
      rewrite Ht1. exact Hok. }
    destruct (visit_all_keeps body H _ Hok3) as (_ & _ & _ & Hc & new & He).
    apply (frame_of_table _ _ _ Ht); [apply frame_declare| |].
    + cbn. rewrite Hc. subst a3. cbn. exact Hc1.
    + exists (new1 ++ new). cbn. rewrite He. subst a3. cbn.
      rewrite He1. symmetry. apply app_assoc.
  - (* IfStatement *)
    cbn [SemanticAnalyzer.visit_statement].
    pose proof (frame_visit_expression condition a) as Hf1.
    assert (Hok1 : table_ok
                     (table (SemanticAnalyzer.visit_expression condition a))).
    { destruct (visit_expression_appends condition a) as (-> & _).
      exact Hok. }
    destruct (visit_all_keeps then_body H _ Hok1) as [Hok2 Hf2].
    pose proof (frame_trans _ _ _ Hf1 Hf2) as Hf.
    destruct else_body as [[|stmt rest]|]; [split; assumption| |
                                            split; assumption].
    destruct (visit_all_keeps (stmt :: rest) H0 _ Hok2) as [Hok3 Hf3].
    split; [exact Hok3|]. eapply frame_trans; eassumption.
  - (* ForStatement *)
    pose proof (for_statement_table target iterable body a H Hok) as Ht.
    split; [rewrite Ht; exact Hok|].
    cbn [SemanticAnalyzer.visit_statement] in *.
    pose proof (frame_visit_expression iterable a)
      as (_ & _ & Hc1 & new1 & He1).
    destruct (visit_expression_appends iterable a) as (Ht1 & _).
    set (a1 := SemanticAnalyzer.visit_expression iterable a) in *.
    set (a3 := SemanticAnalyzer.on_table (SemanticAnalyzer.declare _ _) _)
      in *.
    assert (Hok3 : table_ok (table a3)).
    { subst a3. cbn. apply table_ok_declare, table_ok_enter.
      rewrite Ht1. exact Hok. }
    destruct (visit_all_keeps body H _ Hok3) as (_ & _ & _ & Hc & new & He).
    apply (frame_of_table _ _ _ Ht).
    + destruct a; repeat split. exists []. symmetry. apply app_nil_r.
    + cbn. rewrite Hc. subst a3. cbn. exact Hc1.
    + exists (new1 ++ new). cbn. rewrite He. subst a3. cbn.
      rewrite He1. symmetry. apply app_assoc.
  - (* WhileStatement *)
    cbn [SemanticAnalyzer.visit_statement].
    pose proof (frame_visit_expression condition a) as Hf1.
    assert (Hok1 : table_ok
                     (table (SemanticAnalyzer.visit_expression condition a))).
    { destruct (visit_expression_appends condition a) as (-> & _).
      exact Hok. }
    destruct (visit_all_keeps body H _ Hok1) as [Hok2 Hf2].
    split; [exact Hok2|]. eapply frame_trans; eassumption.
  - (* ReturnStatement *)
    cbn [SemanticAnalyzer.visit_statement].
    set (a1 := match SemanticAnalyzer.current_function a with
               | None => _ | Some _ => a end).
    assert (H1 : table a1 = table a /\ frame a a1).
    { subst a1. destruct (SemanticAnalyzer.current_function a).
      - split; [reflexivity|apply frame_refl].
      - split; [reflexivity|apply frame_error]. }
    destruct H1 as [Ht1 Hf1].
    destruct value as [expr|].
    + destruct (visit_expression_appends expr a1) as (Ht2 & _).
      split; [rewrite Ht2, Ht1; exact Hok|].
      eapply frame_trans; [exact Hf1|apply frame_visit_expression].
    + split; [rewrite Ht1; exact Hok|exact Hf1].
  - (* AssignStatement *)
    cbn [SemanticAnalyzer.visit_statement].
    pose proof (frame_visit_expression value a) as Hf1.
    destruct (visit_expression_appends value a) as (Ht1 & _).
    destruct (SemanticAnalyzer.lookup target _).
    + split; [rewrite Ht1; exact Hok|exact Hf1].
    + split; [cbn; apply table_ok_declare; rewrite Ht1; exact Hok|].
      eapply frame_trans; [exact Hf1|apply frame_declare].
  - (* ExpressionStatement *)
    cbn [SemanticAnalyzer.visit_statement].
    destruct (visit_expression_appends expression a) as (Ht1 & _).
    split; [rewrite Ht1; exact Hok|apply frame_visit_expression].
Qed.

End Visits.

(** ** The diagnostics of a visit *)

Section Diagnostics.

Local Abbreviation table := SemanticAnalyzer.symbol_table.
Local Abbreviation visit_all :=
  (fold_left (fun a' stmt => SemanticAnalyzer.visit_statement stmt a')).

Lemma adds_refl (Q : string -> Prop) (a : SemanticAnalyzer.t) : adds Q a a.
Proof. exists []. split; [symmetry; apply app_nil_r|constructor]. Qed.

Lemma adds_trans (Q : string -> Prop) (a b c : SemanticAnalyzer.t) :
  adds Q a b -> adds Q b c -> adds Q a c.
Proof.
  intros (new1 & H1 & Q1) (new2 & H2 & Q2). exists (new1 ++ new2).
  split; [rewrite H2, H1; symmetry; apply app_assoc|].
  apply Forall_app. split; assumption.
Qed.

Lemma adds_error (Q : string -> Prop) (message : string)
    (a : SemanticAnalyzer.t) :
  Q message -> adds Q a (SemanticAnalyzer.error message a).
Proof.
  intros H. exists [message]. split; [reflexivity|].
  constructor; [exact H|constructor].
Qed.

Lemma adds_fold {X : Type} (Q : string -> Prop)
    (f : SemanticAnalyzer.t -> X -> SemanticAnalyzer.t) (l : list X) :
  Forall (fun x => forall a, adds Q a (f a x)) l ->
  forall a, adds Q a (fold_left f l a).
Proof.
  induction 1 as [|x rest Hx _ IH]; intros a; cbn [fold_left].
  - apply adds_refl.
  - eapply adds_trans; [apply Hx|apply IH].
Qed.

Lemma visit_expression_adds (e : Expression) :
  forall a, adds expression_message a (SemanticAnalyzer.visit_expression e a).
Proof.
  induction e as
    [lhs op rhs IHl IHr | op operand IH | name args IH
    | object method args IHo IH | name | v ty | elements IH | pairs IH
    | object attribute IH | object index IHo IHi]
    using Expression_nested_ind; intros a;
    cbn [SemanticAnalyzer.visit_expression].
  - eapply adds_trans; [apply IHl|apply IHr].
  - apply IH.
  - eapply adds_trans; [|apply (adds_fold _ _ _ IH)].
    unfold SemanticAnalyzer.check_callee.
    destruct (SemanticAnalyzer.lookup _ _) as [sym|];
      [destruct (SemanticAnalyzer.not_callable sym)|].
    + apply adds_error. exists name. right. left. reflexivity.
    + apply adds_refl.
    + apply adds_error. exists name. left. reflexivity.
  - eapply adds_trans; [apply IHo|apply (adds_fold _ _ _ IH)].
  - destruct (SemanticAnalyzer.lookup _ _).
    + apply adds_refl.
    + apply adds_error. exists name. right. right. reflexivity.
  - apply adds_refl.
  - apply (adds_fold _ _ _ IH).
  - apply adds_fold.
    eapply Forall_impl; [exact IH|]. intros kv [Hk Hv] a'. cbn beta.
    eapply adds_trans; [apply Hk|apply Hv].
  - apply IH.
  - eapply adds_trans; [apply IHo|apply IHi].
Qed.

Lemma first_char_differs (m1 m2 : string) :
  String.get 0 m1 <> String.get 0 m2 -> m1 <> m2.
Proof. intros H ->. apply H. reflexivity. Qed.

Lemma expression_message_not_return (m : string) :
  expression_message m -> m <> return_message.
Proof.
  intros [name [-> | [-> | ->]]]; apply first_char_differs;
    vm_compute; discriminate.
Qed.

Lemma visit_expression_quiet (e : Expression) (a : SemanticAnalyzer.t) :
  quiet a (SemanticAnalyzer.visit_expression e a).
Proof.
  destruct (visit_expression_adds e a) as (new & H & Q).
  exists new. split; [exact H|].
  eapply Forall_impl; [exact Q|]. apply expression_message_not_return.
Qed.

Lemma quiet_flags (a a' : SemanticAnalyzer.t) (b : Prop) :
  quiet a a' -> ~ b -> flags b a a'.
Proof.
  intros (new & H & Q) Hb. exists new. split; [exact H|].
  split; [|tauto]. intros Hin.
  rewrite Forall_forall in Q. apply list_elem_of_In in Hin.
  exfalso. exact (Q _ Hin eq_refl).
Qed.

Lemma flags_trans (b1 b2 b : Prop) (a1 a2 a3 : SemanticAnalyzer.t) :
  flags b1 a1 a2 -> flags b2 a2 a3 -> (b1 \/ b2 <-> b) -> flags b a1 a3.
Proof.
  intros (new1 & H1 & Q1) (new2 & H2 & Q2) Hb. exists (new1 ++ new2).
  split; [rewrite H2, H1; symmetry; apply app_assoc|].
  rewrite in_app_iff, Q1, Q2. exact Hb.
Qed.

Lemma flags_iff (b b' : Prop) (a a' : SemanticAnalyzer.t) :
  flags b a a' -> (b <-> b') -> flags b' a a'.
Proof.
  intros (new & H & Q) Hb. exists new. split; [exact H|].
  rewrite Q. exact Hb.
Qed.

Lemma visit_all_flags (body : list Statement) :
  Forall flags_stray body ->
  forall a,
    table_ok (table a) ->
    flags (SemanticAnalyzer.current_function a = None
           /\ existsb stray_return body = true)
      a (visit_all body a).
Proof.
  induction 1 as [|s rest Hs _ IH]; intros a Hok; cbn [fold_left existsb].
  - apply quiet_flags; [apply adds_refl|]. intros [_ H]. discriminate.
  - destruct (visit_statement_keeps s a Hok) as (Hok1 & _ & _ & Hc & _).
    eapply flags_trans; [apply (Hs a Hok)|apply (IH _ Hok1)|].
    rewrite Hc, orb_true_iff. tauto.
Qed.

Lemma declare_param_quiet (params : list string) :
  forall a, quiet a (fold_left SemanticAnalyzer.declare_param params a).
Proof.
  apply adds_fold. apply Forall_forall. intros p _ a.
  unfold SemanticAnalyzer.declare_param.
  destruct (SemanticAnalyzer.is_declared_in_current_scope p (table a)).
  - apply (adds_trans _ _ (SemanticAnalyzer.error
                             ("Parameter '" +:+ p +:+ "' already declared") a)).
    + apply adds_error. apply first_char_differs. vm_compute. discriminate.
    + exists []. split; [symmetry; apply app_nil_r|constructor].
  - exists []. split; [symmetry; apply app_nil_r|constructor].
Qed.

Lemma quiet_same_errors (a a' : SemanticAnalyzer.t) :
  SemanticAnalyzer.errors a' = SemanticAnalyzer.errors a -> quiet a a'.
Proof.
  intros H. exists []. split; [rewrite H; symmetry; apply app_nil_r|].
  constructor.
Qed.

Lemma quiet_on_table (f : SemanticAnalyzer.SymbolTable
                          -> SemanticAnalyzer.SymbolTable)
    (a : SemanticAnalyzer.t) :
  quiet a (SemanticAnalyzer.on_table f a).
Proof. apply quiet_same_errors. reflexivity. Qed.

Lemma flags_quiet_l (b : Prop) (a1 a2 a3 : SemanticAnalyzer.t) :
  quiet a1 a2 -> flags b a2 a3 -> flags b a1 a3.
Proof.
  intros Hq Hf.
  eapply flags_trans; [apply (quiet_flags _ _ False Hq); tauto|exact Hf|].
  tauto.
Qed.

Lemma flags_quiet_r (b : Prop) (a1 a2 a3 : SemanticAnalyzer.t) :
  flags b a1 a2 -> quiet a2 a3 -> flags b a1 a3.
Proof.
  intros Hf Hq.
  eapply flags_trans; [exact Hf|apply (quiet_flags _ _ False Hq); tauto|].
  tauto.
Qed.

(** X1. [Return statement outside function] is among the diagnostics
    that a statement adds exactly when the analyzer is in no function
    and the statement holds a [return] that no function definition of
    its own encloses. A [return] in a class body, a loop or a branch
    outside every function is reported; one inside a function is not. *)
Theorem return_flagged_exactly :
  forall s a,
    table_ok (SemanticAnalyzer.symbol_table a) ->
    exists new,
      SemanticAnalyzer.errors (SemanticAnalyzer.visit_statement s a)
      = SemanticAnalyzer.errors a ++ new
      /\ (In return_message new
          <-> SemanticAnalyzer.current_function a = None
              /\ stray_return s = true).
Proof.
  intros s. change (flags_stray s).
  induction s
    as [name params body H | name body H
       | condition then_body else_body H H0 | target iterable body H
       | condition body H | value | target value | expression]
    using Statement_nested_ind; intros a Hok;
    cbn [SemanticAnalyzer.visit_statement stray_return].
  - (* FunctionDef: the body is visited inside the function *)
    set (a1 := if SemanticAnalyzer.is_declared_in_current_scope name (table a)
               then _ else a).
    assert (H1 : table a1 = table a /\ quiet a a1).
    { subst a1. destruct (SemanticAnalyzer.is_declared_in_current_scope
                            name (table a)).
      - split; [reflexivity|]. apply adds_error.
        apply first_char_differs. vm_compute. discriminate.
      - split; [reflexivity|apply adds_refl]. }
    destruct H1 as [Ht1 Hq1].
    set (a4 := SemanticAnalyzer.set_current_function (Some name) _).
    assert (Hok4 : table_ok (table a4)).
    { subst a4. cbn. apply table_ok_enter, table_ok_declare.
      rewrite Ht1. exact Hok. }
    assert (Hq4 : quiet a1 a4) by (apply quiet_same_errors; reflexivity).
    destruct (declare_param_keeps params a4 Hok4)
      as (Hok5 & _ & _ & Hc5 & _).
    pose proof (declare_param_quiet params a4) as Hq5.
    pose proof (visit_all_flags body H _ Hok5) as Hbody.
    rewrite Hc5 in Hbody.
    set (a5 := fold_left SemanticAnalyzer.declare_param params a4) in *.
    set (a6 := visit_all body a5) in *.
    apply (flags_quiet_l _ _ a1 _ Hq1).
    apply (flags_quiet_l _ _ a4 _ Hq4).
    apply (flags_quiet_l _ _ a5 _ Hq5).
    apply (flags_quiet_r _ _ a6 _);
      [|apply quiet_same_errors; reflexivity].
    eapply flags_iff; [exact Hbody|].
    subst a4. cbn. split; [intros [K _]|intros [_ K]]; discriminate.
  - (* ClassDef: the body is visited in the function around it *)
    set (a1 := if SemanticAnalyzer.is_declared_in_current_scope name (table a)
               then _ else a).
    assert (H1 : table a1 = table a /\ quiet a a1
                 /\ SemanticAnalyzer.current_function a1
                    = SemanticAnalyzer.current_function a).
    { subst a1. destruct (SemanticAnalyzer.is_declared_in_current_scope
                            name (table a)).
      - split; [reflexivity|]. split; [|reflexivity]. apply adds_error.
        apply first_char_differs. vm_compute. discriminate.
      - split; [reflexivity|]. split; [apply adds_refl|reflexivity]. }
    destruct H1 as (Ht1 & Hq1 & Hc1).
    set (a3 := SemanticAnalyzer.on_table SemanticAnalyzer.enter_scope _).
    assert (Hok3 : table_ok (table a3)).
    { subst a3. cbn. apply table_ok_enter, table_ok_declare.
      rewrite Ht1. exact Hok. }
    assert (Hq3 : quiet a1 a3) by (apply quiet_same_errors; reflexivity).
    assert (Hc3 : SemanticAnalyzer.current_function a3
                  = SemanticAnalyzer.current_function a)
      by (rewrite <- Hc1; reflexivity).
    pose proof (visit_all_flags body H _ Hok3) as Hbody.
    rewrite Hc3 in Hbody.
    set (a4 := visit_all body a3) in *.
    apply (flags_quiet_l _ _ a1 _ Hq1).
    apply (flags_quiet_l _ _ a3 _ Hq3).
    apply (flags_quiet_r _ _ a4 _); [exact Hbody|apply quiet_on_table].
  - (* IfStatement *)
    destruct (visit_expression_appends condition a) as (Ht1 & Hc1 & _).
    assert (Hok1 : table_ok
                     (table (SemanticAnalyzer.visit_expression condition a)))
      by (rewrite Ht1; exact Hok).
    apply (flags_quiet_l _ _ _ _ (visit_expression_quiet condition a)).
    pose proof (visit_all_flags then_body H _ Hok1) as Hthen.
    rewrite Hc1 in Hthen.
    destruct (visit_all_keeps then_body) with
      (a := SemanticAnalyzer.visit_expression condition a)
      as (Hok2 & _ & _ & Hc2 & _);
      [eapply Forall_impl; [exact H|]; intros; apply visit_statement_keeps
      |exact Hok1|].
    rewrite Hc1 in Hc2.
    destruct else_body as [[|stmt rest]|].
    + eapply flags_iff; [exact Hthen|]. rewrite orb_false_r. tauto.
    + pose proof (visit_all_flags (stmt :: rest) H0 _ Hok2) as Helse.
      rewrite Hc2 in Helse.
      eapply flags_trans; [exact Hthen|exact Helse|].
      rewrite (orb_true_iff (existsb stray_return then_body)). tauto.
    + eapply flags_iff; [exact Hthen|]. rewrite orb_false_r. tauto.
  - (* ForStatement *)
    destruct (visit_expression_appends iterable a) as (Ht1 & Hc1 & _).
    pose proof (visit_expression_quiet iterable a) as Hq1.
    set (a1 := SemanticAnalyzer.visit_expression iterable a) in *.
    set (a3 := SemanticAnalyzer.on_table (SemanticAnalyzer.declare _ _) _).
    assert (Hok3 : table_ok (table a3)).
    { subst a3. cbn. apply table_ok_declare, table_ok_enter.
      rewrite Ht1. exact Hok. }
    assert (Hq3 : quiet a1 a3) by (apply quiet_same_errors; reflexivity).
    assert (Hc3 : SemanticAnalyzer.current_function a3
                  = SemanticAnalyzer.current_function a)
      by (rewrite <- Hc1; reflexivity).
    pose proof (visit_all_flags body H _ Hok3) as Hbody.
    rewrite Hc3 in Hbody.
    set (a4 := visit_all body a3) in *.
    apply (flags_quiet_l _ _ a1 _ Hq1).
    apply (flags_quiet_l _ _ a3 _ Hq3).
    apply (flags_quiet_r _ _ a4 _); [exact Hbody|apply quiet_on_table].
  - (* WhileStatement *)
    destruct (visit_expression_appends condition a) as (Ht1 & Hc1 & _).
    assert (Hok1 : table_ok
                     (table (SemanticAnalyzer.visit_expression condition a)))
      by (rewrite Ht1; exact Hok).
    apply (flags_quiet_l _ _ _ _ (visit_expression_quiet condition a)).
    pose proof (visit_all_flags body H _ Hok1) as Hbody.
    rewrite Hc1 in Hbody. exact Hbody.
  - (* ReturnStatement *)
    set (a1 := match SemanticAnalyzer.current_function a with
               | None => _ | Some _ => a end).
    assert (H1 : flags (SemanticAnalyzer.current_function a = None
                        /\ true = true) a a1).
    { subst a1. destruct (SemanticAnalyzer.current_function a).
      - apply quiet_flags; [apply adds_refl|]. intros [K _]. discriminate.
      - exists [return_message]. split; [reflexivity|].
        split; [tauto|]. intros _. left. reflexivity. }
    destruct value as [expr|]; [|exact H1].
    eapply flags_quiet_r; [exact H1|apply visit_expression_quiet].
  - (* AssignStatement *)
    apply quiet_flags; [|intros [_ K]; discriminate].
    destruct (SemanticAnalyzer.lookup target _).
    + apply visit_expression_quiet.
    + eapply adds_trans; [apply visit_expression_quiet|apply quiet_on_table].
  - (* ExpressionStatement *)
    apply quiet_flags; [|intros [_ K]; discriminate].
    apply visit_expression_quiet.
Qed.

End Diagnostics.

(** ** Parameters, built-in names and names defined twice *)

Section Names.

Local Abbreviation table := SemanticAnalyzer.symbol_table.
Local Abbreviation visit_all :=
  (fold_left (fun a' stmt => SemanticAnalyzer.visit_statement stmt a')).

Lemma table_ok_lt (st : SemanticAnalyzer.SymbolTable) :
  table_ok st ->
  (SemanticAnalyzer.current_scope st
   < List.length (SemanticAnalyzer.scopes st))%nat.
Proof. unfold table_ok. lia. Qed.

(** The parameter loop: a parameter is reported when the scope already
    has it. *)
Lemma declare_param_errors (params : list string) :
  forall (seen : list string) (a : SemanticAnalyzer.t),
    table_ok (table a) ->
    (forall p,
       SemanticAnalyzer.is_declared_in_current_scope p (table a)
       = bool_decide (p ∈ seen)) ->
    SemanticAnalyzer.errors (fold_left SemanticAnalyzer.declare_param params a)
    = SemanticAnalyzer.errors a
      ++ List.map parameter_message (repeated seen params).
Proof.
  induction params as [|p rest IH]; intros seen a Hok Hseen;
    cbn [fold_left repeated List.map].
  - symmetry. apply app_nil_r.
  - assert (Ht : table (SemanticAnalyzer.declare_param a p)
                 = SemanticAnalyzer.declare p "variable" (table a)).
    { unfold SemanticAnalyzer.declare_param.
      destruct (SemanticAnalyzer.is_declared_in_current_scope p (table a));
        reflexivity. }
    assert (He : SemanticAnalyzer.errors (SemanticAnalyzer.declare_param a p)
                 = SemanticAnalyzer.errors a
                   ++ List.map parameter_message
                        (if bool_decide (p ∈ seen) then [p] else [])).
    { unfold SemanticAnalyzer.declare_param. rewrite Hseen.
      destruct (bool_decide (p ∈ seen)); cbn; [reflexivity|].
      symmetry. apply app_nil_r. }
    rewrite (IH (p :: seen)).
    + rewrite He, map_app. symmetry. apply app_assoc.
    + rewrite Ht. apply table_ok_declare. exact Hok.
    + intros q. rewrite Ht.
      destruct (decide (q = p)) as [->|Hne].
      * rewrite (declared_after_declare p "variable" (table a)
                   (table_ok_lt _ Hok)).
        symmetry. apply bool_decide_eq_true. left.
      * rewrite (declared_other p "variable" q (table a) Hne), Hseen.
        apply bool_decide_ext. rewrite elem_of_cons. tauto.
Qed.

Lemma enter_scope_empty (p : string) (st : SemanticAnalyzer.SymbolTable) :
  table_ok st ->
  SemanticAnalyzer.is_declared_in_current_scope p
    (SemanticAnalyzer.enter_scope st) = false.
Proof.
  unfold table_ok, SemanticAnalyzer.is_declared_in_current_scope,
    SemanticAnalyzer.enter_scope, SemanticAnalyzer.scope_get.
  cbn [SemanticAnalyzer.scopes SemanticAnalyzer.current_scope].
  intros Hok.
  rewrite (list_lookup_middle _ [] ∅) by lia.
  rewrite lookup_empty. reflexivity.
Qed.

(** [declare] keeps what the global scope has of [b], when the symbol
    it writes for [b] there is in [Q]. *)
Lemma root_declare (Q : SemanticAnalyzer.Symbol -> Prop)
    (b name symbol_type : string) (st : SemanticAnalyzer.SymbolTable) :
  root_has Q b st ->
  (name = b ->
   SemanticAnalyzer.current_scope st = 0%nat ->
   Q (SemanticAnalyzer.mkSymbol name symbol_type
        ("scope_" +:+ str_of_nat (SemanticAnalyzer.current_scope st)))) ->
  root_has Q b (SemanticAnalyzer.declare name symbol_type st).
Proof.
  intros (sym & Hsym & HQ) Hty.
  unfold root_has, SemanticAnalyzer.scope_get, SemanticAnalyzer.declare in *.
  cbn [SemanticAnalyzer.scopes].
  destruct (decide (SemanticAnalyzer.current_scope st = 0%nat)) as [H0|H0].
  - specialize (fun E => Hty E H0). rewrite H0 in *.
    destruct (SemanticAnalyzer.scopes st !! 0%nat) as [m|] eqn:Em;
      [|discriminate].
    rewrite list_lookup_alter_eq, Em. cbn [fmap option_fmap option_map].
    destruct (decide (name = b)) as [->|Hne].
    + rewrite lookup_insert_eq. eexists. split; [reflexivity|].
      apply Hty; reflexivity.
    + rewrite lookup_insert_ne by exact Hne. exists sym. split; assumption.
  - rewrite list_lookup_alter_ne by exact H0. exists sym. split; assumption.
Qed.

Lemma visit_all_root (Q : SemanticAnalyzer.Symbol -> Prop) (b : string)
    (body : list Statement) :
  Forall (keeps_root Q b) body ->
  forall a,
    table_ok (table a) ->
    SemanticAnalyzer.current_scope (table a) = 0%nat ->
    root_has Q b (table a) ->
    root_has Q b (table (visit_all body a)).
Proof.
  induction 1 as [|s rest Hs _ IH]; intros a Hok Hz Hb; cbn [fold_left].
  - exact Hb.
  - destruct (visit_statement_keeps s a Hok) as (Hok1 & Hd & _).
    apply IH; [exact Hok1|congruence|]. apply Hs; assumption.
Qed.

Lemma all_keep (body : list Statement) : Forall keeps body.
Proof. apply Forall_forall. intros s _. apply visit_statement_keeps. Qed.

(** At the global scope a statement takes no name away, and leaves a
    name that can be called one that can be called: a definition writes
    a function or a class, and an assignment writes nothing over a name
    that is there. *)
Lemma visit_statement_root (Q : SemanticAnalyzer.Symbol -> Prop)
    (b : string) :
  (forall scope, Q (SemanticAnalyzer.mkSymbol b "function" scope)) ->
  (forall scope, Q (SemanticAnalyzer.mkSymbol b "class" scope)) ->
  forall s, keeps_root Q b s.
Proof.
  intros Hfun Hclass s.
  induction s
    as [name params body H | name body H
       | condition then_body else_body H H0 | target iterable body H
       | condition body H | value | target value | expression]
    using Statement_nested_ind; intros a Hok Hz Hb.
  - rewrite (function_def_table _ _ _ _ (all_keep body) Hok).
    apply root_declare; [assumption|]. intros -> _. apply Hfun.
  - rewrite (class_def_table _ _ _ (all_keep body) Hok).
    apply root_declare; [assumption|]. intros -> _. apply Hclass.
  - cbn [SemanticAnalyzer.visit_statement].
    destruct (visit_expression_appends condition a) as (Ht1 & _).
    set (a1 := SemanticAnalyzer.visit_expression condition a) in *.
    assert (Hok1 : table_ok (table a1)) by (rewrite Ht1; exact Hok).
    assert (H01 : SemanticAnalyzer.current_scope (table a1) = 0%nat)
      by (rewrite Ht1; exact Hz).
    assert (Hb1 : root_has Q b (table a1)) by (rewrite Ht1; exact Hb).
    pose proof (visit_all_root Q b then_body H a1 Hok1 H01 Hb1) as Hb2.
    destruct (visit_all_keeps then_body (all_keep _) a1 Hok1)
      as (Hok2 & Hd2 & _).
    destruct else_body as [[|stmt rest]|]; [exact Hb2| |exact Hb2].
    apply (visit_all_root Q b (stmt :: rest) H0 _ Hok2);
      [congruence|exact Hb2].
  - rewrite (for_statement_table _ _ _ _ (all_keep body) Hok). exact Hb.
  - cbn [SemanticAnalyzer.visit_statement].
    destruct (visit_expression_appends condition a) as (Ht1 & _).
    apply (visit_all_root Q b body H); rewrite Ht1; assumption.
  - cbn [SemanticAnalyzer.visit_statement].
    set (a1 := match SemanticAnalyzer.current_function a with
               | None => _ | Some _ => a end).
    assert (Ht1 : table a1 = table a)
      by (subst a1; destruct (SemanticAnalyzer.current_function a);
          reflexivity).
    destruct value as [expr|].
    + destruct (visit_expression_appends expr a1) as (-> & _).
      rewrite Ht1. exact Hb.
    + rewrite Ht1. exact Hb.
  - cbn [SemanticAnalyzer.visit_statement].
    destruct (visit_expression_appends value a) as (Ht1 & _).
    destruct (SemanticAnalyzer.lookup target _) eqn:El.
    + rewrite Ht1. exact Hb.
    + cbn [SemanticAnalyzer.on_table SemanticAnalyzer.symbol_table].
      rewrite Ht1 in *.
      apply root_declare; [assumption|].
      intros -> _. exfalso.
      destruct Hb as (sym & Hsym & _).
      unfold SemanticAnalyzer.lookup in El. rewrite Hz in El.
      cbn [SemanticAnalyzer.lookup_from] in El. rewrite Hsym in El.
      discriminate.
  - cbn [SemanticAnalyzer.visit_statement].
    destruct (visit_expression_appends expression a) as (-> & _). exact Hb.
Qed.

Lemma declare_builtins_table (a : SemanticAnalyzer.t) :
  table_ok (table a) ->
  table_ok (table (SemanticAnalyzer.declare_builtins a))
  /\ SemanticAnalyzer.current_scope
       (table (SemanticAnalyzer.declare_builtins a))
     = SemanticAnalyzer.current_scope (table a).
Proof.
  unfold SemanticAnalyzer.declare_builtins.
  generalize SemanticAnalyzer.builtin_functions. intros l. revert a.
  induction l as [|f rest IH]; intros a Hok; cbn [fold_left].
  - split; [exact Hok|reflexivity].
  - destruct (IH (SemanticAnalyzer.on_table
                    (SemanticAnalyzer.declare f "function") a)) as [H1 H2].
    + cbn. apply table_ok_declare. exact Hok.
    + split; [exact H1|]. rewrite H2. reflexivity.
Qed.

Lemma declare_builtins_function (a : SemanticAnalyzer.t) :
  SemanticAnalyzer.current_function (SemanticAnalyzer.declare_builtins a)
  = SemanticAnalyzer.current_function a.
Proof.
  unfold SemanticAnalyzer.declare_builtins.
  generalize SemanticAnalyzer.builtin_functions. intros l. revert a.
  induction l as [|f rest IH]; intros a; cbn [fold_left]; [reflexivity|].
  rewrite IH. reflexivity.
Qed.

Lemma declare_builtins_errors (a : SemanticAnalyzer.t) :
  SemanticAnalyzer.errors (SemanticAnalyzer.declare_builtins a)
  = SemanticAnalyzer.errors a.
Proof.
  unfold SemanticAnalyzer.declare_builtins.
  generalize SemanticAnalyzer.builtin_functions. intros l. revert a.
  induction l as [|f rest IH]; intros a; cbn [fold_left]; [reflexivity|].
  rewrite IH. reflexivity.
Qed.

(** The loop over the built-in names takes no name away. *)
Lemma declare_builtins_root (b : string) (a : SemanticAnalyzer.t) :
  root_has (fun _ => True) b (table a) ->
  root_has (fun _ => True) b (table (SemanticAnalyzer.declare_builtins a)).
Proof.
  unfold SemanticAnalyzer.declare_builtins.
  generalize SemanticAnalyzer.builtin_functions. intros l. revert a.
  induction l as [|f rest IH]; intros a Hb; cbn [fold_left]; [exact Hb|].
  apply IH. cbn. apply root_declare; [exact Hb|]. intros _ _. exact I.
Qed.

(** [analyze] comes back at the depth and in the function where it
    started. *)
Lemma analyze_keeps (ast : Program) (a : SemanticAnalyzer.t) :
  table_ok (table a) ->
  table_ok (table (fst (SemanticAnalyzer.analyze ast a)))
  /\ SemanticAnalyzer.current_scope
       (table (fst (SemanticAnalyzer.analyze ast a)))
     = SemanticAnalyzer.current_scope (table a)
  /\ SemanticAnalyzer.current_function (fst (SemanticAnalyzer.analyze ast a))
     = SemanticAnalyzer.current_function a.
Proof.
  intros Hok. unfold SemanticAnalyzer.analyze, SemanticAnalyzer.visit_program.
  cbn [fst].
  assert (Hok' : table_ok (table (SemanticAnalyzer.reset_errors a)))
    by exact Hok.
  destruct (declare_builtins_table _ Hok') as [Hok0 Hd0].
  destruct (visit_all_keeps (statements ast) (all_keep _) _ Hok0)
    as (Hok1 & Hd1 & _ & Hc1 & _).
  split; [exact Hok1|]. split.
  - rewrite Hd1, Hd0. reflexivity.
  - rewrite Hc1, declare_builtins_function. reflexivity.
Qed.

(** A function definition among the statements leaves its name in the
    global scope. *)
Lemma visit_all_defines (name : string) (params : list string)
    (body : list Statement) (stmts : list Statement) :
  In (FunctionDef name params body) stmts ->
  forall a,
    table_ok (table a) ->
    SemanticAnalyzer.current_scope (table a) = 0%nat ->
    root_has (fun _ => True) name (table (visit_all stmts a)).
Proof.
  induction stmts as [|s rest IH]; intros Hin a Hok Hz; [destruct Hin|].
  cbn [fold_left].
  destruct (visit_statement_keeps s a Hok) as (Hok1 & Hd1 & _).
  destruct Hin as [-> | Hin].
  - apply visit_all_root; [|exact Hok1|congruence|].
    + apply Forall_forall. intros s _.
      apply visit_statement_root; intros; exact I.
    + rewrite (function_def_table _ _ _ _ (all_keep body) Hok).
      eexists. split; [|exact I]. rewrite <- Hz.
      apply scope_get_declare_same. apply table_ok_lt, Hok.
  - apply IH; [exact Hin|exact Hok1|congruence].
Qed.

(** With the name in the global scope, the definition is reported. *)
Lemma visit_all_redefines (name : string) (params : list string)
    (body : list Statement) (stmts : list Statement) :
  In (FunctionDef name params body) stmts ->
  forall a,
    table_ok (table a) ->
    SemanticAnalyzer.current_scope (table a) = 0%nat ->
    root_has (fun _ => True) name (table a) ->
    exists before after,
      SemanticAnalyzer.errors (visit_all stmts a)
      = SemanticAnalyzer.errors a
        ++ before ++ [function_message name] ++ after.
Proof.
  induction stmts as [|s rest IH]; intros Hin a Hok Hz Hb; [destruct Hin|].
  cbn [fold_left].
  destruct (visit_statement_keeps s a Hok) as (Hok1 & Hd1 & _ & _ & new & He).
  destruct Hin as [-> | Hin].
  - destruct (visit_all_keeps rest (all_keep _) _ Hok1)
      as (_ & _ & _ & _ & after & Hafter).
    clear He. revert Hafter. cbn [SemanticAnalyzer.visit_statement].
    assert (Hdecl : SemanticAnalyzer.is_declared_in_current_scope name
                      (table a) = true).
    { unfold SemanticAnalyzer.is_declared_in_current_scope. rewrite Hz.
      destruct Hb as (sym & -> & _). reflexivity. }
    rewrite Hdecl.
    set (a4 := SemanticAnalyzer.set_current_function (Some name) _).
    assert (Hok4 : table_ok (table a4)).
    { subst a4. cbn. apply table_ok_enter, table_ok_declare. exact Hok. }
    destruct (declare_param_keeps params a4 Hok4) as [Hok5 Hf5].
    destruct (visit_all_keeps body (all_keep _) _ Hok5) as [_ Hf6].
    pose proof (frame_trans _ _ _ Hf5 Hf6) as (_ & _ & _ & inner & Hinner).
    intros Hafter. exists [], (inner ++ after).
    rewrite Hafter.
    cbn [SemanticAnalyzer.on_table SemanticAnalyzer.set_current_function
         SemanticAnalyzer.errors].
    rewrite Hinner. subst a4. cbn. rewrite <- !app_assoc. reflexivity.
  - assert (Hb1 : root_has (fun _ => True) name
                    (table (SemanticAnalyzer.visit_statement s a))).
    { apply visit_statement_root; try assumption; intros; exact I. }
    destruct (IH Hin _ Hok1 ltac:(congruence) Hb1)
      as (before & after & Hrest).
    exists (new ++ before), after. rewrite Hrest, He.
    rewrite <- !app_assoc. reflexivity.
Qed.

(** The second of two runs of [analyze] reports a function that both
    programs define. *)
Lemma analyze_again_reports :
  forall ast ast' a name params body params' body',
    table_ok (SemanticAnalyzer.symbol_table a) ->
    SemanticAnalyzer.current_scope (SemanticAnalyzer.symbol_table a) = 0%nat ->
    In (FunctionDef name params body) (statements ast) ->
    In (FunctionDef name params' body') (statements ast') ->
    In (function_message name)
      (snd (SemanticAnalyzer.analyze ast'
              (fst (SemanticAnalyzer.analyze ast a)))).
Proof.
  intros ast ast' a name params body params' body' Hok Hz Hin Hin'.
  destruct (analyze_keeps ast a Hok) as (Hok1 & Hz1 & _).
  rewrite Hz in Hz1.
  assert (Hb1 : root_has (fun _ => True) name
                  (SemanticAnalyzer.symbol_table
                     (fst (SemanticAnalyzer.analyze ast a)))).
  { unfold SemanticAnalyzer.analyze, SemanticAnalyzer.visit_program.
    cbn [fst].
    assert (Hok' : table_ok (SemanticAnalyzer.symbol_table
                               (SemanticAnalyzer.reset_errors a)))
      by exact Hok.
    destruct (declare_builtins_table _ Hok') as [Hok0 Hd0].
    apply (visit_all_defines name params body _ Hin); [exact Hok0|].
    rewrite Hd0. exact Hz. }
  set (a1 := fst (SemanticAnalyzer.analyze ast a)) in *.
  unfold SemanticAnalyzer.analyze at 1, SemanticAnalyzer.visit_program.
  cbn [snd].
  assert (Hok' : table_ok (SemanticAnalyzer.symbol_table
                             (SemanticAnalyzer.reset_errors a1)))
    by exact Hok1.
  destruct (declare_builtins_table _ Hok') as [Hok2 Hd2].
  destruct (visit_all_redefines name params' body' _ Hin'
              (SemanticAnalyzer.declare_builtins
                 (SemanticAnalyzer.reset_errors a1)) Hok2)
    as (before & after & He).
  - rewrite Hd2. exact Hz1.
  - apply declare_builtins_root. exact Hb1.
  - rewrite He. apply in_or_app. right. apply in_or_app. right. left.
    reflexivity.
Qed.

End Names.

(** ** The analyzer, as its users see it *)

(** X2. [declare] then [lookup]: the name declared last in the current
    scope is the one that is found, with the type given and the scope
    named after the depth; it counts as declared in the current scope;
    and the two queries answer as before for every other name. *)
Theorem declare_lookup :
  forall name symbol_type st,
    (SemanticAnalyzer.current_scope st
     < List.length (SemanticAnalyzer.scopes st))%nat ->
    SemanticAnalyzer.lookup name
      (SemanticAnalyzer.declare name symbol_type st)
    = Some (SemanticAnalyzer.mkSymbol name symbol_type
              ("scope_" +:+ str_of_nat (SemanticAnalyzer.current_scope st)))
    /\ SemanticAnalyzer.is_declared_in_current_scope name
         (SemanticAnalyzer.declare name symbol_type st) = true
    /\ (forall other,
          other <> name ->
          SemanticAnalyzer.lookup other
            (SemanticAnalyzer.declare name symbol_type st)
          = SemanticAnalyzer.lookup other st
          /\ SemanticAnalyzer.is_declared_in_current_scope other
               (SemanticAnalyzer.declare name symbol_type st)
             = SemanticAnalyzer.is_declared_in_current_scope other st).
Proof.
  intros name symbol_type st Hlt.
  split; [apply lookup_after_declare; exact Hlt|].
  split; [apply declared_after_declare; exact Hlt|].
  intros other Hne.
  split; [apply lookup_other|apply declared_other]; exact Hne.
Qed.

(** A variable [x] declared in the table of a new analyzer. *)
Lemma declare_lookup_witness :
  (SemanticAnalyzer.current_scope SemanticAnalyzer.SymbolTable_init
   < List.length
       (SemanticAnalyzer.scopes SemanticAnalyzer.SymbolTable_init))%nat
  /\ SemanticAnalyzer.lookup "x"
       (SemanticAnalyzer.declare "x" "variable"
          SemanticAnalyzer.SymbolTable_init)
     = Some (SemanticAnalyzer.mkSymbol "x" "variable" "scope_0").
Proof.
  assert (Hlt : (SemanticAnalyzer.current_scope
                   SemanticAnalyzer.SymbolTable_init
                 < List.length
                     (SemanticAnalyzer.scopes
                        SemanticAnalyzer.SymbolTable_init))%nat)
    by (simpl; lia).
  split; [exact Hlt|].
  destruct (declare_lookup "x" "variable" SemanticAnalyzer.SymbolTable_init
              Hlt) as [H _].
  exact H.
Defined.

(** X3. A scope that is entered and left leaves no trace: whatever was
    declared in it, [exit_scope] gives back the table from before
    [enter_scope]. Entering a scope hides nothing, and a name declared
    inside hides the one of the enclosing scopes. *)
Theorem scope_enter_exit :
  forall st name symbol_type,
    table_ok st ->
    SemanticAnalyzer.exit_scope (SemanticAnalyzer.enter_scope st) = st
    /\ SemanticAnalyzer.exit_scope
         (SemanticAnalyzer.declare name symbol_type
            (SemanticAnalyzer.enter_scope st)) = st
    /\ SemanticAnalyzer.lookup name (SemanticAnalyzer.enter_scope st)
       = SemanticAnalyzer.lookup name st
    /\ SemanticAnalyzer.lookup name
         (SemanticAnalyzer.declare name symbol_type
            (SemanticAnalyzer.enter_scope st))
       = Some (SemanticAnalyzer.mkSymbol name symbol_type
                 ("scope_" +:+ str_of_nat
                    (SemanticAnalyzer.current_scope st + 1))).
Proof.
  intros [scopes cs] name ty Hok. unfold table_ok in Hok. cbn in Hok.
  split; [|split; [|split]].
  - unfold SemanticAnalyzer.exit_scope, SemanticAnalyzer.enter_scope.
    cbn [SemanticAnalyzer.current_scope SemanticAnalyzer.scopes].
    replace (0 <? cs + 1)%nat with true by (symmetry; apply Nat.ltb_lt; lia).
    rewrite removelast_snoc. f_equal. lia.
  - unfold SemanticAnalyzer.exit_scope, SemanticAnalyzer.declare,
      SemanticAnalyzer.enter_scope.
    cbn [SemanticAnalyzer.current_scope SemanticAnalyzer.scopes].
    replace (0 <? cs + 1)%nat with true by (symmetry; apply Nat.ltb_lt; lia).
    replace (cs + 1)%nat with (List.length scopes + 0)%nat by lia.
    rewrite alter_app_r. cbn [alter list_alter].
    rewrite removelast_snoc. f_equal. lia.
  - unfold SemanticAnalyzer.lookup, SemanticAnalyzer.enter_scope.
    cbn [SemanticAnalyzer.current_scope SemanticAnalyzer.scopes].
    replace (cs + 1)%nat with (S cs) by lia.
    cbn [SemanticAnalyzer.lookup_from].
    assert (Hnew : SemanticAnalyzer.scope_get (scopes ++ [∅]) (S cs) name
                   = None).
    { unfold SemanticAnalyzer.scope_get.
      rewrite <- Hok, list_lookup_middle by reflexivity.
      apply lookup_empty. }
    rewrite Hnew. apply lookup_from_other.
    intros j Hj. unfold SemanticAnalyzer.scope_get.
    rewrite lookup_app_l by lia. reflexivity.
  - apply lookup_after_declare.
    unfold SemanticAnalyzer.enter_scope.
    cbn [SemanticAnalyzer.current_scope SemanticAnalyzer.scopes].
    rewrite length_app. cbn. lia.
Qed.

(** A variable declared in a scope above the table of a new analyzer. *)
Lemma scope_enter_exit_witness :
  table_ok SemanticAnalyzer.SymbolTable_init
  /\ SemanticAnalyzer.exit_scope
       (SemanticAnalyzer.declare "i" "variable"
          (SemanticAnalyzer.enter_scope SemanticAnalyzer.SymbolTable_init))
     = SemanticAnalyzer.SymbolTable_init.
Proof.
  assert (Hok : table_ok SemanticAnalyzer.SymbolTable_init) by reflexivity.
  split; [exact Hok|].
  destruct (scope_enter_exit SemanticAnalyzer.SymbolTable_init "i" "variable"
              Hok) as (_ & H & _).
  exact H.
Defined.

(** X4. Visiting an expression never touches the symbol table or the
    current function, and every diagnostic it adds is one of
    [Undefined function 'f'], ['f' is not a function or class] and
    [Undefined variable 'x']. *)
Theorem visit_expression_reports :
  forall e a,
    SemanticAnalyzer.symbol_table (SemanticAnalyzer.visit_expression e a)
    = SemanticAnalyzer.symbol_table a
    /\ SemanticAnalyzer.current_function
         (SemanticAnalyzer.visit_expression e a)
       = SemanticAnalyzer.current_function a
    /\ adds expression_message a (SemanticAnalyzer.visit_expression e a).
Proof.
  intros e a. destruct (visit_expression_appends e a) as (H1 & H2 & _).
  split; [exact H1|]. split; [exact H2|]. apply visit_expression_adds.
Qed.

(** X5. Visiting a statement comes back at the depth where it
    started: the table still has one scope per level, the
    scopes below the current one and the current function are as before,
    and diagnostics are only added at the end of the list. *)
Theorem visit_statement_frame :
  forall s a,
    table_ok (SemanticAnalyzer.symbol_table a) ->
    table_ok (SemanticAnalyzer.symbol_table
                (SemanticAnalyzer.visit_statement s a))
    /\ frame a (SemanticAnalyzer.visit_statement s a).
Proof.
  intros s a Hok. apply visit_statement_keeps. exact Hok.
Qed.

(** A function whose body returns its parameter, on a new analyzer. *)
Lemma visit_statement_frame_witness :
  table_ok (SemanticAnalyzer.symbol_table SemanticAnalyzer.init)
  /\ frame SemanticAnalyzer.init
       (SemanticAnalyzer.visit_statement
          (FunctionDef "f" ["x"] [ReturnStatement (Some (Identifier "x"))])
          SemanticAnalyzer.init).
Proof.
  assert (Hok : table_ok
                  (SemanticAnalyzer.symbol_table SemanticAnalyzer.init))
    by reflexivity.
  split; [exact Hok|].
  destruct (visit_statement_frame
              (FunctionDef "f" ["x"] [ReturnStatement (Some (Identifier "x"))])
              SemanticAnalyzer.init Hok) as [_ H].
  exact H.
Defined.

(** X6. The names of an inner scope do not outlive it: after a function
    definition the table is the one from before with the function
    declared, whatever its parameters and body; after a class definition
    it is the one from before with the class declared; and a [for]
    statement leaves the table exactly as it was. *)
Theorem scoped_statements_leave_no_locals :
  forall a name params target iterable body,
    table_ok (SemanticAnalyzer.symbol_table a) ->
    SemanticAnalyzer.symbol_table
      (SemanticAnalyzer.visit_statement (FunctionDef name params body) a)
    = SemanticAnalyzer.declare name "function"
        (SemanticAnalyzer.symbol_table a)
    /\ SemanticAnalyzer.symbol_table
         (SemanticAnalyzer.visit_statement (ClassDef name body) a)
       = SemanticAnalyzer.declare name "class"
           (SemanticAnalyzer.symbol_table a)
    /\ SemanticAnalyzer.symbol_table
         (SemanticAnalyzer.visit_statement
            (ForStatement target iterable body) a)
       = SemanticAnalyzer.symbol_table a.
Proof.
  intros a name params target iterable body Hok.
  split; [|split].
  - apply function_def_table; [apply all_keep|exact Hok].
  - apply class_def_table; [apply all_keep|exact Hok].
  - apply for_statement_table; [apply all_keep|exact Hok].
Qed.

(** A loop that assigns to a new name, on a new analyzer. *)
Lemma scoped_statements_leave_no_locals_witness :
  table_ok (SemanticAnalyzer.symbol_table SemanticAnalyzer.init)
  /\ SemanticAnalyzer.symbol_table
       (SemanticAnalyzer.visit_statement
          (ForStatement "i" (ListLiteral [])
             [AssignStatement "y" (Identifier "i")])
          SemanticAnalyzer.init)
     = SemanticAnalyzer.symbol_table SemanticAnalyzer.init.
Proof.
  assert (Hok : table_ok
                  (SemanticAnalyzer.symbol_table SemanticAnalyzer.init))
    by reflexivity.
  split; [exact Hok|].
  destruct (scoped_statements_leave_no_locals SemanticAnalyzer.init
              "f" [] "i" (ListLiteral [])
              [AssignStatement "y" (Identifier "i")] Hok) as (_ & _ & H).
  exact H.
Defined.

(** A [return] in the body of a loop, on a new analyzer. *)
Lemma return_flagged_exactly_witness :
  table_ok (SemanticAnalyzer.symbol_table SemanticAnalyzer.init)
  /\ exists new,
       SemanticAnalyzer.errors
         (SemanticAnalyzer.visit_statement
            (WhileStatement (Literal (PyBool true) "boolean")
               [ReturnStatement None])
            SemanticAnalyzer.init)
       = SemanticAnalyzer.errors SemanticAnalyzer.init ++ new
       /\ (In return_message new
           <-> SemanticAnalyzer.current_function SemanticAnalyzer.init = None
               /\ stray_return
                    (WhileStatement (Literal (PyBool true) "boolean")
                       [ReturnStatement None]) = true).
Proof.
  assert (Hok : table_ok
                  (SemanticAnalyzer.symbol_table SemanticAnalyzer.init))
    by reflexivity.
  split; [exact Hok|].
  exact (return_flagged_exactly
           (WhileStatement (Literal (PyBool true) "boolean")
              [ReturnStatement None])
           SemanticAnalyzer.init Hok).
Defined.

(** X7. The diagnostics of a function definition begin with the one
    for a name already declared in the current scope, if it is, and then
    one [Parameter 'p' already declared] for each parameter that repeats
    an earlier parameter of the same definition, in order. A parameter
    named like the function or like a name of an enclosing scope is not
    reported. With an empty body there is nothing else. *)
Theorem repeated_parameters_flagged :
  forall name params body a,
    table_ok (SemanticAnalyzer.symbol_table a) ->
    exists rest,
      SemanticAnalyzer.errors
        (SemanticAnalyzer.visit_statement (FunctionDef name params body) a)
      = SemanticAnalyzer.errors a
        ++ (if SemanticAnalyzer.is_declared_in_current_scope name
                 (SemanticAnalyzer.symbol_table a)
            then ["Function '" +:+ name
                  +:+ "' already declared in current scope"]
            else [])
        ++ List.map parameter_message (repeated [] params)
        ++ rest
      /\ (body = [] -> rest = []).
Proof.
  intros name params body a Hok.
  cbn [SemanticAnalyzer.visit_statement].
  set (pre := if SemanticAnalyzer.is_declared_in_current_scope name
                   (SemanticAnalyzer.symbol_table a)
              then ["Function '" +:+ name
                    +:+ "' already declared in current scope"]
              else []).
  set (a1 := if SemanticAnalyzer.is_declared_in_current_scope name
                  (SemanticAnalyzer.symbol_table a)
             then SemanticAnalyzer.error _ a else a).
  assert (H1 : SemanticAnalyzer.symbol_table a1
               = SemanticAnalyzer.symbol_table a
               /\ SemanticAnalyzer.errors a1
                  = SemanticAnalyzer.errors a ++ pre).
  { subst a1 pre.
    destruct (SemanticAnalyzer.is_declared_in_current_scope name
                (SemanticAnalyzer.symbol_table a)).
    - split; reflexivity.
    - split; [reflexivity|]. symmetry. apply app_nil_r. }
  destruct H1 as [Ht1 He1].
  set (a4 := SemanticAnalyzer.set_current_function (Some name) _).
  assert (Hok2 : table_ok (SemanticAnalyzer.declare name "function"
                             (SemanticAnalyzer.symbol_table a1))).
  { apply table_ok_declare. rewrite Ht1. exact Hok. }
  assert (Hok4 : table_ok (SemanticAnalyzer.symbol_table a4)).
  { subst a4. cbn. apply table_ok_enter. exact Hok2. }
  assert (He5 : SemanticAnalyzer.errors
                  (fold_left SemanticAnalyzer.declare_param params a4)
                = SemanticAnalyzer.errors a4
                  ++ List.map parameter_message (repeated [] params)).
  { apply declare_param_errors; [exact Hok4|].
    intros p. subst a4. cbn [SemanticAnalyzer.symbol_table
      SemanticAnalyzer.set_current_function SemanticAnalyzer.on_table].
    rewrite enter_scope_empty by exact Hok2.
    symmetry. apply bool_decide_eq_false. apply not_elem_of_nil. }
  destruct (declare_param_keeps params a4 Hok4) as [Hok5 _].
  destruct (visit_all_keeps body (all_keep body) _ Hok5)
    as (_ & _ & _ & _ & rest & He6).
  exists rest. split.
  - cbn [SemanticAnalyzer.on_table SemanticAnalyzer.set_current_function
         SemanticAnalyzer.errors].
    rewrite He6, He5. subst a4.
    cbn [SemanticAnalyzer.on_table SemanticAnalyzer.set_current_function
         SemanticAnalyzer.errors].
    rewrite He1. rewrite <- !app_assoc. reflexivity.
  - intros ->. cbn [fold_left] in He6.
    apply (app_inv_head (SemanticAnalyzer.errors
                           (fold_left SemanticAnalyzer.declare_param
                              params a4))).
    rewrite <- He6. symmetry. apply app_nil_r.
Qed.

(** [def f(a, b, a, f, a): pass] on a new analyzer: the second and the
    third [a] are reported. *)
Lemma repeated_parameters_flagged_witness :
  table_ok (SemanticAnalyzer.symbol_table SemanticAnalyzer.init)
  /\ exists rest,
       SemanticAnalyzer.errors
         (SemanticAnalyzer.visit_statement
            (FunctionDef "f" ["a"; "b"; "a"; "f"; "a"] [])
            SemanticAnalyzer.init)
       = SemanticAnalyzer.errors SemanticAnalyzer.init
         ++ (if SemanticAnalyzer.is_declared_in_current_scope "f"
                  (SemanticAnalyzer.symbol_table SemanticAnalyzer.init)
             then ["Function '" +:+ "f"
                   +:+ "' already declared in current scope"]
             else [])
         ++ List.map parameter_message
              (repeated [] ["a"; "b"; "a"; "f"; "a"])
         ++ rest
       /\ (@nil Statement = [] -> rest = []).
Proof.
  assert (Hok : table_ok
                  (SemanticAnalyzer.symbol_table SemanticAnalyzer.init))
    by reflexivity.
  split; [exact Hok|].
  exact (repeated_parameters_flagged "f" ["a"; "b"; "a"; "f"; "a"] []
           SemanticAnalyzer.init Hok).
Defined.

(** X8. No program takes a built-in away: after [analyze], at the
    global scope, every built-in name is still found as a function or a
    class, so that a call of it adds no diagnostic. An assignment to
    [print] declares nothing, and a definition named [print] keeps it
    callable. *)
Theorem builtins_stay_callable :
  forall ast a b,
    table_ok (SemanticAnalyzer.symbol_table a) ->
    SemanticAnalyzer.current_scope (SemanticAnalyzer.symbol_table a) = 0%nat ->
    In b SemanticAnalyzer.builtin_functions ->
    (exists symbol,
       SemanticAnalyzer.lookup b
         (SemanticAnalyzer.symbol_table
            (fst (SemanticAnalyzer.analyze ast a)))
       = Some symbol
       /\ callable symbol)
    /\ forall args,
         SemanticAnalyzer.visit_expression (FunctionCall b args)
           (fst (SemanticAnalyzer.analyze ast a))
         = fold_left (fun a' arg => SemanticAnalyzer.visit_expression arg a')
             args (fst (SemanticAnalyzer.analyze ast a)).
Proof.
  intros ast a b Hok Hz Hin.
  unfold SemanticAnalyzer.analyze. cbn [fst].
  set (a0 := SemanticAnalyzer.declare_builtins
               (SemanticAnalyzer.reset_errors a)).
  assert (Hok' : table_ok (SemanticAnalyzer.symbol_table
                             (SemanticAnalyzer.reset_errors a)))
    by exact Hok.
  destruct (declare_builtins_table _ Hok') as [Hok0 Hd0].
  fold a0 in Hok0, Hd0.
  assert (Hz0 : SemanticAnalyzer.current_scope
                  (SemanticAnalyzer.symbol_table a0) = 0%nat)
    by (rewrite Hd0; exact Hz).
  assert (Hb0 : root_has callable b (SemanticAnalyzer.symbol_table a0)).
  { pose proof (declare_builtins_lookup (SemanticAnalyzer.reset_errors a) b
                  Hin (table_ok_lt _ Hok')) as Hl.
    fold a0 in Hl. unfold SemanticAnalyzer.lookup in Hl.
    rewrite Hz0 in Hl. cbn [SemanticAnalyzer.lookup_from] in Hl.
    destruct (SemanticAnalyzer.scope_get _ 0 b) as [sym|] eqn:Es;
      [|discriminate].
    exists sym. split; [exact Es|]. injection Hl as ->. reflexivity. }
  unfold SemanticAnalyzer.visit_program.
  set (a1 := fold_left _ (statements ast) a0).
  assert (Hb1 : root_has callable b (SemanticAnalyzer.symbol_table a1)).
  { apply visit_all_root; [|assumption..].
    apply Forall_forall. intros s _.
    apply visit_statement_root; intros; reflexivity. }
  destruct (visit_all_keeps (statements ast) (all_keep _) a0 Hok0)
    as (_ & Hd1 & _).
  fold a1 in Hd1.
  destruct Hb1 as (sym & Hsym & Hcall).
  assert (Hl : SemanticAnalyzer.lookup b (SemanticAnalyzer.symbol_table a1)
               = Some sym).
  { unfold SemanticAnalyzer.lookup. rewrite Hd1, Hz0.
    cbn [SemanticAnalyzer.lookup_from]. rewrite Hsym. reflexivity. }
  split; [exists sym; split; assumption|].
  intros args. cbn [SemanticAnalyzer.visit_expression].
  unfold SemanticAnalyzer.check_callee. rewrite Hl, Hcall. reflexivity.
Qed.

(** The program [print = 1] on a new analyzer: [len] and [print] are
    still callable afterwards. *)
Lemma builtins_stay_callable_witness :
  table_ok (SemanticAnalyzer.symbol_table SemanticAnalyzer.init)
  /\ SemanticAnalyzer.current_scope
       (SemanticAnalyzer.symbol_table SemanticAnalyzer.init) = 0%nat
  /\ In "print" SemanticAnalyzer.builtin_functions
  /\ exists symbol,
       SemanticAnalyzer.lookup "print"
         (SemanticAnalyzer.symbol_table
            (fst (SemanticAnalyzer.analyze
                    (mkProgram [AssignStatement "print" (num 1)])
                    SemanticAnalyzer.init)))
       = Some symbol
       /\ callable symbol.
Proof.
  assert (Hok : table_ok
                  (SemanticAnalyzer.symbol_table SemanticAnalyzer.init))
    by reflexivity.
  assert (Hz : SemanticAnalyzer.current_scope
                 (SemanticAnalyzer.symbol_table SemanticAnalyzer.init)
               = 0%nat) by reflexivity.
  assert (Hin : In "print" SemanticAnalyzer.builtin_functions)
    by (simpl; tauto).
  split; [exact Hok|]. split; [exact Hz|]. split; [exact Hin|].
  destruct (builtins_stay_callable
              (mkProgram [AssignStatement "print" (num 1)])
              SemanticAnalyzer.init "print" Hok Hz Hin) as [H _].
  exact H.
Defined.

(** X9. The symbol table outlives [analyze]: only the diagnostics are
    reset. A function defined at the top level of one program is
    reported as already declared when a program that defines the same
    name is analysed afterwards by the same analyzer, the same program
    a second time included. *)
Theorem function_defined_again_reported :
  forall ast ast' a name params body params' body',
    table_ok (SemanticAnalyzer.symbol_table a) ->
    SemanticAnalyzer.current_scope (SemanticAnalyzer.symbol_table a) = 0%nat ->
    In (FunctionDef name params body) (statements ast) ->
    In (FunctionDef name params' body') (statements ast') ->
    In (function_message name)
      (snd (SemanticAnalyzer.analyze ast'
              (fst (SemanticAnalyzer.analyze ast a)))).
Proof.
  intros ast ast' a name params body params' body' Hok Hz Hin Hin'.
  exact (analyze_again_reports ast ast' a name params body params' body'
           Hok Hz Hin Hin').
Qed.

(** The program [def f(): return 1], twice on a new analyzer. *)
Lemma function_defined_again_reported_witness :
  table_ok (SemanticAnalyzer.symbol_table SemanticAnalyzer.init)
  /\ SemanticAnalyzer.current_scope
       (SemanticAnalyzer.symbol_table SemanticAnalyzer.init) = 0%nat
  /\ In (FunctionDef "f" [] [ReturnStatement (Some (num 1))])
       (statements
          (mkProgram [FunctionDef "f" [] [ReturnStatement (Some (num 1))]]))
  /\ In (function_message "f")
       (snd (SemanticAnalyzer.analyze
               (mkProgram
                  [FunctionDef "f" [] [ReturnStatement (Some (num 1))]])
               (fst (SemanticAnalyzer.analyze
                       (mkProgram
                          [FunctionDef "f" []
                             [ReturnStatement (Some (num 1))]])
                       SemanticAnalyzer.init)))).
Proof.
  assert (Hok : table_ok
                  (SemanticAnalyzer.symbol_table SemanticAnalyzer.init))
    by reflexivity.
  assert (Hz : SemanticAnalyzer.current_scope
                 (SemanticAnalyzer.symbol_table SemanticAnalyzer.init)
               = 0%nat) by reflexivity.
  assert (Hin : In (FunctionDef "f" [] [ReturnStatement (Some (num 1))])
                  (statements
                     (mkProgram
                        [FunctionDef "f" []
                           [ReturnStatement (Some (num 1))]])))
    by (simpl; tauto).
  split; [exact Hok|]. split; [exact Hz|]. split; [exact Hin|].
  exact (function_defined_again_reported _ _ SemanticAnalyzer.init
           "f" [] [ReturnStatement (Some (num 1))]
           [] [ReturnStatement (Some (num 1))] Hok Hz Hin Hin).
Defined.

(** ** The code generator *)

Lemma append_assoc (s1 s2 s3 : string) :
  (s1 +:+ s2) +:+ s3 = s1 +:+ (s2 +:+ s3).
Proof.
  induction s1 as [|c s1 IH]; [reflexivity|].
  change (String c ((s1 +:+ s2) +:+ s3) = String c (s1 +:+ (s2 +:+ s3))).
  rewrite IH. reflexivity.
Qed.

Section Rendering.

Variable float_str : string -> string.
Variable float_truth : string -> bool.

Local Abbreviation visit :=
  (CodeGenerator.visit_statement float_str float_truth).

Lemma renders_id : renders (fun _ => []) (fun g => g).
Proof.
  split.
  - intros g. split; [reflexivity|]. symmetry. apply app_nil_r.
  - intros level _. reflexivity.
Qed.

Lemma indent_deeper (g : CodeGenerator.t) (code : string) :
  (0 <= CodeGenerator.indent_level g)%Z ->
  CodeGenerator.indent (CodeGenerator.shift 1 g) +:+ code
  = "  " +:+ (CodeGenerator.indent g +:+ code).
Proof.
  intros H. unfold CodeGenerator.indent, CodeGenerator.shift.
  cbn [CodeGenerator.indent_level].
  replace (Z.to_nat (CodeGenerator.indent_level g + 1))
    with (S (Z.to_nat (CodeGenerator.indent_level g))) by lia.
  cbn [str_repeat]. apply append_assoc.
Qed.

Lemma renders_emit (code : string) :
  renders
    (fun level => [CodeGenerator.indent (CodeGenerator.mk level []) +:+ code])
    (CodeGenerator.emit code).
Proof.
  split.
  - intros g. split; reflexivity.
  - intros level H. cbn [List.map]. f_equal.
    apply (indent_deeper (CodeGenerator.mk level []) code H).
Qed.

Lemma renders_seq (B1 B2 : Z -> list string)
    (f1 f2 : CodeGenerator.t -> CodeGenerator.t) :
  renders B1 f1 -> renders B2 f2 ->
  renders (fun level => B1 level ++ B2 level) (fun g => f2 (f1 g)).
Proof.
  intros [H1 U1] [H2 U2]. split.
  - intros g. destruct (H1 g) as [L1 O1], (H2 (f1 g)) as [L2 O2].
    split; [congruence|]. rewrite O2, O1, L1. symmetry. apply app_assoc.
  - intros level H. rewrite (U1 level H), (U2 level H), map_app.
    reflexivity.
Qed.

Lemma renders_nest (B : Z -> list string)
    (f : CodeGenerator.t -> CodeGenerator.t) :
  renders B f ->
  renders (fun level => B (level + 1)%Z)
    (fun g => CodeGenerator.shift (-1) (f (CodeGenerator.shift 1 g))).
Proof.
  intros [H U]. split.
  - intros g. destruct (H (CodeGenerator.shift 1 g)) as [L O].
    cbn [CodeGenerator.shift CodeGenerator.indent_level
         CodeGenerator.output] in *.
    split; [rewrite L; lia|exact O].
  - intros level Hl. apply U. lia.
Qed.

Lemma renders_fold {X : Type}
    (f : CodeGenerator.t -> X -> CodeGenerator.t) (l : list X) :
  Forall (fun x => exists B, renders B (fun g => f g x)) l ->
  exists B, renders B (fun g => fold_left f l g).
Proof.
  induction 1 as [|x rest [B1 H1] _ [B2 H2]]; cbn [fold_left].
  - eexists. apply renders_id.
  - eexists. apply (renders_seq _ _ _ _ H1 H2).
Qed.

(** A header line, the body one level deeper, and the closing brace. *)
Lemma renders_block (header : string) (B : Z -> list string)
    (body : CodeGenerator.t -> CodeGenerator.t) :
  renders B body ->
  exists B', renders B' (CodeGenerator.block header body)
             /\ forall level, B' level <> [].
Proof.
  intros H. eexists. split.
  - unfold CodeGenerator.block.
    apply (renders_seq _ _ _ (CodeGenerator.emit "}")
             (renders_seq _ _ (CodeGenerator.emit header) _
                (renders_emit header) (renders_nest _ _ H))
             (renders_emit "}")).
  - intros level. cbn beta. discriminate.
Qed.

Local Abbreviation renders_statement :=
  (renders_statement float_str float_truth).
Local Abbreviation renders_deep := (renders_deep float_str float_truth).

Lemma renders_body (body : list Statement) :
  Forall renders_statement body ->
  exists B, renders B (fun g => fold_left (fun g' stmt => visit stmt g')
                                  body g).
Proof.
  intros H. apply renders_fold.
  eapply Forall_impl; [exact H|]. intros s (B & HB & _). exists B. exact HB.
Qed.

Lemma renders_emit_statement (code : string) (s : Statement) :
  (forall g, visit s g = CodeGenerator.emit code g) ->
  renders_statement s.
Proof.
  intros E. eexists. split.
  - destruct (renders_emit code) as [H U]. split; [|exact U].
    intros g. rewrite E. apply H.
  - intros level. cbn beta. discriminate.
Qed.

Lemma visit_statement_renders (s : Statement) : renders_deep s.
Proof.
  induction s
    as [name params body H | name body H
       | condition then_body else_body H H0 | target iterable body H
       | condition body H | value | target value | expression]
    using Statement_nested_ind.
  - (* FunctionDef *)
    assert (Hbody : Forall renders_statement body)
      by (eapply Forall_impl; [exact H|]; intros s [Hs _]; exact Hs).
    split; [|exact Hbody].
    destruct (renders_body body Hbody) as [B HB].
    destruct (renders_block
                ("function " +:+ name +:+ "(" +:+ join ", " params +:+ ") {")
                B _ HB) as (B' & HB' & Hne).
    exists B'. split; [exact HB'|exact Hne].
  - (* ClassDef *)
    split; [|exact I].
    assert (Hbody : exists B,
      renders B
        (fun g =>
           fold_left
             (fun g'' stmt =>
                match stmt with
                | FunctionDef mname mparams mbody =>
                    CodeGenerator.block
                      (mname +:+ "(" +:+ join ", " mparams +:+ ") {")
                      (fun h =>
                         fold_left (fun h' method_stmt =>
                                      visit method_stmt h')
                           mbody h)
                      g''
                | _ => visit stmt g''
                end)
             body g)).
    { apply renders_fold. eapply Forall_impl; [exact H|].
      intros stmt [(B & HB & _) Hdeep].
      destruct stmt; try (exists B; exact HB).
      destruct (renders_body body0 Hdeep) as [Bm HBm].
      destruct (renders_block
                  (name0 +:+ "(" +:+ join ", " params +:+ ") {") Bm _ HBm)
        as (B' & HB' & _).
      exists B'. exact HB'. }
    destruct Hbody as [B HB].
    destruct (renders_block ("class " +:+ name +:+ " {") B _ HB)
      as (B' & HB' & Hne).
    exists B'. split; [exact HB'|exact Hne].
  - (* IfStatement *)
    split; [|exact I].
    assert (Hthen : Forall renders_statement then_body)
      by (eapply Forall_impl; [exact H|]; intros s [Hs _]; exact Hs).
    destruct (renders_body then_body Hthen) as [Bt HBt].
    pose proof (renders_seq _ _ _ _
                  (renders_emit
                     ("if (" +:+ CodeGenerator.visit_expression
                                   float_str float_truth condition
                      +:+ ") {"))
                  (renders_nest _ _ HBt)) as H2.
    destruct else_body as [[|stmt rest]|].
    + eexists. split.
      * apply (renders_seq _ _ _ _ H2 (renders_emit "}")).
      * intros level. cbn beta. discriminate.
    + assert (Helse : Forall renders_statement (stmt :: rest))
        by (eapply Forall_impl; [exact H0|]; intros s [Hs _]; exact Hs).
      destruct (renders_body (stmt :: rest) Helse) as [Be HBe].
      eexists. split.
      * apply (renders_seq _ _ _ _
                 (renders_seq _ _ _ _
                    (renders_seq _ _ _ _ H2 (renders_emit "} else {"))
                    (renders_nest _ _ HBe))
                 (renders_emit "}")).
      * intros level. cbn beta. discriminate.
    + eexists. split.
      * apply (renders_seq _ _ _ _ H2 (renders_emit "}")).
      * intros level. cbn beta. discriminate.
  - (* ForStatement *)
    split; [|exact I].
    assert (Hbody : Forall renders_statement body)
      by (eapply Forall_impl; [exact H|]; intros s [Hs _]; exact Hs).
    destruct (renders_body body Hbody) as [B HB].
    destruct (renders_block
                ("for (const " +:+ target +:+ " of "
                 +:+ CodeGenerator.visit_expression float_str float_truth
                       iterable +:+ ") {")
                B _ HB) as (B' & HB' & Hne).
    exists B'. split; [exact HB'|exact Hne].
  - (* WhileStatement *)
    split; [|exact I].
    assert (Hbody : Forall renders_statement body)
      by (eapply Forall_impl; [exact H|]; intros s [Hs _]; exact Hs).
    destruct (renders_body body Hbody) as [B HB].
    destruct (renders_block
                ("while (" +:+ CodeGenerator.visit_expression
                                 float_str float_truth condition +:+ ") {")
                B _ HB) as (B' & HB' & Hne).
    exists B'. split; [exact HB'|exact Hne].
  - split; [|exact I]. destruct value as [expr|].
    + eapply renders_emit_statement. intros g. reflexivity.
    + eapply renders_emit_statement. intros g. reflexivity.
  - split; [|exact I]. eapply renders_emit_statement. intros g. reflexivity.
  - split; [|exact I]. eapply renders_emit_statement. intros g. reflexivity.
Qed.

(** The lines of [renders] are those of [lines_at]. *)
Lemma renders_lines_at (s : Statement) (B : Z -> list string) :
  renders B (visit s) ->
  forall level, lines_at float_str float_truth level s = B level.
Proof.
  intros [H _] level. unfold lines_at.
  destruct (H (CodeGenerator.mk level [])) as [_ O]. exact O.
Qed.

Lemma visit_program_level (ast : Program) (g : CodeGenerator.t) :
  CodeGenerator.indent_level
    (CodeGenerator.visit_program float_str float_truth ast g)
  = CodeGenerator.indent_level g.
Proof.
  unfold CodeGenerator.visit_program.
  assert (H : exists B,
    renders B
      (fun g =>
         fold_left
           (fun g' stmt =>
              let g1 := visit stmt g' in
              match stmt with
              | FunctionDef _ _ _ => CodeGenerator.emit "" g1
              | _ => g1
              end)
           (statements ast) g)).
  { apply renders_fold. apply Forall_forall. intros stmt _.
    destruct (visit_statement_renders stmt) as [(B & HB & _) _].
    destruct stmt; try (exists B; exact HB).
    eexists. apply (renders_seq _ _ _ _ HB (renders_emit "")). }
  destruct H as (B & HB & _). destruct (HB g) as [L _]. exact L.
Qed.

Lemma generate_level (ast : Program) (g : CodeGenerator.t) :
  CodeGenerator.indent_level
    (fst (CodeGenerator.generate float_str float_truth ast g))
  = CodeGenerator.indent_level g.
Proof.
  unfold CodeGenerator.generate. cbn [fst].
  rewrite visit_program_level. reflexivity.
Qed.

(** X10. A statement is generated in place: the generator has the indent
    level it had before, the output it had before, and after it the
    lines of the statement, at least one, which depend on the indent
    level and on nothing else of the generator. *)
Theorem visit_statement_appends :
  forall s g,
    CodeGenerator.indent_level (visit s g) = CodeGenerator.indent_level g
    /\ CodeGenerator.output (visit s g)
       = CodeGenerator.output g
         ++ lines_at float_str float_truth (CodeGenerator.indent_level g) s
    /\ lines_at float_str float_truth (CodeGenerator.indent_level g) s <> [].
Proof.
  intros s g.
  destruct (visit_statement_renders s) as [(B & HB & Hne) _].
  rewrite (renders_lines_at s B HB).
  destruct HB as [H _]. destruct (H g) as [L O].
  split; [exact L|]. split; [exact O|apply Hne].
Qed.

(** X11. Indentation is uniform: one level deeper a statement gives the
    same lines, each with two more spaces in front. *)
Theorem nested_lines_indented :
  forall s level,
    (0 <= level)%Z ->
    lines_at float_str float_truth (level + 1) s
    = List.map (String.append "  ") (lines_at float_str float_truth level s).
Proof.
  intros s level Hl.
  destruct (visit_statement_renders s) as [(B & HB & _) _].
  rewrite !(renders_lines_at s B HB).
  destruct HB as [_ U]. apply U. exact Hl.
Qed.

(** X12. A generator can be used again: [generate] leaves the indent
    level as it was, and the text it returns for a program is the same
    whatever the generator has generated before. *)
Theorem generate_reusable :
  forall ast1 ast2 g,
    CodeGenerator.indent_level
      (fst (CodeGenerator.generate float_str float_truth ast1 g))
    = CodeGenerator.indent_level g
    /\ snd (CodeGenerator.generate float_str float_truth ast2
              (fst (CodeGenerator.generate float_str float_truth ast1 g)))
       = snd (CodeGenerator.generate float_str float_truth ast2 g).
Proof.
  intros ast1 ast2 g.
  assert (L : CodeGenerator.indent_level
                (fst (CodeGenerator.generate float_str float_truth ast1 g))
              = CodeGenerator.indent_level g)
    by apply generate_level.
  split; [exact L|].
  unfold CodeGenerator.generate at 1 3. cbn [snd]. rewrite L. reflexivity.
Qed.

End Rendering.

(** A loop with a call in its body, at the top level. *)
Lemma nested_lines_indented_witness :
  (0 <= 0)%Z
  /\ lines_at lexeme_str lexeme_truth (0 + 1)
       (WhileStatement (Identifier "go")
          [ExpressionStatement (FunctionCall "print" [num 1])])
     = List.map (String.append "  ")
         (lines_at lexeme_str lexeme_truth 0
            (WhileStatement (Identifier "go")
               [ExpressionStatement (FunctionCall "print" [num 1])])).
Proof.
  assert (Hl : (0 <= 0)%Z) by lia.
  split; [exact Hl|].
  exact (nested_lines_indented lexeme_str lexeme_truth
           (WhileStatement (Identifier "go")
              [ExpressionStatement (FunctionCall "print" [num 1])])
           0 Hl).
Defined.

(** ** Brackets in the generated text *)

Lemma str_count_append (ch : ascii) (a b : string) :
  str_count ch (a +:+ b) = (str_count ch a + str_count ch b)%nat.
Proof.
  induction a as [|d a IH]; [reflexivity|].
  change (String d a +:+ b) with (String d (a +:+ b)).
  cbn [str_count]. rewrite IH. lia.
Qed.

Lemma excess_append (o c : ascii) (a b : string) :
  excess o c (a +:+ b) = (excess o c a + excess o c b)%Z.
Proof. unfold excess. rewrite !str_count_append. lia. Qed.

Lemma str_count_plain (ch : ascii) (v : string) :
  is_bracket ch = true -> no_bracket v = true -> str_count ch v = 0%nat.
Proof.
  intros Hch. unfold no_bracket.
  induction v as [|d v IH]; [reflexivity|].
  cbn [str_forall str_count]. intros H. apply andb_true_iff in H.
  destruct H as [Hd Hv]. rewrite (IH Hv).
  destruct (Ascii.eqb ch d) eqn:E; [|reflexivity].
  apply Ascii.eqb_eq in E. subst d. rewrite Hch in Hd. discriminate.
Qed.

Lemma brackets_are (o c : ascii) :
  In (o, c) brackets -> is_bracket o = true /\ is_bracket c = true.
Proof.
  intros [H|[H|[H|[]]]]; injection H as <- <-; split; reflexivity.
Qed.

Lemma excess_plain (o c : ascii) (v : string) :
  In (o, c) brackets -> no_bracket v = true -> excess o c v = 0%Z.
Proof.
  intros Hp Hv. destruct (brackets_are o c Hp) as [Ho Hc]. unfold excess.
  rewrite (str_count_plain o v Ho Hv), (str_count_plain c v Hc Hv).
  reflexivity.
Qed.

Lemma excess_join (o c : ascii) (sep : string) (parts : list string) :
  excess o c sep = 0%Z ->
  Forall (fun p => excess o c p = 0%Z) parts ->
  excess o c (join sep parts) = 0%Z.
Proof.
  intros Hsep. induction 1 as [|p rest Hp _ IH]; [reflexivity|].
  destruct rest as [|q rest]; [exact Hp|].
  change (join sep (p :: q :: rest))
    with (p +:+ sep +:+ join sep (q :: rest)).
  rewrite !excess_append, Hp, Hsep, IH. reflexivity.
Qed.

Lemma excess_join_plain (o c : ascii) (sep : string)
    (parts : list string) :
  In (o, c) brackets ->
  no_bracket sep = true -> forallb no_bracket parts = true ->
  excess o c (join sep parts) = 0%Z.
Proof.
  intros Hp Hsep Hparts.
  apply excess_join; [apply excess_plain; assumption|].
  apply Forall_forall. intros p Hin. apply excess_plain; [exact Hp|].
  rewrite forallb_forall in Hparts. apply Hparts.
  apply list_elem_of_In. exact Hin.
Qed.

Lemma excess_lines_app (o c : ascii) (l1 l2 : list string) :
  excess_lines o c (l1 ++ l2)
  = (excess_lines o c l1 + excess_lines o c l2)%Z.
Proof.
  induction l1 as [|x l1 IH].
  - change (excess_lines o c []) with 0%Z. cbn [app]. lia.
  - change (excess_lines o c ((x :: l1) ++ l2))
      with (excess o c x + excess_lines o c (l1 ++ l2))%Z.
    change (excess_lines o c (x :: l1))
      with (excess o c x + excess_lines o c l1)%Z.
    rewrite IH. lia.
Qed.

(** The text of the lines joined by line breaks. *)
Lemma excess_text (o c : ascii) (lines : list string) :
  In (o, c) brackets ->
  excess o c (join (str1 nl) lines) = excess_lines o c lines.
Proof.
  intros Hp. induction lines as [|x rest IH]; [reflexivity|].
  change (excess_lines o c (x :: rest))
    with (excess o c x + excess_lines o c rest)%Z.
  destruct rest as [|y rest].
  - change (excess_lines o c []) with 0%Z. cbn [join]. lia.
  - change (join (str1 nl) (x :: y :: rest))
      with (x +:+ str1 nl +:+ join (str1 nl) (y :: rest)).
    rewrite !excess_append, IH.
    rewrite (excess_plain o c (str1 nl) Hp) by reflexivity. lia.
Qed.

Section Brackets.

Variable float_str : string -> string.
Variable float_truth : string -> bool.

Local Abbreviation render :=
  (CodeGenerator.visit_expression float_str float_truth).
Local Abbreviation visit :=
  (CodeGenerator.visit_statement float_str float_truth).
Local Abbreviation kept := (keeps_brackets float_str float_truth).
Local Abbreviation kept_deep := (keeps_brackets_deep float_str float_truth).
Local Abbreviation at_end o c g :=
  (excess_lines o c (CodeGenerator.output g)).

(** The brackets of a template: the parts are balanced, the pair is one
    of three, and what is left is counted. *)
Ltac count_brackets Hp :=
  repeat rewrite excess_append;
  repeat match goal with
         | H : excess _ _ _ = 0%Z |- _ => rewrite H
         end;
  destruct Hp as [Hp|[Hp|[Hp|[]]]]; injection Hp as <- <-; reflexivity.

Lemma binary_operator_plain (operator : string) :
  no_bracket operator = true ->
  no_bracket (CodeGenerator.binary_operator_map operator) = true.
Proof.
  intros H. unfold CodeGenerator.binary_operator_map.
  repeat match goal with
         | |- context [if ?b then _ else _] => destruct b
         end; try reflexivity.
  exact H.
Qed.

Lemma unary_operator_plain (operator : string) :
  no_bracket operator = true ->
  no_bracket (CodeGenerator.unary_operator_map operator) = true.
Proof.
  intros H. unfold CodeGenerator.unary_operator_map.
  repeat match goal with
         | |- context [if ?b then _ else _] => destruct b
         end; try reflexivity.
  exact H.
Qed.

Lemma range_excess (o c : ascii) (args : list string) :
  In (o, c) brackets ->
  Forall (fun a => excess o c a = 0%Z) args ->
  excess o c (CodeGenerator.generate_range_function args) = 0%Z.
Proof.
  intros Hp Hargs. unfold CodeGenerator.generate_range_function.
  destruct Hargs as [|a0 r0 H0 Hargs]; [count_brackets Hp|].
  destruct Hargs as [|a1 r1 H1 Hargs]; [count_brackets Hp|].
  destruct Hargs as [|a2 r2 H2 Hargs]; [count_brackets Hp|].
  destruct Hargs as [|a3 r3 H3 Hargs]; count_brackets Hp.
Qed.

Lemma function_call_excess (o c : ascii) (name : string)
    (args : list string) :
  In (o, c) brackets ->
  no_bracket name = true ->
  Forall (fun a => excess o c a = 0%Z) args ->
  excess o c (CodeGenerator.function_call name args) = 0%Z.
Proof.
  intros Hp Hname Hargs.
  pose proof (excess_plain o c name Hp Hname) as Hn.
  assert (Hj : excess o c (join ", " args) = 0%Z)
    by (apply excess_join; [apply excess_plain; [exact Hp|reflexivity]
                           |exact Hargs]).
  unfold CodeGenerator.function_call.
  destruct (String.eqb name "print"); [count_brackets Hp|].
  destruct (String.eqb name "len").
  { destruct Hargs as [|a0 r0 H0 Hargs]; count_brackets Hp. }
  destruct (String.eqb name "str"); [count_brackets Hp|].
  destruct (String.eqb name "int"); [count_brackets Hp|].
  destruct (String.eqb name "float"); [count_brackets Hp|].
  destruct (String.eqb name "bool"); [count_brackets Hp|].
  destruct (String.eqb name "list").
  { destruct args as [|a0 r0]; count_brackets Hp. }
  destruct (String.eqb name "dict").
  { destruct Hargs as [|a0 r0 H0 Hargs]; count_brackets Hp. }
  destruct (String.eqb name "range"); [apply range_excess; assumption|].
  destruct (CodeGenerator.first_isupper name); count_brackets Hp.
Qed.

Lemma literal_excess (o c : ascii) (value : PyValue) (type : string) :
  In (o, c) brackets ->
  no_bracket (CodeGenerator.str_of_value float_str value) = true ->
  excess o c (CodeGenerator.visit_literal float_str float_truth value type)
  = 0%Z.
Proof.
  intros Hp Hv.
  pose proof (excess_plain o c _ Hp Hv) as H.
  unfold CodeGenerator.visit_literal.
  destruct (String.eqb type "string"); [count_brackets Hp|].
  destruct (String.eqb type "number"); [exact H|].
  destruct (String.eqb type "boolean");
    [destruct (CodeGenerator.truth float_truth value); count_brackets Hp|].
  destruct (String.eqb type "none"); [count_brackets Hp|exact H].
Qed.

(** The rendered arguments of a call, the elements of a list. *)
Lemma arguments_excess (o c : ascii) (args : list Expression) :
  Forall (fun e => expression_plain float_str e = true ->
                   excess o c (render e) = 0%Z) args ->
  forallb (expression_plain float_str) args = true ->
  Forall (fun a => excess o c a = 0%Z) (List.map render args).
Proof.
  induction 1 as [|e rest He _ IH]; cbn [forallb List.map];
    [constructor|].
  intros H. apply andb_true_iff in H. destruct H as [H1 H2].
  constructor; [apply He; exact H1|apply IH; exact H2].
Qed.

(** The text of an expression with plain atoms is balanced. *)
Lemma visit_expression_excess (o c : ascii) :
  In (o, c) brackets ->
  forall e,
    expression_plain float_str e = true -> excess o c (render e) = 0%Z.
Proof.
  intros Hp e.
  induction e
    as [lhs operator rhs IHl IHr | operator operand IH | name args IH
       | object method args IHo IH | name | value type | elements IH
       | pairs IH | object attribute IH | object index IHo IHi]
    using Expression_nested_ind;
    cbn [expression_plain CodeGenerator.visit_expression]; intros Hplain;
    repeat match goal with
           | H : (_ && _) = true |- _ =>
               apply andb_true_iff in H; destruct H
           end.
  - pose proof (IHl ltac:(assumption)) as Hl.
    pose proof (IHr ltac:(assumption)) as Hr.
    pose proof (excess_plain o c _ Hp
                  (binary_operator_plain operator ltac:(assumption))) as Ho.
    destruct (String.eqb operator "//"); count_brackets Hp.
  - pose proof (IH ltac:(assumption)) as Hx.
    pose proof (excess_plain o c _ Hp
                  (unary_operator_plain operator ltac:(assumption))) as Ho.
    count_brackets Hp.
  - apply function_call_excess; [exact Hp|assumption|].
    apply arguments_excess; assumption.
  - pose proof (IHo ltac:(assumption)) as Hobj.
    pose proof (excess_plain o c method Hp ltac:(assumption)) as Hm.
    assert (Hj : excess o c (join ", " (List.map render args)) = 0%Z).
    { apply excess_join; [apply excess_plain; [exact Hp|reflexivity]|].
      apply arguments_excess; assumption. }
    count_brackets Hp.
  - apply excess_plain; assumption.
  - apply literal_excess; assumption.
  - assert (Hj : excess o c (join ", " (List.map render elements)) = 0%Z).
    { apply excess_join; [apply excess_plain; [exact Hp|reflexivity]|].
      apply arguments_excess; assumption. }
    count_brackets Hp.
  - assert (Hj : excess o c
                   (join ", "
                      (List.map (fun kv => render (fst kv) +:+ ": "
                                           +:+ render (snd kv)) pairs))
                 = 0%Z).
    { apply excess_join; [apply excess_plain; [exact Hp|reflexivity]|].
      revert Hplain. induction IH as [|kv rest [Hk Hv] _ IHrest];
        cbn [forallb List.map]; [constructor|].
      intros H. apply andb_true_iff in H. destruct H as [H1 H2].
      apply andb_true_iff in H1. destruct H1 as [H1 H3].
      constructor; [|apply IHrest; exact H2].
      rewrite !excess_append, (Hk H1), (Hv H3).
      rewrite (excess_plain o c ": " Hp) by reflexivity. reflexivity. }
    count_brackets Hp.
  - pose proof (IH ltac:(assumption)) as Hobj.
    pose proof (excess_plain o c attribute Hp ltac:(assumption)) as Ha.
    count_brackets Hp.
  - pose proof (IHo ltac:(assumption)) as Hobj.
    pose proof (IHi ltac:(assumption)) as Hidx.
    count_brackets Hp.
Qed.

Lemma indent_excess (o c : ascii) (g : CodeGenerator.t) :
  In (o, c) brackets -> excess o c (CodeGenerator.indent g) = 0%Z.
Proof.
  intros Hp. unfold CodeGenerator.indent.
  induction (Z.to_nat (CodeGenerator.indent_level g)) as [|n IH];
    [reflexivity|].
  cbn [str_repeat]. rewrite excess_append, IH.
  rewrite (excess_plain o c "  " Hp) by reflexivity. reflexivity.
Qed.

Lemma emit_excess (o c : ascii) (code : string) (g : CodeGenerator.t) :
  In (o, c) brackets ->
  at_end o c (CodeGenerator.emit code g)
  = (at_end o c g + excess o c code)%Z.
Proof.
  intros Hp. unfold CodeGenerator.emit. cbn [CodeGenerator.output].
  rewrite excess_lines_app.
  change (excess_lines o c [?x]) with (excess o c x + 0)%Z.
  rewrite excess_append, (indent_excess o c g Hp). lia.
Qed.

Lemma block_excess (o c : ascii) (header : string)
    (body : CodeGenerator.t -> CodeGenerator.t) (g : CodeGenerator.t) :
  In (o, c) brackets ->
  (forall g', at_end o c (body g') = at_end o c g') ->
  at_end o c (CodeGenerator.block header body g)
  = (at_end o c g + excess o c header + excess o c "}")%Z.
Proof.
  intros Hp Hbody. unfold CodeGenerator.block.
  rewrite (emit_excess o c "}" _ Hp).
  change (CodeGenerator.output (CodeGenerator.shift (-1) ?x))
    with (CodeGenerator.output x).
  rewrite Hbody.
  change (CodeGenerator.output (CodeGenerator.shift 1 ?x))
    with (CodeGenerator.output x).
  rewrite (emit_excess o c header _ Hp). reflexivity.
Qed.

Lemma fold_excess {X : Type} (o c : ascii)
    (step : CodeGenerator.t -> X -> CodeGenerator.t) (body : list X) :
  Forall (fun x => forall g, at_end o c (step g x) = at_end o c g) body ->
  forall g, at_end o c (fold_left step body g) = at_end o c g.
Proof.
  induction 1 as [|x rest Hx _ IH]; intros g; cbn [fold_left];
    [reflexivity|].
  rewrite IH. apply Hx.
Qed.

Lemma body_kept (o c : ascii) (body : list Statement) :
  Forall (kept o c) body ->
  forallb (statement_plain float_str) body = true ->
  forall g,
    at_end o c (fold_left (fun g' stmt => visit stmt g') body g)
    = at_end o c g.
Proof.
  intros Hall Hplain. apply fold_excess.
  revert Hplain. induction Hall as [|s rest Hs _ IH]; cbn [forallb];
    [constructor|].
  intros H. apply andb_true_iff in H. destruct H as [H1 H2].
  constructor; [exact (Hs H1)|apply IH; exact H2].
Qed.

Lemma deep_kept (o c : ascii) (body : list Statement) :
  Forall (kept_deep o c) body -> Forall (kept o c) body.
Proof.
  intros H. eapply Forall_impl; [exact H|]. intros s [Hs _]. exact Hs.
Qed.

(** A line whose text is balanced. *)
Lemma emit_kept (o c : ascii) (code : string) (g : CodeGenerator.t) :
  In (o, c) brackets -> excess o c code = 0%Z ->
  at_end o c (CodeGenerator.emit code g) = at_end o c g.
Proof. intros Hp H. rewrite (emit_excess o c code g Hp), H. lia. Qed.

(** A block whose header opens the brace that its last line closes. *)
Lemma block_kept (o c : ascii) (header : string)
    (body : CodeGenerator.t -> CodeGenerator.t) (g : CodeGenerator.t) :
  In (o, c) brackets ->
  (forall g', at_end o c (body g') = at_end o c g') ->
  (excess o c header + excess o c "}" = 0)%Z ->
  at_end o c (CodeGenerator.block header body g) = at_end o c g.
Proof.
  intros Hp Hbody H. rewrite (block_excess o c header body g Hp Hbody). lia.
Qed.

Lemma visit_statement_kept (o c : ascii) :
  In (o, c) brackets -> forall s, kept_deep o c s.
Proof.
  intros Hp s.
  induction s
    as [name params body H | name body H
       | condition then_body else_body H H0 | target iterable body H
       | condition body H | value | target value | expression]
    using Statement_nested_ind.
  - (* FunctionDef *)
    pose proof (deep_kept o c body H) as Hbody.
    split; [|exact Hbody].
    intros Hplain g. cbn [statement_plain] in Hplain.
    apply andb_true_iff in Hplain. destruct Hplain as [Hplain Hb].
    apply andb_true_iff in Hplain. destruct Hplain as [Hn Hps].
    cbn [CodeGenerator.visit_statement].
    apply (block_kept o c _ _ g Hp (body_kept o c body Hbody Hb)).
    pose proof (excess_plain o c name Hp Hn) as Hname.
    pose proof (excess_join_plain o c ", " params Hp eq_refl Hps) as Hj.
    count_brackets Hp.
  - (* ClassDef *)
    split; [|exact I].
    intros Hplain g. cbn [statement_plain] in Hplain.
    apply andb_true_iff in Hplain. destruct Hplain as [Hn Hb].
    cbn [CodeGenerator.visit_statement].
    apply (block_kept o c _ _ g Hp).
    + apply fold_excess. revert Hb.
      induction H as [|stmt rest [Hs Hdeep] _ IH]; cbn [forallb];
        [constructor|].
      intros Hb. apply andb_true_iff in Hb. destruct Hb as [H1 H2].
      constructor; [|apply IH; exact H2].
      intros g'. destruct stmt as [mname mparams mbody| | | | | | |];
        try exact (Hs H1 g').
      cbn [statement_plain] in H1.
      apply andb_true_iff in H1. destruct H1 as [H1 Hmb].
      apply andb_true_iff in H1. destruct H1 as [Hmn Hmps].
      apply (block_kept o c _ _ g' Hp (body_kept o c mbody Hdeep Hmb)).
      pose proof (excess_plain o c mname Hp Hmn) as Hname.
      pose proof (excess_join_plain o c ", " mparams Hp eq_refl Hmps) as Hj.
      count_brackets Hp.
    + pose proof (excess_plain o c name Hp Hn) as Hname.
      count_brackets Hp.
  - (* IfStatement *)
    split; [|exact I].
    intros Hplain g. cbn [statement_plain] in Hplain.
    apply andb_true_iff in Hplain. destruct Hplain as [Hplain He].
    apply andb_true_iff in Hplain. destruct Hplain as [Hc Ht].
    pose proof (visit_expression_excess o c Hp condition Hc) as Hcond.
    pose proof (body_kept o c then_body (deep_kept o c _ H) Ht) as Hthen.
    cbn [CodeGenerator.visit_statement].
    rewrite (emit_excess o c "}" _ Hp).
    destruct else_body as [[|stmt rest]|].
    + change (CodeGenerator.output (CodeGenerator.shift (-1) ?x))
        with (CodeGenerator.output x).
      rewrite Hthen.
      change (CodeGenerator.output (CodeGenerator.shift 1 ?x))
        with (CodeGenerator.output x).
      rewrite (emit_excess o c _ _ Hp).
      assert (E : (excess o c ("if (" +:+ render condition +:+ ") {")
                   + excess o c "}" = 0)%Z) by count_brackets Hp.
      lia.
    + pose proof (body_kept o c (stmt :: rest) (deep_kept o c _ H0) He)
        as Helse.
      change (CodeGenerator.output (CodeGenerator.shift (-1) ?x))
        with (CodeGenerator.output x).
      change (fold_left (fun g' stmt' => visit stmt' g') rest
                (visit stmt ?x))
        with (fold_left (fun g' stmt' => visit stmt' g') (stmt :: rest) x).
      rewrite Helse.
      change (CodeGenerator.output (CodeGenerator.shift 1 ?x))
        with (CodeGenerator.output x).
      rewrite (emit_excess o c "} else {" _ Hp).
      change (CodeGenerator.output (CodeGenerator.shift (-1) ?x))
        with (CodeGenerator.output x).
      rewrite Hthen.
      change (CodeGenerator.output (CodeGenerator.shift 1 ?x))
        with (CodeGenerator.output x).
      rewrite (emit_excess o c _ _ Hp).
      assert (E : (excess o c ("if (" +:+ render condition +:+ ") {")
                   + excess o c "} else {" + excess o c "}" = 0)%Z)
        by count_brackets Hp.
      lia.
    + change (CodeGenerator.output (CodeGenerator.shift (-1) ?x))
        with (CodeGenerator.output x).
      rewrite Hthen.
      change (CodeGenerator.output (CodeGenerator.shift 1 ?x))
        with (CodeGenerator.output x).
      rewrite (emit_excess o c _ _ Hp).
      assert (E : (excess o c ("if (" +:+ render condition +:+ ") {")
                   + excess o c "}" = 0)%Z) by count_brackets Hp.
      lia.
  - (* ForStatement *)
    split; [|exact I].
    intros Hplain g. cbn [statement_plain] in Hplain.
    apply andb_true_iff in Hplain. destruct Hplain as [Hplain Hb].
    apply andb_true_iff in Hplain. destruct Hplain as [Ht Hi].
    cbn [CodeGenerator.visit_statement].
    apply (block_kept o c _ _ g Hp
             (body_kept o c body (deep_kept o c _ H) Hb)).
    pose proof (excess_plain o c target Hp Ht) as Htarget.
    pose proof (visit_expression_excess o c Hp iterable Hi) as Hiter.
    count_brackets Hp.
  - (* WhileStatement *)
    split; [|exact I].
    intros Hplain g. cbn [statement_plain] in Hplain.
    apply andb_true_iff in Hplain. destruct Hplain as [Hc Hb].
    cbn [CodeGenerator.visit_statement].
    apply (block_kept o c _ _ g Hp
             (body_kept o c body (deep_kept o c _ H) Hb)).
    pose proof (visit_expression_excess o c Hp condition Hc) as Hcond.
    count_brackets Hp.
  - (* ReturnStatement *)
    split; [|exact I].
    intros Hplain g. cbn [statement_plain option_plain] in Hplain.
    cbn [CodeGenerator.visit_statement].
    destruct value as [expr|]; apply (emit_kept o c _ g Hp).
    + pose proof (visit_expression_excess o c Hp expr Hplain) as He.
      count_brackets Hp.
    + count_brackets Hp.
  - (* AssignStatement *)
    split; [|exact I].
    intros Hplain g. cbn [statement_plain] in Hplain.
    apply andb_true_iff in Hplain. destruct Hplain as [Ht Hv].
    cbn [CodeGenerator.visit_statement]. apply (emit_kept o c _ g Hp).
    pose proof (excess_plain o c target Hp Ht) as Htarget.
    pose proof (visit_expression_excess o c Hp value Hv) as Hvalue.
    count_brackets Hp.
  - (* ExpressionStatement *)
    split; [|exact I].
    intros Hplain g. cbn [statement_plain] in Hplain.
    cbn [CodeGenerator.visit_statement]. apply (emit_kept o c _ g Hp).
    pose proof (visit_expression_excess o c Hp expression Hplain) as He.
    count_brackets Hp.
Qed.

(** X13. The generated text has balanced brackets: when the names, the
    operators and the texts of the literals of a program hold no bracket
    of their own, the text that [generate] returns has as many [(] as
    [)], as many [[] as []] and as many [{] as [}], and so has the text
    of every expression. *)
Theorem generated_brackets_balance :
  forall ast g,
    forallb (statement_plain float_str) (statements ast) = true ->
    balanced (snd (CodeGenerator.generate float_str float_truth ast g))
    /\ forall e,
         expression_plain float_str e = true ->
         balanced (render e).
Proof.
  intros ast g Hplain. split.
  - intros o c Hp.
    assert (E : excess o c
                  (snd (CodeGenerator.generate float_str float_truth ast g))
                = 0%Z); [|unfold excess in E; lia].
    unfold CodeGenerator.generate. cbn [snd].
    rewrite (excess_text o c _ Hp).
    unfold CodeGenerator.visit_program.
    rewrite fold_excess; [reflexivity|].
    revert Hplain. generalize (statements ast). intros body.
    induction body as [|stmt rest IH]; cbn [forallb]; [constructor|].
    intros H. apply andb_true_iff in H. destruct H as [H1 H2].
    constructor; [|apply IH; exact H2].
    intros g'. cbv zeta.
    destruct (visit_statement_kept o c Hp stmt) as [Hs _].
    destruct stmt; try exact (Hs H1 g').
    rewrite (emit_kept o c "" _ Hp) by reflexivity. exact (Hs H1 g').
  - intros e He o c Hp.
    pose proof (visit_expression_excess o c Hp e He) as E.
    unfold excess in E. lia.
Qed.

End Brackets.

(** A function that returns a range, a list and a dictionary. *)
Lemma generated_brackets_balance_witness :
  forallb (statement_plain lexeme_str)
    (statements
       (mkProgram
          [FunctionDef "f" ["x"]
             [ReturnStatement
                (Some (ListLiteral
                         [FunctionCall "range" [num 1; Identifier "x"];
                          DictLiteral [(Identifier "x", num 2)]]))]]))
  = true
  /\ balanced
       (snd (CodeGenerator.generate lexeme_str lexeme_truth
               (mkProgram
                  [FunctionDef "f" ["x"]
                     [ReturnStatement
                        (Some (ListLiteral
                                 [FunctionCall "range"
                                    [num 1; Identifier "x"];
                                  DictLiteral [(Identifier "x", num 2)]]))]])
               CodeGenerator.init)).
Proof.
  assert (Hplain :
    forallb (statement_plain lexeme_str)
      (statements
         (mkProgram
            [FunctionDef "f" ["x"]
               [ReturnStatement
                  (Some (ListLiteral
                           [FunctionCall "range" [num 1; Identifier "x"];
                            DictLiteral [(Identifier "x", num 2)]]))]]))
    = true) by (vm_compute; reflexivity).
  split; [exact Hplain|].
  destruct (generated_brackets_balance lexeme_str lexeme_truth _
              CodeGenerator.init Hplain) as [H _].
  exact H.
Defined.

(** ** The lexer reaches the end of the text *)

Section LexerProgress.

Lemma reads_refl (s : Lexer.t) : reads s s.
Proof. split; [lia|trivial]. Qed.

Lemma reads_trans (s1 s2 s3 : Lexer.t) :
  reads s1 s2 -> reads s2 s3 -> reads s1 s3.
Proof. intros [H1 K1] [H2 K2]. split; [lia|auto]. Qed.

Lemma reads_same_text (s s1 : Lexer.t) :
  Lexer.text s1 = Lexer.text s -> reads s s1.
Proof.
  intros H. unfold reads, Lexer.remaining. rewrite H. split; [lia|trivial].
Qed.

Lemma reads_advance (s : Lexer.t) : reads s (Lexer.advance s).
Proof.
  unfold reads, Lexer.remaining, Lexer.advance.
  destruct (Lexer.text s) as [|c rest]; cbn; [split; [lia|trivial]|].
  destruct (Ascii.eqb c nl); cbn; (split; [lia|]);
    intros H; apply orb_false_iff in H; apply H.
Qed.

Lemma advance_shorter (s : Lexer.t) (c : ascii) :
  Lexer.current_char s = Some c ->
  (Lexer.remaining (Lexer.advance s) < Lexer.remaining s)%nat.
Proof.
  unfold Lexer.current_char, Lexer.remaining, Lexer.advance.
  destruct (Lexer.text s) as [|d rest]; [discriminate|]. intros _.
  destruct (Ascii.eqb d nl); cbn; lia.
Qed.

(** A loop whose body reads on. *)
Lemma while_reads {A : Type} (proj : A -> Lexer.t) (fuel : nat)
    (cond : A -> bool) (body : A -> A) (a : A) :
  (forall x, cond x = true -> reads (proj x) (proj (body x))) ->
  reads (proj a) (proj (while fuel cond body a)).
Proof.
  intros Hbody.
  apply (while_invariant (fun x => reads (proj a) (proj x))).
  - intros x Hx Hc. eapply reads_trans; [exact Hx|apply Hbody, Hc].
  - apply reads_refl.
Qed.

(** When its condition holds at the start, such a loop runs its body
    once at least. *)
Lemma while_shorter {A : Type} (proj : A -> Lexer.t) (cond : A -> bool)
    (body : A -> A) (a : A) :
  (forall x, cond x = true -> reads (proj x) (proj (body x))) ->
  cond a = true ->
  (Lexer.remaining (proj (body a)) < Lexer.remaining (proj a))%nat ->
  (Lexer.remaining
     (proj (while (Lexer.remaining (proj a)) cond body a))
   < Lexer.remaining (proj a))%nat.
Proof.
  intros Hbody Hc Hlt.
  destruct (Lexer.remaining (proj a)) as [|n] eqn:E; [lia|].
  cbn [while]. rewrite Hc.
  destruct (while_reads proj n cond body (body a) Hbody) as [H _]. lia.
Qed.

Lemma current_is_char (p : ascii -> bool) (s : Lexer.t) :
  Lexer.current_is p s = true ->
  exists c, Lexer.current_char s = Some c.
Proof.
  unfold Lexer.current_is. destruct (Lexer.current_char s) as [c|];
    [eauto|discriminate].
Qed.

(** The loops [while self.current_char() and ...: self.advance()]. *)
Lemma while_advance_reads (p : ascii -> bool) (s : Lexer.t) :
  reads s (while (Lexer.remaining s) (Lexer.current_is p) Lexer.advance s).
Proof.
  apply (while_reads (fun x => x)). intros x _. apply reads_advance.
Qed.

Lemma while_advance_shorter (p : ascii -> bool) (s : Lexer.t) :
  Lexer.current_is p s = true ->
  (Lexer.remaining
     (while (Lexer.remaining s) (Lexer.current_is p) Lexer.advance s)
   < Lexer.remaining s)%nat.
Proof.
  intros Hc. apply (while_shorter (fun x => x)).
  - intros x _. apply reads_advance.
  - exact Hc.
  - destruct (current_is_char p s Hc) as [c Ec].
    apply (advance_shorter s c Ec).
Qed.

Lemma read_string_body_reads (quote_char : ascii) (sv : Lexer.t * string) :
  reads (fst sv) (fst (Lexer.read_string_body quote_char sv)).
Proof.
  destruct sv as [x v]. unfold Lexer.read_string_body.
  destruct (Lexer.current_char x) as [c|]; [|apply reads_refl].
  destruct (Ascii.eqb c backslash); [|apply reads_advance].
  destruct (Lexer.current_char (Lexer.advance x)); cbn [fst].
  - eapply reads_trans; apply reads_advance.
  - apply reads_advance.
Qed.

Lemma read_string_reads (s : Lexer.t) (c : ascii) :
  Lexer.current_char s = Some c ->
  reads s (fst (Lexer.read_string s))
  /\ (Lexer.remaining (fst (Lexer.read_string s)) < Lexer.remaining s)%nat.
Proof.
  intros Ec. unfold Lexer.read_string. rewrite Ec.
  pose proof (while_reads fst (Lexer.remaining (Lexer.advance s))
                (fun sv => Lexer.current_is
                             (fun d => negb (Ascii.eqb d c)) (fst sv))
                (Lexer.read_string_body c) (Lexer.advance s, "")
                (fun x _ => read_string_body_reads c x)) as Hloop.
  destruct (while _ _ _ _) as [s2 v]. cbn [fst] in *.
  assert (H2 : reads s s2)
    by (eapply reads_trans; [apply reads_advance|exact Hloop]).
  pose proof (advance_shorter s c Ec) as Hlt.
  destruct Hloop as [Hle _].
  destruct (Lexer.current_is (Ascii.eqb c) s2); cbn [fst].
  - split; [eapply reads_trans; [exact H2|apply reads_advance]|].
    destruct (reads_advance s2) as [H3 _]. lia.
  - split; [exact H2|lia].
Qed.

Lemma operator_reads (s : Lexer.t) (tokens : list Token) (char second c : ascii)
    (two : TokenType) (two_value : string) (one : TokenType) :
  Lexer.current_char s = Some c ->
  reads s (fst (Lexer.operator s tokens char second two two_value one))
  /\ (Lexer.remaining
        (fst (Lexer.operator s tokens char second two two_value one))
      < Lexer.remaining s)%nat.
Proof.
  intros Ec. unfold Lexer.operator.
  pose proof (reads_advance s) as H1.
  pose proof (advance_shorter s c Ec) as Hlt.
  pose proof (reads_advance (Lexer.advance s)) as H2.
  destruct (Lexer.peek_char s 1) as [d|]; [destruct (Ascii.eqb d second)|];
    cbn [fst]; (split; [|destruct H2; lia]);
    first [exact H1|eapply reads_trans; eassumption].
Qed.

(** Away from a ['!'], recognising one token reads one character at
    least. *)
Lemma scan_reads (s : Lexer.t) (tokens : list Token) (char : ascii) :
  Lexer.current_char s = Some char ->
  Ascii.eqb char "!" = false ->
  reads s (fst (Lexer.scan s tokens char))
  /\ (Lexer.remaining (fst (Lexer.scan s tokens char))
      < Lexer.remaining s)%nat.
Proof.
  intros Ec Hbang. unfold Lexer.scan.
  assert (Hcur : forall p, p char = true -> Lexer.current_is p s = true)
    by (intros p Hp; unfold Lexer.current_is; rewrite Ec; exact Hp).
  destruct (in_space_tab char) eqn:E1.
  { cbn [fst]. split; [apply while_advance_reads|].
    apply while_advance_shorter, Hcur, E1. }
  destruct (Ascii.eqb char "#") eqn:E2.
  { cbn [fst]. split; [apply while_advance_reads|].
    apply while_advance_shorter, Hcur.
    apply Ascii.eqb_eq in E2. subst char. reflexivity. }
  destruct (isdigit char) eqn:E3.
  { unfold Lexer.read_number. cbn [fst].
    split; [apply while_advance_reads|].
    apply while_advance_shorter, Hcur. rewrite E3. reflexivity. }
  destruct (Ascii.eqb char dquote || Ascii.eqb char squote) eqn:E4.
  { pose proof (read_string_reads s char Ec) as H.
    destruct (Lexer.read_string s) as [s1 tok]. exact H. }
  destruct (isalpha char || Ascii.eqb char "_") eqn:E5.
  { unfold Lexer.read_identifier. cbn [fst].
    split; [apply while_advance_reads|].
    apply while_advance_shorter, Hcur.
    unfold isalnum. apply orb_true_iff in E5. destruct E5 as [-> | ->];
      [reflexivity|apply orb_true_r]. }
  destruct (Ascii.eqb char "+"); [apply (operator_reads _ _ _ _ _ _ _ _ Ec)|].
  destruct (Ascii.eqb char "-"); [apply (operator_reads _ _ _ _ _ _ _ _ Ec)|].
  destruct (Ascii.eqb char "*"); [apply (operator_reads _ _ _ _ _ _ _ _ Ec)|].
  destruct (Ascii.eqb char "="); [apply (operator_reads _ _ _ _ _ _ _ _ Ec)|].
  rewrite Hbang.
  destruct (Ascii.eqb char "<"); [apply (operator_reads _ _ _ _ _ _ _ _ Ec)|].
  destruct (Ascii.eqb char ">"); [apply (operator_reads _ _ _ _ _ _ _ _ Ec)|].
  destruct (Lexer.token_map char); cbn [fst];
    (split; [apply reads_advance|apply (advance_shorter s char Ec)]).
Qed.

Lemma dedent_all_text (s : Lexer.t) (tokens : list Token) :
  Lexer.text (fst (Lexer.dedent_all s tokens)) = Lexer.text s
  /\ Lexer.current_char (fst (Lexer.dedent_all s tokens))
     = Lexer.current_char s.
Proof.
  assert (H : Lexer.text (fst (Lexer.dedent_all s tokens)) = Lexer.text s).
  { unfold Lexer.dedent_all.
    apply (while_invariant
             (fun st : Lexer.t * list Token =>
                Lexer.text (fst st) = Lexer.text s)); [|reflexivity].
    intros x Hx _. exact Hx. }
  split; [exact H|]. unfold Lexer.current_char. rewrite H. reflexivity.
Qed.

Lemma handle_indentation_reads (s : Lexer.t) :
  Lexer.current_is in_space_tab s = true ->
  reads s (fst (Lexer.handle_indentation s))
  /\ (Lexer.remaining (fst (Lexer.handle_indentation s))
      < Lexer.remaining s)%nat.
Proof.
  intros Hc. unfold Lexer.handle_indentation.
  set (body := fun si : Lexer.t * nat =>
                 (Lexer.advance (fst si),
                  if Lexer.current_is (Ascii.eqb " ") (fst si)
                  then (snd si + 1)%nat else (snd si + 4)%nat)).
  set (cond := fun si : Lexer.t * nat =>
                 Lexer.current_is in_space_tab (fst si)).
  assert (Hbody : forall x, cond x = true -> reads (fst x) (fst (body x)))
    by (intros x _; apply reads_advance).
  pose proof (while_reads fst (Lexer.remaining s) cond body (s, 0%nat) Hbody)
    as Hr.
  assert (Hlt : (Lexer.remaining
                   (fst (while (Lexer.remaining s) cond body (s, 0%nat)))
                 < Lexer.remaining s)%nat).
  { apply (while_shorter fst cond body (s, 0%nat) Hbody Hc).
    destruct (current_is_char _ s Hc) as [c Ec].
    apply (advance_shorter s c Ec). }
  destruct (while (Lexer.remaining s) cond body (s, 0%nat)) as [s1 lvl].
  cbn [fst] in Hr, Hlt.
  assert (Hsame : forall x : Lexer.t, Lexer.text x = Lexer.text s1 ->
            reads s x /\ (Lexer.remaining x < Lexer.remaining s)%nat).
  { intros x Hx. split.
    - eapply reads_trans; [exact Hr|apply reads_same_text, Hx].
    - unfold Lexer.remaining in *. rewrite Hx. exact Hlt. }
  destruct (Lexer.current_char s1) as [c|]; [|apply Hsame; reflexivity].
  destruct (Ascii.eqb c nl || Ascii.eqb c "#"); [apply Hsame; reflexivity|].
  destruct (_ <? lvl)%nat; [apply Hsame; reflexivity|].
  destruct (lvl <? _)%nat; [|apply Hsame; reflexivity].
  apply Hsame.
  apply (while_invariant
           (fun st : Lexer.t * list Token =>
              Lexer.text (fst st) = Lexer.text s1)); [|reflexivity].
  intros x Hx _. exact Hx.
Qed.

(** One iteration of the main loop, on a text with no ['!'], reads one
    character at least. *)
Lemma tokenize_body_reads (s : Lexer.t) (at_line_start : bool)
    (tokens : list Token) (char : ascii) :
  Lexer.current_char s = Some char ->
  str_contains "!" (Lexer.text s) = false ->
  let r := Lexer.tokenize_body s at_line_start tokens char in
  str_contains "!" (Lexer.text (fst (fst r))) = false
  /\ (Lexer.remaining (fst (fst r)) < Lexer.remaining s)%nat.
Proof.
  intros Ec Hno.
  assert (Hbang : Ascii.eqb char "!" = false).
  { unfold Lexer.current_char in Ec.
    destruct (Lexer.text s) as [|c rest]; [discriminate|].
    cbn in Ec. injection Ec as ->. cbn in Hno.
    apply orb_false_iff in Hno. destruct Hno as [H _].
    rewrite Ascii.eqb_sym. exact H. }
  assert (Hadv : forall x,
            Lexer.text x = Lexer.text s ->
            str_contains "!" (Lexer.text (Lexer.advance x)) = false
            /\ (Lexer.remaining (Lexer.advance x) < Lexer.remaining s)%nat).
  { intros x Hx.
    assert (Ex : Lexer.current_char x = Some char)
      by (unfold Lexer.current_char; rewrite Hx; exact Ec).
    destruct (reads_advance x) as [_ H]. split.
    - apply H. rewrite Hx. exact Hno.
    - pose proof (advance_shorter x char Ex) as Hlt.
      unfold Lexer.remaining in *. rewrite Hx in Hlt. exact Hlt. }
  assert (Hscan : forall x toks,
            Lexer.text x = Lexer.text s ->
            str_contains "!" (Lexer.text (fst (Lexer.scan x toks char)))
            = false
            /\ (Lexer.remaining (fst (Lexer.scan x toks char))
                < Lexer.remaining s)%nat).
  { intros x toks Hx.
    assert (Ex : Lexer.current_char x = Some char)
      by (unfold Lexer.current_char; rewrite Hx; exact Ec).
    destruct (scan_reads x toks char Ex Hbang) as [[_ H] Hlt]. split.
    - apply H. rewrite Hx. exact Hno.
    - unfold Lexer.remaining in *. rewrite Hx in Hlt. exact Hlt. }
  unfold Lexer.tokenize_body. cbn zeta.
  destruct at_line_start.
  - destruct (in_space_tab char) eqn:E1.
    + assert (Hc : Lexer.current_is in_space_tab s = true)
        by (unfold Lexer.current_is; rewrite Ec; exact E1).
      destruct (handle_indentation_reads s Hc) as [[_ H] Hlt].
      destruct (Lexer.handle_indentation s) as [s1 toks]. cbn [fst] in *.
      split; [apply H, Hno|exact Hlt].
    + destruct (dedent_all_text s tokens) as [Ht _].
      destruct (Lexer.dedent_all s tokens) as [s1 tokens1]. cbn [fst] in Ht.
      destruct (Ascii.eqb char nl); [cbn [fst]; apply Hadv, Ht|].
      pose proof (Hscan s1 tokens1 Ht) as H.
      destruct (Lexer.scan s1 tokens1 char) as [s2 tokens2]. exact H.
  - destruct (Ascii.eqb char nl); [cbn [fst]; apply Hadv; reflexivity|].
    pose proof (Hscan s tokens eq_refl) as H.
    destruct (Lexer.scan s tokens char) as [s2 tokens2]. exact H.
Qed.

Lemma tokenize_loop_returns (fuel : nat) :
  forall s at_line_start tokens,
    str_contains "!" (Lexer.text s) = false ->
    (Lexer.remaining s < fuel)%nat ->
    exists r, Lexer.tokenize_loop fuel s at_line_start tokens = Some r.
Proof.
  induction fuel as [|fuel IH]; intros s b tokens Hno Hlt; [lia|].
  cbn [Lexer.tokenize_loop].
  destruct (Lexer.current_char s) as [char|] eqn:Ec; [|eauto].
  destruct (tokenize_body_reads s b tokens char Ec Hno) as [Hno1 Hlt1].
  destruct (Lexer.tokenize_body s b tokens char) as [[s1 b1] tokens1].
  cbn [fst] in *. apply IH; [exact Hno1|lia].
Qed.

(** [tokenize] returns on a text with no ['!']. *)
Lemma tokenize_no_bang_returns (source : string) (fuel : nat) :
  str_contains "!" source = false ->
  (String.length source < fuel)%nat ->
  exists tokens, Lexer.tokenize fuel source = Some tokens.
Proof.
  intros Hno Hlt.
  destruct (tokenize_loop_returns fuel (Lexer.init source) true [] Hno Hlt)
    as [[s toks] E].
  unfold Lexer.tokenize. rewrite E.
  destruct (Lexer.dedent_all s toks). eexists. reflexivity.
Qed.

End LexerProgress.

(** X14. On a text with no ['!'] the lexer returns: one iteration of
    the main loop for each character and one more are enough. What it
    returns ends in the only EOF token and has as many INDENT as DEDENT
    tokens. *)
Theorem tokenize_returns_without_bang :
  forall source fuel,
    str_contains "!" source = false ->
    (String.length source < fuel)%nat ->
    exists tokens,
      Lexer.tokenize fuel source = Some tokens
      /\ ends_in_eof tokens
      /\ count_type INDENT tokens = count_type DEDENT tokens.
Proof.
  intros source fuel Hno Hlt.
  destruct (tokenize_no_bang_returns source fuel Hno Hlt) as [tokens Ht].
  exists tokens. split; [exact Ht|].
  apply (tokenize_returns_balanced fuel source). exact Ht.
Qed.

(** The text of a definition with an indented body. *)
Lemma tokenize_returns_without_bang_witness :
  str_contains "!" src_def = false
  /\ (String.length src_def < 30)%nat
  /\ exists tokens,
       Lexer.tokenize 30 src_def = Some tokens
       /\ ends_in_eof tokens
       /\ count_type INDENT tokens = count_type DEDENT tokens.
Proof.
  assert (Hno : str_contains "!" src_def = false) by reflexivity.
  assert (Hlt : (String.length src_def < 30)%nat) by (vm_compute; lia).
  split; [exact Hno|]. split; [exact Hlt|].
  exact (tokenize_returns_without_bang src_def 30 Hno Hlt).
Defined.

(** ** The number of tokens *)

Section TokenCount.

Lemma count_other_app (l1 l2 : list Token) :
  count_other (l1 ++ l2) = (count_other l1 + count_other l2)%nat.
Proof. unfold count_other. rewrite filter_app, length_app. reflexivity. Qed.

Lemma count_other_dedent (t : Token) :
  type t = DEDENT -> count_other [t] = 0%nat.
Proof.
  intros H. unfold count_other.
  rewrite filter_cons_False by (intros K; apply K, H). reflexivity.
Qed.

Lemma count_other_one (t : Token) : (count_other [t] <= 1)%nat.
Proof.
  unfold count_other. destruct (decide (type t <> DEDENT)).
  - rewrite filter_cons_True by assumption. cbn. lia.
  - rewrite filter_cons_False by assumption. cbn. lia.
Qed.

Lemma length_count (l : list Token) :
  List.length l = (count_type DEDENT l + count_other l)%nat.
Proof.
  induction l as [|t l IH]; [reflexivity|].
  change (t :: l) with ([t] ++ l).
  rewrite length_app, count_type_app, count_other_app, IH.
  destruct (decide (type t = DEDENT)) as [E|E].
  - rewrite (count_type_same _ _ E), (count_other_dedent _ E). cbn. lia.
  - rewrite (count_type_other _ _ E). unfold count_other.
    rewrite filter_cons_True by exact E. cbn. lia.
Qed.

Lemma count_indent_other (l : list Token) :
  (count_type INDENT l <= count_other l)%nat.
Proof.
  induction l as [|t l IH]; [cbn; lia|].
  change (t :: l) with ([t] ++ l).
  rewrite count_type_app, count_other_app.
  destruct (decide (type t = INDENT)) as [E|E].
  - rewrite (count_type_same _ _ E). unfold count_other at 1.
    rewrite filter_cons_True by (rewrite E; discriminate). cbn. lia.
  - rewrite (count_type_other _ _ E). lia.
Qed.

(** The loops that pop the stack of widths append DEDENT tokens only and
    read nothing. *)
Lemma dedent_loop_other (fuel : nat)
    (cond : Lexer.t * list Token -> bool) (s : Lexer.t)
    (tokens : list Token) :
  let r := while fuel cond
             (fun st => (Lexer.pop (fst st),
                         snd st ++ [Lexer.dedent_token (fst st)]))
             (s, tokens) in
  Lexer.text (fst r) = Lexer.text s
  /\ count_other (snd r) = count_other tokens.
Proof.
  apply (while_invariant
           (fun st : Lexer.t * list Token =>
              Lexer.text (fst st) = Lexer.text s
              /\ count_other (snd st) = count_other tokens)).
  - intros [x acc] [Hx Hacc] _. cbn [fst snd] in *. split; [exact Hx|].
    rewrite count_other_app, count_other_dedent by reflexivity. lia.
  - split; reflexivity.
Qed.

Lemma handle_indentation_other (s : Lexer.t) :
  (count_other (snd (Lexer.handle_indentation s)) <= 1)%nat.
Proof.
  unfold Lexer.handle_indentation.
  destruct (while _ _ _ (s, 0%nat)) as [s1 lvl].
  destruct (Lexer.current_char s1) as [c|]; [|cbn; lia].
  destruct (Ascii.eqb c nl || Ascii.eqb c "#"); [cbn; lia|].
  destruct (_ <? lvl)%nat; [cbn [snd]; apply count_other_one|].
  destruct (lvl <? _)%nat; [|cbn; lia].
  destruct (dedent_loop_other (List.length (Lexer.indent_stack s1))
              (fun st =>
                 match Lexer.indent_stack (fst st) with
                 | top :: _ => (lvl <? top)%nat
                 | [] => false
                 end) s1 []) as [_ H].
  rewrite H. cbn. lia.
Qed.

(** One iteration of the main loop, on a text with no ['!']: a token
    that is not a DEDENT costs a character. *)
Lemma tokenize_body_other (s : Lexer.t) (at_line_start : bool)
    (tokens : list Token) (char : ascii) :
  Lexer.current_char s = Some char ->
  str_contains "!" (Lexer.text s) = false ->
  let r := Lexer.tokenize_body s at_line_start tokens char in
  (count_other (snd r) + Lexer.remaining (fst (fst r))
   <= count_other tokens + Lexer.remaining s)%nat.
Proof.
  intros Ec Hno.
  assert (Hbang : Ascii.eqb char "!" = false).
  { unfold Lexer.current_char in Ec.
    destruct (Lexer.text s) as [|c rest]; [discriminate|].
    cbn in Ec. injection Ec as ->. cbn in Hno.
    apply orb_false_iff in Hno. destruct Hno as [H _].
    rewrite Ascii.eqb_sym. exact H. }
  assert (Hnl : forall x toks,
            Lexer.text x = Lexer.text s ->
            count_other toks = count_other tokens ->
            (count_other (toks ++ [Lexer.newline_token x char])
             + Lexer.remaining (Lexer.advance x)
             <= count_other tokens + Lexer.remaining s)%nat).
  { intros x toks Hx Htoks.
    assert (Ex : Lexer.current_char x = Some char)
      by (unfold Lexer.current_char; rewrite Hx; exact Ec).
    pose proof (advance_shorter x char Ex) as Hlt.
    pose proof (count_other_one (Lexer.newline_token x char)) as H1.
    rewrite count_other_app, Htoks.
    unfold Lexer.remaining in *. rewrite Hx in Hlt. lia. }
  assert (Hscan : forall x toks,
            Lexer.text x = Lexer.text s ->
            count_other toks = count_other tokens ->
            (count_other (snd (Lexer.scan x toks char))
             + Lexer.remaining (fst (Lexer.scan x toks char))
             <= count_other tokens + Lexer.remaining s)%nat).
  { intros x toks Hx Htoks.
    assert (Ex : Lexer.current_char x = Some char)
      by (unfold Lexer.current_char; rewrite Hx; exact Ec).
    destruct (scan_reads x toks char Ex Hbang) as [_ Hlt].
    destruct (scan_appends x toks char) as [_ [-> | (t & -> & _)]].
    - unfold Lexer.remaining in *. rewrite Hx in Hlt. lia.
    - pose proof (count_other_one t) as H1. rewrite count_other_app.
      unfold Lexer.remaining in *. rewrite Hx in Hlt. lia. }
  unfold Lexer.tokenize_body. cbn zeta.
  destruct at_line_start.
  - destruct (in_space_tab char) eqn:E1.
    + assert (Hc : Lexer.current_is in_space_tab s = true)
        by (unfold Lexer.current_is; rewrite Ec; exact E1).
      destruct (handle_indentation_reads s Hc) as [_ Hlt].
      pose proof (handle_indentation_other s) as Ho.
      destruct (Lexer.handle_indentation s) as [s1 toks].
      cbn [fst snd] in *. rewrite count_other_app. lia.
    + destruct (dedent_loop_other (List.length (Lexer.indent_stack s))
                  (fun st =>
                     (1 <? List.length (Lexer.indent_stack (fst st)))%nat)
                  s tokens) as [Ht Ho].
      fold (Lexer.dedent_all s tokens) in Ht, Ho.
      destruct (Lexer.dedent_all s tokens) as [s1 tokens1].
      cbn [fst snd] in Ht, Ho.
      destruct (Ascii.eqb char nl); [cbn [fst snd]; apply Hnl; assumption|].
      pose proof (Hscan s1 tokens1 Ht Ho) as H.
      destruct (Lexer.scan s1 tokens1 char) as [s2 tokens2]. exact H.
  - destruct (Ascii.eqb char nl);
      [cbn [fst snd]; apply Hnl; reflexivity|].
    pose proof (Hscan s tokens eq_refl eq_refl) as H.
    destruct (Lexer.scan s tokens char) as [s2 tokens2]. exact H.
Qed.

Lemma tokenize_loop_other (fuel : nat) :
  forall s at_line_start tokens s' tokens',
    str_contains "!" (Lexer.text s) = false ->
    Lexer.tokenize_loop fuel s at_line_start tokens = Some (s', tokens') ->
    (count_other tokens' <= count_other tokens + Lexer.remaining s)%nat.
Proof.
  induction fuel as [|fuel IH]; intros s b tokens s' tokens' Hno;
    cbn [Lexer.tokenize_loop]; [discriminate|].
  destruct (Lexer.current_char s) as [char|] eqn:Ec;
    [|intros [= <- <-]; lia].
  pose proof (tokenize_body_other s b tokens char Ec Hno) as Ho.
  destruct (tokenize_body_reads s b tokens char Ec Hno) as [Hno1 _].
  destruct (Lexer.tokenize_body s b tokens char) as [[s1 b1] tokens1].
  cbn [fst snd] in *. intros E.
  pose proof (IH _ _ _ _ _ Hno1 E). lia.
Qed.

(** What [tokenize] returns has at most two tokens for each character
    and one more. *)
Lemma tokenize_length_le :
  forall fuel source tokens,
    str_contains "!" source = false ->
    Lexer.tokenize fuel source = Some tokens ->
    (List.length tokens <= 2 * String.length source + 1)%nat.
Proof.
  intros fuel source tokens Hno Hlex.
  destruct (tokenize_returns_balanced fuel source tokens Hlex)
    as [_ Hbalanced].
  revert Hlex Hbalanced. unfold Lexer.tokenize.
  destruct (Lexer.tokenize_loop fuel _ _ _) as [[s toks]|] eqn:E;
    [|discriminate].
  pose proof (tokenize_loop_other fuel (Lexer.init source) true [] s toks
                Hno E) as Ho.
  cbn [Lexer.init Lexer.text] in Ho.
  change (count_other []) with 0%nat in Ho.
  change (Lexer.remaining (Lexer.init source))
    with (String.length source) in Ho.
  destruct (dedent_loop_other (List.length (Lexer.indent_stack s))
              (fun st => (1 <? List.length (Lexer.indent_stack (fst st)))%nat)
              s toks) as [_ Hd].
  fold (Lexer.dedent_all s toks) in Hd.
  destruct (Lexer.dedent_all s toks) as [s1 toks1]. cbn [snd] in Hd.
  intros [= <-] Hbalanced.
  rewrite !count_type_app in Hbalanced.
  rewrite (count_type_other INDENT), (count_type_other DEDENT) in Hbalanced
    by (cbn; discriminate).
  pose proof (count_indent_other toks1) as Hi.
  rewrite length_app, (length_count toks1). cbn [List.length]. lia.
Qed.

End TokenCount.

(** X15. The token stream is linear in the text: on a text with no
    ['!'], what [tokenize] returns has at most two tokens for each
    character and one more. *)
Theorem tokenize_length_bound :
  forall fuel source tokens,
    str_contains "!" source = false ->
    Lexer.tokenize fuel source = Some tokens ->
    (List.length tokens <= 2 * String.length source + 1)%nat.
Proof.
  intros fuel source tokens Hno Hlex.
  exact (tokenize_length_le fuel source tokens Hno Hlex).
Qed.

(** The text of a definition with an indented body. *)
Lemma tokenize_length_bound_witness :
  str_contains "!" src_def = false
  /\ Lexer.tokenize 100 src_def
     = Some (default [] (Lexer.tokenize 100 src_def))
  /\ (List.length (default [] (Lexer.tokenize 100 src_def))
      <= 2 * String.length src_def + 1)%nat.
Proof.
  assert (Hno : str_contains "!" src_def = false) by reflexivity.
  assert (Hlex : Lexer.tokenize 100 src_def
                 = Some (default [] (Lexer.tokenize 100 src_def)))
    by (vm_compute; reflexivity).
  split; [exact Hno|]. split; [exact Hlex|].
  exact (tokenize_length_bound 100 src_def _ Hno Hlex).
Defined.

(** ** INDENT and DEDENT tokens nest *)

Section Nesting.

Lemma nested_nil : nested [].
Proof. intros n. rewrite take_nil. cbn. lia. Qed.

Lemma nested_snoc (tokens : list Token) (t : Token) :
  nested tokens ->
  (count_type DEDENT (tokens ++ [t])
   <= count_type INDENT (tokens ++ [t]))%nat ->
  nested (tokens ++ [t]).
Proof.
  intros H Hall n.
  destruct (le_lt_dec n (List.length tokens)) as [Hle|Hgt].
  - rewrite take_app_le by exact Hle. apply H.
  - rewrite take_ge by (rewrite length_app; cbn; lia). exact Hall.
Qed.

(** Between two iterations the DEDENT tokens are at most as many as the
    INDENT tokens. *)
Lemma invariant_depth (s : Lexer.t) (tokens : list Token) :
  lexer_invariant s tokens ->
  (count_type DEDENT tokens <= count_type INDENT tokens)%nat.
Proof.
  intros (_ & (above & Hbase) & Hcount). rewrite Hbase in Hcount.
  rewrite length_app in Hcount. cbn in Hcount. lia.
Qed.

Lemma nested_step (s : Lexer.t) (tokens : list Token) (t : Token) :
  nested tokens -> lexer_invariant s (tokens ++ [t]) ->
  nested (tokens ++ [t]).
Proof.
  intros H Hinv. apply nested_snoc; [exact H|].
  apply (invariant_depth s). exact Hinv.
Qed.

Lemma dedent_all_nested (s : Lexer.t) (tokens : list Token) :
  lexer_invariant s tokens -> nested tokens ->
  nested (snd (Lexer.dedent_all s tokens)).
Proof.
  intros Hinv H. unfold Lexer.dedent_all.
  apply (while_invariant
           (fun st : Lexer.t * list Token =>
              lexer_invariant (fst st) (snd st) /\ nested (snd st)));
    [|split; assumption].
  intros [x acc] [Hx Hacc] Hcond. cbn [fst snd] in *.
  apply Nat.ltb_lt in Hcond.
  destruct (Lexer.indent_stack x) as [|top rest] eqn:E; [cbn in Hcond; lia|].
  assert (Hpop : lexer_invariant (Lexer.pop x)
                   (acc ++ [Lexer.dedent_token x])).
  { apply (invariant_pop x acc top rest Hx E). intros ->. cbn in Hcond. lia. }
  split; [exact Hpop|]. apply (nested_step _ _ _ Hacc Hpop).
Qed.

Lemma handle_indentation_nested (s : Lexer.t) (tokens : list Token) :
  lexer_invariant s tokens -> nested tokens ->
  nested (tokens ++ snd (Lexer.handle_indentation s)).
Proof.
  intros Hinv H.
  pose proof (handle_indentation_invariant s tokens Hinv) as Hafter.
  revert Hafter. unfold Lexer.handle_indentation.
  set (measured :=
         while (Lexer.remaining s)
           (fun si => Lexer.current_is in_space_tab (fst si))
           (fun si =>
              (Lexer.advance (fst si),
               if Lexer.current_is (Ascii.eqb " ") (fst si)
               then (snd si + 1)%nat else (snd si + 4)%nat))
           (s, 0%nat)).
  assert (Hstack : Lexer.indent_stack (fst measured) = Lexer.indent_stack s).
  { apply (while_invariant
             (fun si => Lexer.indent_stack (fst si) = Lexer.indent_stack s));
      [|reflexivity].
    intros [x n] Hx _. cbn [fst]. rewrite advance_stack. exact Hx. }
  destruct measured as [s1 indent_level]. cbn [fst] in Hstack.
  assert (H1 : lexer_invariant s1 tokens)
    by (apply (invariant_same s); assumption).
  destruct (Lexer.current_char s1) as [c|];
    [|intros _; cbn [snd]; rewrite app_nil_r; exact H].
  destruct (_ || _); [intros _; cbn [snd]; rewrite app_nil_r; exact H|].
  destruct (_ <? _)%nat.
  - cbn [fst snd]. intros Hafter. apply (nested_step _ _ _ H Hafter).
  - destruct (_ <? _)%nat;
      [|intros _; cbn [snd]; rewrite app_nil_r; exact H].
    intros _.
    apply (while_invariant
             (fun st : Lexer.t * list Token =>
                lexer_invariant (fst st) (tokens ++ snd st)
                /\ nested (tokens ++ snd st)));
      [|cbn [fst snd]; rewrite app_nil_r; split; assumption].
    intros [x acc] [Hx Hacc] Hcond. cbn [fst snd] in *.
    destruct (Lexer.indent_stack x) as [|top rest] eqn:E; [discriminate|].
    apply Nat.ltb_lt in Hcond. rewrite app_assoc.
    assert (Hpop : lexer_invariant (Lexer.pop x)
                     ((tokens ++ acc) ++ [Lexer.dedent_token x])).
    { apply (invariant_pop x (tokens ++ acc) top rest Hx E).
      intros ->. destruct Hx as (_ & (above & Hbase) & _).
      rewrite E in Hbase. destruct above as [|a above]; cbn in Hbase.
      - injection Hbase as ->. lia.
      - injection Hbase as _ Hnil. destruct above; discriminate. }
    split; [exact Hpop|]. apply (nested_step _ _ _ Hacc Hpop).
Qed.

Lemma scan_nested (s : Lexer.t) (tokens : list Token) (char : ascii) :
  lexer_invariant s tokens -> nested tokens ->
  nested (snd (Lexer.scan s tokens char)).
Proof.
  intros Hinv H. pose proof (scan_invariant s tokens char Hinv) as Hafter.
  destruct (scan_appends s tokens char) as [_ [E | (t & E & _)]];
    rewrite E in *; [exact H|].
  apply (nested_step _ _ _ H Hafter).
Qed.

Lemma tokenize_body_nested (s : Lexer.t) (at_line_start : bool)
    (tokens : list Token) (char : ascii) :
  lexer_invariant s tokens -> nested tokens ->
  nested (snd (Lexer.tokenize_body s at_line_start tokens char)).
Proof.
  intros Hinv H.
  assert (Hnl : forall x acc,
    lexer_invariant x acc -> nested acc ->
    nested (acc ++ [Lexer.newline_token x char])).
  { intros x acc Hx Hacc. apply (nested_step (Lexer.advance x)); [exact Hacc|].
    apply (invariant_append x); try exact Hx;
      [apply advance_stack|cbn; discriminate..]. }
  unfold Lexer.tokenize_body. destruct at_line_start.
  - destruct (in_space_tab char).
    + pose proof (handle_indentation_nested s tokens Hinv H) as Hi.
      destruct (Lexer.handle_indentation s) as [s1 toks]. exact Hi.
    + pose proof (dedent_all_invariant s tokens Hinv) as Hd.
      pose proof (dedent_all_nested s tokens Hinv H) as Hn.
      destruct (Lexer.dedent_all s tokens) as [s1 tokens1].
      cbn [fst snd] in Hd, Hn.
      destruct (Ascii.eqb char nl); [cbn [snd]; apply Hnl; assumption|].
      pose proof (scan_nested s1 tokens1 char Hd Hn) as Hs.
      destruct (Lexer.scan s1 tokens1 char) as [s2 tokens2]. exact Hs.
  - destruct (Ascii.eqb char nl); [cbn [snd]; apply Hnl; assumption|].
    pose proof (scan_nested s tokens char Hinv H) as Hs.
    destruct (Lexer.scan s tokens char) as [s2 tokens2]. exact Hs.
Qed.

Lemma tokenize_loop_nested (fuel : nat) :
  forall s at_line_start tokens s' tokens',
    lexer_invariant s tokens -> nested tokens ->
    Lexer.tokenize_loop fuel s at_line_start tokens = Some (s', tokens') ->
    nested tokens'.
Proof.
  induction fuel as [|fuel IH]; intros s b tokens s' tokens' Hinv H;
    cbn [Lexer.tokenize_loop]; [discriminate|].
  destruct (Lexer.current_char s) as [char|]; [|intros [= <- <-]; exact H].
  pose proof (tokenize_body_invariant s b tokens char Hinv) as Hb.
  pose proof (tokenize_body_nested s b tokens char Hinv H) as Hn.
  destruct (Lexer.tokenize_body s b tokens char) as [[s1 b1] tokens1].
  apply IH; assumption.
Qed.

End Nesting.

(** X16. INDENT and DEDENT tokens nest like brackets: in what
    [tokenize] returns they are as many, and no prefix of the stream has
    more DEDENT than INDENT tokens. *)
Theorem tokenize_layout_nested :
  forall fuel source tokens,
    Lexer.tokenize fuel source = Some tokens ->
    nested tokens
    /\ count_type INDENT tokens = count_type DEDENT tokens.
Proof.
  intros fuel source tokens Hlex.
  split; [|apply (tokenize_returns_balanced fuel source tokens Hlex)].
  destruct (tokenize_returns_balanced fuel source tokens Hlex)
    as [_ Hbalanced].
  revert Hlex Hbalanced. unfold Lexer.tokenize.
  destruct (Lexer.tokenize_loop fuel _ _ _) as [[s toks]|] eqn:E;
    [|discriminate].
  assert (Hinit : lexer_invariant (Lexer.init source) []).
  { unfold lexer_invariant. cbn. split; [constructor|].
    split; [exists []; reflexivity|reflexivity]. }
  pose proof (tokenize_loop_invariant _ _ _ _ _ _ Hinit E) as Hinv.
  pose proof (tokenize_loop_nested _ _ _ _ _ _ Hinit nested_nil E) as Hn.
  pose proof (dedent_all_nested s toks Hinv Hn) as Hd.
  destruct (Lexer.dedent_all s toks) as [s1 toks1]. cbn [snd] in Hd.
  intros [= <-] Hbalanced. apply nested_snoc; [exact Hd|]. lia.
Qed.

(** The text of the if, elif and else scenario. *)
Lemma tokenize_layout_nested_witness :
  Lexer.tokenize 100 src_elif = Some elif_tokens
  /\ nested elif_tokens
  /\ count_type INDENT elif_tokens = count_type DEDENT elif_tokens.
Proof.
  assert (Hlex : Lexer.tokenize 100 src_elif = Some elif_tokens)
    by (vm_compute; reflexivity).
  split; [exact Hlex|].
  exact (tokenize_layout_nested 100 src_elif elif_tokens Hlex).
Defined.

(** ** The lexemes *)

Section Lexemes.

Lemma append_empty_r (s : string) : s +:+ "" = s.
Proof.
  induction s as [|c s IH]; [reflexivity|].
  change (String c (s +:+ "") = String c s). rewrite IH. reflexivity.
Qed.

Lemma length_append (s1 s2 : string) :
  String.length (s1 +:+ s2) = (String.length s1 + String.length s2)%nat.
Proof.
  induction s1 as [|c s1 IH]; [reflexivity|].
  change (S (String.length (s1 +:+ s2))
          = S (String.length s1 + String.length s2)).
  rewrite IH. reflexivity.
Qed.

Lemma substring_prefix (pre rest : string) :
  String.substring 0 (String.length pre) (pre +:+ rest) = pre.
Proof.
  induction pre as [|c pre IH]; cbn [String.length].
  - destruct (EmptyString +:+ rest); reflexivity.
  - change (String c pre +:+ rest) with (String c (pre +:+ rest)).
    cbn [String.substring]. rewrite IH. reflexivity.
Qed.

Lemma advance_text (s : Lexer.t) (c : ascii) (rest : string) :
  Lexer.text s = String c rest -> Lexer.text (Lexer.advance s) = rest.
Proof.
  intros H. unfold Lexer.advance. rewrite H.
  destruct (Ascii.eqb c nl); reflexivity.
Qed.

(** The loops [while self.current_char() and ...: self.advance()] read
    a prefix of the text, all of whose characters pass the test. *)
Lemma while_advance_span (p : ascii -> bool) (fuel : nat) :
  forall s,
    exists pre,
      Lexer.text s
      = pre +:+ Lexer.text (while fuel (Lexer.current_is p) Lexer.advance s)
      /\ str_forall p pre = true.
Proof.
  induction fuel as [|fuel IH]; intros s; cbn [while].
  - exists "". split; reflexivity.
  - destruct (Lexer.current_is p s) eqn:E;
      [|exists ""; split; reflexivity].
    unfold Lexer.current_is, Lexer.current_char in E.
    destruct (Lexer.text s) as [|c rest] eqn:Et; [discriminate|].
    cbn in E. destruct (IH (Lexer.advance s)) as (pre & Hpre & Hall).
    rewrite (advance_text s c rest Et) in Hpre.
    exists (String c pre). split.
    + change (String c pre +:+ ?x) with (String c (pre +:+ x)).
      rewrite <- Hpre. reflexivity.
    + cbn. rewrite E, Hall. reflexivity.
Qed.

Lemma slice_span (s s1 : Lexer.t) (pre : string) :
  Lexer.text s = pre +:+ Lexer.text s1 -> Lexer.slice s s1 = pre.
Proof.
  intros H. unfold Lexer.slice, Lexer.remaining. rewrite H, length_append.
  replace (String.length pre + String.length (Lexer.text s1)
           - String.length (Lexer.text s1))%nat
    with (String.length pre) by lia.
  apply substring_prefix.
Qed.

(** The loop of [read_string] on a body with no backslash and no quote
    character. *)
Lemma read_string_loop (q : ascii) (rest : string) :
  (rest = "" \/ exists r, rest = String q r) ->
  forall body s v fuel,
    Lexer.text s = body +:+ rest ->
    str_contains q body = false ->
    str_contains backslash body = false ->
    (String.length body <= fuel)%nat ->
    exists s',
      while fuel
        (fun sv => Lexer.current_is (fun c => negb (Ascii.eqb c q)) (fst sv))
        (Lexer.read_string_body q) (s, v)
      = (s', v +:+ body)
      /\ Lexer.text s' = rest.
Proof.
  intros Hrest.
  induction body as [|c body IH]; intros s v fuel Ht Hq Hb Hfuel.
  - exists s. rewrite append_empty_r.
    change (EmptyString +:+ rest) with rest in Ht. split; [|exact Ht].
    assert (Hc : Lexer.current_is (fun c => negb (Ascii.eqb c q)) s = false).
    { unfold Lexer.current_is, Lexer.current_char. rewrite Ht.
      destruct Hrest as [-> | [r ->]]; cbn; [reflexivity|].
      rewrite Ascii.eqb_refl. reflexivity. }
    destruct fuel; cbn [while fst]; [reflexivity|]. rewrite Hc. reflexivity.
  - change (String c body +:+ rest) with (String c (body +:+ rest)) in Ht.
    cbn [str_contains] in Hq, Hb. apply orb_false_iff in Hq, Hb.
    destruct Hq as [Hq1 Hq2], Hb as [Hb1 Hb2].
    destruct fuel as [|fuel]; [cbn in Hfuel; lia|].
    cbn [while fst].
    assert (Hcur : Lexer.current_char s = Some c)
      by (unfold Lexer.current_char; rewrite Ht; reflexivity).
    unfold Lexer.current_is at 1. rewrite Hcur.
    rewrite (Ascii.eqb_sym c q), Hq1. cbn [negb].
    unfold Lexer.read_string_body at 2. rewrite Hcur.
    rewrite (Ascii.eqb_sym c backslash), Hb1.
    destruct (IH (Lexer.advance s) (v +:+ str1 c) fuel) as (s' & Hw & Ht');
      [apply (advance_text s c _ Ht)|exact Hq2|exact Hb2
      |cbn in Hfuel; lia|].
    exists s'. split; [|exact Ht'].
    rewrite Hw. f_equal. apply append_assoc.
Qed.

End Lexemes.

(** X17. The lexeme of a name or of a number is the longest run of
    its characters at the head of the unread text: [read_identifier] and
    [read_number] split the text into the lexeme, all of whose
    characters pass the test of the loop, and the text left unread, whose
    first character does not; a name is a keyword token exactly when
    the table of keywords has it. *)
Theorem lexeme_is_longest_run :
  forall s,
    (Lexer.text s
     = value (snd (Lexer.read_identifier s))
       +:+ Lexer.text (fst (Lexer.read_identifier s))
     /\ str_forall (fun c => isalnum c || Ascii.eqb c "_")
          (value (snd (Lexer.read_identifier s))) = true
     /\ Lexer.current_is (fun c => isalnum c || Ascii.eqb c "_")
          (fst (Lexer.read_identifier s)) = false
     /\ type (snd (Lexer.read_identifier s))
        = default IDENTIFIER
            (keyword (value (snd (Lexer.read_identifier s)))))
    /\ (Lexer.text s
        = value (snd (Lexer.read_number s))
          +:+ Lexer.text (fst (Lexer.read_number s))
        /\ str_forall (fun c => isdigit c || Ascii.eqb c ".")
             (value (snd (Lexer.read_number s))) = true
        /\ Lexer.current_is (fun c => isdigit c || Ascii.eqb c ".")
             (fst (Lexer.read_number s)) = false).
Proof.
  intros s. split.
  - unfold Lexer.read_identifier. cbn [fst snd value type].
    destruct (while_advance_span (fun c => isalnum c || Ascii.eqb c "_")
                (Lexer.remaining s) s) as (pre & Hpre & Hall).
    rewrite (slice_span _ _ pre Hpre).
    split; [exact Hpre|]. split; [exact Hall|].
    split; [apply while_advance_exits|].
    destruct (keyword pre); reflexivity.
  - unfold Lexer.read_number. cbn [fst snd value].
    destruct (while_advance_span (fun c => isdigit c || Ascii.eqb c ".")
                (Lexer.remaining s) s) as (pre & Hpre & Hall).
    rewrite (slice_span _ _ pre Hpre).
    split; [exact Hpre|]. split; [exact Hall|apply while_advance_exits].
Qed.

(** X18. A string literal with no backslash: between the opening quote
    and the next quote of the same kind, the lexeme is the text as it
    stands and the lexer goes on after the closing quote. A literal that
    is never closed is taken to the end of the text, and nothing is
    raised. *)
Theorem read_string_lexeme :
  forall s q body closing,
    Lexer.text s
    = String q (body +:+ match closing with
                         | Some rest => String q rest
                         | None => ""
                         end) ->
    str_contains q body = false ->
    str_contains backslash body = false ->
    type (snd (Lexer.read_string s)) = STRING
    /\ value (snd (Lexer.read_string s)) = body
    /\ Lexer.text (fst (Lexer.read_string s)) = default "" closing.
Proof.
  intros s q body closing Ht Hq Hb.
  set (rest := match closing with Some r => String q r | None => "" end) in *.
  assert (Hrest : rest = "" \/ exists r, rest = String q r)
    by (subst rest; destruct closing; eauto).
  unfold Lexer.read_string.
  assert (Hcur : Lexer.current_char s = Some q)
    by (unfold Lexer.current_char; rewrite Ht; reflexivity).
  rewrite Hcur.
  pose proof (advance_text s q _ Ht) as Ht1.
  destruct (read_string_loop q rest Hrest body (Lexer.advance s) ""
              (Lexer.remaining (Lexer.advance s)) Ht1 Hq Hb)
    as (s2 & Hw & Ht2).
  { unfold Lexer.remaining. rewrite Ht1, length_append. lia. }
  rewrite Hw. change ("" +:+ body) with body.
  assert (Hs3 : Lexer.text
                  (if Lexer.current_is (Ascii.eqb q) s2
                   then Lexer.advance s2 else s2)
                = default "" closing).
  { unfold Lexer.current_is, Lexer.current_char. rewrite Ht2. subst rest.
    destruct closing as [r|]; cbn.
    - rewrite Ascii.eqb_refl. apply (advance_text s2 q r Ht2).
    - exact Ht2. }
  cbn [fst snd type value]. split; [reflexivity|]. split; [reflexivity|].
  exact Hs3.
Qed.

(** The literal ['ab'] followed by a closing parenthesis. *)
Lemma read_string_lexeme_witness :
  Lexer.text (Lexer.init "'ab')")
  = String "'" ("ab" +:+ match Some ")" with
                         | Some rest => String "'" rest
                         | None => ""
                         end)
  /\ str_contains "'" "ab" = false
  /\ str_contains backslash "ab" = false
  /\ value (snd (Lexer.read_string (Lexer.init "'ab')"))) = "ab".
Proof.
  assert (Ht : Lexer.text (Lexer.init "'ab')")
               = String "'" ("ab" +:+ match Some ")" with
                                      | Some rest => String "'" rest
                                      | None => ""
                                      end)) by reflexivity.
  assert (Hq : str_contains "'" "ab" = false) by reflexivity.
  assert (Hb : str_contains backslash "ab" = false) by reflexivity.
  split; [exact Ht|]. split; [exact Hq|]. split; [exact Hb|].
  destruct (read_string_lexeme (Lexer.init "'ab')") "'" "ab" (Some ")")
              Ht Hq Hb) as (_ & H & _).
  exact H.
Defined.

(** ** The places and the lexemes of the tokens *)

Section Places.

Lemma later_refl (s : Lexer.t) : later s s.
Proof. unfold later. auto. Qed.

Lemma later_trans (s1 s2 s3 : Lexer.t) :
  later s1 s2 -> later s2 s3 -> later s1 s3.
Proof.
  unfold later. intros (? & ? & ?) (? & ? & ?). repeat split; auto; lia.
Qed.

Lemma later_advance (s : Lexer.t) : later s (Lexer.advance s).
Proof.
  unfold later, Lexer.advance.
  destruct (Lexer.text s) as [|c rest] eqn:E.
  - cbn [Lexer.line Lexer.text Lexer.column]. repeat split; lia.
  - cbn [str_count]. rewrite (Ascii.eqb_sym nl c).
    destruct (Ascii.eqb c nl); cbn [Lexer.line Lexer.text Lexer.column];
      repeat split; lia.
Qed.

Lemma later_while_advance (fuel : nat) (cond : Lexer.t -> bool)
    (s : Lexer.t) :
  later s (while fuel cond Lexer.advance s).
Proof.
  apply (while_invariant (fun x => later s x)); [|apply later_refl].
  intros x Hx _. apply (later_trans _ _ _ Hx), later_advance.
Qed.

Lemma later_pop (s : Lexer.t) : later s (Lexer.pop s).
Proof. unfold later, Lexer.pop. cbn. auto. Qed.

Lemma later_push (w : nat) (s : Lexer.t) : later s (Lexer.push w s).
Proof. unfold later, Lexer.push. cbn. auto. Qed.

Lemma later_read_string (s : Lexer.t) :
  later s (fst (Lexer.read_string s))
  /\ type (snd (Lexer.read_string s)) = STRING
  /\ line (snd (Lexer.read_string s))
     = Lexer.line (fst (Lexer.read_string s))
  /\ column (snd (Lexer.read_string s)) = Lexer.column s.
Proof.
  unfold Lexer.read_string.
  destruct (Lexer.current_char s) as [quote_char|];
    [|cbn [fst snd]; repeat split; apply later_refl].
  set (body :=
         while (Lexer.remaining (Lexer.advance s))
           (fun sv =>
              Lexer.current_is
                (fun c => negb (Ascii.eqb c quote_char)) (fst sv))
           (Lexer.read_string_body quote_char) (Lexer.advance s, "")).
  assert (Hbody : later s (fst body)).
  { apply (while_invariant (fun sv : Lexer.t * string => later s (fst sv)));
      [|cbn [fst]; apply later_advance].
    intros [x v] Hx _. cbn [fst] in *. unfold Lexer.read_string_body.
    destruct (Lexer.current_char x) as [c|]; [|exact Hx].
    destruct (Ascii.eqb c backslash).
    - pose proof (later_trans _ _ _ Hx (later_advance x)) as H1.
      destruct (Lexer.current_char (Lexer.advance x)); cbn [fst];
        [|exact H1].
      apply (later_trans _ _ _ H1), later_advance.
    - cbn [fst]. apply (later_trans _ _ _ Hx), later_advance. }
  destruct body as [s2 v]. cbn [fst snd] in *.
  split; [|repeat split].
  destruct (Lexer.current_is _ s2); [|exact Hbody].
  apply (later_trans _ _ _ Hbody), later_advance.
Qed.

(** A loop entered at a character that passes its test reads that
    character and goes on as long as the test passes. *)
Lemma while_advance_first (first p : ascii -> bool) (s : Lexer.t)
    (c : ascii) :
  Lexer.current_char s = Some c ->
  first c = true -> p c = true ->
  starts_then first p
    (Lexer.slice s
       (while (Lexer.remaining s) (Lexer.current_is p) Lexer.advance s))
  = true.
Proof.
  intros Hc Hfirst Hp. unfold Lexer.current_char in Hc.
  destruct (Lexer.text s) as [|d rest] eqn:Et; [discriminate|].
  cbn in Hc. injection Hc as ->.
  assert (Hcur : Lexer.current_is p s = true).
  { unfold Lexer.current_is, Lexer.current_char. rewrite Et. exact Hp. }
  unfold Lexer.remaining at 1. rewrite Et. cbn [String.length while].
  rewrite Hcur.
  destruct (while_advance_span p (String.length rest) (Lexer.advance s))
    as (pre & Hpre & Hall).
  rewrite (advance_text s c rest Et) in Hpre.
  rewrite (slice_span s _ (String c pre)).
  - cbn [starts_then]. rewrite Hfirst, Hall. reflexivity.
  - rewrite Et. change (String c pre +:+ ?x) with (String c (pre +:+ x)).
    f_equal. exact Hpre.
Qed.

Lemma keyword_value (v : string) (k : TokenType) :
  keyword v = Some k -> lexeme_fits k v = true.
Proof.
  unfold keyword.
  repeat match goal with
         | |- context [if String.eqb v ?w then _ else _] =>
             destruct (String.eqb v w) eqn:?
         end;
    intros [= <-];
    match goal with
    | H : String.eqb v _ = true |- _ => exact H
    end.
Qed.

Lemma isalpha_isalnum (c : ascii) :
  (isalpha c || Ascii.eqb c "_") = true ->
  (isalnum c || Ascii.eqb c "_") = true.
Proof.
  unfold isalnum. intros H. apply orb_true_iff in H. apply orb_true_iff.
  destruct H as [H|H]; [left; rewrite H; reflexivity|right; exact H].
Qed.

Lemma lines_ascend_snoc (tokens : list Token) (t : Token) :
  lines_ascend tokens ->
  Forall (fun u => (line u <= line t)%nat) tokens ->
  lines_ascend (tokens ++ [t]).
Proof.
  intros Hasc Hall i j a b Hij Ha Hb.
  destruct (lt_dec j (List.length tokens)) as [Hj|Hj].
  - rewrite lookup_app_l in Ha, Hb by lia. apply (Hasc i j); assumption.
  - assert (j = List.length tokens).
    { apply lookup_lt_Some in Hb. rewrite length_app in Hb. cbn in Hb. lia. }
    subst j. rewrite list_lookup_middle in Hb by reflexivity.
    injection Hb as <-.
    destruct (lt_dec i (List.length tokens)) as [Hi|Hi].
    + rewrite lookup_app_l in Ha by lia. rewrite Forall_forall in Hall.
      apply Hall. apply (list_elem_of_lookup_2 _ i). exact Ha.
    + assert (i = List.length tokens) by lia. subst i.
      rewrite list_lookup_middle in Ha by reflexivity.
      injection Ha as <-. lia.
Qed.

Lemma stream_move (s0 s s' : Lexer.t) (tokens : list Token) :
  stream_ok s0 s tokens -> later s s' -> stream_ok s0 s' tokens.
Proof.
  intros (Hl & Hc & Hall & Hasc) Hs. pose proof Hs as (_ & Hle & Hcol).
  split; [apply (later_trans _ _ _ Hl Hs)|]. split; [auto|].
  split; [|exact Hasc].
  eapply Forall_impl; [exact Hall|]. intros t (? & ? & ?).
  repeat split; auto; lia.
Qed.

(** One more token, read between [s] and [s']. *)
Lemma stream_append (s0 s s' : Lexer.t) (tokens : list Token) (t : Token) :
  stream_ok s0 s tokens -> later s s' ->
  lexeme_ok t = true ->
  (Lexer.line s <= line t <= Lexer.line s')%nat ->
  ((1 <= Lexer.column s)%nat -> (1 <= column t)%nat) ->
  stream_ok s0 s' (tokens ++ [t]).
Proof.
  intros H Hs Hlex Hline Hcol.
  pose proof (stream_move _ _ _ _ H Hs) as (Hl' & Hc' & Hall' & Hasc').
  destruct H as (Hl & Hc & Hall & _). pose proof Hl as (_ & Hle & _).
  split; [exact Hl'|]. split; [exact Hc'|]. split.
  - apply Forall_app. split; [exact Hall'|].
    constructor; [|constructor]. repeat split; auto; lia.
  - apply lines_ascend_snoc; [exact Hasc'|].
    eapply Forall_impl; [exact Hall|]. intros u (_ & ? & _). lia.
Qed.

Lemma stream_pop (s0 s : Lexer.t) (tokens : list Token) :
  stream_ok s0 s tokens ->
  stream_ok s0 (Lexer.pop s) (tokens ++ [Lexer.dedent_token s]).
Proof.
  intros H. apply (stream_append s0 s); [exact H|apply later_pop|..].
  - reflexivity.
  - cbn. lia.
  - cbn. auto.
Qed.

Lemma dedent_all_stream (s0 s : Lexer.t) (tokens : list Token) :
  stream_ok s0 s tokens ->
  stream_ok s0 (fst (Lexer.dedent_all s tokens))
    (snd (Lexer.dedent_all s tokens)).
Proof.
  intros H. unfold Lexer.dedent_all.
  apply (while_invariant
           (fun st : Lexer.t * list Token =>
              stream_ok s0 (fst st) (snd st))); [|exact H].
  intros [x acc] Hx _. cbn [fst snd] in *. apply stream_pop. exact Hx.
Qed.

Lemma handle_indentation_stream (s0 s : Lexer.t) (tokens : list Token) :
  stream_ok s0 s tokens ->
  stream_ok s0 (fst (Lexer.handle_indentation s))
    (tokens ++ snd (Lexer.handle_indentation s)).
Proof.
  intros H. unfold Lexer.handle_indentation.
  set (measured :=
         while (Lexer.remaining s)
           (fun si => Lexer.current_is in_space_tab (fst si))
           (fun si =>
              (Lexer.advance (fst si),
               if Lexer.current_is (Ascii.eqb " ") (fst si)
               then (snd si + 1)%nat else (snd si + 4)%nat))
           (s, 0%nat)).
  assert (Hm : later s (fst measured)).
  { apply (while_invariant (fun si : Lexer.t * nat => later s (fst si)));
      [|apply later_refl].
    intros [x n] Hx _. cbn [fst] in *.
    apply (later_trans _ _ _ Hx), later_advance. }
  destruct measured as [s1 indent_level]. cbn [fst] in Hm.
  pose proof (stream_move _ _ _ _ H Hm) as H1.
  destruct (Lexer.current_char s1) as [c|];
    [|cbn [fst snd]; rewrite app_nil_r; exact H1].
  destruct (_ || _); [cbn [fst snd]; rewrite app_nil_r; exact H1|].
  destruct (_ <? _)%nat.
  - cbn [fst snd].
    apply (stream_append s0 s1); [exact H1|apply later_push|..].
    + reflexivity.
    + cbn. lia.
    + cbn. auto.
  - destruct (_ <? _)%nat;
      [|cbn [fst snd]; rewrite app_nil_r; exact H1].
    apply (while_invariant
             (fun st : Lexer.t * list Token =>
                stream_ok s0 (fst st) (tokens ++ snd st)));
      [|cbn [fst snd]; rewrite app_nil_r; exact H1].
    intros [x acc] Hx _. cbn [fst snd] in *. rewrite app_assoc.
    apply stream_pop. exact Hx.
Qed.

Lemma operator_stream (s0 s : Lexer.t) (tokens : list Token)
    (char second : ascii) (two : TokenType) (two_value : string)
    (one : TokenType) :
  lexeme_fits two two_value = true ->
  lexeme_fits one (str1 char) = true ->
  stream_ok s0 s tokens ->
  stream_ok s0
    (fst (Lexer.operator s tokens char second two two_value one))
    (snd (Lexer.operator s tokens char second two two_value one)).
Proof.
  intros Htwo Hone H. unfold Lexer.operator.
  pose proof (later_advance s) as H1.
  pose proof (later_trans _ _ _ H1 (later_advance (Lexer.advance s))) as H2.
  destruct (Lexer.peek_char s 1) as [c|]; [destruct (Ascii.eqb c second)|];
    cbn [fst snd];
    [apply (stream_append s0 s _ _ _ H H2)
    |apply (stream_append s0 s _ _ _ H H1)
    |apply (stream_append s0 s _ _ _ H H1)];
    try assumption; cbn [line column];
    try (intros _; destruct H as (_ & ? & _); assumption);
    [destruct H2 as (_ & ? & _)|destruct H1 as (_ & ? & _)
    |destruct H1 as (_ & ? & _)]; lia.
Qed.

Lemma token_map_value (char : ascii) (ty : TokenType) :
  Lexer.token_map char = Some ty -> lexeme_fits ty (str1 char) = true.
Proof.
  unfold Lexer.token_map.
  repeat match goal with
         | |- context [if Ascii.eqb char ?d then _ else _] =>
             destruct (Ascii.eqb char d) eqn:?
         end;
    intros [= <-];
    match goal with
    | H : Ascii.eqb char _ = true |- _ =>
        apply Ascii.eqb_eq in H; subst char; reflexivity
    end.
Qed.

Lemma scan_stream (s0 s : Lexer.t) (tokens : list Token) (char : ascii) :
  Lexer.current_char s = Some char ->
  stream_ok s0 s tokens ->
  stream_ok s0 (fst (Lexer.scan s tokens char))
    (snd (Lexer.scan s tokens char)).
Proof.
  intros Hc H. pose proof H as (_ & Hcol & _).
  unfold Lexer.scan.
  destruct (in_space_tab char).
  { cbn [fst snd]. apply (stream_move _ _ _ _ H), later_while_advance. }
  destruct (Ascii.eqb char "#").
  { cbn [fst snd]. apply (stream_move _ _ _ _ H), later_while_advance. }
  destruct (isdigit char) eqn:Ed.
  { unfold Lexer.read_number. cbn [fst snd].
    pose proof (later_while_advance (Lexer.remaining s)
                  (Lexer.current_is (fun c => isdigit c || Ascii.eqb c "."))
                  s) as Hl.
    apply (stream_append s0 s _ _ _ H Hl).
    - apply (while_advance_first _ _ s char Hc Ed). rewrite Ed. reflexivity.
    - cbn [line]. destruct Hl as (_ & ? & _). lia.
    - cbn [column]. auto. }
  destruct (_ || _).
  { destruct (later_read_string s) as (Hl & Hty & Hline & Hcolumn).
    destruct (Lexer.read_string s) as [s1 tok]. cbn [fst snd] in *.
    apply (stream_append s0 s _ _ _ H Hl).
    - unfold lexeme_ok. rewrite Hty. reflexivity.
    - rewrite Hline. destruct Hl as (_ & ? & _). lia.
    - rewrite Hcolumn. auto. }
  destruct (isalpha char || Ascii.eqb char "_") eqn:Ea.
  { unfold Lexer.read_identifier. cbn [fst snd].
    pose proof (later_while_advance (Lexer.remaining s)
                  (Lexer.current_is (fun c => isalnum c || Ascii.eqb c "_"))
                  s) as Hl.
    apply (stream_append s0 s _ _ _ H Hl).
    - unfold lexeme_ok. cbn [type value].
      destruct (keyword _) as [k|] eqn:Ek; [apply (keyword_value _ _ Ek)|].
      cbn [lexeme_fits]. rewrite Ek.
      rewrite (while_advance_first _ _ s char Hc Ea (isalpha_isalnum _ Ea)).
      reflexivity.
    - cbn [line]. destruct Hl as (_ & ? & _). lia.
    - cbn [column]. auto. }
  destruct (Ascii.eqb char "+") eqn:E1;
    [apply Ascii.eqb_eq in E1; subst char; apply operator_stream;
     [reflexivity..|exact H]|].
  destruct (Ascii.eqb char "-") eqn:E2;
    [apply Ascii.eqb_eq in E2; subst char; apply operator_stream;
     [reflexivity..|exact H]|].
  destruct (Ascii.eqb char "*") eqn:E3;
    [apply Ascii.eqb_eq in E3; subst char; apply operator_stream;
     [reflexivity..|exact H]|].
  destruct (Ascii.eqb char "=") eqn:E4;
    [apply Ascii.eqb_eq in E4; subst char; apply operator_stream;
     [reflexivity..|exact H]|].
  destruct (Ascii.eqb char "!").
  { pose proof (later_advance s) as H1.
    pose proof (later_trans _ _ _ H1 (later_advance (Lexer.advance s)))
      as H2.
    destruct (Lexer.peek_char s 1) as [c|]; [destruct (Ascii.eqb c "=")|];
      cbn [fst snd]; try exact H.
    apply (stream_append s0 s _ _ _ H H2).
    - reflexivity.
    - cbn [line]. destruct H2 as (_ & ? & _). lia.
    - cbn [column]. auto. }
  destruct (Ascii.eqb char "<") eqn:E5;
    [apply Ascii.eqb_eq in E5; subst char; apply operator_stream;
     [reflexivity..|exact H]|].
  destruct (Ascii.eqb char ">") eqn:E6;
    [apply Ascii.eqb_eq in E6; subst char; apply operator_stream;
     [reflexivity..|exact H]|].
  pose proof (later_advance s) as H1.
  destruct (Lexer.token_map char) as [ty|] eqn:E; cbn [fst snd];
    [|apply (stream_move _ _ _ _ H H1)].
  apply (stream_append s0 s _ _ _ H H1).
  - apply (token_map_value _ _ E).
  - cbn [line]. destruct H1 as (_ & ? & _). lia.
  - cbn [column]. auto.
Qed.

Lemma tokenize_body_stream (s0 s : Lexer.t) (at_line_start : bool)
    (tokens : list Token) (char : ascii) :
  Lexer.current_char s = Some char ->
  stream_ok s0 s tokens ->
  let r := Lexer.tokenize_body s at_line_start tokens char in
  stream_ok s0 (fst (fst r)) (snd r).
Proof.
  intros Hc H. unfold Lexer.tokenize_body.
  assert (Hnl : forall x acc,
    Ascii.eqb char nl = true ->
    stream_ok s0 x acc ->
    stream_ok s0 (Lexer.advance x) (acc ++ [Lexer.newline_token x char])).
  { intros x acc E Hx. apply Ascii.eqb_eq in E. subst char.
    pose proof (later_advance x) as H1.
    apply (stream_append s0 x _ _ _ Hx H1).
    - reflexivity.
    - cbn. destruct H1 as (_ & ? & _). lia.
    - cbn. auto. }
  destruct at_line_start.
  - destruct (in_space_tab char).
    + pose proof (handle_indentation_stream s0 s tokens H) as Hi.
      destruct (Lexer.handle_indentation s) as [s1 toks]. exact Hi.
    + pose proof (dedent_all_stream s0 s tokens H) as Hd.
      destruct (dedent_all_text s tokens) as [_ Hc1].
      destruct (Lexer.dedent_all s tokens) as [s1 tokens1].
      cbn [fst snd] in Hd, Hc1.
      destruct (Ascii.eqb char nl) eqn:E;
        [cbn [fst snd]; apply Hnl; [reflexivity|exact Hd]|].
      rewrite Hc in Hc1.
      pose proof (scan_stream s0 s1 tokens1 char Hc1 Hd) as Hs.
      destruct (Lexer.scan s1 tokens1 char) as [s2 tokens2]. exact Hs.
  - destruct (Ascii.eqb char nl) eqn:E;
      [cbn [fst snd]; apply Hnl; [reflexivity|exact H]|].
    pose proof (scan_stream s0 s tokens char Hc H) as Hs.
    destruct (Lexer.scan s tokens char) as [s2 tokens2]. exact Hs.
Qed.

(** The main loop stops at the end of the text. *)
Lemma tokenize_loop_stream (s0 : Lexer.t) (fuel : nat) :
  forall s at_line_start tokens s' tokens',
    stream_ok s0 s tokens ->
    Lexer.tokenize_loop fuel s at_line_start tokens = Some (s', tokens') ->
    stream_ok s0 s' tokens' /\ Lexer.text s' = "".
Proof.
  induction fuel as [|fuel IH]; intros s b tokens s' tokens' H;
    cbn [Lexer.tokenize_loop]; [discriminate|].
  destruct (Lexer.current_char s) as [char|] eqn:Ec.
  - pose proof (tokenize_body_stream s0 s b tokens char Ec H) as Hb.
    destruct (Lexer.tokenize_body s b tokens char) as [[s1 b1] tokens1].
    apply IH. exact Hb.
  - intros [= <- <-]. split; [exact H|].
    unfold Lexer.current_char in Ec.
    destruct (Lexer.text s); [reflexivity|discriminate].
Qed.

(** What [tokenize] returns, with the lexer at the end of the text. *)
Lemma tokenize_stream (fuel : nat) (source : string) (tokens : list Token) :
  Lexer.tokenize fuel source = Some tokens ->
  exists s body,
    tokens = body ++ [mkToken EOF "" (Lexer.line s) (Lexer.column s)]
    /\ stream_ok (Lexer.init source) s tokens
    /\ Lexer.text s = "".
Proof.
  unfold Lexer.tokenize.
  destruct (Lexer.tokenize_loop fuel _ _ _) as [[s toks]|] eqn:E;
    [|discriminate].
  assert (Hinit : stream_ok (Lexer.init source) (Lexer.init source) []).
  { split; [apply later_refl|]. split; [cbn; lia|].
    split; [constructor|]. intros i j t u _ Hi. discriminate. }
  destruct (tokenize_loop_stream _ _ _ _ _ _ _ Hinit E) as [Hs Ht].
  pose proof (dedent_all_stream _ s toks Hs) as Hd.
  destruct (dedent_all_text s toks) as [Ht1 _].
  destruct (Lexer.dedent_all s toks) as [s1 toks1]. cbn [fst snd] in *.
  intros [= <-]. exists s1, toks1. split; [reflexivity|].
  split; [|congruence].
  apply (stream_append _ s1); [exact Hd|apply later_refl|..].
  - reflexivity.
  - cbn. lia.
  - cbn. auto.
Qed.

End Places.

(** X19. The tokens come in the order of the text: along the list that
    [tokenize] returns the lines never go down, every token is at a line
    between 1 and one more than the number of line breaks of the text and
    at a column from 1 on, and the EOF token is at the last line. *)
Theorem tokens_in_text_order :
  forall fuel source tokens,
    Lexer.tokenize fuel source = Some tokens ->
    lines_ascend tokens
    /\ Forall (fun t => (1 <= line t <= 1 + str_count nl source)%nat
                        /\ (1 <= column t)%nat) tokens
    /\ exists body eof,
         tokens = body ++ [eof]
         /\ type eof = EOF
         /\ line eof = (1 + str_count nl source)%nat.
Proof.
  intros fuel source tokens Hlex.
  destruct (tokenize_stream fuel source tokens Hlex)
    as (s & body & Htok & (Hl & _ & Hall & Hasc) & Ht).
  destruct Hl as (Hsum & _ & _). rewrite Ht in Hsum.
  cbn [Lexer.init Lexer.line Lexer.text str_count] in Hsum.
  split; [exact Hasc|]. split.
  - eapply Forall_impl; [exact Hall|]. intros t (_ & Hline & Hcol).
    cbn [Lexer.init Lexer.line] in Hline. split; [lia|exact Hcol].
  - exists body, (mkToken EOF "" (Lexer.line s) (Lexer.column s)).
    split; [exact Htok|]. split; [reflexivity|]. cbn [line]. lia.
Qed.

(** The text of the if, elif and else scenario. *)
Lemma tokens_in_text_order_witness :
  Lexer.tokenize 100 src_elif = Some elif_tokens
  /\ lines_ascend elif_tokens.
Proof.
  assert (Hlex : Lexer.tokenize 100 src_elif = Some elif_tokens)
    by (vm_compute; reflexivity).
  split; [exact Hlex|].
  destruct (tokens_in_text_order 100 src_elif elif_tokens Hlex) as [H _].
  exact H.
Defined.

(** X20. Every token holds a lexeme of its type: a NUMBER begins with a
    digit and goes on with digits and dots; an IDENTIFIER begins with a
    letter or an underscore, goes on with letters, digits and underscores
    and is no keyword; a keyword, an operator or a delimiter holds the
    value of its member of [TokenType]; a NEWLINE holds the line break,
    and INDENT, DEDENT and EOF hold the empty text. *)
Theorem tokens_hold_their_lexemes :
  forall fuel source tokens,
    Lexer.tokenize fuel source = Some tokens ->
    Forall (fun t => lexeme_ok t = true) tokens.
Proof.
  intros fuel source tokens Hlex.
  destruct (tokenize_stream fuel source tokens Hlex)
    as (s & body & _ & (_ & _ & Hall & _) & _).
  eapply Forall_impl; [exact Hall|]. intros t (H & _). exact H.
Qed.

(** The text of the if, elif and else scenario. *)
Lemma tokens_hold_their_lexemes_witness :
  Lexer.tokenize 100 src_elif = Some elif_tokens
  /\ Forall (fun t => lexeme_ok t = true) elif_tokens.
Proof.
  assert (Hlex : Lexer.tokenize 100 src_elif = Some elif_tokens)
    by (vm_compute; reflexivity).
  split; [exact Hlex|].
  exact (tokens_hold_their_lexemes 100 src_elif elif_tokens Hlex).
Defined.

(** ** The NUMBER tokens at the parser *)

Section NumberTokens.

Lemma str_count_none (c : ascii) (v : string) :
  str_contains c v = false -> str_count c v = 0%nat.
Proof.
  induction v as [|d v IH]; cbn [str_contains str_count]; [reflexivity|].
  intros H. apply orb_false_iff in H. destruct H as [Hd Hv].
  rewrite Hd, (IH Hv). reflexivity.
Qed.

Lemma no_dot_forall (p : ascii -> bool) (v : string) :
  str_contains "." v = false ->
  str_forall (fun c => p c || Ascii.eqb c ".") v = str_forall p v.
Proof.
  induction v as [|d v IH]; cbn [str_contains str_forall]; [reflexivity|].
  intros H. apply orb_false_iff in H. destruct H as [Hd Hv].
  rewrite (IH Hv), (Ascii.eqb_sym d "."), Hd, orb_false_r. reflexivity.
Qed.

(** [float()] and [int()] on a lexeme that begins with a digit. *)
Lemma number_lexeme_converts (v : string) (p : Parser.t) :
  lexeme_fits NUMBER v = true ->
  (exists x, Parser.number_literal v p = Parser.Ret x p)
  <-> (str_count "." v <= 1)%nat
      /\ str_forall (fun c => isdecimal c || Ascii.eqb c ".") v = true
      /\ (str_contains "." v = false ->
          (Z.of_nat (String.length v) <= int_max_str_digits)%Z).
Proof.
  cbn [lexeme_fits]. unfold starts_then.
  destruct v as [|c rest]; [discriminate|]. intros Hfit.
  apply andb_true_iff in Hfit. destruct Hfit as [Hc _].
  assert (Hdot : Ascii.eqb "." c = false).
  { destruct (Ascii.eqb "." c) eqn:E; [|reflexivity].
    apply Ascii.eqb_eq in E. subst c. discriminate. }
  unfold Parser.number_literal.
  destruct (str_contains "." (String c rest)) eqn:Ed.
  - unfold float_of_lexeme.
    replace (str_forall (Ascii.eqb ".") (String c rest)) with false
      by (cbn [str_forall]; rewrite Hdot; reflexivity).
    rewrite andb_true_r.
    destruct (str_forall _ (String c rest)) eqn:Ea; cbn [andb].
    + destruct (str_count "." (String c rest) <=? 1)%nat eqn:Eb.
      * apply Nat.leb_le in Eb. unfold Parser.ret.
        split; [|eauto].
        intros _. split; [exact Eb|]. split; [reflexivity|discriminate].
      * apply Nat.leb_gt in Eb. unfold Parser.raise.
        split; [intros [x Hx]; discriminate|intros [? _]; lia].
    + unfold Parser.raise.
      split; [intros [x Hx]; discriminate|intros (_ & ? & _); discriminate].
  - unfold int_of_lexeme.
    rewrite (no_dot_forall isdecimal _ Ed), (str_count_none _ _ Ed).
    change (String.eqb (String c rest) "") with false. cbn [negb].
    rewrite andb_true_r.
    destruct (str_forall isdecimal (String c rest)); cbn [andb].
    + destruct (Z.of_nat (String.length (String c rest))
                <=? int_max_str_digits)%Z eqn:El.
      * apply Z.leb_le in El. unfold Parser.ret.
        split; [|eauto].
        intros _. split; [lia|]. split; [reflexivity|intros _; exact El].
      * apply Z.leb_gt in El. unfold Parser.raise.
        split; [intros [x Hx]; discriminate|].
        intros (_ & _ & Hlen). specialize (Hlen eq_refl). lia.
    + unfold Parser.raise.
      split; [intros [x Hx]; discriminate|intros (_ & ? & _); discriminate].
Qed.

End NumberTokens.

(** X21. The lexeme of a NUMBER token of the stream is not empty. The
    parser converts it, with [float()] when it holds a dot and with
    [int()] when it holds none, exactly when it has at most one dot,
    each of its digits is a decimal digit in the sense of
    [str.isdecimal], which the superscript digits that [read_number]
    also takes are not, and a lexeme without a dot has no more digits
    than [int()] converts: then [parse_primary_expression] gets its
    literal, and otherwise a [ValueError] is raised. *)
Theorem number_tokens_convert :
  forall fuel source tokens t p,
    Lexer.tokenize fuel source = Some tokens ->
    In t tokens -> type t = NUMBER ->
    value t <> ""
    /\ ((exists x, Parser.number_literal (value t) p = Parser.Ret x p)
        <-> (str_count "." (value t) <= 1)%nat
            /\ str_forall (fun c => isdecimal c || Ascii.eqb c ".")
                 (value t) = true
            /\ (str_contains "." (value t) = false ->
                (Z.of_nat (String.length (value t))
                 <= int_max_str_digits)%Z))
    /\ ((exists msg,
           Parser.number_literal (value t) p
           = Parser.Raise (Parser.ValueError msg))
        \/ exists x, Parser.number_literal (value t) p = Parser.Ret x p).
Proof.
  intros fuel source tokens t p Hlex Hin Hty.
  destruct (tokenize_stream fuel source tokens Hlex)
    as (s & body & _ & (_ & _ & Hall & _) & _).
  rewrite Forall_forall in Hall.
  destruct (Hall t (proj2 (list_elem_of_In _ _) Hin)) as (Hok & _).
  unfold lexeme_ok in Hok. rewrite Hty in Hok.
  split; [|split].
  - intros E. rewrite E in Hok. discriminate.
  - apply number_lexeme_converts. exact Hok.
  - unfold Parser.number_literal.
    destruct (str_contains "." (value t)).
    + destruct (float_of_lexeme (value t)); [right|left]; eexists;
        reflexivity.
    + destruct (int_of_lexeme (value t)); [right|left]; eexists;
        reflexivity.
Qed.

(** The number of [def f(): return 1]. *)
Lemma number_tokens_convert_witness :
  Lexer.tokenize 100 src_def = Some (default [] (Lexer.tokenize 100 src_def))
  /\ In (mkToken NUMBER "1" 2 12) (default [] (Lexer.tokenize 100 src_def))
  /\ value (mkToken NUMBER "1" 2 12) <> "".
Proof.
  assert (Hlex : Lexer.tokenize 100 src_def
                 = Some (default [] (Lexer.tokenize 100 src_def)))
    by (vm_compute; reflexivity).
  assert (Hin : In (mkToken NUMBER "1" 2 12)
                  (default [] (Lexer.tokenize 100 src_def)))
    by (vm_compute; tauto).
  split; [exact Hlex|]. split; [exact Hin|].
  destruct (number_tokens_convert 100 src_def _ (mkToken NUMBER "1" 2 12)
              (Parser.mk [] 0) Hlex Hin eq_refl) as [H _].
  exact H.
Defined.

(** ** The parser comes to an end on every stream *)

Section ParserSettles.

Lemma moves_refl (p : Parser.t) : moves p p.
Proof. split; [reflexivity|lia]. Qed.

Lemma moves_trans (p1 p2 p3 : Parser.t) :
  moves p1 p2 -> moves p2 p3 -> moves p1 p3.
Proof. intros (Ht1 & Hp1) (Ht2 & Hp2). split; [congruence|lia]. Qed.

Lemma inside_current (p : Parser.t) :
  inside p ->
  Parser.tokens p !! Parser.pos p = Some (Parser.current_token p).
Proof.
  intros (_ & Hlt).
  destruct (lookup_lt_is_Some_2 _ _ Hlt) as [t Ht].
  unfold Parser.current_token.
  rewrite (nth_lookup_Some _ _ (Parser.last_token p) _ Ht). exact Ht.
Qed.

Lemma inside_eof (p : Parser.t) :
  inside p ->
  type (Parser.current_token p) = EOF
  <-> S (Parser.pos p) = List.length (Parser.tokens p).
Proof.
  intros Hwf. pose proof (inside_current p Hwf) as Hcur.
  destruct Hwf as ((body & eof & Htoks & Heof & Hbody) & Hlt).
  rewrite Htoks in *. rewrite length_app in *. cbn [List.length] in *.
  destruct (Nat.lt_ge_cases (Parser.pos p) (List.length body)) as [Hin|Hout].
  - rewrite lookup_app_l in Hcur by exact Hin.
    rewrite Forall_forall in Hbody.
    split; [|lia]. intros Hty. exfalso.
    apply (Hbody (Parser.current_token p)); [|exact Hty].
    eapply list_elem_of_lookup_2. exact Hcur.
  - assert (Hpos : Parser.pos p = List.length body) by lia.
    rewrite Hpos, list_lookup_middle in Hcur by reflexivity.
    injection Hcur as <-. split; [lia|intros _; exact Heof].
Qed.

(** [advance] at a token that is not the EOF moves the cursor. *)
Lemma advance_settles (short : Prop) (ty : TokenType) (p : Parser.t) :
  inside p -> type (Parser.current_token p) = ty -> ty <> EOF ->
  settles short true p (Parser.advance p).
Proof.
  intros Hwf Hty Hne. pose proof (inside_eof p Hwf) as Heof.
  destruct Hwf as (Hend & Hlt). unfold Parser.advance.
  destruct (_ <? _)%nat eqn:E.
  - apply Nat.ltb_lt in E. cbn [settles Parser.pos Parser.tokens].
    split; [|split].
    + split; [reflexivity|]. cbn [Parser.pos Parser.tokens]. lia.
    + split; cbn [Parser.pos Parser.tokens]; [exact Hend|lia].
    + intros _. lia.
  - apply Nat.ltb_ge in E. exfalso. apply Hne. rewrite <- Hty.
    apply Heof. lia.
Qed.

(** [advance] at the EOF stays where it is. *)
Lemma advance_settles_any (short : Prop) (p : Parser.t) :
  inside p -> settles short false p (Parser.advance p).
Proof.
  intros Hwf.
  destruct (decide (type (Parser.current_token p) = EOF)) as [Hty|Hne].
  - unfold Parser.advance. apply (inside_eof p Hwf) in Hty.
    destruct (_ <? _)%nat eqn:E; [apply Nat.ltb_lt in E; lia|].
    cbn [settles]. split; [apply moves_refl|].
    split; [exact Hwf|done].
  - pose proof (advance_settles short _ p Hwf eq_refl Hne) as H.
    destruct (Parser.advance p); cbn [settles] in *; [|exact H..].
    destruct H as (? & ? & _). split; [assumption|split; [assumption|done]].
Qed.

(** One step of a run: the outcome of [m], then the rest. *)
Lemma settles_bind {A B : Type} (m : Parser.M A) (k : A -> Parser.M B)
    (p0 pc : Parser.t) (short shortm : Prop) (s sm : bool) :
  moves p0 pc ->
  settles shortm sm pc (m pc) ->
  (shortm -> short) ->
  (forall a p',
     moves p0 p' -> inside p' ->
     (Parser.pos pc <= Parser.pos p')%nat ->
     (sm = true -> (Parser.pos pc < Parser.pos p')%nat) ->
     settles short s p0 (k a p')) ->
  settles short s p0 (Parser.bind m k pc).
Proof.
  intros Hc Hm Hshort Hk. unfold Parser.bind.
  destruct (m pc) as [a p'|e|]; cbn [settles] in *.
  - destruct Hm as (Hc' & Hwf' & Hs).
    apply Hk; [eapply moves_trans; eassumption|exact Hwf'| |exact Hs].
    destruct Hc' as (_ & Hle). exact Hle.
  - exact I.
  - apply Hshort, Hm.
Qed.

(** The last call of a run. *)
Lemma settles_tail {A : Type} (r : Parser.outcome A) (p0 pc : Parser.t)
    (short shortm : Prop) (s sm : bool) :
  moves p0 pc ->
  settles shortm sm pc r ->
  (shortm -> short) ->
  (s = true -> sm = true \/ (Parser.pos p0 < Parser.pos pc)%nat) ->
  settles short s p0 r.
Proof.
  intros Hc Hm Hshort Hstrict.
  destruct r as [a p'|e|]; cbn [settles] in *.
  - destruct Hm as (Hc' & Hwf' & Hs).
    split; [eapply moves_trans; eassumption|]. split; [exact Hwf'|].
    intros Hst. destruct Hc' as (_ & Hle).
    destruct Hc as (_ & Hle0).
    destruct (Hstrict Hst) as [Hsm|Hlt]; [specialize (Hs Hsm)|]; lia.
  - exact I.
  - apply Hshort, Hm.
Qed.

Lemma settles_ret {A : Type} (a : A) (p0 pc : Parser.t) (short : Prop)
    (s : bool) :
  moves p0 pc -> inside pc ->
  (s = true -> (Parser.pos p0 < Parser.pos pc)%nat) ->
  settles short s p0 (Parser.ret a pc).
Proof. intros. cbn [settles Parser.ret]. auto. Qed.

Lemma settles_raise {A : Type} (e : Parser.exn) (p0 pc : Parser.t)
    (short : Prop) (s : bool) :
  settles (A := A) short s p0 (Parser.raise e pc).
Proof. exact I. Qed.

(** The facts of arithmetic that the hypotheses on the states hold. *)
Ltac cursor_facts :=
  repeat match goal with
         | H : moves ?a ?b |- _ =>
             lazymatch goal with
             | _ : List.length (Parser.tokens b) = List.length (Parser.tokens a)
               |- _ => fail
             | _ =>
                 assert (List.length (Parser.tokens b)
                         = List.length (Parser.tokens a))
                   by (f_equal; exact (proj1 H));
                 pose proof (proj2 H)
             end
         | H : inside ?a |- _ =>
             lazymatch goal with
             | _ : (Parser.pos a < List.length (Parser.tokens a))%nat |- _ =>
                 fail
             | _ => pose proof (proj2 H)
             end
         | H : true = true -> _ |- _ => specialize (H eq_refl)
         | H : false = true -> _ |- _ => clear H
         end.

Ltac cursor_lia := intros; cursor_facts; lia.

Lemma consume_settles (short : Prop) (ty : TokenType) :
  ty <> EOF ->
  forall p, inside p -> settles short true p (Parser.consume ty p).
Proof.
  intros Hne p Hwf. unfold Parser.consume.
  rewrite bind_match. cbv beta.
  destruct (TokenType_eqb _ ty) eqn:E.
  - apply TokenType_eqb_eq in E. rewrite bind_current. cbv beta.
    eapply (settles_bind _ _ p p); [apply moves_refl| | |].
    + apply (advance_settles short ty p Hwf E Hne).
    + trivial.
    + intros a p' Hc Hwf' Hle Hlt. apply settles_ret; auto.
  - rewrite bind_current. cbv beta. apply settles_raise.
Qed.

Lemma advance_if_settles (short : Prop) (ty : TokenType) :
  forall p, inside p -> settles short false p (Parser.advance_if ty p).
Proof.
  intros p Hwf. unfold Parser.advance_if.
  rewrite bind_match. cbv beta.
  destruct (TokenType_eqb _ ty) eqn:E.
  - apply (advance_settles_any short p Hwf).
  - apply settles_ret; [apply moves_refl|exact Hwf|done].
Qed.

Lemma skip_newlines_settles (g : nat) :
  forall p, inside p ->
    settles (g + Parser.pos p < List.length (Parser.tokens p) + 1)%nat false p
      (Parser.skip_newlines g p).
Proof.
  induction g as [|g IH]; intros p Hwf; cbn [Parser.skip_newlines].
  - cbn [settles Parser.out_of_fuel]. cursor_lia.
  - rewrite bind_match. cbv beta.
    destruct (TokenType_eqb _ NEWLINE) eqn:E.
    + apply TokenType_eqb_eq in E.
      eapply (settles_bind _ _ p p); [apply moves_refl| | |].
      * apply (advance_settles False NEWLINE p Hwf E). discriminate.
      * intros [].
      * intros a p' Hc Hwf' Hle Hlt.
        eapply settles_tail; [exact Hc|apply IH; exact Hwf'| |done].
        cursor_lia.
    + apply settles_ret; [apply moves_refl|exact Hwf|done].
Qed.

Lemma number_literal_settles (short : Prop) (v : string)
    (p0 pc : Parser.t) :
  moves p0 pc -> inside pc ->
  (Parser.pos p0 < Parser.pos pc)%nat ->
  settles short true p0 (Parser.number_literal v pc).
Proof.
  intros Hc Hwf Hlt. unfold Parser.number_literal.
  destruct (str_contains "." v).
  - destruct (float_of_lexeme v); [apply settles_ret; auto|exact I].
  - destruct (int_of_lexeme v); [apply settles_ret; auto|exact I].
Qed.

(** The steps of a run: reduce reads of the cursor, split on the kind of
    the current token, and use what is known of the call at the head. *)
Ltac find_settles :=
  first
    [ match goal with
      | H : _ |- _ => eapply H; assumption
      end
    | eapply (consume_settles False); [discriminate|assumption]
    | eapply (advance_if_settles False); assumption
    | eapply skip_newlines_settles; assumption
    | match goal with
      | E : type (Parser.current_token ?pc) = ?ty
        |- settles _ _ ?pc (Parser.advance ?pc) =>
          eapply (advance_settles False ty pc);
          [assumption|exact E|discriminate]
      end
    | match goal with
      | Hne : type (Parser.current_token ?pc) <> EOF
        |- settles _ _ ?pc (Parser.advance ?pc) =>
          eapply (advance_settles False _ pc);
          [assumption|reflexivity|exact Hne]
      end ].

Ltac go_leaf :=
  first
    [ apply settles_raise
    | exact I
    | apply settles_ret; [assumption|assumption|cursor_lia]
    | match goal with
      | |- settles _ _ _ (Parser.out_of_fuel _) =>
          cbn [settles Parser.out_of_fuel]; cursor_lia
      end ].

Ltac go_step :=
  match goal with
  | |- settles _ _ _ (Parser.bind Parser.current _ _) =>
      rewrite bind_current; cbv beta
  | |- settles _ _ _ (Parser.bind (Parser.peek _) _ _) =>
      rewrite bind_peek; cbv beta
  | |- settles _ _ _ (Parser.bind (Parser.match_ _) _ _) =>
      rewrite bind_match; cbv beta
  | |- settles _ _ ?p0 (Parser.bind ?m _ ?pc) =>
      eapply (settles_bind m _ p0 pc);
      [eassumption|find_settles|cursor_lia|
       let a := fresh "a" in let p' := fresh "p" in
       intros a p' ? ? ? ?; cbv beta]
  end.

Ltac go_tail :=
  match goal with
  | |- settles _ _ ?p0 (_ ?pc) =>
      eapply (settles_tail _ p0 pc);
      [eassumption|find_settles|cursor_lia|
       first [ done
             | intros _; first [left; reflexivity|right; cursor_lia] ]]
  end.

Ltac token_kinds H :=
  lazymatch type of H with
  | In _ [] => destruct H
  | In _ (_ :: _) =>
      let E := fresh "E" in
      destruct H as [E|H]; [symmetry in E|token_kinds H]
  end.

Ltac go_split :=
  lazymatch goal with
  | |- settles _ _ _ (Parser.if_match _ _ _ ?pc) =>
      let E := fresh "E" in
      let o := fresh "o" in
      let Hin := fresh "Hin" in
      let Ho := fresh "Ho" in
      unfold Parser.if_match at 1;
      destruct (existsb (TokenType_eqb (type (Parser.current_token pc))) _)
        eqn:E;
      [apply existsb_exists in E; destruct E as (o & Hin & Ho);
       apply TokenType_eqb_eq in Ho; rewrite <- Ho in Hin; clear o Ho;
       token_kinds Hin
      |clear E]
  | |- settles _ _ _ (if ?b then _ else _) =>
      let E := fresh "E" in destruct b eqn:E
  | |- settles _ _ _ (match ?e with _ => _ end _) =>
      destruct e
  end.

Ltac go_number :=
  match goal with
  | |- settles _ _ _
         (Parser.number_literal (value (Parser.current_token ?pc)) _) =>
      apply number_literal_settles; [assumption|assumption|cursor_lia]
  end.

Ltac go :=
  repeat first [go_leaf | go_number | go_step | go_split];
  try go_tail.

Ltac go_start p :=
  let Hwf := fresh "Hwf" in
  intros p Hwf; pose proof (moves_refl p).

(** *** Expressions *)

Section ExpressionSettles.

Variable pe : Parser.M Expression.
Variable fe : nat.

Hypothesis Hse : forall p, inside p ->
  settles (fe + Parser.pos p < List.length (Parser.tokens p) + 4)%nat true p
    (pe p).

Lemma parse_items_settles (g : nat) (close : TokenType) :
  forall items p, inside p ->
    settles (g + Parser.pos p < List.length (Parser.tokens p) + 1
           \/ fe + Parser.pos p < List.length (Parser.tokens p) + 4)%nat
      false p (Parser.parse_items pe g close items p).
Proof.
  induction g as [|g IH]; intros items; go_start p;
    cbn [Parser.parse_items]; go.
Qed.

Lemma parse_pairs_settles (g : nat) :
  forall pairs p, inside p ->
    settles (g + Parser.pos p < List.length (Parser.tokens p) + 1
           \/ fe + Parser.pos p < List.length (Parser.tokens p) + 4)%nat
      false p (Parser.parse_pairs pe g pairs p).
Proof.
  induction g as [|g IH]; intros pairs; go_start p;
    cbn [Parser.parse_pairs]; go.
Qed.

Lemma parse_list_literal_settles (g : nat) :
  forall p, inside p ->
    settles (g + Parser.pos p < List.length (Parser.tokens p) + 1
           \/ fe + Parser.pos p + 1 < List.length (Parser.tokens p) + 4)%nat
      true p (Parser.parse_list_literal pe g p).
Proof.
  pose proof (parse_items_settles g RBRACKET []) as Hitems.
  go_start p. unfold Parser.parse_list_literal. go.
Qed.

Lemma parse_dict_literal_settles (g : nat) :
  forall p, inside p ->
    settles (g + Parser.pos p < List.length (Parser.tokens p) + 1
           \/ fe + Parser.pos p + 1 < List.length (Parser.tokens p) + 4)%nat
      true p (Parser.parse_dict_literal pe g p).
Proof.
  pose proof (parse_pairs_settles g []) as Hpairs.
  go_start p. unfold Parser.parse_dict_literal. go.
Qed.

Lemma parse_primary_expression_settles (g : nat) :
  forall p, inside p ->
    settles (g + Parser.pos p < List.length (Parser.tokens p) + 1
           \/ fe + Parser.pos p + 1 < List.length (Parser.tokens p) + 4)%nat
      true p (Parser.parse_primary_expression pe g p).
Proof.
  pose proof (parse_list_literal_settles g) as Hlist.
  pose proof (parse_dict_literal_settles g) as Hdict.
  go_start p. unfold Parser.parse_primary_expression. go.
Qed.

Lemma parse_postfix_loop_settles (g : nat) :
  forall expr p, inside p ->
    settles (g + Parser.pos p < List.length (Parser.tokens p) + 1
           \/ fe + Parser.pos p + 1 < List.length (Parser.tokens p) + 4)%nat
      false p (Parser.parse_postfix_loop pe g expr p).
Proof.
  induction g as [|g IH]; intros expr; go_start p;
    cbn [Parser.parse_postfix_loop]; [go|].
  pose proof (parse_items_settles g RPAREN []) as Hitems.
  go.
Qed.

Lemma parse_postfix_expression_settles (g : nat) :
  forall p, inside p ->
    settles (g + Parser.pos p < List.length (Parser.tokens p) + 1
           \/ fe + Parser.pos p + 1 < List.length (Parser.tokens p) + 4)%nat
      true p (Parser.parse_postfix_expression pe g p).
Proof.
  pose proof (parse_primary_expression_settles g) as Hprimary.
  pose proof (parse_postfix_loop_settles g) as Hloop.
  go_start p. unfold Parser.parse_postfix_expression. go.
Qed.

Lemma parse_unary_expression_settles (g : nat) :
  forall p, inside p ->
    settles (g + Parser.pos p < List.length (Parser.tokens p) + 2
           \/ fe + Parser.pos p + 1 < List.length (Parser.tokens p) + 4)%nat
      true p (Parser.parse_unary_expression pe g p).
Proof.
  induction g as [|g IH]; go_start p;
    cbn [Parser.parse_unary_expression]; [go|].
  pose proof (parse_postfix_expression_settles g) as Hpostfix.
  go.
Qed.

Lemma parse_power_expression_settles (g : nat) :
  forall p, inside p ->
    settles (g + Parser.pos p < List.length (Parser.tokens p) + 3
           \/ fe + Parser.pos p + 1 < List.length (Parser.tokens p) + 4)%nat
      true p (Parser.parse_power_expression pe g p).
Proof.
  induction g as [|g IH]; go_start p;
    cbn [Parser.parse_power_expression]; [go|].
  pose proof (parse_unary_expression_settles g) as Hunary.
  go.
Qed.

Lemma binary_loop_settles (g g0 : nat) (ops : list TokenType)
    (operand : Parser.M Expression) :
  level_operators ops = true ->
  (forall p, inside p ->
     settles (g0 + Parser.pos p < List.length (Parser.tokens p) + 3
            \/ fe + Parser.pos p + 1 < List.length (Parser.tokens p) + 4)%nat
       true p (operand p)) ->
  forall lhs p, inside p ->
    settles (g + Parser.pos p < List.length (Parser.tokens p) + 3
           \/ g0 + Parser.pos p < List.length (Parser.tokens p) + 3
           \/ fe + Parser.pos p + 1 < List.length (Parser.tokens p) + 4)%nat
      false p (Parser.binary_loop g ops operand lhs p).
Proof.
  intros Hops Hoperand.
  induction g as [|g IH]; intros lhs; go_start p;
    cbn [Parser.binary_loop]; [go|].
  unfold Parser.if_match at 1.
  destruct (existsb _ ops) eqn:Eex; [|go].
  apply existsb_exists in Eex. destruct Eex as (o & Hin & Ho).
  apply TokenType_eqb_eq in Ho.
  unfold level_operators in Hops. rewrite forallb_forall in Hops.
  specialize (Hops o Hin). apply andb_prop in Hops. destruct Hops as [Ha He].
  apply negb_true_iff in Ha, He.
  assert (Hne : o <> EOF).
  { intros ->. unfold TokenType_eqb in He.
    rewrite bool_decide_eq_false in He. apply He. reflexivity. }
  rewrite bind_current. cbv beta.
  eapply (settles_bind _ _ p p);
    [eassumption|apply (advance_settles False o p Hwf Ho Hne)|cursor_lia|].
  intros a p' ? ? ? ?. cbv beta. go.
Qed.

Lemma level_settles (g : nat) (ops : list TokenType)
    (operand : Parser.M Expression) :
  level_operators ops = true ->
  (forall p, inside p ->
     settles (g + Parser.pos p < List.length (Parser.tokens p) + 3
            \/ fe + Parser.pos p + 1 < List.length (Parser.tokens p) + 4)%nat
       true p (operand p)) ->
  forall p, inside p ->
    settles (g + Parser.pos p < List.length (Parser.tokens p) + 3
           \/ fe + Parser.pos p + 1 < List.length (Parser.tokens p) + 4)%nat
      true p
      (Parser.bind operand
         (fun lhs => Parser.binary_loop g ops operand lhs) p).
Proof.
  intros Hops Hoperand.
  pose proof (binary_loop_settles g g ops operand Hops Hoperand) as Hloop.
  go_start p. go.
Qed.

Lemma parse_or_expression_settles (g : nat) :
  forall p, inside p ->
    settles (g + Parser.pos p < List.length (Parser.tokens p) + 3
           \/ fe + Parser.pos p + 1 < List.length (Parser.tokens p) + 4)%nat
      true p (Parser.parse_or_expression pe g p).
Proof.
  unfold Parser.parse_or_expression, Parser.parse_and_expression,
    Parser.parse_equality_expression, Parser.parse_comparison_expression,
    Parser.parse_additive_expression,
    Parser.parse_multiplicative_expression.
  repeat (apply level_settles; [reflexivity|]).
  apply parse_power_expression_settles.
Qed.

End ExpressionSettles.

Lemma parse_expression_settles (f : nat) :
  forall p, inside p ->
    settles (f + Parser.pos p < List.length (Parser.tokens p) + 4)%nat true p
      (Parser.parse_expression f p).
Proof.
  induction f as [|f IH]; go_start p; cbn [Parser.parse_expression];
    [go|].
  pose proof (parse_or_expression_settles (Parser.parse_expression f) f IH f)
    as Hor.
  go_tail.
Qed.

(** *** Statements *)

Section StatementSettles.

Variable ps : Parser.M (option Statement).
Variable fs : nat.

Hypothesis Hss : forall p, inside p ->
  settles (fs + Parser.pos p < List.length (Parser.tokens p) + 5)%nat true p
    (ps p).

Lemma parse_block_loop_settles (g : nat) :
  forall statements p, inside p ->
    settles (g + Parser.pos p < List.length (Parser.tokens p) + 1
           \/ fs + Parser.pos p < List.length (Parser.tokens p) + 5)%nat
      false p (Parser.parse_block_loop ps g statements p).
Proof.
  induction g as [|g IH]; intros statements; go_start p;
    cbn [Parser.parse_block_loop]; go.
Qed.

Lemma parse_block_settles (g : nat) :
  forall p, inside p ->
    settles (g + Parser.pos p < List.length (Parser.tokens p) + 1
           \/ fs + Parser.pos p < List.length (Parser.tokens p) + 5)%nat
      false p (Parser.parse_block ps g p).
Proof.
  pose proof (parse_block_loop_settles g []) as Hloop.
  go_start p. unfold Parser.parse_block. go.
Qed.

Lemma parse_params_settles (g : nat) :
  forall params p, inside p ->
    settles (g + Parser.pos p < List.length (Parser.tokens p) + 1)%nat
      false p (Parser.parse_params g params p).
Proof.
  induction g as [|g IH]; intros params; go_start p;
    cbn [Parser.parse_params]; go.
Qed.

Lemma parse_function_def_settles (g : nat) :
  forall p, inside p ->
    settles (g + Parser.pos p < List.length (Parser.tokens p) + 4
           \/ fs + Parser.pos p + 1 < List.length (Parser.tokens p) + 5)%nat
      true p (Parser.parse_function_def ps g p).
Proof.
  pose proof (parse_params_settles g []) as Hparams.
  pose proof (parse_block_settles g) as Hblock.
  go_start p. unfold Parser.parse_function_def. go.
Qed.

Lemma parse_class_body_settles (g : nat) :
  forall body p, inside p ->
    settles (g + Parser.pos p < List.length (Parser.tokens p) + 5
             \/ fs + Parser.pos p + 1 < List.length (Parser.tokens p) + 5)%nat
      false p (Parser.parse_class_body ps g body p).
Proof.
  induction g as [|g IH]; intros body; go_start p;
    cbn [Parser.parse_class_body]; [go|].
  pose proof (parse_function_def_settles g) as Hdef.
  unfold Parser.if_match at 1.
  destruct (existsb _ [DEDENT; EOF]) eqn:Eend; [go|].
  assert (Hne : type (Parser.current_token p) <> EOF).
  { intros K. rewrite K in Eend. discriminate Eend. }
  clear Eend. go.
Qed.

Lemma parse_class_def_settles (g : nat) :
  forall p, inside p ->
    settles (g + Parser.pos p < List.length (Parser.tokens p) + 4
             \/ fs + Parser.pos p + 1 < List.length (Parser.tokens p) + 5)%nat
      true p (Parser.parse_class_def ps g p).
Proof.
  pose proof (parse_class_body_settles g []) as Hbody.
  go_start p. unfold Parser.parse_class_def. go.
Qed.

Lemma parse_elif_chain_settles (g : nat) :
  forall p, inside p ->
    settles (g + Parser.pos p < List.length (Parser.tokens p) + 4
           \/ fs + Parser.pos p + 1 < List.length (Parser.tokens p) + 5)%nat
      true p (Parser.parse_elif_chain ps g p).
Proof.
  induction g as [|g IH]; go_start p;
    cbn [Parser.parse_elif_chain]; [go|].
  pose proof (parse_expression_settles g) as Hexpr.
  pose proof (parse_block_settles g) as Hblock.
  go.
Qed.

Lemma parse_if_statement_settles (g : nat) :
  forall p, inside p ->
    settles (g + Parser.pos p < List.length (Parser.tokens p) + 4
           \/ fs + Parser.pos p + 1 < List.length (Parser.tokens p) + 5)%nat
      true p (Parser.parse_if_statement ps g p).
Proof.
  pose proof (parse_expression_settles g) as Hexpr.
  pose proof (parse_block_settles g) as Hblock.
  pose proof (parse_elif_chain_settles g) as Helif.
  go_start p. unfold Parser.parse_if_statement. go.
Qed.

Lemma parse_for_statement_settles (g : nat) :
  forall p, inside p ->
    settles (g + Parser.pos p < List.length (Parser.tokens p) + 4
           \/ fs + Parser.pos p + 1 < List.length (Parser.tokens p) + 5)%nat
      true p (Parser.parse_for_statement ps g p).
Proof.
  pose proof (parse_expression_settles g) as Hexpr.
  pose proof (parse_block_settles g) as Hblock.
  go_start p. unfold Parser.parse_for_statement. go.
Qed.

Lemma parse_while_statement_settles (g : nat) :
  forall p, inside p ->
    settles (g + Parser.pos p < List.length (Parser.tokens p) + 4
           \/ fs + Parser.pos p + 1 < List.length (Parser.tokens p) + 5)%nat
      true p (Parser.parse_while_statement ps g p).
Proof.
  pose proof (parse_expression_settles g) as Hexpr.
  pose proof (parse_block_settles g) as Hblock.
  go_start p. unfold Parser.parse_while_statement. go.
Qed.

Lemma parse_return_statement_settles (g : nat) :
  forall p, inside p ->
    settles (g + Parser.pos p < List.length (Parser.tokens p) + 4)%nat
      true p (Parser.parse_return_statement g p).
Proof.
  pose proof (parse_expression_settles g) as Hexpr.
  go_start p. unfold Parser.parse_return_statement. go.
Qed.

Lemma parse_assignment_settles (g : nat) :
  forall p, inside p ->
    settles (g + Parser.pos p < List.length (Parser.tokens p) + 4)%nat
      true p (Parser.parse_assignment g p).
Proof.
  pose proof (parse_expression_settles g) as Hexpr.
  go_start p. unfold Parser.parse_assignment. go.
Qed.

Lemma parse_statement_body_settles (g : nat) :
  forall p, inside p ->
    settles (g + Parser.pos p < List.length (Parser.tokens p) + 4
           \/ fs + Parser.pos p + 1 < List.length (Parser.tokens p) + 5)%nat
      true p (Parser.parse_statement_body ps g p).
Proof.
  pose proof (parse_expression_settles g) as Hexpr.
  pose proof (parse_function_def_settles g) as Hdef.
  pose proof (parse_class_def_settles g) as Hclass.
  pose proof (parse_if_statement_settles g) as Hif.
  pose proof (parse_for_statement_settles g) as Hfor.
  pose proof (parse_while_statement_settles g) as Hwhile.
  pose proof (parse_return_statement_settles g) as Hreturn.
  pose proof (parse_assignment_settles g) as Hassign.
  go_start p. unfold Parser.parse_statement_body. go.
Qed.

End StatementSettles.

Lemma parse_statement_settles (f : nat) :
  forall p, inside p ->
    settles (f + Parser.pos p < List.length (Parser.tokens p) + 5)%nat true p
      (Parser.parse_statement f p).
Proof.
  induction f as [|f IH]; go_start p; cbn [Parser.parse_statement];
    [go|].
  pose proof (parse_statement_body_settles (Parser.parse_statement f) f IH f)
    as Hbody.
  go_tail.
Qed.

Lemma parse_loop_settles (g : nat) :
  forall statements p, inside p ->
    settles (g + Parser.pos p < List.length (Parser.tokens p) + 6)%nat false p
      (Parser.parse_loop g statements p).
Proof.
  induction g as [|g IH]; intros statements; go_start p;
    cbn [Parser.parse_loop]; [go|].
  pose proof (parse_statement_settles g) as Hstmt.
  go.
Qed.

Lemma parse_program_settles (g : nat) :
  forall p, inside p ->
    settles (g + Parser.pos p < List.length (Parser.tokens p) + 6)%nat false p
      (Parser.parse_program g p).
Proof.
  pose proof (parse_loop_settles g []) as Hloop.
  go_start p. unfold Parser.parse_program. go.
Qed.
End ParserSettles.
(** [parse] does not run out of fuel. *)
Lemma parse_settles :
  forall fuel toks,
    ends_in_eof toks ->
    (List.length toks + 6 <= fuel)%nat ->
    Parser.parse fuel toks <> Parser.NoResult.
Proof.
  intros fuel toks Hend Hfuel.
  set (p0 := {| Parser.tokens := toks; Parser.pos := 0 |}).
  assert (Hin : inside p0).
  { split; [exact Hend|]. cbn.
    destruct Hend as (body & eof & -> & _). rewrite length_app. cbn. lia. }
  pose proof (parse_program_settles fuel p0 Hin) as Hrun.
  unfold Parser.parse, Parser.run. fold p0.
  destruct (Parser.parse_program fuel p0) as [prog p'|e|];
    [discriminate..|].
  cbn in Hrun. lia.
Qed.

(** X22. The parser comes to an end on every stream that ends in its
    only EOF token, class bodies and lexemes that do not convert
    included: with six units of fuel more than there are tokens it
    returns a program or raises, and does not run out of fuel. *)
Theorem parse_comes_to_an_end :
  forall fuel toks,
    ends_in_eof toks ->
    (List.length toks + 6 <= fuel)%nat ->
    Parser.parse fuel toks <> Parser.NoResult.
Proof.
  intros fuel toks Hend Hfuel.
  exact (parse_settles fuel toks Hend Hfuel).
Qed.

(** The tokens of a class whose body holds an augmented assignment. *)
Lemma parse_comes_to_an_end_witness :
  ends_in_eof (default [] (Lexer.tokenize 100 src_class_aug))
  /\ (List.length (default [] (Lexer.tokenize 100 src_class_aug)) + 6
      <= 100)%nat
  /\ Parser.parse 100 (default [] (Lexer.tokenize 100 src_class_aug))
     <> Parser.NoResult.
Proof.
  assert (Hlex : Lexer.tokenize 100 src_class_aug
                 = Some (default [] (Lexer.tokenize 100 src_class_aug)))
    by (vm_compute; reflexivity).
  assert (Hend : ends_in_eof (default [] (Lexer.tokenize 100 src_class_aug)))
    by exact (proj1 (tokenize_returns_balanced 100 src_class_aug _ Hlex)).
  assert (Hfuel : (List.length (default [] (Lexer.tokenize 100 src_class_aug))
                   + 6 <= 100)%nat) by (vm_compute; lia).
  split; [exact Hend|]. split; [exact Hfuel|].
  exact (parse_comes_to_an_end 100 _ Hend Hfuel).
Defined.

Section CompileReturns.

Variable float_str : string -> string.
Variable float_truth : string -> bool.

(** X23. [compile] comes back on every text with no ['!']: with fuel
    for two tokens a character and seven more it returns the JavaScript
    text or raises a [CompilerError], on any compiler instance. *)
Theorem compile_comes_back :
  forall c source fuel,
    str_contains "!" source = false ->
    (2 * String.length source + 7 <= fuel)%nat ->
    snd (Compiler.compile float_str float_truth fuel c source)
    <> Compiler.NoReturn.
Proof.
  intros c source fuel Hno Hfuel.
  destruct (tokenize_no_bang_returns source fuel Hno) as [toks Hlex];
    [lia|].
  destruct (tokenize_returns_balanced fuel source toks Hlex) as [Hend _].
  pose proof (tokenize_length_le fuel source toks Hno Hlex) as Hlen.
  assert (Hparse : Parser.parse fuel toks <> Parser.NoResult)
    by (apply parse_settles; [exact Hend|lia]).
  unfold Compiler.compile, Compiler.compile_try. rewrite Hlex.
  destruct (Parser.parse fuel toks) as [ast|[msg|msg]|];
    [|discriminate..|contradiction].
  destruct (SemanticAnalyzer.analyze ast (Compiler.semantic_analyzer c))
    as [analyzer [|e errors]]; [|discriminate].
  destruct (CodeGenerator.generate float_str float_truth ast _)
    as [generator javascript_code].
  discriminate.
Qed.

End CompileReturns.

(** The text of a definition with an indented body. *)
Lemma compile_comes_back_witness :
  str_contains "!" src_def = false
  /\ (2 * String.length src_def + 7 <= 60)%nat
  /\ snd (Compiler.compile lexeme_str lexeme_truth 60 Compiler.init src_def)
     <> Compiler.NoReturn.
Proof.
  assert (Hno : str_contains "!" src_def = false) by reflexivity.
  assert (Hfuel : (2 * String.length src_def + 7 <= 60)%nat)
    by (vm_compute; lia).
  split; [exact Hno|]. split; [exact Hfuel|].
  exact (compile_comes_back lexeme_str lexeme_truth Compiler.init src_def 60
           Hno Hfuel).
Defined.

(** ** The compiler instance *)

Section Instance.

Variable float_str : string -> string.
Variable float_truth : string -> bool.

(** Every outcome of the phases leaves the instance in balance. *)
Lemma compile_try_keeps_instance (fuel : nat) (c : Compiler.t)
    (source : string) :
  instance_ok c ->
  instance_ok (fst (Compiler.compile float_str float_truth fuel c source)).
Proof.
  intros Hc.
  assert (Hfst : fst (Compiler.compile float_str float_truth fuel c source)
                 = fst (Compiler.compile_try float_str float_truth fuel c
                          source)).
  { unfold Compiler.compile.
    destruct (Compiler.compile_try float_str float_truth fuel c source)
      as [c' [[[msg|msg|msg]|code]|]]; reflexivity. }
  rewrite Hfst. unfold Compiler.compile_try.
  destruct (Lexer.tokenize fuel source) as [tokens|]; [|exact Hc].
  destruct (Parser.parse fuel tokens) as [ast|[msg|msg]|]; try exact Hc.
  destruct Hc as (Hok & Hz & Hf & Hl).
  destruct (analyze_keeps ast (Compiler.semantic_analyzer c) Hok)
    as (Hok1 & Hz1 & Hf1).
  destruct (SemanticAnalyzer.analyze ast (Compiler.semantic_analyzer c))
    as [analyzer [|e errors]]; cbn [fst] in *.
  - pose proof (generate_level float_str float_truth ast
                  (Compiler.code_generator c)) as Hl1.
    cbn [Compiler.code_generator] in *.
    destruct (CodeGenerator.generate float_str float_truth ast
                (Compiler.code_generator c)) as [generator code].
    cbn [fst] in *.
    repeat split; cbn; congruence.
  - repeat split; cbn; congruence.
Qed.

(** X24. A call of [compile] that returns the JavaScript text, or that
    raises a syntax error or the diagnostics of the analyzer, leaves the
    instance in balance: the analyzer is back at the global scope and in
    no function and the generator is back at indent level 0, as they are
    in a new instance. The other compilation errors are not among these
    outcomes: an exception of the interpreter can strike inside a
    scope. *)
Theorem compile_keeps_instance :
  forall fuel c source,
    instance_ok c ->
    (exists code,
       snd (Compiler.compile float_str float_truth fuel c source)
       = Compiler.Return code)
    \/ (exists msg,
          snd (Compiler.compile float_str float_truth fuel c source)
          = Compiler.CompilerError (Compiler.syntax_error_prefix +:+ msg))
    \/ (exists msg,
          snd (Compiler.compile float_str float_truth fuel c source)
          = Compiler.CompilerError
              (Compiler.compile_error_prefix
               +:+ Compiler.semantic_errors_header +:+ msg)) ->
    instance_ok (fst (Compiler.compile float_str float_truth fuel c source)).
Proof.
  intros fuel c source Hc _. apply compile_try_keeps_instance. exact Hc.
Qed.

(** X25. An instance cannot compile a function definition twice. When
    two texts parse to programs that define a function of the same name
    at the top level, and [compile] returned on the first or raised the
    diagnostics of the analyzer, [compile] on the second text with the
    same instance raises a [CompilerError]; and when that error is the
    one of the analyzer, its diagnostics hold
    [Function 'f' already declared in current scope]. *)
Theorem compile_again_fails :
  forall fuel c source source' tokens tokens' ast ast'
         name params body params' body',
    instance_ok c ->
    Lexer.tokenize fuel source = Some tokens ->
    Parser.parse fuel tokens = Parser.Returns ast ->
    (exists code,
       snd (Compiler.compile float_str float_truth fuel c source)
       = Compiler.Return code)
    \/ (exists msg,
          snd (Compiler.compile float_str float_truth fuel c source)
          = Compiler.CompilerError
              (Compiler.compile_error_prefix
               +:+ Compiler.semantic_errors_header +:+ msg)) ->
    Lexer.tokenize fuel source' = Some tokens' ->
    Parser.parse fuel tokens' = Parser.Returns ast' ->
    In (FunctionDef name params body) (statements ast) ->
    In (FunctionDef name params' body') (statements ast') ->
    (exists msg,
       snd (Compiler.compile float_str float_truth fuel
              (fst (Compiler.compile float_str float_truth fuel c source))
              source')
       = Compiler.CompilerError msg)
    /\ (forall msg,
          snd (Compiler.compile float_str float_truth fuel
                 (fst (Compiler.compile float_str float_truth fuel c source))
                 source')
          = Compiler.CompilerError
              (Compiler.compile_error_prefix
               +:+ Compiler.semantic_errors_header +:+ msg) ->
          exists errors,
            msg = join (str1 nl) errors
            /\ In (function_message name) errors).
Proof.
  intros fuel c source source' tokens tokens' ast ast' name params body
    params' body' (Hok & Hz & _) Hlex Hparse _ Hlex' Hparse' Hin Hin'.
  pose proof (analyze_again_reports ast ast' (Compiler.semantic_analyzer c)
                name params body params' body' Hok Hz Hin Hin') as Hrep.
  assert (Hfirst : Compiler.semantic_analyzer
                     (fst (Compiler.compile float_str float_truth fuel c
                             source))
                   = fst (SemanticAnalyzer.analyze ast
                            (Compiler.semantic_analyzer c))).
  { unfold Compiler.compile, Compiler.compile_try. rewrite Hlex, Hparse.
    destruct (SemanticAnalyzer.analyze ast (Compiler.semantic_analyzer c))
      as [analyzer [|e errors]]; [|reflexivity].
    cbn [Compiler.code_generator].
    destruct (CodeGenerator.generate float_str float_truth ast
                (Compiler.code_generator c)) as [generator code].
    reflexivity. }
  set (c1 := fst (Compiler.compile float_str float_truth fuel c source)) in *.
  rewrite <- Hfirst in Hrep.
  assert (Hsecond :
    snd (Compiler.compile float_str float_truth fuel c1 source')
    = Compiler.CompilerError
        (Compiler.compile_error_prefix
         +:+ Compiler.semantic_errors_header
         +:+ join (str1 nl)
               (snd (SemanticAnalyzer.analyze ast'
                       (Compiler.semantic_analyzer c1))))).
  { unfold Compiler.compile, Compiler.compile_try. rewrite Hlex', Hparse'.
    destruct (SemanticAnalyzer.analyze ast' (Compiler.semantic_analyzer c1))
      as [analyzer [|e errors]]; [destruct Hrep|].
    reflexivity. }
  split.
  - eexists. exact Hsecond.
  - intros msg Hmsg. rewrite Hsecond in Hmsg. injection Hmsg as Hmsg.
    eexists. split; [symmetry; exact Hmsg|exact Hrep].
Qed.

End Instance.

(** A new instance, and the text of a definition that compiles. *)
Lemma compile_keeps_instance_witness :
  instance_ok Compiler.init
  /\ ((exists code,
         snd (Compiler.compile lexeme_str lexeme_truth 100 Compiler.init
                src_def)
         = Compiler.Return code)
      \/ (exists msg,
            snd (Compiler.compile lexeme_str lexeme_truth 100 Compiler.init
                   src_def)
            = Compiler.CompilerError (Compiler.syntax_error_prefix +:+ msg))
      \/ (exists msg,
            snd (Compiler.compile lexeme_str lexeme_truth 100 Compiler.init
                   src_def)
            = Compiler.CompilerError
                (Compiler.compile_error_prefix
                 +:+ Compiler.semantic_errors_header +:+ msg)))
  /\ instance_ok
       (fst (Compiler.compile lexeme_str lexeme_truth 100 Compiler.init
               src_def)).
Proof.
  assert (Hinit : instance_ok Compiler.init)
    by (repeat split; reflexivity).
  assert (Hout :
    (exists code,
       snd (Compiler.compile lexeme_str lexeme_truth 100 Compiler.init
              src_def)
       = Compiler.Return code)
    \/ (exists msg,
          snd (Compiler.compile lexeme_str lexeme_truth 100 Compiler.init
                 src_def)
          = Compiler.CompilerError (Compiler.syntax_error_prefix +:+ msg))
    \/ (exists msg,
          snd (Compiler.compile lexeme_str lexeme_truth 100 Compiler.init
                 src_def)
          = Compiler.CompilerError
              (Compiler.compile_error_prefix
               +:+ Compiler.semantic_errors_header +:+ msg)))
    by (left; eexists; vm_compute; reflexivity).
  split; [exact Hinit|]. split; [exact Hout|].
  exact (compile_keeps_instance lexeme_str lexeme_truth 100 Compiler.init
           src_def Hinit Hout).
Defined.

(** The text of a definition with an indented body, twice on a new
    instance. *)
Lemma compile_again_fails_witness :
  instance_ok Compiler.init
  /\ Lexer.tokenize 100 src_def = Some (default [] (Lexer.tokenize 100 src_def))
  /\ Parser.parse 100 (default [] (Lexer.tokenize 100 src_def))
     = Parser.Returns
         (mkProgram [FunctionDef "f" [] [ReturnStatement (Some (num 1))]])
  /\ (exists code,
        snd (Compiler.compile lexeme_str lexeme_truth 100 Compiler.init
               src_def)
        = Compiler.Return code)
  /\ exists msg,
       snd (Compiler.compile lexeme_str lexeme_truth 100
              (fst (Compiler.compile lexeme_str lexeme_truth 100
                      Compiler.init src_def))
              src_def)
       = Compiler.CompilerError msg.
Proof.
  assert (Hinit : instance_ok Compiler.init)
    by (repeat split; reflexivity).
  assert (Hlex : Lexer.tokenize 100 src_def
                 = Some (default [] (Lexer.tokenize 100 src_def)))
    by (vm_compute; reflexivity).
  assert (Hparse : Parser.parse 100 (default [] (Lexer.tokenize 100 src_def))
                   = Parser.Returns
                       (mkProgram
                          [FunctionDef "f" []
                             [ReturnStatement (Some (num 1))]]))
    by (vm_compute; reflexivity).
  assert (Hout : exists code,
            snd (Compiler.compile lexeme_str lexeme_truth 100 Compiler.init
                   src_def)
            = Compiler.Return code)
    by (eexists; vm_compute; reflexivity).
  assert (Hin : In (FunctionDef "f" [] [ReturnStatement (Some (num 1))])
                  (statements
                     (mkProgram
                        [FunctionDef "f" []
                           [ReturnStatement (Some (num 1))]])))
    by (simpl; tauto).
  split; [exact Hinit|]. split; [exact Hlex|]. split; [exact Hparse|].
  split; [exact Hout|].
  exact (proj1 (compile_again_fails lexeme_str lexeme_truth 100 Compiler.init
                  src_def src_def _ _ _ _ "f" [] _ [] _
                  Hinit Hlex Hparse (or_introl Hout) Hlex Hparse Hin Hin)).
Defined.

(** ** A text of empty lines *)

Section EmptyLines.

Lemma dedent_all_base (s : Lexer.t) (tokens : list Token) :
  Lexer.indent_stack s = [0%nat] -> Lexer.dedent_all s tokens = (s, tokens).
Proof.
  intros H. unfold Lexer.dedent_all. rewrite H. cbn [List.length while fst].
  rewrite H. reflexivity.
Qed.

Lemma tokenize_loop_newlines (n : nat) :
  forall fuel s tokens,
    Lexer.text s = str_repeat (str1 nl) n ->
    Lexer.indent_stack s = [0%nat] ->
    Lexer.column s = 1%nat ->
    (n < fuel)%nat ->
    exists s' new,
      Lexer.tokenize_loop fuel s true tokens = Some (s', tokens ++ new)
      /\ Forall (fun t => type t = NEWLINE) new
      /\ List.length new = n
      /\ Lexer.indent_stack s' = [0%nat]
      /\ Lexer.line s' = (Lexer.line s + n)%nat
      /\ Lexer.column s' = 1%nat.
Proof.
  induction n as [|n IH]; intros fuel s tokens Ht Hs Hc Hfuel;
    (destruct fuel as [|fuel]; [lia|]); cbn [Lexer.tokenize_loop].
  - unfold Lexer.current_char. rewrite Ht. cbn.
    exists s, []. rewrite app_nil_r.
    repeat split; [constructor|exact Hs|lia|exact Hc].
  - change (str_repeat (str1 nl) (S n))
      with (String nl (str_repeat (str1 nl) n)) in Ht.
    assert (Hcur : Lexer.current_char s = Some nl)
      by (unfold Lexer.current_char; rewrite Ht; reflexivity).
    rewrite Hcur. unfold Lexer.tokenize_body.
    change (in_space_tab nl) with false. cbv iota.
    change (Ascii.eqb nl nl) with true. cbv iota.
    rewrite (dedent_all_base s tokens Hs).
    assert (Hadv : Lexer.line (Lexer.advance s) = S (Lexer.line s)
                   /\ Lexer.column (Lexer.advance s) = 1%nat).
    { unfold Lexer.advance. rewrite Ht.
      change (Ascii.eqb nl nl) with true. split; reflexivity. }
    destruct Hadv as [Hline Hcol].
    destruct (IH fuel (Lexer.advance s)
                (tokens ++ [Lexer.newline_token s nl]))
      as (s' & new & Hloop & Hall & Hlen & Hs' & Hl' & Hc');
      [apply (advance_text s nl _ Ht)|rewrite advance_stack; exact Hs
      |exact Hcol|lia|].
    exists s', (Lexer.newline_token s nl :: new).
    split; [rewrite Hloop, <- app_assoc; reflexivity|].
    split; [constructor; [reflexivity|exact Hall]|].
    split; [cbn; lia|]. split; [exact Hs'|]. split; [lia|exact Hc'].
Qed.

Lemma skip_newlines_run (new : list Token) (eof : Token) (k : nat) :
  Forall (fun t => type t = NEWLINE) new ->
  type eof = EOF ->
  forall i g,
    (i + k = List.length new)%nat -> (k < g)%nat ->
    Parser.skip_newlines g
      {| Parser.tokens := new ++ [eof]; Parser.pos := i |}
    = Parser.Ret tt
        {| Parser.tokens := new ++ [eof]; Parser.pos := List.length new |}.
Proof.
  intros Hall Heof.
  induction k as [|k IH]; intros i g Hi Hg;
    (destruct g as [|g]; [lia|]); cbn [Parser.skip_newlines];
    rewrite bind_match; cbv beta.
  - assert (Hcur : Parser.current_token
                     {| Parser.tokens := new ++ [eof]; Parser.pos := i |}
                   = eof).
    { unfold Parser.current_token. cbn [Parser.pos Parser.tokens].
      replace i with (List.length new + 0)%nat by lia.
      rewrite app_nth2_plus. reflexivity. }
    rewrite Hcur, Heof. change (TokenType_eqb EOF NEWLINE) with false.
    cbv iota. unfold Parser.ret. f_equal. f_equal. lia.
  - assert (Hlt : (i < List.length new)%nat) by lia.
    assert (Hcur : type (Parser.current_token
                           {| Parser.tokens := new ++ [eof];
                              Parser.pos := i |}) = NEWLINE).
    { unfold Parser.current_token. cbn [Parser.pos Parser.tokens].
      rewrite app_nth1 by exact Hlt.
      rewrite Forall_forall in Hall. apply Hall.
      apply list_elem_of_In. apply nth_In. exact Hlt. }
    rewrite Hcur. change (TokenType_eqb NEWLINE NEWLINE) with true.
    cbv iota. unfold Parser.bind at 1, Parser.advance.
    cbn [Parser.pos Parser.tokens].
    replace (i <? List.length (new ++ [eof]) - 1)%nat with true
      by (symmetry; apply Nat.ltb_lt; rewrite length_app; cbn; lia).
    apply IH; lia.
Qed.

Lemma parse_newlines (new : list Token) (eof : Token) (fuel : nat) :
  Forall (fun t => type t = NEWLINE) new ->
  type eof = EOF ->
  (List.length new < fuel)%nat ->
  Parser.parse fuel (new ++ [eof]) = Parser.Returns (mkProgram []).
Proof.
  intros Hall Heof Hfuel.
  unfold Parser.parse, Parser.run, Parser.parse_program.
  unfold Parser.bind at 1.
  rewrite (skip_newlines_run new eof (List.length new) Hall Heof 0 fuel)
    by lia.
  destruct fuel as [|fuel]; [lia|].
  unfold Parser.bind. cbn [Parser.parse_loop]. unfold Parser.if_match.
  assert (Hcur : Parser.current_token
                   {| Parser.tokens := new ++ [eof];
                      Parser.pos := List.length new |} = eof).
  { unfold Parser.current_token. cbn [Parser.pos Parser.tokens].
    replace (List.length new) with (List.length new + 0)%nat at 1 by lia.
    rewrite app_nth2_plus. reflexivity. }
  rewrite Hcur, Heof. reflexivity.
Qed.

End EmptyLines.

Section EmptyText.

Variable float_str : string -> string.
Variable float_truth : string -> bool.

(** X26. The empty text and a text of empty lines compile to the empty
    text, on every compiler instance, whatever it has compiled before:
    the tokens are one NEWLINE for each line and the EOF, the program has
    no statement, and no diagnostic is left from an earlier call. *)
Theorem compile_empty_lines :
  forall n fuel c,
    (n < fuel)%nat ->
    (exists new,
       Lexer.tokenize fuel (str_repeat (str1 nl) n)
       = Some (new ++ [mkToken EOF "" (n + 1) 1])
       /\ Forall (fun t => type t = NEWLINE) new
       /\ List.length new = n)
    /\ snd (Compiler.compile float_str float_truth fuel c
              (str_repeat (str1 nl) n))
       = Compiler.Return "".
Proof.
  intros n fuel c Hfuel.
  destruct (tokenize_loop_newlines n fuel
              (Lexer.init (str_repeat (str1 nl) n)) [] eq_refl eq_refl eq_refl
              Hfuel)
    as (s' & new & Hloop & Hall & Hlen & Hs' & Hl & Hc).
  cbn [app] in Hloop. cbn [Lexer.init Lexer.line] in Hl.
  assert (Hlex : Lexer.tokenize fuel (str_repeat (str1 nl) n)
                 = Some (new ++ [mkToken EOF "" (n + 1) 1])).
  { unfold Lexer.tokenize. rewrite Hloop, (dedent_all_base s' new Hs').
    rewrite Hl, Hc. replace (1 + n)%nat with (n + 1)%nat by lia.
    reflexivity. }
  split; [exists new; repeat split; assumption|].
  unfold Compiler.compile, Compiler.compile_try. rewrite Hlex.
  rewrite (parse_newlines new (mkToken EOF "" (n + 1) 1) fuel Hall eq_refl)
    by lia.
  unfold SemanticAnalyzer.analyze, SemanticAnalyzer.visit_program.
  cbn [statements fold_left]. rewrite declare_builtins_errors.
  reflexivity.
Qed.

End EmptyText.

(** Two empty lines on a new instance. *)
Lemma compile_empty_lines_witness :
  (2 < 5)%nat
  /\ snd (Compiler.compile lexeme_str lexeme_truth 5 Compiler.init
            (str_repeat (str1 nl) 2))
     = Compiler.Return "".
Proof.
  assert (Hfuel : (2 < 5)%nat) by lia.
  split; [exact Hfuel|].
  destruct (compile_empty_lines lexeme_str lexeme_truth 2 5 Compiler.init
              Hfuel) as [_ H].
  exact H.
Defined.
